(** * The graphics manager of kitty (kitty/graphics.c)

    A shallow embedding of the graphics manager: image transmission and
    storage accounting, placements, scrolling, deletion, the render set, and
    the responses sent back to the client.

    Conventions of the embedding.
    - C integers are [Z] with the wrap-around written out ([u32], [u64],
      [i32], [i64]); [size_t] and [id_type] are 64 bits wide.
    - An [Image*] into [self->images] is the index of the image in the list;
      a [refcnt]/[image_count]/[count] is the length of the list it counts.
    - Pixel bytes are never inspected by graphics.c itself, so a buffer is
      modelled by its presence, capacity and fill level, and a payload by
      [payload_sz].
    - The collaborators (clock, allocator, file system, zlib, the PNG reader,
      the GPU) answer through an [Env] record.
    - The float geometry of a placement (its [src_rect], the vertices of a
      render entry) is not modelled; visibility is a parameter of
      [grman_update_layers]. *)

From Stdlib Require Import ZArith String Ascii Lia Sorted.
From stdpp Require Import base list.

Open Scope Z_scope.

Notation "x |> f" := (f x) (at level 68, left associativity, only parsing).

(** ** Machine integers *)

Definition u32 (z : Z) : Z := z mod 2^32.
Definition u64 (z : Z) : Z := z mod 2^64.
Definition i32 (z : Z) : Z := (z + 2^31) mod 2^32 - 2^31.
Definition i64 (z : Z) : Z := (z + 2^63) mod 2^64 - 2^63.

Definition MIN (a b : Z) : Z := if a <? b then a else b.

(** A C truth value. *)
Definition nz (z : Z) : bool := negb (z =? 0).
Definition nzc (c : ascii) : bool := negb (c =? "000")%char.

(** ** printf conversions *)

Definition digit_of (d : Z) : ascii := ascii_of_nat (48 + Z.to_nat d).

Fixpoint print_digits (fuel : nat) (n : Z) (acc : string) : string :=
  match fuel with
  | O => acc
  | S f =>
      let acc' := String (digit_of (n mod 10)) acc in
      if n / 10 =? 0 then acc' else print_digits f (n / 10) acc'
  end.

(** [%u] and [%zu]: twenty digits cover every 64-bit value. *)
Definition print_u (n : Z) : string := print_digits 20 n "".

(** [%d] and [%zd]. *)
Definition print_d (n : Z) : string :=
  if n <? 0 then ("-" ++ print_u (- n))%string else print_u n.

(** [%c]. *)
Definition print_c (c : ascii) : string := String c "".

Definition strlen (s : string) : Z := Z.of_nat (String.length s).

(** [snprintf(buf, n, ...)] leaves at most [n - 1] characters in [buf]. *)
Definition snprintf (n : Z) (s : string) : string :=
  substring 0 (Z.to_nat (n - 1)) s.

(** ** Data model *)

(** Modelled from the spec: graphics.h is not among the sources.  The records
    below carry the fields graphics.c reads and writes, with the widths its
    casts and the data model of the specification give them: identifiers,
    sizes and pixel quantities are [uint32_t], [z_index], [start_row] and
    [start_column] are [int32_t], [payload_sz] is a [size_t]. *)
Module Cmd.
Record t := mk {
  action : ascii; transmission_type : ascii; compressed : ascii;
  delete_action : ascii;
  format : Z; more : Z; id : Z; image_number : Z; data_sz : Z;
  data_offset : Z; placement_id : Z; quiet : Z;
  width : Z; height : Z; x_offset : Z; y_offset : Z;
  data_height : Z; data_width : Z; num_cells : Z; num_lines : Z;
  cell_x_offset : Z; cell_y_offset : Z;
  z_index : Z;
  payload_sz : Z }.

Definition zero : t :=
  mk "000" "000" "000" "000" 0 0 0 0 0 0 0 0 0 0 0 0 0 0 0 0 0 0 0 0.

Definition set_action v g :=
  mk v (transmission_type g) (compressed g) (delete_action g) (format g)
     (more g) (id g) (image_number g) (data_sz g) (data_offset g)
     (placement_id g) (quiet g) (width g) (height g) (x_offset g)
     (y_offset g) (data_height g) (data_width g) (num_cells g)
     (num_lines g) (cell_x_offset g) (cell_y_offset g) (z_index g)
     (payload_sz g).
Definition set_transmission_type v g :=
  mk (action g) v (compressed g) (delete_action g) (format g)
     (more g) (id g) (image_number g) (data_sz g) (data_offset g)
     (placement_id g) (quiet g) (width g) (height g) (x_offset g)
     (y_offset g) (data_height g) (data_width g) (num_cells g)
     (num_lines g) (cell_x_offset g) (cell_y_offset g) (z_index g)
     (payload_sz g).
Definition set_delete_action v g :=
  mk (action g) (transmission_type g) (compressed g) v (format g)
     (more g) (id g) (image_number g) (data_sz g) (data_offset g)
     (placement_id g) (quiet g) (width g) (height g) (x_offset g)
     (y_offset g) (data_height g) (data_width g) (num_cells g)
     (num_lines g) (cell_x_offset g) (cell_y_offset g) (z_index g)
     (payload_sz g).
Definition set_format v g :=
  mk (action g) (transmission_type g) (compressed g) (delete_action g) v
     (more g) (id g) (image_number g) (data_sz g) (data_offset g)
     (placement_id g) (quiet g) (width g) (height g) (x_offset g)
     (y_offset g) (data_height g) (data_width g) (num_cells g)
     (num_lines g) (cell_x_offset g) (cell_y_offset g) (z_index g)
     (payload_sz g).
Definition set_more v g :=
  mk (action g) (transmission_type g) (compressed g) (delete_action g)
     (format g) v (id g) (image_number g) (data_sz g) (data_offset g)
     (placement_id g) (quiet g) (width g) (height g) (x_offset g)
     (y_offset g) (data_height g) (data_width g) (num_cells g)
     (num_lines g) (cell_x_offset g) (cell_y_offset g) (z_index g)
     (payload_sz g).
Definition set_id v g :=
  mk (action g) (transmission_type g) (compressed g) (delete_action g)
     (format g) (more g) v (image_number g) (data_sz g) (data_offset g)
     (placement_id g) (quiet g) (width g) (height g) (x_offset g)
     (y_offset g) (data_height g) (data_width g) (num_cells g)
     (num_lines g) (cell_x_offset g) (cell_y_offset g) (z_index g)
     (payload_sz g).
Definition set_image_number v g :=
  mk (action g) (transmission_type g) (compressed g) (delete_action g)
     (format g) (more g) (id g) v (data_sz g) (data_offset g)
     (placement_id g) (quiet g) (width g) (height g) (x_offset g)
     (y_offset g) (data_height g) (data_width g) (num_cells g)
     (num_lines g) (cell_x_offset g) (cell_y_offset g) (z_index g)
     (payload_sz g).
Definition set_quiet v g :=
  mk (action g) (transmission_type g) (compressed g) (delete_action g)
     (format g) (more g) (id g) (image_number g) (data_sz g) (data_offset g)
     (placement_id g) v (width g) (height g) (x_offset g)
     (y_offset g) (data_height g) (data_width g) (num_cells g)
     (num_lines g) (cell_x_offset g) (cell_y_offset g) (z_index g)
     (payload_sz g).
Definition set_x_offset v g :=
  mk (action g) (transmission_type g) (compressed g) (delete_action g)
     (format g) (more g) (id g) (image_number g) (data_sz g) (data_offset g)
     (placement_id g) (quiet g) (width g) (height g) v
     (y_offset g) (data_height g) (data_width g) (num_cells g)
     (num_lines g) (cell_x_offset g) (cell_y_offset g) (z_index g)
     (payload_sz g).
Definition set_y_offset v g :=
  mk (action g) (transmission_type g) (compressed g) (delete_action g)
     (format g) (more g) (id g) (image_number g) (data_sz g) (data_offset g)
     (placement_id g) (quiet g) (width g) (height g) (x_offset g)
     v (data_height g) (data_width g) (num_cells g)
     (num_lines g) (cell_x_offset g) (cell_y_offset g) (z_index g)
     (payload_sz g).
Definition set_data_size w h g :=
  mk (action g) (transmission_type g) (compressed g) (delete_action g)
     (format g) (more g) (id g) (image_number g) (data_sz g) (data_offset g)
     (placement_id g) (quiet g) (width g) (height g) (x_offset g)
     (y_offset g) h w (num_cells g)
     (num_lines g) (cell_x_offset g) (cell_y_offset g) (z_index g)
     (payload_sz g).
Definition set_data_sz v g :=
  mk (action g) (transmission_type g) (compressed g) (delete_action g)
     (format g) (more g) (id g) (image_number g) v (data_offset g)
     (placement_id g) (quiet g) (width g) (height g) (x_offset g)
     (y_offset g) (data_height g) (data_width g) (num_cells g)
     (num_lines g) (cell_x_offset g) (cell_y_offset g) (z_index g)
     (payload_sz g).
Definition set_z_index v g :=
  mk (action g) (transmission_type g) (compressed g) (delete_action g)
     (format g) (more g) (id g) (image_number g) (data_sz g) (data_offset g)
     (placement_id g) (quiet g) (width g) (height g) (x_offset g)
     (y_offset g) (data_height g) (data_width g) (num_cells g)
     (num_lines g) (cell_x_offset g) (cell_y_offset g) v
     (payload_sz g).
Definition set_payload_sz v g :=
  mk (action g) (transmission_type g) (compressed g) (delete_action g)
     (format g) (more g) (id g) (image_number g) (data_sz g) (data_offset g)
     (placement_id g) (quiet g) (width g) (height g) (x_offset g)
     (y_offset g) (data_height g) (data_width g) (num_cells g)
     (num_lines g) (cell_x_offset g) (cell_y_offset g) (z_index g)
     v.
End Cmd.

(** What [load_data.data] points at. *)
Inductive DataPtr := DataNull | DataBuf | DataMapped.

Module LD.
Record t := mk {
  buf : bool;                 (* buf != NULL *)
  buf_capacity : Z; buf_used : Z;
  mapped_file : bool;         (* mapped_file != NULL *)
  mapped_file_sz : Z;
  data_sz : Z;
  data : DataPtr;
  is_4byte_aligned : bool; is_opaque : bool }.

Definition zero : t := mk false 0 0 false 0 0 DataNull false false.

Definition set_buf b c u l :=
  mk b c u (mapped_file l) (mapped_file_sz l) (data_sz l) (data l)
     (is_4byte_aligned l) (is_opaque l).
Definition set_mapped m sz l :=
  mk (buf l) (buf_capacity l) (buf_used l) m sz (data_sz l) (data l)
     (is_4byte_aligned l) (is_opaque l).
Definition set_data_sz v l :=
  mk (buf l) (buf_capacity l) (buf_used l) (mapped_file l)
     (mapped_file_sz l) v (data l) (is_4byte_aligned l) (is_opaque l).
Definition set_data v l :=
  mk (buf l) (buf_capacity l) (buf_used l) (mapped_file l)
     (mapped_file_sz l) (data_sz l) v (is_4byte_aligned l) (is_opaque l).
Definition set_flags aligned opaque l :=
  mk (buf l) (buf_capacity l) (buf_used l) (mapped_file l)
     (mapped_file_sz l) (data_sz l) (data l) aligned opaque.
End LD.

Module Ref.
Record t := mk {
  src_width : Z; src_height : Z; src_x : Z; src_y : Z;
  cell_x_offset : Z; cell_y_offset : Z; num_cols : Z; num_rows : Z;
  effective_num_rows : Z; effective_num_cols : Z;
  z_index : Z;
  start_row : Z; start_column : Z;
  client_id : Z }.

Definition zero : t := mk 0 0 0 0 0 0 0 0 0 0 0 0 0 0.

Definition set_src w h x y r :=
  mk w h x y (cell_x_offset r) (cell_y_offset r) (num_cols r) (num_rows r)
     (effective_num_rows r) (effective_num_cols r) (z_index r)
     (start_row r) (start_column r) (client_id r).
Definition set_cell_offsets cx cy r :=
  mk (src_width r) (src_height r) (src_x r) (src_y r) cx cy (num_cols r)
     (num_rows r) (effective_num_rows r) (effective_num_cols r) (z_index r)
     (start_row r) (start_column r) (client_id r).
Definition set_num nc nr r :=
  mk (src_width r) (src_height r) (src_x r) (src_y r) (cell_x_offset r)
     (cell_y_offset r) nc nr (effective_num_rows r) (effective_num_cols r)
     (z_index r) (start_row r) (start_column r) (client_id r).
Definition set_effective_num_rows v r :=
  mk (src_width r) (src_height r) (src_x r) (src_y r) (cell_x_offset r)
     (cell_y_offset r) (num_cols r) (num_rows r) v (effective_num_cols r)
     (z_index r) (start_row r) (start_column r) (client_id r).
Definition set_effective_num_cols v r :=
  mk (src_width r) (src_height r) (src_x r) (src_y r) (cell_x_offset r)
     (cell_y_offset r) (num_cols r) (num_rows r) (effective_num_rows r) v
     (z_index r) (start_row r) (start_column r) (client_id r).
Definition set_z_index v r :=
  mk (src_width r) (src_height r) (src_x r) (src_y r) (cell_x_offset r)
     (cell_y_offset r) (num_cols r) (num_rows r) (effective_num_rows r)
     (effective_num_cols r) v (start_row r) (start_column r) (client_id r).
Definition set_start_row v r :=
  mk (src_width r) (src_height r) (src_x r) (src_y r) (cell_x_offset r)
     (cell_y_offset r) (num_cols r) (num_rows r) (effective_num_rows r)
     (effective_num_cols r) (z_index r) v (start_column r) (client_id r).
Definition set_start_column v r :=
  mk (src_width r) (src_height r) (src_x r) (src_y r) (cell_x_offset r)
     (cell_y_offset r) (num_cols r) (num_rows r) (effective_num_rows r)
     (effective_num_cols r) (z_index r) (start_row r) v (client_id r).
Definition set_client_id v r :=
  mk (src_width r) (src_height r) (src_x r) (src_y r) (cell_x_offset r)
     (cell_y_offset r) (num_cols r) (num_rows r) (effective_num_rows r)
     (effective_num_cols r) (z_index r) (start_row r) (start_column r) v.
End Ref.

Module Img.
Record t := mk {
  texture_id : Z; client_id : Z; client_number : Z; width : Z; height : Z;
  internal_id : Z;
  data_loaded : bool;
  load_data : LD.t;
  refs : list Ref.t;
  atime : Z;
  used_storage : Z }.

Definition zero : t := mk 0 0 0 0 0 0 false LD.zero [] 0 0.

Definition set_texture_id v i :=
  mk v (client_id i) (client_number i) (width i) (height i)
     (internal_id i) (data_loaded i) (load_data i) (refs i) (atime i)
     (used_storage i).
Definition set_client_id v i :=
  mk (texture_id i) v (client_number i) (width i) (height i)
     (internal_id i) (data_loaded i) (load_data i) (refs i) (atime i)
     (used_storage i).
Definition set_client_number v i :=
  mk (texture_id i) (client_id i) v (width i) (height i)
     (internal_id i) (data_loaded i) (load_data i) (refs i) (atime i)
     (used_storage i).
Definition set_size w h i :=
  mk (texture_id i) (client_id i) (client_number i) w h
     (internal_id i) (data_loaded i) (load_data i) (refs i) (atime i)
     (used_storage i).
Definition set_internal_id v i :=
  mk (texture_id i) (client_id i) (client_number i) (width i) (height i)
     v (data_loaded i) (load_data i) (refs i) (atime i) (used_storage i).
Definition set_data_loaded v i :=
  mk (texture_id i) (client_id i) (client_number i) (width i) (height i)
     (internal_id i) v (load_data i) (refs i) (atime i) (used_storage i).
Definition set_load_data v i :=
  mk (texture_id i) (client_id i) (client_number i) (width i) (height i)
     (internal_id i) (data_loaded i) v (refs i) (atime i) (used_storage i).
Definition upd_load_data (f : LD.t -> LD.t) i := set_load_data (f (load_data i)) i.
Definition set_refs v i :=
  mk (texture_id i) (client_id i) (client_number i) (width i) (height i)
     (internal_id i) (data_loaded i) (load_data i) v (atime i)
     (used_storage i).
Definition set_atime v i :=
  mk (texture_id i) (client_id i) (client_number i) (width i) (height i)
     (internal_id i) (data_loaded i) (load_data i) (refs i) v
     (used_storage i).
Definition set_used_storage v i :=
  mk (texture_id i) (client_id i) (client_number i) (width i) (height i)
     (internal_id i) (data_loaded i) (load_data i) (refs i) (atime i) v.
End Img.

Module RD.
Record t := mk {
  texture_id : Z; group_count : Z;
  z_index : Z;
  image_id : Z }.

Definition zero : t := mk 0 0 0 0.

Definition set_group_count v r := mk (texture_id r) v (z_index r) (image_id r).
End RD.

Module GM.
Record t := mk {
  images : list Img.t;
  last_init_graphics_command : Cmd.t;
  loading_image : Z;
  render_data : list RD.t;
  layers_dirty : bool;
  num_of_below_refs : Z; num_of_negative_refs : Z; num_of_positive_refs : Z;
  last_scrolled_by : Z;
  used_storage : Z }.

(** [grman_alloc]: a zeroed manager with empty arrays. *)
Definition grman_alloc : t := mk [] Cmd.zero 0 [] false 0 0 0 0 0.

Definition set_images v s :=
  mk v (last_init_graphics_command s) (loading_image s) (render_data s)
     (layers_dirty s) (num_of_below_refs s) (num_of_negative_refs s)
     (num_of_positive_refs s) (last_scrolled_by s) (used_storage s).
Definition upd_images (f : list Img.t -> list Img.t) s := set_images (f (images s)) s.
Definition set_last_init_graphics_command v s :=
  mk (images s) v (loading_image s) (render_data s)
     (layers_dirty s) (num_of_below_refs s) (num_of_negative_refs s)
     (num_of_positive_refs s) (last_scrolled_by s) (used_storage s).
Definition set_loading_image v s :=
  mk (images s) (last_init_graphics_command s) v (render_data s)
     (layers_dirty s) (num_of_below_refs s) (num_of_negative_refs s)
     (num_of_positive_refs s) (last_scrolled_by s) (used_storage s).
Definition set_render_data v s :=
  mk (images s) (last_init_graphics_command s) (loading_image s) v
     (layers_dirty s) (num_of_below_refs s) (num_of_negative_refs s)
     (num_of_positive_refs s) (last_scrolled_by s) (used_storage s).
Definition set_layers_dirty v s :=
  mk (images s) (last_init_graphics_command s) (loading_image s)
     (render_data s) v (num_of_below_refs s) (num_of_negative_refs s)
     (num_of_positive_refs s) (last_scrolled_by s) (used_storage s).
Definition set_ref_counts b n p s :=
  mk (images s) (last_init_graphics_command s) (loading_image s)
     (render_data s) (layers_dirty s) b n p (last_scrolled_by s)
     (used_storage s).
Definition set_last_scrolled_by v s :=
  mk (images s) (last_init_graphics_command s) (loading_image s)
     (render_data s) (layers_dirty s) (num_of_below_refs s)
     (num_of_negative_refs s) (num_of_positive_refs s) v (used_storage s).
Definition set_used_storage v s :=
  mk (images s) (last_init_graphics_command s) (loading_image s)
     (render_data s) (layers_dirty s) (num_of_below_refs s)
     (num_of_negative_refs s) (num_of_positive_refs s)
     (last_scrolled_by s) v.

(** [self->images[i]]; the zero image stands for a slot out of range. *)
Definition image_at (s : t) (i : nat) : Img.t := default Img.zero (images s !! i).
Definition upd_image (i : nat) (f : Img.t -> Img.t) s := upd_images (alter f i) s.
End GM.

Record Cursor := { cx : Z; cy : Z }.
Record CellPixelSize := { cell_width : Z; cell_height : Z }.

Record ScrollData := {
  amt : Z; limit : Z;
  margin_top : Z; margin_bottom : Z;
  has_margins : bool }.

(** ** The collaborators and the reachable memory *)

(** What the PNG reader ([inflate_png_inner]) reports. *)
Inductive PngResult :=
| PngOk (sz width height : Z)
| PngError (code msg : string).

(** The answers of the outside world during one call into the manager:
    the two readings of [monotonic()] a command can make, the allocator,
    [open]/[shm_open], [fstat], [mmap], zlib, the PNG reader and the texture
    name the GPU hands out. *)
Record Env := {
  monotonic_add : Z; monotonic_put : Z;
  malloc_ok : bool; realloc_ok : bool;
  open_fd : Z; errno : Z; strerror : string;
  fstat_ok : bool; st_size : Z; mmap_ok : bool;
  inflateInit_ret : Z; inflate_ret : Z; inflate_avail_out : Z;
  png : PngResult;
  gpu_texture_id : Z }.

(** The memory a command can reach: the manager, the caller's cursor and
    dirty flag (both passed by pointer), and the statics of graphics.c. *)
Record World := {
  grman : GM.t;
  cursor : Cursor;
  is_dirty : bool;
  command_response : string;
  internal_id_counter : Z;
  send_to_gpu : bool }.

Definition upd_grman (f : GM.t -> GM.t) (w : World) : World :=
  {| grman := f (grman w); cursor := cursor w; is_dirty := is_dirty w;
     command_response := command_response w;
     internal_id_counter := internal_id_counter w;
     send_to_gpu := send_to_gpu w |}.
Definition set_cursor (c : Cursor) (w : World) : World :=
  {| grman := grman w; cursor := c; is_dirty := is_dirty w;
     command_response := command_response w;
     internal_id_counter := internal_id_counter w;
     send_to_gpu := send_to_gpu w |}.
Definition set_is_dirty (b : bool) (w : World) : World :=
  {| grman := grman w; cursor := cursor w; is_dirty := b;
     command_response := command_response w;
     internal_id_counter := internal_id_counter w;
     send_to_gpu := send_to_gpu w |}.
Definition set_command_response (s : string) (w : World) : World :=
  {| grman := grman w; cursor := cursor w; is_dirty := is_dirty w;
     command_response := s;
     internal_id_counter := internal_id_counter w;
     send_to_gpu := send_to_gpu w |}.
Definition set_internal_id_counter (v : Z) (w : World) : World :=
  {| grman := grman w; cursor := cursor w; is_dirty := is_dirty w;
     command_response := command_response w;
     internal_id_counter := v;
     send_to_gpu := send_to_gpu w |}.

(** [pyset_send_to_gpu]. *)
Definition set_send_to_gpu (b : bool) (w : World) : World :=
  {| grman := grman w; cursor := cursor w; is_dirty := is_dirty w;
     command_response := command_response w;
     internal_id_counter := internal_id_counter w;
     send_to_gpu := b |}.

Definition upd_image (i : nat) (f : Img.t -> Img.t) (w : World) : World :=
  upd_grman (GM.upd_image i f) w.
Definition image_at (w : World) (i : nat) : Img.t := GM.image_at (grman w) i.

Definition STORAGE_LIMIT : Z := 320 * (1024 * 1024).
Definition MAX_DATA_SZ : Z := 4 * 100000000.

(** ** Images and their storage *)

Definition free_refs_data (img : Img.t) : Img.t := Img.set_refs [] img.

Definition free_load_data (ld : LD.t) : LD.t :=
  ld |> LD.set_buf false 0 0 |> LD.set_mapped false 0.

Definition free_image (self : GM.t) (idx : nat) : GM.t :=
  let img := GM.image_at self idx in
  self
  |> GM.upd_image idx (fun img =>
       img |> Img.set_texture_id 0 |> free_refs_data
           |> Img.upd_load_data free_load_data)
  |> GM.set_used_storage (u64 (GM.used_storage self - Img.used_storage img)).

Definition img_by_internal_id (self : GM.t) (id : Z) : option nat :=
  fst <$> list_find (fun img => Img.internal_id img = id) (GM.images self).

Definition img_by_client_id (self : GM.t) (id : Z) : option nat :=
  fst <$> list_find (fun img => Img.client_id img = id) (GM.images self).

(** The loop [for (i = image_count; i-- > 0;)]: the newest image first. *)
Fixpoint img_by_client_number_from (i : nat) (self : GM.t) (number : Z) : option nat :=
  match i with
  | O => None
  | S i' =>
      if Img.client_number (GM.image_at self i') =? number then Some i'
      else img_by_client_number_from i' self number
  end.

Definition img_by_client_number (self : GM.t) (number : Z) : option nat :=
  img_by_client_number_from (length (GM.images self)) self number.

(** [remove_i_from_array] is [delete]: the tail moves one slot down. *)
Definition remove_image (self : GM.t) (idx : nat) : GM.t :=
  free_image self idx |> GM.upd_images (delete idx) |> GM.set_layers_dirty true.

Fixpoint remove_images_from (i : nat) (predicate : Img.t -> bool)
    (skip_image_internal_id : Z) (self : GM.t) : GM.t :=
  match i with
  | O => self
  | S i' =>
      let img := GM.image_at self i' in
      let self :=
        if negb (Img.internal_id img =? skip_image_internal_id) && predicate img
        then remove_image self i' else self in
      remove_images_from i' predicate skip_image_internal_id self
  end.

Definition remove_images (self : GM.t) (predicate : Img.t -> bool)
    (skip_image_internal_id : Z) : GM.t :=
  remove_images_from (length (GM.images self)) predicate skip_image_internal_id self.

Definition refcnt (img : Img.t) : Z := Z.of_nat (length (Img.refs img)).

Definition trim_predicate (img : Img.t) : bool :=
  negb (Img.data_loaded img) || negb (nz (refcnt img)).

Definition add_trim_predicate (img : Img.t) : bool :=
  negb (Img.data_loaded img) || (negb (nz (Img.client_id img)) && negb (nz (refcnt img))).

(** ** qsort

    The C library's [qsort] is modelled by an insertion sort that consults
    only the sign of the comparator, as every comparison sort does. *)
Section Qsort.
Context {A : Type} (compar : A -> A -> Z).

Fixpoint qsort_insert (x : A) (l : list A) : list A :=
  match l with
  | [] => [x]
  | y :: t => if compar x y <=? 0 then x :: l else y :: qsort_insert x t
  end.

Definition qsort (l : list A) : list A := foldr qsort_insert [] l.
End Qsort.

Definition oldest_last (a b : Img.t) : Z :=
  let ans := i64 (Img.atime b - Img.atime a) in
  if ans <? 0 then -1 else if ans =? 0 then 0 else 1.

Definition image_count (self : GM.t) : Z := Z.of_nat (length (GM.images self)).

(** The loop [while (used_storage > storage_limit && image_count > 0)]; each
    turn removes one image, so [image_count] turns are enough. *)
Fixpoint evict_oldest (fuel : nat) (storage_limit : Z) (self : GM.t) : GM.t :=
  match fuel with
  | O => self
  | S f =>
      if (GM.used_storage self >? storage_limit) && (image_count self >? 0)
      then evict_oldest f storage_limit
             (remove_image self (length (GM.images self) - 1))
      else self
  end.

Definition apply_storage_quota (self : GM.t) (storage_limit : Z)
    (currently_added_image_internal_id : Z) : GM.t :=
  let self := remove_images self trim_predicate currently_added_image_internal_id in
  if GM.used_storage self <? storage_limit then self
  else
    let self := GM.upd_images (qsort oldest_last) self in
    let self := evict_oldest (length (GM.images self)) storage_limit self in
    if image_count self =? 0 then GM.set_used_storage 0 self else self.

(** ** The failure response *)

Definition command_response_sz : Z := 512.

Definition set_command_failed_response (code msg : string) (w : World) : World :=
  let head := (code ++ ":")%string in
  let num := strlen head in
  set_command_response
    (snprintf command_response_sz head ++ snprintf (command_response_sz - num) msg)%string
    w.

(** ** Loading image data *)

Definition Z_OK : Z := 0.
Definition Z_STREAM_END : Z := 1.

Definition zlib_strerror (env : Env) (ret : Z) : string :=
  if ret =? -1 then strerror env
  else if ret =? -2 then "Z_STREAM_ERROR"
  else if ret =? -3 then "Z_DATA_ERROR"
  else if ret =? -4 then "Z_MEM_ERROR"
  else if ret =? -5 then "Z_BUF_ERROR"
  else if ret =? -6 then "Z_VERSION_ERROR"
  else ("Unknown error: " ++ print_d ret)%string.

Definition errno_text (env : Env) : string :=
  ("[" ++ print_d (errno env) ++ "] " ++ strerror env)%string.

(** [mmap_img_file]: on success the mapping and its size are recorded in the
    image; on failure only the response is set. *)
Definition mmap_img_file (env : Env) (i : nat) (fd sz offset : Z) (w : World)
    : World * bool :=
  if negb (nz sz) && negb (fstat_ok env) then
    (set_command_failed_response "EBADF"
       ("Failed to fstat() the fd: " ++ print_d fd ++ " file with error: "
        ++ errno_text env) w, false)
  else
    let sz := if nz sz then sz else st_size env in
    if negb (mmap_ok env) then
      (set_command_failed_response "EBADF"
         ("Failed to map image file fd: " ++ print_d fd ++ " at offset: "
          ++ print_d offset ++ " with size: " ++ print_u sz
          ++ " with error: " ++ errno_text env) w, false)
    else (upd_image i (Img.upd_load_data (LD.set_mapped true sz)) w, true).

(** [inflate_zlib]: the inflated bytes replace the load buffer. *)
Definition inflate_zlib (env : Env) (i : nat) (w : World) : World * bool :=
  if negb (inflateInit_ret env =? Z_OK) then
    (set_command_failed_response "ENOMEM"
       ("Failed to initialize inflate with error: "
        ++ zlib_strerror env (inflateInit_ret env)) w, false)
  else if negb (inflate_ret env =? Z_STREAM_END) then
    (set_command_failed_response "EINVAL"
       ("Failed to inflate image data with error: "
        ++ zlib_strerror env (inflate_ret env)) w, false)
  else if nz (inflate_avail_out env) then
    (set_command_failed_response "EINVAL"
       "Image data size post inflation does not match expected size" w, false)
  else
    (upd_image i (Img.upd_load_data (fun ld =>
       free_load_data ld |> LD.set_buf true (LD.data_sz ld) (LD.data_sz ld))) w,
     true).

(** [inflate_png]: the decoded bitmap replaces the load buffer and fixes the
    size of the image. *)
Definition inflate_png (env : Env) (i : nat) (w : World) : World * bool :=
  match png env with
  | PngOk sz width height =>
      (upd_image i (fun img =>
         img |> Img.upd_load_data (fun ld =>
                  free_load_data ld |> LD.set_buf true sz sz |> LD.set_data_sz sz)
             |> Img.set_size width height) w,
       true)
  | PngError code msg => (set_command_failed_response code msg w, false)
  end.

(** Returns the slot of the image and whether it existed already. *)
Definition find_or_create_image (self : GM.t) (id : Z) : GM.t * nat * bool :=
  match (if nz id then img_by_client_id self id else None) with
  | Some i => (self, i, true)
  | None =>
      (GM.upd_images (fun l => l ++ [Img.zero]) self, length (GM.images self), false)
  end.

(** The difference of two [uint32_t] returned as an [int]. *)
Definition cmp_client_ids (x y : Z) : Z := i32 (u32 (x - y)).

(** The scan over the sorted ids; leaving the recursion is the [break]. *)
Fixpoint free_client_id_scan (client_ids : list Z) (prev_id ans : Z) : Z :=
  match client_ids with
  | [] => ans
  | cid :: rest =>
      if cid =? prev_id then free_client_id_scan rest prev_id ans
      else if negb (cid =? ans) then ans
      else free_client_id_scan rest cid (u32 (cid + 1))
  end.

Definition get_free_client_id (self : GM.t) : Z :=
  if image_count self =? 0 then 1
  else
    let client_ids := List.filter nz (map Img.client_id (GM.images self)) in
    if Z.of_nat (length client_ids) =? 0 then 1
    else free_client_id_scan (qsort cmp_client_ids client_ids) 0 1.

Definition RGB : Z := 24.
Definition RGBA : Z := 32.
Definition PNG : Z := 100.

(** Control flow inside [handle_add_command]: [Return] leaves the function
    with its result, [Next] falls through to the following statement. *)
Inductive flow (A : Type) :=
| Return (w : World) (ret : option nat)
| Next (w : World) (a : A).
Arguments Return {A} w ret.
Arguments Next {A} w a.

Definition flow_bind {A B : Type} (m : flow A) (k : World -> A -> flow B) : flow B :=
  match m with
  | Return w r => Return w r
  | Next w a => k w a
  end.

(** The [ABRT] macro of [handle_add_command]. *)
Definition ABRT {A : Type} (code msg : string) (img : option nat) (w : World) : flow A :=
  let w := set_command_failed_response code msg w in
  let w := upd_grman (GM.set_loading_image 0) w in
  let w := match img with
           | Some i => upd_image i (Img.set_data_loaded false) w
           | None => w
           end in
  Return w None.

(** The [switch (fmt)] of a first chunk. *)
Definition add_init_format (g : Cmd.t) (fmt : Z) (i : nat) (w : World) : flow unit :=
  if fmt =? PNG then
    if Cmd.data_sz g >? MAX_DATA_SZ then
      ABRT "EINVAL" "PNG data size too large" (Some i) w
    else
      Next (upd_image i (Img.upd_load_data (fun ld =>
              ld |> LD.set_flags true false
                 |> LD.set_data_sz (if nz (Cmd.data_sz g) then Cmd.data_sz g
                                    else 1024 * 100))) w) ()
  else if (fmt =? RGB) || (fmt =? RGBA) then
    let data_sz := u64 (Cmd.data_width g * Cmd.data_height g * (fmt / 8)) in
    let w := upd_image i (Img.upd_load_data (LD.set_data_sz data_sz)) w in
    if negb (nz data_sz) then
      ABRT "EINVAL" "Zero width/height not allowed" (Some i) w
    else
      Next (upd_image i (fun img =>
              Img.upd_load_data
                (LD.set_flags ((fmt =? RGBA) || (Img.width img mod 4 =? 0))
                              (fmt =? RGB)) img) w) ()
  else ABRT "EINVAL" ("Unknown image format: " ++ print_u fmt) (Some i) w.

(** The allocation of the buffer of a direct transmission. *)
Definition add_init_direct (env : Env) (g : Cmd.t) (i : nat) (w : World) : flow nat :=
  let w := if nz (Cmd.more g)
           then upd_grman (GM.set_loading_image (Img.internal_id (image_at w i))) w
           else w in
  let capacity :=
    u64 (LD.data_sz (Img.load_data (image_at w i))
         + (if nzc (Cmd.compressed g) then 1024 else 10)) in
  let w := upd_image i (Img.upd_load_data (LD.set_buf (malloc_ok env) capacity 0)) w in
  if negb (malloc_ok env) then ABRT "ENOMEM" "Out of memory" (Some i) w
  else Next w i.

(** The branch [if (init_img)]: a new transmission starts. *)
Definition add_init (env : Env) (g : Cmd.t) (iid : Z) (tt : ascii) (fmt : Z)
    (w : World) : flow nat :=
  let w := upd_grman (fun s =>
             s |> GM.set_last_init_graphics_command (Cmd.set_id iid g)
               |> GM.set_loading_image 0) w in
  if (Cmd.data_width g >? 10000) || (Cmd.data_height g >? 10000) then
    ABRT "EINVAL" "Image too large" None w
  else
    let w := upd_grman (fun s => remove_images s add_trim_predicate 0) w in
    let '(self, i, existing) := find_or_create_image (grman w) iid in
    let w := upd_grman (fun _ => self) w in
    let w :=
      if existing then
        w |> upd_image i (fun img =>
               img |> Img.upd_load_data free_load_data
                   |> Img.set_data_loaded false
                   |> free_refs_data)
          |> set_is_dirty true
          |> upd_grman (GM.set_layers_dirty true)
      else
        let w := w |> upd_image i (fun img =>
                        img |> Img.set_internal_id (internal_id_counter w)
                            |> Img.set_client_id iid
                            |> Img.set_client_number (Cmd.image_number g))
                   |> set_internal_id_counter (u64 (internal_id_counter w + 1)) in
        if negb (nz (Img.client_id (image_at w i)))
           && nz (Img.client_number (image_at w i))
        then
          let free_id := get_free_client_id (grman w) in
          w |> upd_image i (Img.set_client_id free_id)
            |> upd_grman (fun s =>
                 GM.set_last_init_graphics_command
                   (Cmd.set_id free_id (GM.last_init_graphics_command s)) s)
        else w in
    let w := upd_image i (fun img =>
               img |> Img.set_atime (monotonic_add env)
                   |> Img.set_used_storage 0
                   |> Img.set_size (Cmd.data_width g) (Cmd.data_height g)) w in
    flow_bind (add_init_format g fmt i w) (fun w _ =>
      if (tt =? "d")%char then add_init_direct env g i w else Next w i).

Definition effective_transmission_type (g : Cmd.t) : ascii :=
  if nzc (Cmd.transmission_type g) then Cmd.transmission_type g else "d"%char.

Definition effective_format (g : Cmd.t) : Z :=
  if nz (Cmd.format g) then Cmd.format g else RGBA.

(** The [else] branch: a further chunk of the image in [loading_image]; the
    command of the first chunk takes over. *)
Definition add_continue (g : Cmd.t) (w : World) : flow (Cmd.t * nat) :=
  let w := upd_grman (fun s =>
             GM.set_last_init_graphics_command
               (GM.last_init_graphics_command s
                |> Cmd.set_more (Cmd.more g)
                |> Cmd.set_payload_sz (Cmd.payload_sz g)) s) w in
  let g := GM.last_init_graphics_command (grman w) in
  match img_by_internal_id (grman w) (GM.loading_image (grman w)) with
  | None =>
      ABRT "EILSEQ" "More payload loading refers to non-existent image" None
        (upd_grman (GM.set_loading_image 0) w)
  | Some i => Next w (g, i)
  end.

(** [case 'd'] of the [switch (tt)]: the payload is appended to the buffer. *)
Definition add_direct (env : Env) (g : Cmd.t) (fmt : Z) (i : nat) (w : World) : flow unit :=
  let ld := Img.load_data (image_at w i) in
  let grown :=
    if u64 (LD.buf_capacity ld - LD.buf_used ld) <? Cmd.payload_sz g then
      if (u64 (LD.buf_used ld + Cmd.payload_sz g) >? MAX_DATA_SZ) || negb (fmt =? PNG)
      then ABRT "EFBIG" "Too much data" (Some i) w
      else
        let capacity := MIN (u64 (2 * LD.buf_capacity ld)) MAX_DATA_SZ in
        let w := upd_image i (Img.upd_load_data (fun ld =>
                   LD.set_buf (realloc_ok env) capacity (LD.buf_used ld) ld)) w in
        if negb (realloc_ok env) then ABRT "ENOMEM" "Out of memory" (Some i) w
        else Next w ()
    else Next w () in
  flow_bind grown (fun w _ =>
    let w := upd_image i (Img.upd_load_data (fun ld =>
               LD.set_buf (LD.buf ld) (LD.buf_capacity ld)
                 (u64 (LD.buf_used ld + Cmd.payload_sz g)) ld)) w in
    let w := if negb (nz (Cmd.more g))
             then w |> upd_image i (Img.set_data_loaded true)
                    |> upd_grman (GM.set_loading_image 0)
             else w in
    Next w ()).

(** [case 'f'], ['t'], ['s']: the payload names a file or a shared memory
    object, which is mapped. *)
Definition add_file (env : Env) (g : Cmd.t) (i : nat) (w : World) : flow unit :=
  if Cmd.payload_sz g >? 2048 then ABRT "EINVAL" "Filename too long" (Some i) w
  else if open_fd env =? -1 then
    ABRT "EBADF"
      ("Failed to open file for graphics transmission with error: "
       ++ errno_text env) (Some i) w
  else
    let '(w, ok) := mmap_img_file env i (open_fd env) (Cmd.data_sz g)
                      (Cmd.data_offset g) w in
    Next (upd_image i (Img.set_data_loaded ok) w) ().

Definition add_transmit (env : Env) (g : Cmd.t) (tt : ascii) (fmt : Z) (i : nat)
    (w : World) : flow unit :=
  if (tt =? "d")%char then add_direct env g fmt i w
  else if (tt =? "f")%char || (tt =? "t")%char || (tt =? "s")%char then
    add_file env g i w
  else
    ABRT "EINVAL" ("Unknown transmission type: " ++ print_c (Cmd.transmission_type g))
      (Some i) w.

Definition insufficient_data (have want : Z) : string :=
  ("Insufficient image data: " ++ print_u have ++ " < " ++ print_u want)%string.

(** The branch [if (needs_processing)]. *)
Definition add_process (env : Env) (g : Cmd.t) (fmt : Z) (i : nat) (w : World) : flow unit :=
  let inflated :=
    if (Cmd.compressed g =? "z")%char then
      let '(w, ok) := inflate_zlib env i w in
      if ok then Next w ()
      else Return (upd_image i (Img.set_data_loaded false) w) None
    else if negb (nzc (Cmd.compressed g)) then Next w ()
    else ABRT "EINVAL" ("Unknown image compression: " ++ print_c (Cmd.compressed g))
           (Some i) w in
  flow_bind inflated (fun w _ =>
  let decoded :=
    if fmt =? PNG then
      let '(w, ok) := inflate_png env i w in
      if ok then Next w ()
      else Return (upd_image i (Img.set_data_loaded false) w) None
    else Next w () in
  flow_bind decoded (fun w _ =>
    let w := upd_image i (Img.upd_load_data (fun ld =>
               LD.set_data (if LD.buf ld then DataBuf else DataNull) ld)) w in
    let ld := Img.load_data (image_at w i) in
    if LD.buf_used ld <? LD.data_sz ld then
      ABRT "ENODATA" (insufficient_data (LD.buf_used ld) (LD.data_sz ld)) (Some i) w
    else
      Next (if LD.mapped_file ld
            then upd_image i (Img.upd_load_data (LD.set_mapped false 0)) w
            else w) ())).

(** The [else] branch: raw pixels, used where they are. *)
Definition add_raw (tt : ascii) (i : nat) (w : World) : flow unit :=
  let ld := Img.load_data (image_at w i) in
  if (tt =? "d")%char then
    if LD.buf_used ld <? LD.data_sz ld then
      ABRT "ENODATA" (insufficient_data (LD.buf_used ld) (LD.data_sz ld)) (Some i) w
    else
      Next (upd_image i (Img.upd_load_data (fun ld =>
              LD.set_data (if LD.buf ld then DataBuf else DataNull) ld)) w) ()
  else
    if LD.mapped_file_sz ld <? LD.data_sz ld then
      ABRT "ENODATA" (insufficient_data (LD.mapped_file_sz ld) (LD.data_sz ld))
        (Some i) w
    else
      Next (upd_image i (Img.upd_load_data (fun ld =>
              LD.set_data (if LD.mapped_file ld then DataMapped else DataNull) ld)) w) ().

(** The size check and the upload to the GPU. *)
Definition add_upload (env : Env) (i : nat) (w : World) : flow nat :=
  let img := image_at w i in
  let ld := Img.load_data img in
  let required_sz :=
    u64 ((if LD.is_opaque ld then 3 else 4) * Img.width img * Img.height img) in
  if negb (LD.data_sz ld =? required_sz) then
    ABRT "EINVAL"
      ("Image dimensions: " ++ print_u (Img.width img) ++ "x"
       ++ print_u (Img.height img) ++ " do not match data size: "
       ++ print_u (LD.data_sz ld) ++ ", expected size: " ++ print_u required_sz)
      (Some i) w
  else if Img.data_loaded img && send_to_gpu w then
    Next (w |> upd_image i (fun img =>
                 img |> Img.set_texture_id (gpu_texture_id env)
                     |> Img.upd_load_data free_load_data
                     |> Img.set_used_storage required_sz)
            |> upd_grman (fun s =>
                 GM.set_used_storage (u64 (GM.used_storage s + required_sz)) s)) i
  else Next w i.

(** Everything after the [switch (tt)]. *)
Definition add_finish (env : Env) (g : Cmd.t) (tt : ascii) (fmt : Z) (i : nat)
    (w : World) : flow nat :=
  if negb (Img.data_loaded (image_at w i)) then Return w None
  else
    let w := upd_grman (GM.set_loading_image 0) w in
    let needs_processing := nzc (Cmd.compressed g) || (fmt =? PNG) in
    flow_bind (if needs_processing then add_process env g fmt i w else add_raw tt i w)
      (fun w _ => add_upload env i w).

Definition handle_add_command (env : Env) (g : Cmd.t) (iid : Z) (w : World)
    : World * option nat :=
  let tt := effective_transmission_type g in
  let fmt := effective_format g in
  let init_img := negb ((tt =? "d")%char && nz (GM.loading_image (grman w))) in
  let started :=
    if init_img then
      flow_bind (add_init env g iid tt fmt w) (fun w i => Next w (g, i))
    else add_continue g w in
  match
    flow_bind started (fun w '(g, i) =>
      let tt := effective_transmission_type g in
      let fmt := effective_format g in
      flow_bind (add_transmit env g tt fmt i w) (fun w _ =>
        add_finish env g tt fmt i w))
  with
  | Return w ret => (w, ret)
  | Next w i => (w, Some i)
  end.

(** ** The response *)

Definition rbuf_sz : Z := command_response_sz + 128.

(** The [print] macro.  The pair is the C string held by [rbuf] and the
    write position [pos]; once a write has been cut short, the string ends
    there and [pos] runs ahead of it. *)
Definition print (s : string) (r : string * Z) : string * Z :=
  let '(rbuf, pos) := r in
  (if strlen rbuf =? pos then (rbuf ++ snprintf (rbuf_sz - 1 - pos) s)%string
   else rbuf,
   pos + strlen s).

Definition finish_command_response (g : Cmd.t) (data_loaded : bool)
    (iid placement_id image_number : Z) (w : World) : World * option string :=
  let is_ok_response := (command_response w =? "")%string in
  if nz (Cmd.quiet g) && (is_ok_response || (Cmd.quiet g >? 1)) then (w, None)
  else if nz iid || nz image_number then
    if is_ok_response && negb data_loaded then (w, None)
    else
      let w := if is_ok_response then set_command_response (snprintf 10 "OK") w
               else w in
      let r := ("G"%string, 1) in
      let r := if nz iid then print ("i=" ++ print_u iid) r else r in
      let r := if nz image_number then print (",I=" ++ print_u image_number) r else r in
      let r := if nz placement_id then print (",p=" ++ print_u placement_id) r else r in
      let r := print (";" ++ command_response w) r in
      (w, Some (fst r))
  else (w, None).

(** ** Displaying images *)

(** [cell.width] and [cell.height] are positive; the quotient by a zero
    cell size, undefined in C, is [0] here. *)
Definition update_dest_rect (num_cols num_rows : Z) (cell : CellPixelSize)
    (ref : Ref.t) : Ref.t :=
  let num_cols :=
    if num_cols =? 0 then
      let t := u32 (Ref.src_width ref + Ref.cell_x_offset ref) in
      let n := t / cell_width cell in
      if t >? u32 (n * cell_width cell) then u32 (n + 1) else n
    else num_cols in
  let num_rows :=
    if num_rows =? 0 then
      let t := u32 (Ref.src_height ref + Ref.cell_y_offset ref) in
      let n := t / cell_height cell in
      if t >? u32 (n * cell_height cell) then u32 (n + 1) else n
    else num_rows in
  ref |> Ref.set_effective_num_rows num_rows |> Ref.set_effective_num_cols num_cols.

(** The assignments [handle_put_command] makes to the placement. *)
Definition place_ref (g : Cmd.t) (img : Img.t) (c : Cursor) (cell : CellPixelSize)
    (ref : Ref.t) : Ref.t :=
  let src_x := Cmd.x_offset g in
  let src_y := Cmd.y_offset g in
  let src_width := if nz (Cmd.width g) then Cmd.width g else Img.width img in
  let src_height := if nz (Cmd.height g) then Cmd.height g else Img.height img in
  let src_width :=
    MIN src_width
        (u32 (Img.width img - (if Img.width img >? src_x then src_x else Img.width img))) in
  let src_height :=
    MIN src_height
        (u32 (Img.height img - (if Img.height img >? src_y then src_y else Img.height img))) in
  ref |> Ref.set_src src_width src_height src_x src_y
      |> Ref.set_z_index (Cmd.z_index g)
      |> Ref.set_start_row (i32 (cy c))
      |> Ref.set_start_column (i32 (cx c))
      |> Ref.set_cell_offsets (MIN (Cmd.cell_x_offset g) (u32 (cell_width cell - 1)))
                              (MIN (Cmd.cell_y_offset g) (u32 (cell_height cell - 1)))
      |> Ref.set_num (Cmd.num_cells g) (Cmd.num_lines g)
      |> (fun ref => if nz (Img.client_id img)
                     then Ref.set_client_id (Cmd.placement_id g) ref else ref)
      |> update_dest_rect (Cmd.num_cells g) (Cmd.num_lines g) cell.

(** The image a put command names when the caller passes none. *)
Definition put_target (self : GM.t) (g : Cmd.t) (img : option nat) : option nat :=
  match img with
  | Some i => Some i
  | None =>
      if nz (Cmd.id g) then img_by_client_id self (Cmd.id g)
      else if nz (Cmd.image_number g) then img_by_client_number self (Cmd.image_number g)
      else None
  end.

Definition handle_put_command (env : Env) (g : Cmd.t) (img : option nat)
    (cell : CellPixelSize) (w : World) : World * Z :=
  match put_target (grman w) g img with
  | None =>
      (set_command_failed_response "ENOENT"
         ("Put command refers to non-existent image with id: " ++ print_u (Cmd.id g)
          ++ " and number: " ++ print_u (Cmd.image_number g)) w,
       Cmd.id g)
  | Some i =>
      let image := image_at w i in
      if negb (Img.data_loaded image) then
        (set_command_failed_response "ENOENT"
           ("Put command refers to image with id: " ++ print_u (Cmd.id g)
            ++ " that could not load its data") w,
         Img.client_id image)
      else
        let w := w |> set_is_dirty true |> upd_grman (GM.set_layers_dirty true) in
        let found :=
          if nz (Cmd.placement_id g) && nz (Img.client_id image) then
            fst <$> list_find (fun r => Ref.client_id r = Cmd.placement_id g)
                      (Img.refs image)
          else None in
        let old := match found with
                   | Some j => default Ref.zero (Img.refs image !! j)
                   | None => Ref.zero
                   end in
        let ref := place_ref g image (cursor w) cell old in
        let refs := match found with
                    | Some j => <[j := ref]> (Img.refs image)
                    | None => Img.refs image ++ [ref]
                    end in
        let w := upd_image i (fun img =>
                   img |> Img.set_refs refs |> Img.set_atime (monotonic_put env)) w in
        let c := cursor w in
        let w := set_cursor
                   {| cx := u32 (cx c + Ref.effective_num_cols ref);
                      cy := u32 (cy c + u32 (Ref.effective_num_rows ref - 1)) |} w in
        (w, Img.client_id image)
  end.

(** Both differences are returned as an [int]: the first is an [int]
    subtraction, the second the low 32 bits of an [id_type] difference. *)
Definition cmp_by_zindex_and_image (a b : RD.t) : Z :=
  let ans := i32 (RD.z_index a - RD.z_index b) in
  if ans =? 0 then i32 (u64 (RD.image_id a - RD.image_id b)) else ans.

(** The inner [while (i < count - 1 && render_data[++i].image_id == image_id)]. *)
Fixpoint group_scan (fuel : nat) (rd : list RD.t) (image_id : Z) (i : nat) : nat :=
  match fuel with
  | O => i
  | S f =>
      if bool_decide (i < length rd - 1)%nat then
        let i := S i in
        if RD.image_id (default RD.zero (rd !! i)) =? image_id
        then group_scan f rd image_id i else i
      else i
  end.

(** The outer [while (i < count)]; [i] grows at every turn. *)
Fixpoint group_counts (fuel : nat) (i : nat) (rd : list RD.t) : list RD.t :=
  match fuel with
  | O => rd
  | S f =>
      if bool_decide (i < length rd)%nat then
        let image_id := RD.image_id (default RD.zero (rd !! i)) in
        let start := i in
        let i := if bool_decide (start = length rd - 1)%nat then length rd
                 else group_scan (length rd) rd image_id i in
        group_counts f i
          (alter (RD.set_group_count (u32 (Z.of_nat i - Z.of_nat start))) start rd)
      else rd
  end.

Definition INT32_MIN : Z := - 2^31.

Section Layers.
(** Whether the destination rectangle of a placement meets the screen. *)
Variable visible : Img.t -> Ref.t -> bool.

(** The body of the loop over the placements of one image. *)
Definition add_layer (img : Img.t) (self : GM.t) (ref : Ref.t) : GM.t :=
  if negb (visible img ref) then self
  else
    let self :=
      if Ref.z_index ref <? Z.quot INT32_MIN 2 then
        GM.set_ref_counts (u64 (GM.num_of_below_refs self + 1))
          (GM.num_of_negative_refs self) (GM.num_of_positive_refs self) self
      else if Ref.z_index ref <? 0 then
        GM.set_ref_counts (GM.num_of_below_refs self)
          (u64 (GM.num_of_negative_refs self + 1)) (GM.num_of_positive_refs self) self
      else
        GM.set_ref_counts (GM.num_of_below_refs self)
          (GM.num_of_negative_refs self) (u64 (GM.num_of_positive_refs self + 1)) self in
    let rd := {| RD.texture_id := Img.texture_id img; RD.group_count := 0;
                 RD.z_index := Ref.z_index ref;
                 RD.image_id := Img.internal_id img |} in
    GM.set_render_data (GM.render_data self ++ [rd]) self.

Definition grman_update_layers (scrolled_by : Z) (self : GM.t) : GM.t * bool :=
  let self := if negb (GM.last_scrolled_by self =? scrolled_by)
              then GM.set_layers_dirty true self else self in
  let self := GM.set_last_scrolled_by scrolled_by self in
  if negb (GM.layers_dirty self) then (self, false)
  else
    let self := self |> GM.set_layers_dirty false |> GM.set_ref_counts 0 0 0
                     |> GM.set_render_data [] in
    let self :=
      foldl (fun self img => foldl (add_layer img) self (Img.refs img))
            self (GM.images self) in
    if negb (nz (Z.of_nat (length (GM.render_data self)))) then (self, false)
    else
      let rd := qsort cmp_by_zindex_and_image (GM.render_data self) in
      (GM.set_render_data (group_counts (length rd) 0 rd) self, true).
End Layers.

(** ** Image lifetime and scrolling *)

(** The loop over the placements of one image in [filter_refs], from the
    last to the first; the flag tells whether any placement matched. *)
Fixpoint filter_refs_of (j : nat) (filter_func : Ref.t -> Img.t -> bool)
    (img : Img.t) : Img.t * bool :=
  match j with
  | O => (img, false)
  | S j' =>
      let ref := default Ref.zero (Img.refs img !! j') in
      if filter_func ref img then
        (fst (filter_refs_of j' filter_func (Img.set_refs (delete j' (Img.refs img)) img)),
         true)
      else filter_refs_of j' filter_func img
  end.

(** An image left without placements goes when the caller asks for it or
    when it has no client id. *)
Definition reap_image (free_images : bool) (i : nat) (self : GM.t) : GM.t :=
  let img := GM.image_at self i in
  if (refcnt img =? 0) && (free_images || (Img.client_id img =? 0))
  then remove_image self i else self.

Fixpoint filter_refs_from (i : nat) (free_images : bool)
    (filter_func : Ref.t -> Img.t -> bool) (only_first_image : bool)
    (matched : bool) (self : GM.t) : GM.t :=
  match i with
  | O => self
  | S i' =>
      let img := GM.image_at self i' in
      let '(img, m) := filter_refs_of (length (Img.refs img)) filter_func img in
      let self := GM.upd_image i' (fun _ => img) self in
      let self := if m then GM.set_layers_dirty true self else self in
      let matched := matched || m in
      let self := reap_image free_images i' self in
      if only_first_image && matched then self
      else filter_refs_from i' free_images filter_func only_first_image matched self
  end.

Definition filter_refs (self : GM.t) (free_images : bool)
    (filter_func : Ref.t -> Img.t -> bool) (only_first_image : bool) : GM.t :=
  filter_refs_from (length (GM.images self)) free_images filter_func
    only_first_image false self.

(** In [modify_refs] the filter also rewrites the placement it looks at. *)
Fixpoint modify_refs_of (j : nat) (filter_func : Ref.t -> Img.t -> Ref.t * bool)
    (img : Img.t) : Img.t :=
  match j with
  | O => img
  | S j' =>
      let '(ref, remove) := filter_func (default Ref.zero (Img.refs img !! j')) img in
      let img := Img.set_refs (<[j' := ref]> (Img.refs img)) img in
      let img := if remove then Img.set_refs (delete j' (Img.refs img)) img else img in
      modify_refs_of j' filter_func img
  end.

Fixpoint modify_refs_from (i : nat) (free_images : bool)
    (filter_func : Ref.t -> Img.t -> Ref.t * bool) (self : GM.t) : GM.t :=
  match i with
  | O => self
  | S i' =>
      let img := GM.image_at self i' in
      let img := modify_refs_of (length (Img.refs img)) filter_func img in
      let self := GM.upd_image i' (fun _ => img) self in
      modify_refs_from i' free_images filter_func (reap_image free_images i' self)
  end.

Definition modify_refs (self : GM.t) (free_images : bool)
    (filter_func : Ref.t -> Img.t -> Ref.t * bool) : GM.t :=
  modify_refs_from (length (GM.images self)) free_images filter_func self.

Definition scroll_filter_func (ref : Ref.t) (img : Img.t) (d : ScrollData)
    (cell : CellPixelSize) : Ref.t * bool :=
  let ref := Ref.set_start_row (i32 (Ref.start_row ref + amt d)) ref in
  (ref, i32 (Ref.start_row ref + i32 (Ref.effective_num_rows ref)) <=? limit d).

(** [start_row + effective_num_rows] mixes an [int32_t] with a [uint32_t]
    and is therefore an unsigned sum. *)
Definition ref_within_region (ref : Ref.t) (margin_top margin_bottom : Z) : bool :=
  (Ref.start_row ref >=? i32 margin_top)
  && (u32 (Ref.start_row ref + Ref.effective_num_rows ref) <=? margin_bottom).

Definition ref_outside_region (ref : Ref.t) (margin_top margin_bottom : Z) : bool :=
  (u32 (Ref.start_row ref + Ref.effective_num_rows ref) <=? margin_top)
  || (Ref.start_row ref >? i32 margin_bottom).

Definition scroll_filter_margins_func (ref : Ref.t) (img : Img.t) (d : ScrollData)
    (cell : CellPixelSize) : Ref.t * bool :=
  if ref_within_region ref (margin_top d) (margin_bottom d) then
    let ref := Ref.set_start_row (i32 (Ref.start_row ref + amt d)) ref in
    if ref_outside_region ref (margin_top d) (margin_bottom d) then (ref, true)
    else if Ref.start_row ref <? i32 (margin_top d) then
      (* image moved up *)
      let clipped_rows := u32 (margin_top d - Ref.start_row ref) in
      let clip_amt := u32 (cell_height cell * clipped_rows) in
      if Ref.src_height ref <=? clip_amt then (ref, true)
      else
        let ref :=
          ref |> Ref.set_src (Ref.src_width ref) (u32 (Ref.src_height ref - clip_amt))
                   (Ref.src_x ref) (u32 (Ref.src_y ref + clip_amt))
              |> Ref.set_effective_num_rows
                   (u32 (Ref.effective_num_rows ref - clipped_rows))
              |> Ref.set_start_row (i32 (Ref.start_row ref + clipped_rows)) in
        (ref, ref_outside_region ref (margin_top d) (margin_bottom d))
    else if u32 (Ref.start_row ref + Ref.effective_num_rows ref) >? margin_bottom d then
      (* image moved down *)
      let clipped_rows :=
        u32 (Ref.start_row ref + Ref.effective_num_rows ref - margin_bottom d) in
      let clip_amt := u32 (cell_height cell * clipped_rows) in
      if Ref.src_height ref <=? clip_amt then (ref, true)
      else
        let ref :=
          ref |> Ref.set_src (Ref.src_width ref) (u32 (Ref.src_height ref - clip_amt))
                   (Ref.src_x ref) (Ref.src_y ref)
              |> Ref.set_effective_num_rows
                   (u32 (Ref.effective_num_rows ref - clipped_rows)) in
        (ref, ref_outside_region ref (margin_top d) (margin_bottom d))
    else (ref, ref_outside_region ref (margin_top d) (margin_bottom d))
  else (ref, false).

Definition grman_scroll_images (self : GM.t) (data : ScrollData)
    (cell : CellPixelSize) : GM.t :=
  if nz (image_count self) then
    let self := GM.set_layers_dirty true self in
    modify_refs self true
      (fun ref img =>
         if has_margins data then scroll_filter_margins_func ref img data cell
         else scroll_filter_func ref img data cell)
  else self.

Definition clear_filter_func (ref : Ref.t) (img : Img.t) : bool :=
  i32 (Ref.start_row ref + i32 (Ref.effective_num_rows ref)) >? 0.

Definition clear_all_filter_func (ref : Ref.t) (img : Img.t) : bool := true.

Definition grman_clear (self : GM.t) (all : bool) (cell : CellPixelSize) : GM.t :=
  filter_refs self true (if all then clear_all_filter_func else clear_filter_func) false.

Definition id_filter_func (ref : Ref.t) (img : Img.t) (g : Cmd.t)
    (cell : CellPixelSize) : bool :=
  if nz (Cmd.id g) && (Img.client_id img =? Cmd.id g)
  then negb (nz (Cmd.placement_id g)) || (Ref.client_id ref =? Cmd.placement_id g)
  else false.

Definition number_filter_func (ref : Ref.t) (img : Img.t) (g : Cmd.t)
    (cell : CellPixelSize) : bool :=
  if nz (Cmd.image_number g) && (Img.client_number img =? Cmd.image_number g)
  then negb (nz (Cmd.placement_id g)) || (Ref.client_id ref =? Cmd.placement_id g)
  else false.

Definition x_filter_func (ref : Ref.t) (img : Img.t) (g : Cmd.t)
    (cell : CellPixelSize) : bool :=
  (Ref.start_column ref <=? i32 (i32 (Cmd.x_offset g) - 1))
  && (i32 (i32 (Cmd.x_offset g) - 1)
      <? i32 (u32 (Ref.start_column ref + Ref.effective_num_cols ref))).

(** The second conjunct compares two [uint32_t] and casts the truth value. *)
Definition y_filter_func (ref : Ref.t) (img : Img.t) (g : Cmd.t)
    (cell : CellPixelSize) : bool :=
  (Ref.start_row ref <=? i32 (i32 (Cmd.y_offset g) - 1))
  && nz (i32 (if u32 (Cmd.y_offset g - 1)
                   <? u32 (Ref.start_row ref + Ref.effective_num_rows ref)
              then 1 else 0)).

Definition z_filter_func (ref : Ref.t) (img : Img.t) (g : Cmd.t)
    (cell : CellPixelSize) : bool :=
  Ref.z_index ref =? Cmd.z_index g.

Definition point_filter_func (ref : Ref.t) (img : Img.t) (g : Cmd.t)
    (cell : CellPixelSize) : bool :=
  x_filter_func ref img g cell && y_filter_func ref img g cell.

Definition point3d_filter_func (ref : Ref.t) (img : Img.t) (g : Cmd.t)
    (cell : CellPixelSize) : bool :=
  z_filter_func ref img g cell && point_filter_func ref img g cell.

Definition one_of (c a b : ascii) : bool := ((c =? a) || (c =? b))%char.

(** The [switch] of [handle_delete_command]; [None] is the [default] label,
    otherwise the filter, the upper-case letter of the action and
    [only_first_image]. *)
Definition delete_filter (g : Cmd.t) (c : Cursor) (cell : CellPixelSize)
    : option ((Ref.t -> Img.t -> bool) * ascii * bool) :=
  let a := Cmd.delete_action g in
  let with_g (f : Ref.t -> Img.t -> Cmd.t -> CellPixelSize -> bool) :=
    fun ref img => f ref img g cell in
  if negb (nzc a) || one_of a "a" "A" then Some (clear_filter_func, "A", false)%char
  else if one_of a "i" "I" then Some (with_g id_filter_func, "I", false)%char
  else if one_of a "p" "P" then Some (with_g point_filter_func, "P", false)%char
  else if one_of a "q" "Q" then Some (with_g point3d_filter_func, "Q", false)%char
  else if one_of a "x" "X" then Some (with_g x_filter_func, "X", false)%char
  else if one_of a "y" "Y" then Some (with_g y_filter_func, "Y", false)%char
  else if one_of a "z" "Z" then Some (with_g z_filter_func, "Z", false)%char
  else if one_of a "c" "C" then
    let d := Cmd.zero |> Cmd.set_x_offset (u32 (cx c + 1))
                      |> Cmd.set_y_offset (u32 (cy c + 1)) in
    Some (fun ref img => point_filter_func ref img d cell, "C", false)%char
  else if one_of a "n" "N" then Some (with_g number_filter_func, "N", true)%char
  else None.

Definition handle_delete_command (g : Cmd.t) (cell : CellPixelSize) (w : World) : World :=
  let w :=
    match delete_filter g (cursor w) cell with
    | Some (func, u, only_first_image) =>
        w |> upd_grman (fun self =>
               filter_refs self (Cmd.delete_action g =? u)%char func only_first_image)
          |> set_is_dirty true
    | None => w
    end in
  if negb (nz (image_count (grman w)))
     && nz (Z.of_nat (length (GM.render_data (grman w))))
  then upd_grman (GM.set_render_data []) w else w.

Definition grman_resize (self : GM.t) : GM.t := GM.set_layers_dirty true self.

(** Every placement is visited once and independently of the others. *)
Definition grman_rescale (self : GM.t) (cell : CellPixelSize) : GM.t :=
  self
  |> GM.set_layers_dirty true
  |> GM.upd_images (map (fun img =>
       Img.set_refs
         (map (fun ref =>
            ref |> Ref.set_cell_offsets
                     (MIN (Ref.cell_x_offset ref) (u32 (cell_width cell - 1)))
                     (MIN (Ref.cell_y_offset ref) (u32 (cell_height cell - 1)))
                |> (fun ref => update_dest_rect (Ref.num_cols ref) (Ref.num_rows ref)
                                 cell ref))
            (Img.refs img)) img)).

(** ** The dispatcher *)

(** The block of [case 0], ['t'], ['T'] and ['q']; the image the add
    returned stays in its slot until the trim of a query. *)
Definition handle_add_action (env : Env) (g : Cmd.t) (cell : CellPixelSize)
    (w : World) : World * option string :=
  let q_iid := Cmd.id g in
  let is_query := (Cmd.action g =? "q")%char in
  if is_query && negb (nz q_iid) then (w, None)
  else
    let iid := if is_query then 0 else Cmd.id g in
    let '(w, image) := handle_add_command env g iid w in
    let '(w, ret) :=
      if is_query then finish_command_response g (bool_decide (image <> None)) q_iid 0 0 w
      else
        let li := GM.last_init_graphics_command (grman w) in
        finish_command_response g (bool_decide (image <> None))
          (Cmd.id li) (Cmd.placement_id li) (Cmd.image_number li) w in
    let li := GM.last_init_graphics_command (grman w) in
    let w :=
      match image with
      | Some i =>
          if (Cmd.action li =? "T")%char && Img.data_loaded (image_at w i)
          then fst (handle_put_command env li (Some i) cell w) else w
      | None => w
      end in
    let added_image_id :=
      match image with
      | Some i => Img.internal_id (image_at w i)
      | None => 0
      end in
    let w := if (Cmd.action g =? "q")%char
             then upd_grman (fun self => remove_images self add_trim_predicate 0) w
             else w in
    let w := if GM.used_storage (grman w) >? STORAGE_LIMIT
             then upd_grman (fun self =>
                    apply_storage_quota self STORAGE_LIMIT added_image_id) w
             else w in
    (w, ret).

Definition grman_handle_command (env : Env) (g : Cmd.t) (cell : CellPixelSize)
    (w : World) : World * option string :=
  let w := set_command_response "" w in
  if nz (Cmd.id g) && nz (Cmd.image_number g) then
    let w := set_command_failed_response "EINVAL"
               "Must not specify both image id and image number" w in
    finish_command_response g false (Cmd.id g) (Cmd.placement_id g)
      (Cmd.image_number g) w
  else
    let a := Cmd.action g in
    if negb (nzc a) || one_of a "t" "T" || (a =? "q")%char then
      handle_add_action env g cell w
    else if (a =? "p")%char then
      if negb (nz (Cmd.id g)) && negb (nz (Cmd.image_number g)) then (w, None)
      else
        let '(w, image_id) := handle_put_command env g None cell w in
        finish_command_response g true image_id (Cmd.placement_id g)
          (Cmd.image_number g) w
    else if (a =? "d")%char then (handle_delete_command g cell w, None)
    else (w, None).

(** * What is proved of the manager

    The predicates the theorems are stated with, and the concrete
    commands and worlds they are tried on. *)

(** ** The storage quota *)

Definition spared (predicate : Img.t -> bool) (skip : Z) (img : Img.t) : bool :=
  negb (negb (Img.internal_id img =? skip) && predicate img).

Module Scenario.
(** A world in which every collaborator succeeds; files are [size] bytes
    long and the clock reads [now] and then [now + 1]. *)
Definition env (now size : Z) : Env :=
  {| monotonic_add := now; monotonic_put := now + 1;
     malloc_ok := true; realloc_ok := true;
     open_fd := 3; errno := 0; strerror := "";
     fstat_ok := true; st_size := size; mmap_ok := true;
     inflateInit_ret := Z_OK; inflate_ret := Z_STREAM_END; inflate_avail_out := 0;
     png := PngError "EINVAL" "not a PNG"; gpu_texture_id := 7 |}.

Definition start : World :=
  {| grman := GM.grman_alloc; cursor := {| cx := 0; cy := 0 |};
     is_dirty := false; command_response := "";
     internal_id_counter := 1; send_to_gpu := true |}.

Definition cell : CellPixelSize := {| cell_width := 10; cell_height := 20 |}.

(** [a=<action>,i=<id>,I=<number>,s=<width>,v=<height>] with a direct
    payload of [payload_sz] bytes. *)
Definition transmit (action : ascii) (id number width height payload_sz : Z) : Cmd.t :=
  Cmd.zero |> Cmd.set_action action |> Cmd.set_id id
           |> Cmd.set_image_number number
           |> Cmd.set_data_size width height |> Cmd.set_payload_sz payload_sz.

(** The same image sent as the name of a file. *)
Definition transmit_file (action : ascii) (id width height : Z) : Cmd.t :=
  transmit action id 0 width height 12 |> Cmd.set_transmission_type "f".

Definition run (e : Env) (g : Cmd.t) (w : World) : World :=
  fst (grman_handle_command e g cell w).
End Scenario.

(** The commands the dispatcher hands to [handle_add_command]. *)
Definition reaches_add_handler (g : Cmd.t) : bool :=
  let a := Cmd.action g in
  (negb (nzc a) || one_of a "t" "T" || (a =? "q")%char)
  && negb (nz (Cmd.id g) && nz (Cmd.image_number g))
  && negb ((a =? "q")%char && negb (nz (Cmd.id g))).

Module QuotaScenario.
Import Scenario.

(** Two images of 256 000 000 bytes each, both placed on the screen. *)
Definition first : Cmd.t := transmit_file "T" 1 8000 8000.
Definition second : Cmd.t := transmit_file "T" 2 8000 8000.
Definition after_first : World := run (env 100 256000000) first start.
Definition after_second : World := run (env 200 256000000) second after_first.

(** The second image as [handle_add_command] leaves it. *)
Definition added_second : World :=
  fst (handle_add_command (env 200 256000000) second 2
         (set_command_response "" after_first)).

(** One image of 400 000 000 bytes. *)
Definition huge : Cmd.t := transmit_file "t" 1 10000 10000.
End QuotaScenario.

(** ** The response *)

(** The response of the protocol:
    [G i=<id> ,I=<number> ,p=<placement> ; <outcome>], where a part is left
    out when its number is zero. *)
Definition response_text (iid placement_id image_number : Z) (outcome : string) : string :=
  ("G" ++ (if nz iid then "i=" ++ print_u iid else "")
       ++ (if nz image_number then ",I=" ++ print_u image_number else "")
       ++ (if nz placement_id then ",p=" ++ print_u placement_id else "")
       ++ ";" ++ outcome)%string.


Module ResponseScenario.
Import Scenario.

Definition add : Cmd.t := transmit "t" 1 0 1 1 4.
Definition after_add : World := run (env 100 0) add start.

(** [a=d,d=i,i=1]: delete the placements of image 1. *)
Definition delete : Cmd.t :=
  Cmd.zero |> Cmd.set_action "d" |> Cmd.set_delete_action "i" |> Cmd.set_id 1.
End ResponseScenario.

(** ** Put on an image that is not loaded *)

Definition put_unloaded_failure (g : Cmd.t) : string :=
  ("ENOENT:Put command refers to image with id: " ++ print_u (Cmd.id g)
   ++ " that could not load its data")%string.

Module PutScenario.
Import Scenario.

(** The first chunk of an image: its data is not loaded yet. *)
Definition first_chunk : Cmd.t := transmit "t" 1 0 2 2 8 |> Cmd.set_more 1.
Definition loading : World := run (env 100 0) first_chunk start.

(** [a=p,i=1]. *)
Definition put : Cmd.t := Cmd.zero |> Cmd.set_action "p" |> Cmd.set_id 1.
End PutScenario.

(** ** Direct transmission *)

(** Updates of the manager that leave the images alone. *)
Definition keeps_images (f : GM.t -> GM.t) : Prop :=
  forall self : GM.t, GM.images (f self) = GM.images self.

Module ChunkScenario.
Import Scenario.

(** A 1x1 RGBA image announced with a first chunk of ten bytes. *)
Definition first_chunk : Cmd.t := transmit "t" 1 0 1 1 10 |> Cmd.set_more 1.
Definition loading : World := run (env 100 0) first_chunk start.

(** A chunk of four bytes fits the buffer of fourteen. *)
Definition small_chunk : Cmd.t := Cmd.zero |> Cmd.set_payload_sz 4.
End ChunkScenario.

Module OverrunScenario.
Import Scenario.

(** [a=t,i=1,f=100,S=1,m=1]: the first chunk of a PNG announced as one
    byte long, with 4096 bytes of payload. *)
Definition first_chunk : Cmd.t :=
  transmit "t" 1 0 0 0 4096 |> Cmd.set_format PNG |> Cmd.set_data_sz 1
                            |> Cmd.set_more 1.
Definition loading : World := run (env 100 0) first_chunk start.

(** A further chunk, of 4*10^8 bytes. *)
Definition next_chunk : Cmd.t :=
  Cmd.zero |> Cmd.set_more 1 |> Cmd.set_payload_sz 400000000.
Definition overfull : World := run (env 200 0) next_chunk loading.
End OverrunScenario.

(** ** Storage accounting *)

Definition storage_sum (imgs : list Img.t) : Z :=
  foldr (fun img s => Img.used_storage img + s) 0 imgs.

(** The manager is charged at least what its images are charged, and no
    counter has wrapped around. *)
Definition storage_accounted (self : GM.t) : Prop :=
  Forall (fun img => 0 <= Img.used_storage img) (GM.images self)
  /\ storage_sum (GM.images self) <= GM.used_storage self < 2^64.

(** [flow_ok m Q]: when [m] leaves the function it returns NULL, and when it
    falls through, [Q] holds. *)
Definition flow_ok {A : Type} (m : flow A) (Q : World -> A -> Prop) : Prop :=
  match m with
  | Return _ ret => ret = None
  | Next w a => Q w a
  end.

(** ** Adding an image while GPU uploads are disabled *)

(** What holds of the image in slot [i] while it is being added: it is not
    charged, the manager is charged at most [U], and a direct transmission
    has its buffer. *)
Definition staged (U : Z) (tt : ascii) (w : World) (i : nat) : Prop :=
  (i < length (GM.images (grman w)))%nat
  /\ send_to_gpu w = false
  /\ Img.used_storage (image_at w i) = 0
  /\ GM.used_storage (grman w) <= U
  /\ (tt = "d"%char -> LD.buf (Img.load_data (image_at w i)) = true).

(** The image of an unfinished direct transmission is not charged and has
    its buffer. *)
Definition loading_image_ok (w : World) : Prop :=
  GM.loading_image (grman w) <> 0 ->
  forall i : nat,
    img_by_internal_id (grman w) (GM.loading_image (grman w)) = Some i ->
    Img.used_storage (image_at w i) = 0
    /\ LD.buf (Img.load_data (image_at w i)) = true.

(** After a file transmission a loaded image has its mapping. *)
Definition mapped_if_loaded (w : World) (i : nat) : Prop :=
  Img.data_loaded (image_at w i) = true ->
  LD.mapped_file (Img.load_data (image_at w i)) = true.

(** The decoded bitmap is still where [load_data.data] points. *)
Definition bitmap_retained (ld : LD.t) : Prop :=
  (LD.data ld = DataBuf /\ LD.buf ld = true /\ LD.data_sz ld <= LD.buf_used ld)
  \/ (LD.data ld = DataMapped /\ LD.mapped_file ld = true
      /\ LD.data_sz ld <= LD.mapped_file_sz ld).

(** The image in slot [i] once its data is complete. *)
Definition loaded (U : Z) (w : World) (i : nat) : Prop :=
  (i < length (GM.images (grman w)))%nat
  /\ send_to_gpu w = false
  /\ Img.used_storage (image_at w i) = 0
  /\ GM.used_storage (grman w) <= U
  /\ Img.data_loaded (image_at w i) = true.

Module GpuOffScenario.
Import Scenario.

(** The test mode: uploads to the GPU are switched off. *)
Definition start_off : World := set_send_to_gpu false start.

(** A 1x1 RGBA image in two chunks of ten and four bytes. *)
Definition loading : World := run (env 100 0) ChunkScenario.first_chunk start_off.
Definition last_chunk : Cmd.t := ChunkScenario.small_chunk.
Definition added : World :=
  fst (handle_add_command (env 200 0) last_chunk 0 loading).
End GpuOffScenario.

(** ** The source rectangle of a placement *)

(** The crop of a placement lies inside an image of [width] by [height]
    pixels, as far as its origin does: beyond the right or the lower edge the
    crop is empty. *)
Definition src_rect_ok (width height : Z) (ref : Ref.t) : Prop :=
  0 <= Ref.src_x ref /\ 0 <= Ref.src_y ref
  /\ 0 <= Ref.src_width ref /\ 0 <= Ref.src_height ref
  /\ Z.min (Ref.src_x ref) width + Ref.src_width ref <= width
  /\ Z.min (Ref.src_y ref) height + Ref.src_height ref <= height.

Definition image_ok (img : Img.t) : Prop :=
  0 <= Img.width img < 2^32 /\ 0 <= Img.height img < 2^32
  /\ Forall (src_rect_ok (Img.width img) (Img.height img)) (Img.refs img).

Definition placements_ok (self : GM.t) : Prop := Forall image_ok (GM.images self).

(** The pixel quantities of a command are unsigned. *)
Definition crop_in_range (g : Cmd.t) : Prop :=
  0 <= Cmd.x_offset g /\ 0 <= Cmd.y_offset g
  /\ 0 <= Cmd.width g /\ 0 <= Cmd.height g.

(** A filter of [modify_refs] that leaves the crop of every placement it
    keeps inside the image. *)
Definition keeps_src_rect (filter_func : Ref.t -> Img.t -> Ref.t * bool) : Prop :=
  forall (ref : Ref.t) (img : Img.t),
    0 <= Img.width img < 2^32 -> 0 <= Img.height img < 2^32 ->
    src_rect_ok (Img.width img) (Img.height img) ref ->
    snd (filter_func ref img) = false ->
    src_rect_ok (Img.width img) (Img.height img) (fst (filter_func ref img)).

Module CropScenario.
Import Scenario.

(** An image of one pixel and a put whose crop starts at column 20. *)
Definition add : Cmd.t := transmit "t" 1 0 1 1 4.
Definition after_add : World := run (env 100 0) add start.
Definition put : Cmd.t :=
  Cmd.zero |> Cmd.set_action "p" |> Cmd.set_id 1 |> Cmd.set_x_offset 20.
Definition after_put : World := run (env 200 0) put after_add.
End CropScenario.

(** The invariant as the specification words it. *)
Definition src_rect_inside_image (self : GM.t) : Prop :=
  Forall (fun img =>
    Forall (fun ref =>
      Ref.src_x ref + Ref.src_width ref <= Img.width img
      /\ Ref.src_y ref + Ref.src_height ref <= Img.height img)
      (Img.refs img))
    (GM.images self).

(** ** Free ids, layers and deleting by row *)

Module FreeIdScenario.
Import Scenario.

(** Two images with the client ids 1 and 3 000 000 000, then an add that
  names its image by number only: [a=t,I=7]. *)
Definition two_images : World :=
start |> run (env 100 0) (transmit "t" 1 0 1 1 4)
      |> run (env 200 0) (transmit "t" 3000000000 0 1 1 4).
Definition add_by_number : Cmd.t := transmit "t" 0 7 1 1 4.

(** The ids 1 and 2 of the example of the specification. *)
Definition small_ids : World :=
start |> run (env 100 0) (transmit "t" 1 0 1 1 4)
      |> run (env 200 0) (transmit "t" 2 0 1 1 4).
End FreeIdScenario.

Module LayerScenario.
Import Scenario.

(** Every placement is on the screen. *)
Definition all_visible (img : Img.t) (ref : Ref.t) : bool := true.

(** One image with two placements, at z = -2 000 000 000 and
  z = 2 000 000 000. *)
Definition far_apart : World :=
start |> run (env 100 0)
           (transmit "T" 1 0 1 1 4 |> Cmd.set_z_index (-2000000000))
      |> run (env 200 0)
           (Cmd.zero |> Cmd.set_action "p" |> Cmd.set_id 1
                     |> Cmd.set_z_index 2000000000).

(** One image with two placements at z = 0. *)
Definition twice : World :=
start |> run (env 100 0) (transmit "T" 1 0 1 1 4)
      |> run (env 200 0) (Cmd.zero |> Cmd.set_action "p" |> Cmd.set_id 1).

Definition layers (w : World) : list RD.t :=
GM.render_data (fst (grman_update_layers all_visible 0 (grman w))).
End LayerScenario.

Module DeleteScenario.
Import Scenario.

(** An image two rows high is placed at row 0 and scrolled up by five
  rows, into the scrollback: it now covers rows -5 and -4. *)
Definition placed : World := run (env 100 0) (transmit "T" 1 0 1 40 160) start.
Definition scroll : ScrollData :=
{| amt := -5; limit := -100; margin_top := 0; margin_bottom := 0;
   has_margins := false |}.
Definition scrolled : World :=
upd_grman (fun self => grman_scroll_images self scroll cell) placed.

(** [a=d,d=y,y=1]: delete what crosses the first row of the screen. *)
Definition delete_row : Cmd.t :=
Cmd.zero |> Cmd.set_action "d" |> Cmd.set_delete_action "y" |> Cmd.set_y_offset 1.
End DeleteScenario.

(** ** The invariant of the manager *)

(** What holds of every image between two commands: its placements are
    clamped, its charge is not negative, its data size is that of a bitmap
    that fits the memory, and while it is not loaded it has no placement and
    no charge. *)
Definition settled (img : Img.t) : Prop :=
  image_ok img
  /\ 0 <= Img.used_storage img
  /\ LD.data_sz (Img.load_data img) < 2^63
  /\ (Img.data_loaded img = false ->
      Img.refs img = [] /\ Img.used_storage img = 0).

(** The image named by [loading_image] is not loaded and has its buffer. *)
Definition loading_consistent (self : GM.t) : Prop :=
  GM.loading_image self <> 0 ->
  forall img : Img.t,
    img ∈ GM.images self -> Img.internal_id img = GM.loading_image self ->
    Img.data_loaded img = false /\ LD.buf (Img.load_data img) = true.

(** The command saved from the first chunk keeps unsigned pixel quantities,
    and while an image is being loaded it is the command of a direct
    transmission. *)
Definition saved_command_ok (self : GM.t) : Prop :=
  crop_in_range (GM.last_init_graphics_command self)
  /\ (GM.loading_image self <> 0 ->
      effective_transmission_type (GM.last_init_graphics_command self) = "d"%char).

Definition consistent (w : World) : Prop :=
  Forall settled (GM.images (grman w))
  /\ NoDup (Img.internal_id <$> GM.images (grman w))
  /\ Forall (fun img => Img.internal_id img < internal_id_counter w)
       (GM.images (grman w))
  /\ storage_sum (GM.images (grman w)) <= GM.used_storage (grman w) < 2^64
  /\ loading_consistent (grman w)
  /\ saved_command_ok (grman w).

(** The invariant between two commands: the world is consistent and the
    storage in use is within the quota. *)
Definition invariant (w : World) : Prop :=
  consistent w /\ GM.used_storage (grman w) <= STORAGE_LIMIT.

(** The image in slot [i] is being added: it has no placement and no
    charge, and it is the image [loading_image] names, if that names one. *)
Definition pending (w : World) (i : nat) : Prop :=
  exists img : Img.t,
    GM.images (grman w) !! i = Some img
    /\ Img.refs img = [] /\ Img.used_storage img = 0
    /\ (GM.loading_image (grman w) <> 0 ->
        GM.loading_image (grman w) = Img.internal_id img).

Definition adding (w : World) (i : nat) : Prop := invariant w /\ pending w i.

(** When [handle_add_command] leaves early it returns NULL and the
    invariant holds; when it falls through, [Q] holds. *)
Definition flow_inv {A : Type} (m : flow A) (Q : World -> A -> Prop) : Prop :=
  match m with
  | Return w ret => ret = None /\ invariant w
  | Next w a => Q w a
  end.

(** The facts about the image in slot [i] that a step may rely on. *)
Definition pending_image (w : World) (img : Img.t) : Prop :=
  settled img /\ Img.refs img = [] /\ Img.used_storage img = 0
  /\ (GM.loading_image (grman w) <> 0 ->
      GM.loading_image (grman w) = Img.internal_id img
      /\ Img.data_loaded img = false /\ LD.buf (Img.load_data img) = true).

(** What a step must leave of the image it rewrites. *)
Definition still_pending (w' : World) (old new : Img.t) : Prop :=
  Img.internal_id new = Img.internal_id old
  /\ Img.refs new = [] /\ Img.used_storage new = 0
  /\ (0 <= Img.width new < 2^32 /\ 0 <= Img.height new < 2^32)
  /\ LD.data_sz (Img.load_data new) < 2^63
  /\ (GM.loading_image (grman w') <> 0 ->
      GM.loading_image (grman w') = Img.internal_id old
      /\ Img.data_loaded new = false /\ LD.buf (Img.load_data new) = true).

(** The PNG reader reports a bitmap whose sides are [uint32_t] and whose
    size fits the memory. *)
Definition env_in_range (env : Env) : Prop :=
  match png env with
  | PngOk sz width height =>
      0 <= width < 2^32 /\ 0 <= height < 2^32 /\ sz < 2^63
  | PngError _ _ => True
  end.

(** The world after an add command, before the quota is applied: the image
    just uploaded may have taken the storage beyond the limit. *)
Definition uploaded (w : World) : Prop :=
  consistent w /\ GM.used_storage (grman w) <= STORAGE_LIMIT + 2^63.

(** What [remove_image] leaves alone. *)
Definition same_transmission (self self' : GM.t) : Prop :=
  GM.loading_image self' = GM.loading_image self
  /\ GM.last_init_graphics_command self' = GM.last_init_graphics_command self.

(** The pixel quantities and the sizes of a command are unsigned. *)
Definition cmd_in_range (g : Cmd.t) : Prop :=
  crop_in_range g /\ 0 <= Cmd.data_width g /\ 0 <= Cmd.data_height g.

(** The image in slot [i] has been reset for a new transmission. *)
Definition initialising (w : World) (i : nat) : Prop :=
  adding w i /\ GM.loading_image (grman w) = 0
  /\ Img.data_loaded (image_at w i) = false.

(** ** Operations on placements *)

(** [new] is [old] but for its placements and its access time; an image
    that is not loaded gets no placement. *)
Definition refs_edit (old new : Img.t) : Prop :=
  Img.internal_id new = Img.internal_id old
  /\ Img.used_storage new = Img.used_storage old
  /\ Img.data_loaded new = Img.data_loaded old
  /\ Img.load_data new = Img.load_data old
  /\ (Img.refs old = [] -> Img.data_loaded old = false -> Img.refs new = []).

Definition internal_ids (self : GM.t) : list Z := Img.internal_id <$> GM.images self.

(** The images of [self'] are images of [self] with their placements
    edited, in the same order; the images that went were uncharged. *)
Definition refs_edited (self self' : GM.t) : Prop :=
  sublist (internal_ids self') (internal_ids self)
  /\ Forall (fun new => exists old, old ∈ GM.images self /\ refs_edit old new)
       (GM.images self')
  /\ same_transmission self self'
  /\ (storage_accounted self ->
      storage_accounted self' /\ GM.used_storage self' <= GM.used_storage self).

(** ** The worlds the terminal can reach *)

(** The images, the storage and the transmission are as they were. *)
Definition untouched (self self' : GM.t) : Prop :=
  GM.images self' = GM.images self
  /\ GM.used_storage self' = GM.used_storage self
  /\ same_transmission self self'.

(** The operations of the terminal on the manager.  A command comes with
    unsigned pixel quantities, the PNG reader reports [uint32_t] sides, and
    the id counter has not run out. *)
Inductive step (w : World) : World -> Prop :=
| step_command (env : Env) (g : Cmd.t) (cell : CellPixelSize) :
    env_in_range env -> cmd_in_range g ->
    0 <= internal_id_counter w < 2^64 - 1 ->
    step w (fst (grman_handle_command env g cell w))
| step_scroll (data : ScrollData) (cell : CellPixelSize) :
    step w (upd_grman (fun self => grman_scroll_images self data cell) w)
| step_clear (all : bool) (cell : CellPixelSize) :
    step w (upd_grman (fun self => grman_clear self all cell) w)
| step_resize :
    step w (upd_grman grman_resize w)
| step_rescale (cell : CellPixelSize) :
    step w (upd_grman (fun self => grman_rescale self cell) w)
| step_update_layers (visible : Img.t -> Ref.t -> bool) (scrolled_by : Z) :
    step w (upd_grman (fun self => fst (grman_update_layers visible scrolled_by self)) w)
| step_cursor (c : Cursor) :
    step w (set_cursor c w)
| step_send_to_gpu (b : bool) :
    step w (set_send_to_gpu b w).

(** The manager starts as [grman_alloc] returns it. *)
Inductive reachable : World -> Prop :=
| reachable_start (w : World) :
    grman w = GM.grman_alloc -> reachable w
| reachable_step (w w' : World) :
    reachable w -> step w w' -> reachable w'.

(** ** Orders *)

(** On the elements of [l] the comparator decides a total preorder. *)
Definition decides_order {A : Type} (compar : A -> A -> Z) (le : A -> A -> Prop)
    (l : list A) : Prop :=
  (forall x y, x ∈ l -> y ∈ l -> (compar x y <= 0 <-> le x y))
  /\ (forall x y, x ∈ l -> y ∈ l -> le x y \/ le y x)
  /\ (forall x y z, x ∈ l -> y ∈ l -> z ∈ l -> le x y -> le y z -> le x z).

(** The clock is read in nanoseconds: far from the ends of [int64_t]. *)
Definition atime_in_range (img : Img.t) : Prop := - 2^62 <= Img.atime img < 2^62.

(** What [apply_storage_quota] keeps: all the images the trim phase left, or
    the first [k] of them in the order of [qsort], none of them accessed
    before an image that went. *)
Definition newest_kept (self : GM.t) (storage_limit added : Z) : Prop :=
  let trimmed := GM.images (remove_images self trim_predicate added) in
  let sorted := qsort oldest_last trimmed in
  GM.images (apply_storage_quota self storage_limit added) = trimmed
  \/ exists k : nat,
       GM.images (apply_storage_quota self storage_limit added) = take k sorted
       /\ forall kept evicted : Img.t,
            kept ∈ take k sorted -> evicted ∈ drop k sorted ->
            Img.atime evicted <= Img.atime kept.

Module AgeScenario.
Import Scenario.

(** Two images of four bytes, placed at the times 101 and 201. *)
Definition older : World := run (env 100 0) (transmit "T" 1 0 1 1 4) start.
Definition both : World := run (env 200 0) (transmit "T" 2 0 1 1 4) older.
End AgeScenario.

(** ** The layers *)

(** The render entry of a placement of an image. *)
Definition layer_of (img : Img.t) (ref : Ref.t) : RD.t :=
  {| RD.texture_id := Img.texture_id img; RD.group_count := 0;
     RD.z_index := Ref.z_index ref; RD.image_id := Img.internal_id img |}.

(** The entries of the placements on the screen, image by image. *)
Definition visible_layers (visible : Img.t -> Ref.t -> bool) (imgs : list Img.t)
    : list RD.t :=
  flat_map (fun img => map (layer_of img) (List.filter (visible img) (Img.refs img)))
    imgs.

(** The draw order: by [z_index], then by [image_id]. *)
Definition draws_before (a b : RD.t) : Prop :=
  RD.z_index a < RD.z_index b
  \/ (RD.z_index a = RD.z_index b /\ RD.image_id a <= RD.image_id b).

(** Two entries that differ in their [group_count] at most. *)
Definition same_layer (a b : RD.t) : Prop :=
  RD.texture_id a = RD.texture_id b
  /\ RD.z_index a = RD.z_index b /\ RD.image_id a = RD.image_id b.

(** The z indices and the internal ids are small enough for their
    differences to fit an [int]. *)
Definition in_draw_range (img : Img.t) : Prop :=
  0 <= Img.internal_id img < 2^31
  /\ Forall (fun ref => - 2^30 <= Ref.z_index ref < 2^30) (Img.refs img).

Definition layer_in_range (r : RD.t) : Prop :=
  - 2^30 <= RD.z_index r < 2^30 /\ 0 <= RD.image_id r < 2^31.

Module DrawScenario.
Import Scenario.

(** One image placed at z = 5 and again at z = -3, and a second image
    placed at z = -3. *)
Definition three_layers : World :=
  start |> run (env 100 0) (transmit "T" 1 0 1 1 4 |> Cmd.set_z_index 5)
        |> run (env 200 0)
             (Cmd.zero |> Cmd.set_action "p" |> Cmd.set_id 1
                       |> Cmd.set_z_index (-3))
        |> run (env 300 0) (transmit "T" 2 0 1 1 4 |> Cmd.set_z_index (-3)).

Definition layers : GM.t * bool :=
  grman_update_layers LayerScenario.all_visible 0 (grman three_layers).
End DrawScenario.

Definition is_below (r : RD.t) : bool := RD.z_index r <? Z.quot INT32_MIN 2.
Definition is_negative (r : RD.t) : bool :=
  negb (RD.z_index r <? Z.quot INT32_MIN 2) && (RD.z_index r <? 0).
Definition is_positive (r : RD.t) : bool := negb (RD.z_index r <? 0).

Definition count_of (p : RD.t -> bool) (rd : list RD.t) : Z :=
  Z.of_nat (length (List.filter p rd)).

(** The three counters count the entries of [render_data] by the range of
    their [z_index]. *)
Definition counters_match (self : GM.t) : Prop :=
  GM.num_of_below_refs self = count_of is_below (GM.render_data self)
  /\ GM.num_of_negative_refs self = count_of is_negative (GM.render_data self)
  /\ GM.num_of_positive_refs self = count_of is_positive (GM.render_data self).

(** From entry [i] on, [rd] is a sequence of groups: each starts at an
    entry that holds the length of the group in [group_count], consists of
    entries of the image of that first entry, and is followed by the next
    group or by the end of [rd]. *)
Inductive tiled (rd : list RD.t) : nat -> Prop :=
| tiled_end : tiled rd (length rd)
| tiled_group (i n : nat) (r : RD.t) :
    rd !! i = Some r ->
    RD.group_count r = Z.of_nat n -> (0 < n)%nat ->
    (forall (j : nat) (r' : RD.t),
       (i <= j < i + n)%nat -> rd !! j = Some r' -> RD.image_id r' = RD.image_id r) ->
    tiled rd (i + n) ->
    tiled rd i.

(** ** Filters *)

(** The filter looks at the image, not at its placements. *)
Definition ignores_refs (filter_func : Ref.t -> Img.t -> bool) : Prop :=
  forall (ref : Ref.t) (img : Img.t) (refs : list Ref.t),
    filter_func ref (Img.set_refs refs img) = filter_func ref img.

(** The image without the placements the filter matches. *)
Definition filter_image (filter_func : Ref.t -> Img.t -> bool) (img : Img.t) : Img.t :=
  Img.set_refs (List.filter (fun ref => negb (filter_func ref img)) (Img.refs img)) img.

(** An image without placements goes when the caller frees images or when
    it has no client id. *)
Definition reaped (free_images : bool) (img : Img.t) : bool :=
  (refcnt img =? 0) && (free_images || (Img.client_id img =? 0)).

Definition filtered_images (filter_func : Ref.t -> Img.t -> bool) (free_images : bool)
    (imgs : list Img.t) : list Img.t :=
  List.filter (fun img => negb (reaped free_images img))
    (map (filter_image filter_func) imgs).

(** The image but for its placements. *)
Definition without_refs (img : Img.t) : Img.t := Img.set_refs [] img.

(** The images that carry a client id, placements aside. *)
Definition named_images (imgs : list Img.t) : list Img.t :=
  map without_refs (List.filter (fun img => nz (Img.client_id img)) imgs).

(** What a delete command passes to [filter_refs] as [free_images]. *)
Definition frees_images (g : Cmd.t) (c : Cursor) (cell : CellPixelSize) : bool :=
  match delete_filter g c cell with
  | Some (_, u, _) => (Cmd.delete_action g =? u)%char
  | None => false
  end.

Module KeepScenario.
Import Scenario.

(** An image with the client id 1, placed once. *)
Definition placed : World := run (env 100 0) (transmit "T" 1 0 1 1 4) start.

(** [a=d,d=i,i=1]: delete the placements of image 1, keep the image. *)
Definition delete_placements : Cmd.t :=
  Cmd.zero |> Cmd.set_action "d" |> Cmd.set_delete_action "i" |> Cmd.set_id 1.
End KeepScenario.

(** The storage in use that no image is charged with. *)
Definition slack (self : GM.t) : Z :=
  GM.used_storage self - storage_sum (GM.images self).

(** The step keeps the accounts and the slack. *)
Definition keeps_slack (self self' : GM.t) : Prop :=
  storage_accounted self -> storage_accounted self' /\ slack self' = slack self.

(** ** Clearing, cells, put and scroll *)



(** The cell [c] is one of the [size] cells that begin at [start]. *)
Definition covers (start size c : Z) : bool := (start <=? c) && (c <? start + size).

Module CellScenario.
(** Three rows and four columns; the first column is left of the screen. *)
Definition ref : Ref.t :=
  Ref.zero |> Ref.set_src 25 45 0 0
           |> Ref.set_start_row 2 |> Ref.set_start_column (-1)
           |> Ref.set_effective_num_rows 3 |> Ref.set_effective_num_cols 4.

(** [x=3,y=5]. *)
Definition at_cell : Cmd.t := Cmd.zero |> Cmd.set_x_offset 3 |> Cmd.set_y_offset 5.
End CellScenario.

(** [n] cells of [size] pixels are the fewest that hold [pixels] pixels. *)
Definition fewest_cells (size pixels n : Z) : Prop :=
  size * (n - 1) < pixels <= size * n.

(** The cells [update_dest_rect] gives to one side of a placement. *)
Definition cells_hold (given size pixels n : Z) : Prop :=
  if given =? 0 then fewest_cells size pixels n else n = given.

(** The placement ids of an image, in the order of its placements. *)
Definition placement_ids (img : Img.t) : list Z := Ref.client_id <$> Img.refs img.

(** The id a put command gives to the placement: an image without a
    client id takes none. *)
Definition put_placement_id (g : Cmd.t) (img : Img.t) : Z :=
  if nz (Img.client_id img) then Cmd.placement_id g else 0.

Module AgainScenario.
(** [a=p,i=1]: one more placement of image 1. *)
Definition put_again : Cmd.t := Cmd.zero |> Cmd.set_action "p" |> Cmd.set_id 1.

Definition image : Img.t := image_at KeepScenario.placed 0.
End AgainScenario.

(** The image with every placement rewritten by the filter, without the
    placements the filter rejects. *)
Definition modify_image (filter_func : Ref.t -> Img.t -> Ref.t * bool) (img : Img.t)
    : Img.t :=
  Img.set_refs
    (fst <$> List.filter (fun r => negb (snd r))
               ((fun ref => filter_func ref img) <$> Img.refs img))
    img.

Definition modified_images (filter_func : Ref.t -> Img.t -> Ref.t * bool)
    (free_images : bool) (imgs : list Img.t) : list Img.t :=
  List.filter (fun img => negb (reaped free_images img))
    (map (modify_image filter_func) imgs).

(** The filter of [grman_scroll_images]. *)
Definition scroll_func (data : ScrollData) (cell : CellPixelSize)
    : Ref.t -> Img.t -> Ref.t * bool :=
  fun ref img =>
    if has_margins data then scroll_filter_margins_func ref img data cell
    else scroll_filter_func ref img data cell.

(** The filter reads the placement, not the image. *)
Definition ignores_image (filter_func : Ref.t -> Img.t -> Ref.t * bool) : Prop :=
  forall (ref : Ref.t) (img img' : Img.t), filter_func ref img = filter_func ref img'.

Definition both_identities : string :=
  "EINVAL:Must not specify both image id and image number".

(** The images are in the order in which they were created. *)
Definition in_creation_order (imgs : list Img.t) : Prop :=
  StronglySorted (fun a b => Img.internal_id a < Img.internal_id b) imgs.

(** The image has its data and a placement. *)
Definition displayed (img : Img.t) : Prop :=
  Img.data_loaded img = true /\ Img.refs img <> [].

(** The image has its data, and a client id or a placement. *)
Definition in_use (img : Img.t) : Prop :=
  Img.data_loaded img = true /\ (Img.client_id img <> 0 \/ Img.refs img <> []).



Module QueryScenario.
(** [a=q,i=9,s=1,v=1] with the four bytes of one pixel. *)
Definition query : Cmd.t := Scenario.transmit "q" 9 0 1 1 4.
End QueryScenario.

(** ** The outcome of an add command *)

(** The bytes of a pixel of the bitmap. *)
Definition bytes_per_pixel (img : Img.t) : Z :=
  if LD.is_opaque (Img.load_data img) then 3 else 4.

(** The image in slot [i] as a successful add leaves it: loaded, no
    transmission pending, its data size that of its dimensions, and once it
    is on the GPU charged that size, with its load buffers freed. *)
Definition added (env : Env) (w : World) (i : nat) : Prop :=
  let img := image_at w i in
  (i < length (GM.images (grman w)))%nat
  /\ Img.data_loaded img = true
  /\ GM.loading_image (grman w) = 0
  /\ LD.data_sz (Img.load_data img)
     = u64 (bytes_per_pixel img * Img.width img * Img.height img)
  /\ (send_to_gpu w = true ->
      Img.used_storage img = LD.data_sz (Img.load_data img)
      /\ Img.texture_id img = gpu_texture_id env
      /\ LD.buf (Img.load_data img) = false
      /\ LD.mapped_file (Img.load_data img) = false).

(** The image in slot [i] between the transmission and the upload. *)
Definition received (w : World) (i : nat) : Prop :=
  (i < length (GM.images (grman w)))%nat
  /\ Img.data_loaded (image_at w i) = true
  /\ GM.loading_image (grman w) = 0.

Module AddScenario.
Import Scenario.

(** [a=t,i=1,s=1,v=1] with the four bytes of one pixel. *)
Definition one_pixel : Cmd.t := transmit "t" 1 0 1 1 4.

Definition after : World := fst (handle_add_command (env 100 0) one_pixel 1 start).
End AddScenario.

(** When [m] leaves the function it returns NULL and [R] holds; when it
    falls through, [Q] holds. *)
Definition flow_post {A : Type} (m : flow A) (R : World -> Prop)
    (Q : World -> A -> Prop) : Prop :=
  match m with
  | Return w ret => ret = None /\ R w
  | Next w a => Q w a
  end.

(** The response is still [r], or no transmission is pending. *)
Definition quiet_or_idle (r : string) (w : World) : Prop :=
  command_response w = r \/ GM.loading_image (grman w) = 0.

(** After the transmission the response is as it was, or the image is not
    loaded and no transmission is pending. *)
Definition quiet_or_unloaded (r : string) (i : nat) (w : World) : Prop :=
  command_response w = r
  \/ (Img.data_loaded (image_at w i) = false /\ GM.loading_image (grman w) = 0).

Module FailScenario.
Import Scenario.

(** One pixel of four bytes, of which two are sent. *)
Definition short : Cmd.t := transmit "t" 1 0 1 1 2.

Definition after : World := fst (handle_add_command (env 100 0) short 1 start).
End FailScenario.

(** [image_for_client_id]: [id] is the [unsigned long] read from the
    argument, which [find_or_create_image] takes as a [uint32_t]; the answer
    is the image whose fields [image_as_dict] reports, or [None]. *)
Definition pyimage_for_client_id (self : GM.t) (id : Z) : GM.t * option Img.t :=
  let '(self, i, existing) := find_or_create_image self (u32 id) in
  (self, if existing then Some (GM.image_at self i) else None).

(** ** The response and the quota of a command *)





(** Line 932 of the dispatcher: the image an add with the action [T]
    returned is put on the screen. *)
Definition place_added (env : Env) (cell : CellPixelSize) (i : nat) (w : World) : World :=
  let li := GM.last_init_graphics_command (grman w) in
  if (Cmd.action li =? "T")%char && Img.data_loaded (image_at w i)
  then fst (handle_put_command env li (Some i) cell w) else w.

(** Lines 933 to 935 for a command that is no query: the quota is applied
    with the internal id of the image in slot [i]. *)
Definition quota_applied (placed : GM.t) (i : nat) : GM.t :=
  if GM.used_storage placed >? STORAGE_LIMIT
  then apply_storage_quota placed STORAGE_LIMIT (Img.internal_id (GM.image_at placed i))
  else placed.

(** What the phase that evicts by age leaves of the image [added]: the
    images are [sorted], the newest first, and [used] is the storage in use
    when the phase begins. *)
Definition survives_by_age (added : Img.t) (sorted kept : list Img.t) (used : Z) : Prop :=
  exists k : nat,
    kept = take k sorted
    /\ forall p : nat,
         sorted !! p = Some added ->
         (added ∈ kept <-> used - storage_sum (drop (S p) sorted) <= STORAGE_LIMIT).

(** * Proofs *)

(** ** Arrays *)

Lemma delete_alter {A : Type} (f : A -> A) (i : nat) (l : list A) :
  delete i (alter f i l) = delete i l.
Proof.
  revert i; induction l as [|x l IH]; intros [|i]; simpl; try reflexivity.
  f_equal. apply IH.
Qed.

Lemma take_delete_here {A : Type} (i : nat) (l : list A) :
  take i (delete i l) = take i l.
Proof.
  revert i; induction l as [|x l IH]; intros [|i]; simpl; try reflexivity.
  f_equal. apply IH.
Qed.

Lemma drop_delete_here {A : Type} (i : nat) (l : list A) :
  drop i (delete i l) = drop (S i) l.
Proof.
  revert i; induction l as [|x l IH]; intros [|i]; simpl; try reflexivity.
  apply IH.
Qed.

Lemma image_at_lookup (self : GM.t) (i : nat) (img : Img.t) :
  GM.images self !! i = Some img -> GM.image_at self i = img.
Proof. unfold GM.image_at. intros ->. reflexivity. Qed.

Lemma remove_image_images (self : GM.t) (i : nat) :
  GM.images (remove_image self i) = delete i (GM.images self).
Proof. unfold remove_image, free_image. simpl. apply delete_alter. Qed.

Lemma remove_image_used_storage (self : GM.t) (i : nat) :
  GM.used_storage (remove_image self i)
  = u64 (GM.used_storage self - Img.used_storage (GM.image_at self i)).
Proof. reflexivity. Qed.

(** *** remove_images keeps exactly the images the predicate spares *)

Lemma remove_images_from_images (predicate : Img.t -> bool) (skip : Z) (i : nat) :
  forall self : GM.t,
    (i <= length (GM.images self))%nat ->
    GM.images (remove_images_from i predicate skip self)
    = List.filter (spared predicate skip) (take i (GM.images self))
      ++ drop i (GM.images self).
Proof.
  induction i as [|i IH]; intros self Hi.
  - simpl. rewrite drop_0. reflexivity.
  - destruct (lookup_lt_is_Some_2 (GM.images self) i) as [img Himg]; [lia|].
    simpl. rewrite (image_at_lookup _ _ _ Himg).
    rewrite (take_S_r _ _ _ Himg), List.filter_app. simpl.
    unfold spared at 2.
    destruct (negb (Img.internal_id img =? skip) && predicate img); simpl.
    + rewrite IH.
      * rewrite remove_image_images, app_nil_r, take_delete_here, drop_delete_here.
        reflexivity.
      * rewrite remove_image_images, length_delete by eauto. lia.
    + rewrite IH by lia. rewrite <- app_assoc. simpl.
      rewrite <- (drop_S _ _ _ Himg). reflexivity.
Qed.

Lemma remove_images_images (self : GM.t) (predicate : Img.t -> bool) (skip : Z) :
  GM.images (remove_images self predicate skip)
  = List.filter (spared predicate skip) (GM.images self).
Proof.
  unfold remove_images. rewrite remove_images_from_images by lia.
  rewrite firstn_all, drop_all, app_nil_r. reflexivity.
Qed.

(** The image named by [skip_image_internal_id] survives [remove_images]
    unchanged. *)
Lemma remove_images_skips (self : GM.t) (predicate : Img.t -> bool) (skip : Z)
    (img : Img.t) :
  img ∈ GM.images self -> Img.internal_id img = skip ->
  img ∈ GM.images (remove_images self predicate skip).
Proof.
  intros Hin Hid. rewrite remove_images_images.
  apply list_elem_of_In, filter_In. split; [by apply list_elem_of_In|].
  unfold spared. rewrite Hid, Z.eqb_refl. reflexivity.
Qed.

(** *** The eviction loop *)

Lemma evict_oldest_post (storage_limit : Z) (fuel : nat) :
  forall self : GM.t,
    (length (GM.images self) <= fuel)%nat ->
    GM.used_storage (evict_oldest fuel storage_limit self) <= storage_limit
    \/ GM.images (evict_oldest fuel storage_limit self) = [].
Proof.
  induction fuel as [|fuel IH]; intros self Hlen.
  - right. simpl. destruct (GM.images self); [reflexivity | simpl in Hlen; lia].
  - simpl. unfold image_count.
    destruct (GM.used_storage self >? storage_limit) eqn:Hover; simpl.
    + destruct (Z.of_nat (length (GM.images self)) >? 0) eqn:Hcount.
      * apply IH. rewrite remove_image_images, length_delete.
        -- lia.
        -- apply lookup_lt_is_Some_2. lia.
      * right. rewrite Z.gtb_ltb in Hcount. apply Z.ltb_ge in Hcount.
        destruct (GM.images self); [reflexivity | simpl length in Hcount; lia].
    + left. lia.
Qed.

Lemma evict_oldest_prefix (storage_limit : Z) (fuel : nat) :
  forall self : GM.t,
    exists k : nat,
      GM.images (evict_oldest fuel storage_limit self) = take k (GM.images self).
Proof.
  induction fuel as [|fuel IH]; intros self.
  - exists (length (GM.images self)). simpl. by rewrite firstn_all.
  - simpl.
    destruct ((GM.used_storage self >? storage_limit) && (image_count self >? 0)).
    + destruct (IH (remove_image self (length (GM.images self) - 1))) as [k Hk].
      exists (k `min` (length (GM.images self) - 1))%nat.
      rewrite Hk, remove_image_images, delete_take_drop.
      rewrite (drop_ge _ (S _)) by lia. rewrite app_nil_r.
      by rewrite take_take.
    + exists (length (GM.images self)). by rewrite firstn_all.
Qed.

Lemma apply_storage_quota_post (self : GM.t) (storage_limit : Z) (added : Z) :
  0 <= storage_limit ->
  GM.used_storage (apply_storage_quota self storage_limit added) <= storage_limit.
Proof.
  intros Hlimit. unfold apply_storage_quota.
  set (trimmed := remove_images self trim_predicate added).
  destruct (Z.ltb_spec (GM.used_storage trimmed) storage_limit) as [Hunder|_]; [lia|].
  fold trimmed.
  set (sorted := GM.upd_images (qsort oldest_last) trimmed).
  destruct (evict_oldest_post storage_limit (length (GM.images sorted)) sorted)
    as [Hok | Hempty]; [lia | |].
  - destruct (image_count _ =? 0); simpl; [lia | exact Hok].
  - unfold image_count. rewrite Hempty. simpl. exact Hlimit.
Qed.

Lemma apply_storage_quota_images (self : GM.t) (storage_limit : Z) (added : Z) :
  let trimmed := GM.images (remove_images self trim_predicate added) in
  GM.images (apply_storage_quota self storage_limit added) = trimmed
  \/ exists k : nat,
       GM.images (apply_storage_quota self storage_limit added)
       = take k (qsort oldest_last trimmed).
Proof.
  unfold apply_storage_quota.
  destruct (GM.used_storage _ <? storage_limit); [by left|]. right.
  set (sorted := GM.upd_images (qsort oldest_last) _).
  destruct (evict_oldest_prefix storage_limit (length (GM.images sorted)) sorted)
    as [k Hk].
  exists k. destruct (image_count _ =? 0); simpl; exact Hk.
Qed.

(** ** The storage quota *)

Lemma STORAGE_LIMIT_nonneg : 0 <= STORAGE_LIMIT.
Proof. unfold STORAGE_LIMIT. lia. Qed.

Lemma handle_add_action_quota (env : Env) (g : Cmd.t) (cell : CellPixelSize) (w : World) :
  ((Cmd.action g =? "q")%char && negb (nz (Cmd.id g))) = false ->
  GM.used_storage (grman (fst (handle_add_action env g cell w))) <= STORAGE_LIMIT.
Proof.
  intros Hq. unfold handle_add_action. rewrite Hq.
  destruct (handle_add_command env g _ w) as [w1 image].
  destruct (if (Cmd.action g =? "q")%char then _ else _) as [w2 ret].
  match goal with
  | |- context [if GM.used_storage (grman ?w3) >? STORAGE_LIMIT then _ else _] =>
      destruct (Z.gtb_spec (GM.used_storage (grman w3)) STORAGE_LIMIT) as [Hover|Hfits]
  end.
  - simpl. apply apply_storage_quota_post, STORAGE_LIMIT_nonneg.
  - simpl. exact Hfits.
Qed.

(** C1 as stated fails: the add of a single image larger than the quota
    succeeds, and the LRU phase of the eviction then removes that very image. *)
Lemma storage_quota_evicts_added_image :
  let e := Scenario.env 100 400000000 in
  let added := handle_add_command e QuotaScenario.huge 1 Scenario.start in
  snd added = Some 0%nat
  /\ GM.used_storage (grman (fst added)) > STORAGE_LIMIT
  /\ Img.internal_id (image_at (fst added) 0) = 1
  /\ GM.images (grman (Scenario.run e QuotaScenario.huge Scenario.start)) = [].
Proof. vm_compute. repeat split; reflexivity. Qed.

(** ** Strings *)

Lemma length_append (s1 s2 : string) :
  String.length (s1 ++ s2) = (String.length s1 + String.length s2)%nat.
Proof. induction s1 as [|c s1 IH]; simpl; [reflexivity | by rewrite IH]. Qed.

Lemma strlen_append (s1 s2 : string) : strlen (s1 ++ s2) = strlen s1 + strlen s2.
Proof. unfold strlen. rewrite length_append. lia. Qed.

Lemma strlen_nonneg (s : string) : 0 <= strlen s.
Proof. unfold strlen. lia. Qed.

Lemma append_assoc (s1 s2 s3 : string) : ((s1 ++ s2) ++ s3 = s1 ++ (s2 ++ s3))%string.
Proof. induction s1 as [|c s1 IH]; simpl; [reflexivity | by rewrite IH]. Qed.

Lemma substring_all (s : string) (n : nat) :
  (String.length s <= n)%nat -> substring 0 n s = s.
Proof.
  revert n; induction s as [|c s IH]; intros [|n] Hn; simpl in *;
    try reflexivity; try lia.
  f_equal. apply IH. lia.
Qed.

Lemma length_substring (s : string) (n : nat) :
  (String.length (substring 0 n s) <= n)%nat.
Proof.
  revert n; induction s as [|c s IH]; intros [|n]; simpl; try lia.
  specialize (IH n). lia.
Qed.

(** A write that fits is not cut. *)
Lemma snprintf_fits (n : Z) (s : string) : strlen s < n -> snprintf n s = s.
Proof. intros Hn. apply substring_all. unfold strlen in Hn. lia. Qed.

Lemma strlen_snprintf (n : Z) (s : string) : 0 < n -> strlen (snprintf n s) < n.
Proof.
  intros Hn. unfold strlen, snprintf.
  pose proof (length_substring s (Z.to_nat (n - 1))). lia.
Qed.

Lemma length_print_digits (fuel : nat) (n : Z) (acc : string) :
  (String.length (print_digits fuel n acc) <= fuel + String.length acc)%nat.
Proof.
  revert n acc; induction fuel as [|fuel IH]; intros n acc; simpl; [lia|].
  destruct (n / 10 =? 0); simpl; [lia|].
  etransitivity; [apply IH|]. simpl. lia.
Qed.

Lemma strlen_print_u (n : Z) : strlen (print_u n) <= 20.
Proof.
  unfold strlen, print_u. pose proof (length_print_digits 20 n "") as Hlen.
  change (String.length "") with 0%nat in Hlen. lia.
Qed.

(** ** The response *)

Lemma set_command_failed_response_length (code msg : string) (w : World) :
  strlen (command_response (set_command_failed_response code msg w)) <= 511.
Proof.
  unfold set_command_failed_response. simpl. rewrite strlen_append.
  set (head := (code ++ ":")%string).
  pose proof (strlen_nonneg head).
  destruct (Z_lt_le_dec (strlen head) command_response_sz) as [Hfit|Hlong].
  - rewrite (snprintf_fits _ head Hfit).
    pose proof (strlen_snprintf (command_response_sz - strlen head) msg).
    unfold command_response_sz in *. lia.
  - pose proof (strlen_snprintf command_response_sz head).
    assert (Hnone : snprintf (command_response_sz - strlen head) msg = ""%string).
    { unfold snprintf. replace (Z.to_nat _) with 0%nat by lia.
      destruct msg; reflexivity. }
    rewrite Hnone. unfold command_response_sz in *. simpl. unfold strlen at 2. simpl. lia.
Qed.

(** A failure whose text is short enough is recorded as it is. *)
Lemma set_command_failed_response_fits (code msg : string) (w : World) :
  strlen code + strlen msg <= 510 ->
  command_response (set_command_failed_response code msg w)
  = (code ++ ":" ++ msg)%string.
Proof.
  intros Hfit. unfold set_command_failed_response. simpl.
  pose proof (strlen_nonneg code). pose proof (strlen_nonneg msg).
  assert (Hhead : strlen (code ++ ":") = strlen code + 1)
    by (rewrite strlen_append; reflexivity).
  rewrite !snprintf_fits, append_assoc; unfold command_response_sz; [reflexivity|lia..].
Qed.

Lemma print_fits (s rbuf : string) (pos : Z) :
  strlen rbuf = pos -> pos + strlen s <= rbuf_sz - 3 ->
  print s (rbuf, pos) = ((rbuf ++ s)%string, pos + strlen s)
  /\ strlen (rbuf ++ s) = pos + strlen s.
Proof.
  intros Hpos Hfit. unfold print. rewrite Hpos, Z.eqb_refl.
  rewrite snprintf_fits by lia. rewrite strlen_append, Hpos. split; reflexivity.
Qed.

Lemma print_optional_fits (b : bool) (s rbuf : string) (pos : Z) :
  strlen rbuf = pos -> pos + strlen s <= rbuf_sz - 3 ->
  exists pos', (if b then print s (rbuf, pos) else (rbuf, pos))
               = ((rbuf ++ (if b then s else ""))%string, pos')
               /\ strlen (rbuf ++ (if b then s else "")) = pos'
               /\ pos' <= pos + strlen s.
Proof.
  intros Hpos Hfit. destruct b.
  - exists (pos + strlen s). destruct (print_fits s rbuf pos Hpos Hfit) as [-> ->].
    repeat split; lia.
  - exists pos. assert (Hnil : (rbuf ++ "")%string = rbuf).
    { clear. induction rbuf as [|c r IH]; simpl; [reflexivity | by rewrite IH]. }
    rewrite Hnil. pose proof (strlen_nonneg s). repeat split; [exact Hpos | lia].
Qed.

(** [rbuf] is large enough for every response: nothing is cut. *)
Lemma finish_command_response_text (g : Cmd.t) (data_loaded : bool)
    (iid placement_id image_number : Z) (w : World) :
  strlen (command_response w) <= 511 ->
  snd (finish_command_response g data_loaded iid placement_id image_number w)
  = let is_ok_response := (command_response w =? "")%string in
    if nz (Cmd.quiet g) && (is_ok_response || (Cmd.quiet g >? 1)) then None
    else if nz iid || nz image_number then
      if is_ok_response && negb data_loaded then None
      else Some (response_text iid placement_id image_number
                   (if is_ok_response then "OK" else command_response w))
    else None.
Proof.
  intros Hlen. unfold finish_command_response. cbv zeta.
  destruct (nz (Cmd.quiet g) && _); [reflexivity|].
  destruct (nz iid || nz image_number); [|reflexivity].
  destruct ((command_response w =? "")%string && negb data_loaded); [reflexivity|].
  cbn [snd]. f_equal.
  set (outcome := if (command_response w =? "")%string then "OK"%string
                  else command_response w).
  assert (Houtcome : command_response
                       (if (command_response w =? "")%string
                        then set_command_response (snprintf 10 "OK") w else w)
                     = outcome).
  { unfold outcome. destruct (command_response w =? "")%string; reflexivity. }
  assert (Hout_len : strlen outcome <= 511).
  { unfold outcome. destruct (command_response w =? "")%string; [|exact Hlen].
    unfold strlen. simpl. lia. }
  rewrite Houtcome.
  pose proof (strlen_print_u iid). pose proof (strlen_print_u image_number).
  pose proof (strlen_print_u placement_id).
  destruct (print_optional_fits (nz iid) ("i=" ++ print_u iid) "G" 1 eq_refl)
    as (p1 & -> & Hp1 & Hle1).
  { rewrite strlen_append. unfold rbuf_sz, command_response_sz.
    change (strlen "i=") with 2. lia. }
  rewrite strlen_append in Hle1. change (strlen "i=") with 2 in Hle1.
  destruct (print_optional_fits (nz image_number) (",I=" ++ print_u image_number)
              _ p1 Hp1) as (p2 & -> & Hp2 & Hle2).
  { rewrite strlen_append. unfold rbuf_sz, command_response_sz.
    change (strlen ",I=") with 3. lia. }
  rewrite strlen_append in Hle2. change (strlen ",I=") with 3 in Hle2.
  destruct (print_optional_fits (nz placement_id) (",p=" ++ print_u placement_id)
              _ p2 Hp2) as (p3 & -> & Hp3 & Hle3).
  { rewrite strlen_append. unfold rbuf_sz, command_response_sz.
    change (strlen ",p=") with 3. lia. }
  rewrite strlen_append in Hle3. change (strlen ",p=") with 3 in Hle3.
  destruct (print_fits (";" ++ outcome) _ p3 Hp3) as [-> _].
  { rewrite strlen_append. unfold rbuf_sz, command_response_sz.
    change (strlen ";") with 1. lia. }
  cbn [fst]. unfold response_text. rewrite !append_assoc. reflexivity.
Qed.

Lemma nz_true (z : Z) : nz z = true <-> z <> 0.
Proof. unfold nz. rewrite negb_true_iff, Z.eqb_neq. reflexivity. Qed.


Lemma handle_delete_no_response (env : Env) (g : Cmd.t) (cell : CellPixelSize) (w : World) :
  Cmd.action g = "d"%char ->
  (nz (Cmd.id g) && nz (Cmd.image_number g)) = false ->
  snd (grman_handle_command env g cell w) = None.
Proof.
  intros Haction Hboth. unfold grman_handle_command. rewrite Hboth, Haction.
  reflexivity.
Qed.

Lemma partial_add_no_response (env : Env) (g : Cmd.t) (cell : CellPixelSize)
    (w w1 : World) :
  reaches_add_handler g = true ->
  handle_add_command env g (if (Cmd.action g =? "q")%char then 0 else Cmd.id g)
    (set_command_response "" w) = (w1, None) ->
  command_response w1 = ""%string ->
  snd (grman_handle_command env g cell w) = None.
Proof.
  intros Hadd Hpartial Hok. unfold reaches_add_handler in Hadd.
  apply andb_true_iff in Hadd as [Hadd Hquery].
  apply andb_true_iff in Hadd as [Haction Hboth].
  apply negb_true_iff in Hquery, Hboth.
  unfold grman_handle_command. rewrite Hboth, Haction.
  unfold handle_add_action. rewrite Hquery, Hpartial.
  assert (Hnone : forall iid pid num,
            finish_command_response g (bool_decide (@None nat <> None)) iid pid num w1
            = (w1, None)).
  { intros iid pid num. unfold finish_command_response. rewrite Hok. simpl.
    destruct (nz (Cmd.quiet g)); simpl; [reflexivity|].
    destruct (nz iid || nz num); reflexivity. }
  destruct (Cmd.action g =? "q")%char; rewrite Hnone;
    repeat match goal with |- context [if ?c then _ else _] => destruct c end;
    reflexivity.
Qed.


(** ** Looking images up *)

Lemma img_by_client_id_Some (self : GM.t) (id : Z) (i : nat) :
  img_by_client_id self id = Some i ->
  exists img, GM.images self !! i = Some img /\ Img.client_id img = id.
Proof.
  unfold img_by_client_id. intros Hfind.
  destruct (list_find _ _) as [[j img]|] eqn:Hj; simplify_eq/=.
  apply list_find_Some in Hj as (Hlook & Hid & _). eauto.
Qed.

Lemma img_by_internal_id_Some (self : GM.t) (id : Z) (i : nat) :
  img_by_internal_id self id = Some i ->
  exists img, GM.images self !! i = Some img /\ Img.internal_id img = id.
Proof.
  unfold img_by_internal_id. intros Hfind.
  destruct (list_find _ _) as [[j img]|] eqn:Hj; simplify_eq/=.
  apply list_find_Some in Hj as (Hlook & Hid & _). eauto.
Qed.

Lemma img_by_client_number_from_Some (self : GM.t) (number : Z) (n i : nat) :
  img_by_client_number_from n self number = Some i ->
  (i < n)%nat /\ Img.client_number (GM.image_at self i) = number.
Proof.
  induction n as [|n IH]; simpl; [discriminate|].
  destruct (Z.eqb_spec (Img.client_number (GM.image_at self n)) number) as [Heq|_].
  - intros [= <-]. split; [lia | exact Heq].
  - intros Hn. destruct (IH Hn). split; [lia | assumption].
Qed.

(** ** Put on an image that is not loaded *)

Lemma put_unloaded_failure_recorded (g : Cmd.t) (w : World) :
  command_response
    (set_command_failed_response "ENOENT"
       ("Put command refers to image with id: " ++ print_u (Cmd.id g)
        ++ " that could not load its data") w)
  = put_unloaded_failure g.
Proof.
  rewrite set_command_failed_response_fits; [reflexivity|].
  rewrite !strlen_append. pose proof (strlen_print_u (Cmd.id g)).
  change (strlen "ENOENT") with 6.
  change (strlen "Put command refers to image with id: ") with 37.
  change (strlen " that could not load its data") with 29. lia.
Qed.

(** C9: a put command that resolves to an image whose data is not loaded
    fails with [ENOENT]; the manager, and so every list of placements, and
    the cursor are left as they were.  The failure reaches the client unless
    the command asked for silence ([quiet] above 1). *)
Theorem put_on_unloaded_image (env : Env) (g : Cmd.t) (cell : CellPixelSize)
    (w : World) (i : nat) :
  Cmd.action g = "p"%char ->
  (nz (Cmd.id g) && nz (Cmd.image_number g)) = false ->
  put_target (grman w) g None = Some i ->
  Img.data_loaded (image_at w i) = false ->
  let w' := fst (grman_handle_command env g cell w) in
  let ret := snd (grman_handle_command env g cell w) in
  command_response w' = put_unloaded_failure g
  /\ ret = (if Cmd.quiet g >? 1 then None
            else Some (response_text (Img.client_id (image_at w i))
                         (Cmd.placement_id g) (Cmd.image_number g)
                         (put_unloaded_failure g)))
  /\ grman w' = grman w
  /\ cursor w' = cursor w
  /\ is_dirty w' = is_dirty w.
Proof.
  intros Haction Hboth Htarget Hunloaded.
  assert (Hidentity : (nz (Img.client_id (image_at w i)) || nz (Cmd.image_number g)) = true
                      /\ (negb (nz (Cmd.id g)) && negb (nz (Cmd.image_number g))) = false).
  { unfold put_target in Htarget. destruct (nz (Cmd.id g)) eqn:Hid.
    - destruct (img_by_client_id_Some _ _ _ Htarget) as (img & Hlook & Hcid).
      unfold image_at. rewrite (image_at_lookup _ _ _ Hlook), Hcid, Hid.
      split; reflexivity.
    - destruct (nz (Cmd.image_number g)); [|discriminate].
      split; [apply orb_true_r | reflexivity]. }
  destruct Hidentity as [Hidentity Hguard].
  unfold grman_handle_command. rewrite Hboth, Haction, Hguard.
  change (negb (nzc "p") || one_of "p" "t" "T" || ("p" =? "q")%char) with false.
  change ("p" =? "p")%char with true. cbv iota.
  unfold handle_put_command. cbn [grman set_command_response].
  rewrite Htarget.
  change (image_at (set_command_response "" w) i) with (image_at w i).
  rewrite Hunloaded. cbn [negb].
  set (failed := set_command_failed_response _ _ _).
  assert (Hfailed : command_response failed = put_unloaded_failure g)
    by apply put_unloaded_failure_recorded.
  assert (Hlen : strlen (command_response failed) <= 511)
    by apply set_command_failed_response_length.
  pose proof (finish_command_response_text g true (Img.client_id (image_at w i))
                (Cmd.placement_id g) (Cmd.image_number g) failed Hlen) as Hret.
  assert (Hfst : fst (finish_command_response g true (Img.client_id (image_at w i))
                        (Cmd.placement_id g) (Cmd.image_number g) failed) = failed).
  { unfold finish_command_response. rewrite Hfailed.
    change (put_unloaded_failure g =? "")%string with false.
    repeat match goal with |- context [if ?c then _ else _] => destruct c end;
      reflexivity. }
  rewrite Hfst, Hret, Hfailed.
  change (put_unloaded_failure g =? "")%string with false.
  rewrite Hidentity. cbn [orb andb].
  repeat split.
  unfold nz. destruct (Z.eqb_spec (Cmd.quiet g) 0) as [->|_]; reflexivity.
Qed.

Lemma put_on_unloaded_image_witness :
  (Cmd.action PutScenario.put = "p"%char
   /\ (nz (Cmd.id PutScenario.put) && nz (Cmd.image_number PutScenario.put)) = false
   /\ put_target (grman PutScenario.loading) PutScenario.put None = Some 0%nat
   /\ Img.data_loaded (image_at PutScenario.loading 0) = false)
  /\ snd (grman_handle_command (Scenario.env 200 0) PutScenario.put Scenario.cell
            PutScenario.loading)
     = Some ("Gi=1;ENOENT:Put command refers to image with id: 1 "
             ++ "that could not load its data")%string.
Proof.
  split; [repeat split|].
  exact (proj1 (proj2 (put_on_unloaded_image (Scenario.env 200 0) PutScenario.put
                         Scenario.cell PutScenario.loading 0
                         eq_refl eq_refl eq_refl eq_refl))).
Defined.

(** ** Updating an image in place *)

Lemma image_at_upd_image (i : nat) (f : Img.t -> Img.t) (w : World) :
  (i < length (GM.images (grman w)))%nat ->
  image_at (upd_image i f w) i = f (image_at w i).
Proof.
  intros Hi. destruct (lookup_lt_is_Some_2 _ _ Hi) as [img Himg].
  unfold image_at, upd_image, GM.image_at. simpl.
  rewrite list_lookup_alter_eq, Himg. reflexivity.
Qed.

Lemma image_at_upd_image_ne (i j : nat) (f : Img.t -> Img.t) (w : World) :
  i <> j -> image_at (upd_image i f w) j = image_at w j.
Proof.
  intros Hne. unfold image_at, upd_image, GM.image_at. simpl.
  rewrite list_lookup_alter_ne by exact Hne. reflexivity.
Qed.

Lemma length_images_upd_image (i : nat) (f : Img.t -> Img.t) (w : World) :
  length (GM.images (grman (upd_image i f w))) = length (GM.images (grman w)).
Proof. unfold upd_image. simpl. apply length_alter. Qed.

Lemma image_at_upd_grman (f : GM.t -> GM.t) (w : World) (i : nat) :
  keeps_images f -> image_at (upd_grman f w) i = image_at w i.
Proof. intros Hf. unfold image_at, GM.image_at. simpl. by rewrite Hf. Qed.

Lemma length_images_upd_grman (f : GM.t -> GM.t) (w : World) :
  keeps_images f ->
  length (GM.images (grman (upd_grman f w))) = length (GM.images (grman w)).
Proof. intros Hf. simpl. by rewrite Hf. Qed.

Lemma keeps_images_set_loading_image (v : Z) : keeps_images (GM.set_loading_image v).
Proof. intros self. reflexivity. Qed.

Lemma keeps_images_set_layers_dirty (v : bool) : keeps_images (GM.set_layers_dirty v).
Proof. intros self. reflexivity. Qed.

Lemma keeps_images_set_used_storage (v : Z) : keeps_images (GM.set_used_storage v).
Proof. intros self. reflexivity. Qed.

Create HintDb images discriminated.
#[export] Hint Resolve keeps_images_set_loading_image keeps_images_set_layers_dirty
  keeps_images_set_used_storage : images.

(** Reads an image back through the updates made to the world. *)
Ltac read_image Hi :=
  repeat first
    [ rewrite image_at_upd_image
        by (rewrite ?length_images_upd_image, ?length_images_upd_grman
              by auto with images; exact Hi)
    | rewrite image_at_upd_grman by auto with images ].

(** ** Direct transmission: growth of the load buffer *)

(** C5 fails in the code: the buffer of a PNG is doubled once, whatever the
    size of the chunk.  The first chunk of 4096 bytes finds a buffer of 11
    bytes, which becomes one of 22, and is copied into it in full; no error
    is reported.  From then on [buf_capacity - buf_used] has wrapped around,
    so every further chunk is taken to fit: one that takes the data beyond
    the cap of 4*10^8 bytes is copied too, without [EFBIG] and without any
    growth of the buffer. *)
Theorem direct_chunk_overruns_buffer :
  let first := grman_handle_command (Scenario.env 100 0) OverrunScenario.first_chunk
                 Scenario.cell Scenario.start in
  let ld := Img.load_data (image_at OverrunScenario.loading 0) in
  let next := grman_handle_command (Scenario.env 200 0) OverrunScenario.next_chunk
                Scenario.cell OverrunScenario.loading in
  let ld' := Img.load_data (image_at OverrunScenario.overfull 0) in
  effective_format OverrunScenario.first_chunk = PNG
  /\ snd first = None /\ command_response (fst first) = ""%string
  /\ LD.buf ld = true /\ LD.buf_capacity ld = 22 /\ LD.buf_used ld = 4096
  /\ snd next = None /\ command_response (fst next) = ""%string
  /\ LD.buf_capacity ld' = 22 /\ LD.buf_used ld' = 400004096
  /\ LD.buf_used ld' > MAX_DATA_SZ.
Proof. vm_compute. repeat split; reflexivity. Qed.

(** ** Storage accounting *)

Lemma storage_sum_delete (imgs : list Img.t) (i : nat) (img : Img.t) :
  imgs !! i = Some img ->
  storage_sum (delete i imgs) = storage_sum imgs - Img.used_storage img.
Proof.
  revert i; induction imgs as [|x imgs IH]; intros [|i] Hi; simplify_eq/=.
  - lia.
  - rewrite (IH _ Hi). lia.
Qed.

Lemma remove_image_accounted (self : GM.t) (i : nat) :
  (i < length (GM.images self))%nat ->
  storage_accounted self ->
  storage_accounted (remove_image self i)
  /\ GM.used_storage (remove_image self i) <= GM.used_storage self.
Proof.
  intros Hi [Hpos Hsum].
  destruct (lookup_lt_is_Some_2 _ _ Hi) as [img Himg].
  assert (Himg_pos : 0 <= Img.used_storage img).
  { rewrite Forall_lookup in Hpos. exact (Hpos _ _ Himg). }
  assert (Hle : Img.used_storage img <= storage_sum (GM.images self)).
  { clear Hsum Hi. revert i Himg Hpos.
    induction (GM.images self) as [|x imgs IH]; intros [|i] Hi Hpos;
      simplify_eq/=; inversion_clear Hpos as [|? ? Hx Hrest].
    - assert (0 <= storage_sum imgs); [|lia].
      clear -Hrest. induction Hrest; simpl; lia.
    - specialize (IH _ Hi Hrest). lia. }
  rewrite remove_image_used_storage, (image_at_lookup _ _ _ Himg).
  unfold storage_accounted. rewrite remove_image_images, remove_image_used_storage.
  rewrite (image_at_lookup _ _ _ Himg), (storage_sum_delete _ _ _ Himg).
  assert (Hu : u64 (GM.used_storage self - Img.used_storage img)
               = GM.used_storage self - Img.used_storage img).
  { unfold u64. apply Z.mod_small. lia. }
  rewrite Hu. repeat split; try lia.
  rewrite delete_take_drop. apply Forall_app. split.
  - apply Forall_take, Hpos.
  - apply Forall_drop, Hpos.
Qed.

Lemma remove_images_from_accounted (predicate : Img.t -> bool) (skip : Z) (i : nat) :
  forall self : GM.t,
    (i <= length (GM.images self))%nat ->
    storage_accounted self ->
    storage_accounted (remove_images_from i predicate skip self)
    /\ GM.used_storage (remove_images_from i predicate skip self)
       <= GM.used_storage self.
Proof.
  induction i as [|i IH]; intros self Hi Hacc; simpl; [split; [exact Hacc | lia]|].
  destruct (negb _ && _).
  - destruct (remove_image_accounted self i) as [Hacc' Hle]; [lia | exact Hacc |].
    destruct (IH (remove_image self i)) as [Hacc'' Hle']; [|exact Hacc'|].
    + rewrite remove_image_images, length_delete; [lia|].
      apply lookup_lt_is_Some_2. lia.
    + split; [exact Hacc'' | lia].
  - apply IH; [lia | exact Hacc].
Qed.

Lemma remove_images_accounted (self : GM.t) (predicate : Img.t -> bool) (skip : Z) :
  storage_accounted self ->
  storage_accounted (remove_images self predicate skip)
  /\ GM.used_storage (remove_images self predicate skip) <= GM.used_storage self.
Proof. intros Hacc. apply remove_images_from_accounted; [lia | exact Hacc]. Qed.

(** ** Reasoning along the control flow of [handle_add_command] *)

Lemma flow_ok_bind {A B : Type} (m : flow A) (k : World -> A -> flow B)
    (Q : World -> A -> Prop) (R : World -> B -> Prop) :
  flow_ok m Q -> (forall w a, Q w a -> flow_ok (k w a) R) ->
  flow_ok (flow_bind m k) R.
Proof. destruct m as [w ret|w a]; simpl; auto. Qed.

Lemma flow_ok_ABRT {A : Type} (code msg : string) (img : option nat) (w : World)
    (Q : World -> A -> Prop) :
  flow_ok (ABRT code msg img w) Q.
Proof. reflexivity. Qed.

Lemma flow_ok_weaken {A : Type} (m : flow A) (Q R : World -> A -> Prop) :
  flow_ok m Q -> (forall w a, Q w a -> R w a) -> flow_ok m R.
Proof. destruct m; simpl; auto. Qed.

(** *** Reading the world back *)

Lemma image_at_set_is_dirty (b : bool) (w : World) (i : nat) :
  image_at (set_is_dirty b w) i = image_at w i.
Proof. reflexivity. Qed.

Lemma image_at_set_internal_id_counter (v : Z) (w : World) (i : nat) :
  image_at (set_internal_id_counter v w) i = image_at w i.
Proof. reflexivity. Qed.

Lemma image_at_set_command_response (s : string) (w : World) (i : nat) :
  image_at (set_command_response s w) i = image_at w i.
Proof. reflexivity. Qed.

Lemma image_at_set_command_failed_response (code msg : string) (w : World) (i : nat) :
  image_at (set_command_failed_response code msg w) i = image_at w i.
Proof. reflexivity. Qed.

Lemma image_at_set_cursor (c : Cursor) (w : World) (i : nat) :
  image_at (set_cursor c w) i = image_at w i.
Proof. reflexivity. Qed.

Lemma keeps_images_set_last_init (g : Cmd.t) :
  keeps_images (GM.set_last_init_graphics_command g).
Proof. intros self. reflexivity. Qed.

Lemma keeps_images_upd_last_init (f : Cmd.t -> Cmd.t) :
  keeps_images (fun s =>
    GM.set_last_init_graphics_command (f (GM.last_init_graphics_command s)) s).
Proof. intros self. reflexivity. Qed.

#[export] Hint Resolve keeps_images_set_last_init keeps_images_upd_last_init : images.

Create Rewrite HintDb world.
#[export] Hint Rewrite image_at_set_is_dirty image_at_set_internal_id_counter
  image_at_set_command_response image_at_set_command_failed_response
  image_at_set_cursor : world.

(** The number of images of a world reached through updates in place. *)
Ltac count_images :=
  repeat first
    [ rewrite length_images_upd_image
    | rewrite length_images_upd_grman by auto with images
    | progress change (grman (set_is_dirty ?b ?w)) with (grman w)
    | progress change (grman (set_internal_id_counter ?v ?w)) with (grman w)
    | progress change (grman (set_command_response ?s ?w)) with (grman w)
    | progress change (grman (set_command_failed_response ?c ?m ?w)) with (grman w)
    | progress change (grman (set_cursor ?c ?w)) with (grman w) ].

Ltac read_world Hi :=
  repeat first
    [ rewrite image_at_upd_image by (count_images; exact Hi)
    | rewrite image_at_upd_grman by auto with images
    | progress autorewrite with world ].

(** ** Adding an image while GPU uploads are disabled *)

Lemma find_or_create_image_slot (self self' : GM.t) (id : Z) (i : nat) (existing : bool) :
  find_or_create_image self id = (self', i, existing) ->
  (i < length (GM.images self'))%nat
  /\ GM.used_storage self' = GM.used_storage self.
Proof.
  unfold find_or_create_image.
  destruct (if nz id then img_by_client_id self id else None) as [j|] eqn:Hfind.
  - intros [= <- <- <-]. split; [|reflexivity].
    destruct (nz id); [|discriminate].
    destruct (img_by_client_id_Some _ _ _ Hfind) as (img & Hlook & _).
    eapply lookup_lt_Some, Hlook.
  - intros [= <- <- <-]. split; [|reflexivity].
    simpl. rewrite length_app. simpl. lia.
Qed.

Lemma add_init_format_staged (U : Z) (tt : ascii) (g : Cmd.t) (fmt : Z) (i : nat)
    (w : World) :
  (i < length (GM.images (grman w)))%nat ->
  send_to_gpu w = false ->
  Img.used_storage (image_at w i) = 0 ->
  GM.used_storage (grman w) <= U ->
  flow_ok (add_init_format g fmt i w) (fun w1 _ =>
    (i < length (GM.images (grman w1)))%nat
    /\ send_to_gpu w1 = false
    /\ Img.used_storage (image_at w1 i) = 0
    /\ GM.used_storage (grman w1) <= U).
Proof.
  intros Hi Hgpu Hused HU. unfold add_init_format.
  repeat match goal with
         | |- context [if ?c then _ else _] => destruct c
         end; try apply flow_ok_ABRT; unfold flow_ok;
    (split; [count_images; exact Hi|]); (split; [exact Hgpu|]);
    (split; [|exact HU]); read_world Hi; exact Hused.
Qed.

Lemma add_init_direct_staged (U : Z) (env : Env) (g : Cmd.t) (i : nat) (w : World) :
  (i < length (GM.images (grman w)))%nat ->
  send_to_gpu w = false ->
  Img.used_storage (image_at w i) = 0 ->
  GM.used_storage (grman w) <= U ->
  flow_ok (add_init_direct env g i w) (fun w1 i1 => i1 = i /\ staged U "d" w1 i).
Proof.
  intros Hi Hgpu Hused HU. unfold add_init_direct.
  destruct (malloc_ok env) eqn:Hmalloc; cbn [negb]; [|apply flow_ok_ABRT].
  unfold flow_ok, staged. split; [reflexivity|].
  destruct (nz (Cmd.more g)).
  - split; [count_images; exact Hi|]. split; [exact Hgpu|].
    read_world Hi. repeat split; [exact Hused | exact HU].
  - split; [count_images; exact Hi|]. split; [exact Hgpu|].
    read_world Hi. repeat split; [exact Hused | exact HU].
Qed.

Lemma storage_accounted_same (self self' : GM.t) :
  GM.images self' = GM.images self ->
  GM.used_storage self' = GM.used_storage self ->
  storage_accounted self -> storage_accounted self'.
Proof. unfold storage_accounted. intros -> ->. auto. Qed.

Lemma add_init_staged (env : Env) (g : Cmd.t) (iid : Z) (tt : ascii) (fmt : Z)
    (w : World) :
  send_to_gpu w = false ->
  storage_accounted (grman w) ->
  flow_ok (add_init env g iid tt fmt w)
    (fun w1 i => staged (GM.used_storage (grman w)) tt w1 i).
Proof.
  intros Hgpu Hacc. unfold add_init.
  destruct (_ || _); [apply flow_ok_ABRT|].
  set (w1 := upd_grman (fun s => remove_images s add_trim_predicate 0) _).
  assert (HU : GM.used_storage (grman w1) <= GM.used_storage (grman w)).
  { apply (remove_images_accounted
             (GM.set_loading_image 0
                (GM.set_last_init_graphics_command (Cmd.set_id iid g) (grman w)))).
    apply (storage_accounted_same (grman w)); [reflexivity.. | exact Hacc]. }
  destruct (find_or_create_image (grman w1) iid) as [[self i] existing] eqn:Hfind.
  apply find_or_create_image_slot in Hfind as [Hi Hsame].
  set (w2 := upd_grman (fun _ => self) w1).
  change (i < length (GM.images (grman w2)))%nat in Hi.
  change (GM.used_storage (grman w2) = GM.used_storage (grman w1)) in Hsame.
  match goal with
  | |- context [upd_image i _ ?w] => set (w3 := w)
  end.
  assert (Hw3 : (i < length (GM.images (grman w3)))%nat
                /\ send_to_gpu w3 = false
                /\ GM.used_storage (grman w3) <= GM.used_storage (grman w));
    [subst w3 | clearbody w3; destruct Hw3 as (Hi3 & Hgpu3 & HU3)].
  { destruct existing.
    - split; [count_images; exact Hi|]. split; [exact Hgpu|].
      change (GM.used_storage (grman w2) <= GM.used_storage (grman w)). lia.
    - match goal with
      | |- context [if ?c then _ else _] => destruct c
      end;
        (split; [count_images; exact Hi|]); (split; [exact Hgpu|]);
        change (GM.used_storage (grman w2) <= GM.used_storage (grman w)); lia. }
  eapply flow_ok_bind.
  - apply (add_init_format_staged (GM.used_storage (grman w)) tt).
    + count_images. exact Hi3.
    + exact Hgpu3.
    + read_world Hi3. reflexivity.
    + exact HU3.
  - intros w4 _ (Hi4 & Hgpu4 & Hused4 & HU4). cbv beta.
    destruct (Ascii.eqb_spec tt "d") as [->|Hfile].
    + eapply flow_ok_weaken; [apply add_init_direct_staged; eassumption|].
      intros w5 i5 [-> Hstaged]. exact Hstaged.
    + unfold flow_ok, staged. repeat split; try assumption. intros; contradiction.
Qed.

Lemma add_continue_staged (g : Cmd.t) (w : World) :
  send_to_gpu w = false ->
  loading_image_ok w ->
  GM.loading_image (grman w) <> 0 ->
  flow_ok (add_continue g w)
    (fun w1 '(g1, i) =>
       staged (GM.used_storage (grman w)) (effective_transmission_type g1) w1 i).
Proof.
  intros Hgpu Hloading Hbusy. specialize (Hloading Hbusy). unfold add_continue.
  set (w1 := upd_grman _ w).
  change (img_by_internal_id (grman w1) (GM.loading_image (grman w1)))
    with (img_by_internal_id (grman w) (GM.loading_image (grman w))).
  destruct (img_by_internal_id _ _) as [i|] eqn:Hfind; [|apply flow_ok_ABRT].
  destruct (Hloading i eq_refl) as [Hused Hbuf].
  destruct (img_by_internal_id_Some _ _ _ Hfind) as (img & Hlook & _).
  unfold flow_ok, staged. repeat split.
  - eapply lookup_lt_Some, Hlook.
  - exact Hgpu.
  - exact Hused.
  - change (GM.used_storage (grman w1)) with (GM.used_storage (grman w)). lia.
  - intros _. exact Hbuf.
Qed.

Lemma add_direct_staged (U : Z) (env : Env) (g : Cmd.t) (fmt : Z) (i : nat) (w : World) :
  staged U "d" w i ->
  flow_ok (add_direct env g fmt i w) (fun w' _ => staged U "d" w' i).
Proof.
  intros (Hi & Hgpu & Hused & HU & Hbuf). specialize (Hbuf eq_refl).
  unfold add_direct.
  destruct (_ <? _); [destruct (_ || _); [apply flow_ok_ABRT|]|].
  - destruct (realloc_ok env); cbn [negb]; [|apply flow_ok_ABRT].
    cbn [flow_bind]. unfold flow_ok, staged.
    destruct (nz (Cmd.more g)); cbn [negb];
      (split; [count_images; exact Hi|]); (split; [exact Hgpu|]);
      read_world Hi; repeat split; try exact Hused; exact HU.
  - cbn [flow_bind]. unfold flow_ok, staged.
    destruct (nz (Cmd.more g)); cbn [negb];
      (split; [count_images; exact Hi|]); (split; [exact Hgpu|]);
      read_world Hi; repeat split; try exact Hused; try exact HU;
      intros _; exact Hbuf.
Qed.

Lemma add_file_staged (U : Z) (tt : ascii) (env : Env) (g : Cmd.t) (i : nat) (w : World) :
  tt <> "d"%char ->
  staged U tt w i ->
  flow_ok (add_file env g i w) (fun w' _ => staged U tt w' i /\ mapped_if_loaded w' i).
Proof.
  intros Htt (Hi & Hgpu & Hused & HU & _). unfold add_file.
  destruct (_ >? _); [apply flow_ok_ABRT|].
  destruct (_ =? _); [apply flow_ok_ABRT|].
  unfold mmap_img_file.
  repeat match goal with
         | |- context [if ?c then _ else _] => destruct c eqn:?
         end;
    unfold flow_ok, staged, mapped_if_loaded;
    (split; [split; [count_images; exact Hi|]; split; [exact Hgpu|]|]);
    read_world Hi; repeat split; try exact Hused; try exact HU;
    try (intros; contradiction); try discriminate.
Qed.

Lemma add_transmit_staged (U : Z) (env : Env) (g : Cmd.t) (tt : ascii) (fmt : Z)
    (i : nat) (w : World) :
  staged U tt w i ->
  flow_ok (add_transmit env g tt fmt i w)
    (fun w' _ => staged U tt w' i /\ (tt <> "d"%char -> mapped_if_loaded w' i)).
Proof.
  intros Hstaged. unfold add_transmit.
  destruct (Ascii.eqb_spec tt "d") as [->|Htt].
  - eapply flow_ok_weaken; [apply add_direct_staged, Hstaged|].
    intros w' u H. split; [exact H | intros; contradiction].
  - destruct (_ || _); [|apply flow_ok_ABRT].
    eapply flow_ok_weaken; [apply add_file_staged; eassumption|].
    intros w' u [H1 H2]. split; [exact H1 | intros _; exact H2].
Qed.

Ltac read_world_in Hi H :=
  repeat first
    [ rewrite image_at_upd_image in H by (count_images; exact Hi)
    | rewrite image_at_upd_grman in H by auto with images
    | progress autorewrite with world in H ].

Ltac split_conditions :=
  repeat match goal with
         | |- context [if ?c then _ else _] => destruct c eqn:?
         end.

Lemma add_process_loaded (U : Z) (env : Env) (g : Cmd.t) (fmt : Z) (i : nat) (w : World) :
  (nzc (Cmd.compressed g) || (fmt =? PNG)) = true ->
  loaded U w i ->
  flow_ok (add_process env g fmt i w)
    (fun w' _ =>
       loaded U w' i
       /\ bitmap_retained (Img.load_data (image_at w' i))).
Proof.
  intros Hneeds (Hi & Hgpu & Hused & HU & Hloaded). unfold add_process.
  unfold inflate_zlib, inflate_png.
  destruct (Cmd.compressed g =? "z")%char eqn:Hz.
  - destruct (negb (inflateInit_ret env =? Z_OK)); [reflexivity|].
    destruct (negb (inflate_ret env =? Z_STREAM_END)); [reflexivity|].
    destruct (nz (inflate_avail_out env)); [reflexivity|].
    cbv beta iota. cbn [flow_bind].
    destruct (fmt =? PNG).
    + destruct (png env) as [sz width height|code msg]; [|reflexivity].
      cbv beta iota. cbn [flow_bind]. read_world Hi.
      split_conditions; try apply flow_ok_ABRT; unfold flow_ok, loaded;
        (split; [split; [count_images; exact Hi|]; split; [exact Hgpu|]|]);
        read_world Hi; repeat split; try exact Hused; try exact HU;
        try exact Hloaded; left; repeat split; cbn; lia.
    + cbn [flow_bind]. read_world Hi.
      split_conditions; try apply flow_ok_ABRT; unfold flow_ok, loaded;
        (split; [split; [count_images; exact Hi|]; split; [exact Hgpu|]|]);
        read_world Hi; repeat split; try exact Hused; try exact HU;
        try exact Hloaded; left; repeat split; cbn; lia.
  - destruct (nzc (Cmd.compressed g)); cbn [negb]; [apply flow_ok_ABRT|].
    cbn [orb] in Hneeds. rewrite Hneeds. cbn [flow_bind].
    destruct (png env) as [sz width height|code msg]; [|reflexivity].
    cbv beta iota. cbn [flow_bind]. read_world Hi.
    split_conditions; try apply flow_ok_ABRT; unfold flow_ok, loaded;
      (split; [split; [count_images; exact Hi|]; split; [exact Hgpu|]|]);
      read_world Hi; repeat split; try exact Hused; try exact HU;
      try exact Hloaded; left; repeat split; cbn; lia.
Qed.

Lemma add_raw_loaded (U : Z) (tt : ascii) (i : nat) (w : World) :
  loaded U w i ->
  (tt = "d"%char -> LD.buf (Img.load_data (image_at w i)) = true) ->
  (tt <> "d"%char -> LD.mapped_file (Img.load_data (image_at w i)) = true) ->
  flow_ok (add_raw tt i w)
    (fun w' _ =>
       loaded U w' i
       /\ bitmap_retained (Img.load_data (image_at w' i))).
Proof.
  intros (Hi & Hgpu & Hused & HU & Hloaded) Hbuf Hmapped. unfold add_raw.
  destruct (Ascii.eqb_spec tt "d") as [Hd|Hfile].
  - destruct (Z.ltb_spec (LD.buf_used (Img.load_data (image_at w i)))
                (LD.data_sz (Img.load_data (image_at w i)))) as [_|Hfull];
      [apply flow_ok_ABRT|].
    unfold flow_ok, loaded.
    (split; [split; [count_images; exact Hi|]; split; [exact Hgpu|]|]);
      read_world Hi; repeat split; try exact Hused; try exact HU; try exact Hloaded.
    left. cbn. rewrite (Hbuf Hd). repeat split. exact Hfull.
  - destruct (Z.ltb_spec (LD.mapped_file_sz (Img.load_data (image_at w i)))
                (LD.data_sz (Img.load_data (image_at w i)))) as [_|Hfull];
      [apply flow_ok_ABRT|].
    unfold flow_ok, loaded.
    (split; [split; [count_images; exact Hi|]; split; [exact Hgpu|]|]);
      read_world Hi; repeat split; try exact Hused; try exact HU; try exact Hloaded.
    right. cbn. rewrite (Hmapped Hfile). repeat split. exact Hfull.
Qed.

Lemma add_upload_loaded (U : Z) (env : Env) (i : nat) (w : World) :
  loaded U w i ->
  bitmap_retained (Img.load_data (image_at w i)) ->
  flow_ok (add_upload env i w)
    (fun w' i' =>
       i' = i /\ loaded U w' i
       /\ bitmap_retained (Img.load_data (image_at w' i))).
Proof.
  intros Hloaded Hretained. unfold add_upload.
  destruct (negb _); [apply flow_ok_ABRT|].
  destruct Hloaded as (Hi & Hgpu & Hrest). rewrite Hgpu, andb_false_r.
  unfold flow_ok, loaded. auto.
Qed.

Lemma add_finish_loaded (U : Z) (env : Env) (g : Cmd.t) (tt : ascii) (fmt : Z)
    (i : nat) (w : World) :
  staged U tt w i ->
  (tt <> "d"%char -> mapped_if_loaded w i) ->
  flow_ok (add_finish env g tt fmt i w)
    (fun w' i' =>
       i' = i /\ loaded U w' i
       /\ bitmap_retained (Img.load_data (image_at w' i))).
Proof.
  intros (Hi & Hgpu & Hused & HU & Hbuf) Hmapped. unfold add_finish.
  destruct (Img.data_loaded (image_at w i)) eqn:Hloaded; cbn [negb]; [|reflexivity].
  set (w1 := upd_grman (GM.set_loading_image 0) w).
  assert (Hw1 : loaded U w1 i).
  { unfold loaded, w1. split; [count_images; exact Hi|]. split; [exact Hgpu|].
    read_world Hi. auto. }
  eapply flow_ok_bind.
  - destruct (nzc (Cmd.compressed g) || (fmt =? PNG)) eqn:Hneeds.
    + apply (add_process_loaded U); [exact Hneeds | exact Hw1].
    + apply (add_raw_loaded U); [exact Hw1 | |]; unfold w1; read_world Hi.
      * exact Hbuf.
      * intros Htt. exact (Hmapped Htt Hloaded).
  - intros w2 u [Hw2 Hretained]. apply add_upload_loaded; assumption.
Qed.

(** C10: while GPU uploads are disabled, a successful add leaves the image
    loaded, with its bitmap still in [load_data], charges nothing to the
    image and does not raise the storage the manager accounts for. *)
Theorem add_without_gpu_is_not_charged (env : Env) (g : Cmd.t) (iid : Z)
    (w w' : World) (i : nat) :
  send_to_gpu w = false ->
  storage_accounted (grman w) ->
  loading_image_ok w ->
  handle_add_command env g iid w = (w', Some i) ->
  Img.data_loaded (image_at w' i) = true
  /\ bitmap_retained (Img.load_data (image_at w' i))
  /\ Img.used_storage (image_at w' i) = 0
  /\ GM.used_storage (grman w') <= GM.used_storage (grman w).
Proof.
  intros Hgpu Hacc Hloading. unfold handle_add_command.
  set (U := GM.used_storage (grman w)).
  match goal with
  | |- match ?m with _ => _ end = _ -> _ =>
      assert (Hflow : flow_ok m (fun w' i' =>
                        loaded U w' i'
                        /\ bitmap_retained (Img.load_data (image_at w' i'))));
      [|destruct m as [w1 ret|w1 i1]; unfold flow_ok in Hflow]
  end.
  - eapply flow_ok_bind with
      (Q := fun w1 '(g1, i1) => staged U (effective_transmission_type g1) w1 i1).
    + destruct (negb _) eqn:Hinit.
      * eapply flow_ok_bind; [apply add_init_staged; assumption|].
        intros w1 i1 Hstaged. exact Hstaged.
      * apply negb_false_iff, andb_prop in Hinit as [_ Hbusy].
        apply add_continue_staged; try assumption. by apply nz_true.
    + intros w1 [g1 i1] Hstaged.
      eapply flow_ok_bind; [apply add_transmit_staged, Hstaged|].
      intros w2 u [Hstaged2 Hmapped]. cbv beta.
      eapply flow_ok_weaken; [apply add_finish_loaded; eassumption|].
      intros w3 i3 (-> & H1 & H2). split; assumption.
  - intros [= <- Hret]. subst ret. discriminate.
  - intros [= <- <-]. destruct Hflow as [(_ & _ & Hused & HU & Hloaded) Hretained].
    auto.
Qed.

Lemma add_without_gpu_is_not_charged_witness :
  (send_to_gpu GpuOffScenario.loading = false
   /\ storage_accounted (grman GpuOffScenario.loading)
   /\ loading_image_ok GpuOffScenario.loading
   /\ handle_add_command (Scenario.env 200 0) GpuOffScenario.last_chunk 0
        GpuOffScenario.loading
      = (GpuOffScenario.added, Some 0%nat))
  /\ Img.used_storage (image_at GpuOffScenario.added 0) = 0
  /\ GM.used_storage (grman GpuOffScenario.added)
     <= GM.used_storage (grman GpuOffScenario.loading).
Proof.
  assert (Hgpu : send_to_gpu GpuOffScenario.loading = false)
    by (vm_compute; reflexivity).
  assert (Hacc : storage_accounted (grman GpuOffScenario.loading)).
  { unfold storage_accounted. vm_compute. split.
    - repeat constructor. discriminate.
    - split; [discriminate | reflexivity]. }
  assert (Hloading : loading_image_ok GpuOffScenario.loading).
  { intros _ i Hi. vm_compute in Hi. injection Hi as <-. vm_compute.
    split; reflexivity. }
  assert (Hadded : handle_add_command (Scenario.env 200 0) GpuOffScenario.last_chunk 0
                     GpuOffScenario.loading
                   = (GpuOffScenario.added, Some 0%nat))
    by (vm_compute; reflexivity).
  split; [exact (conj Hgpu (conj Hacc (conj Hloading Hadded)))|].
  destruct (add_without_gpu_is_not_charged (Scenario.env 200 0)
              GpuOffScenario.last_chunk 0 GpuOffScenario.loading
              GpuOffScenario.added 0 Hgpu Hacc Hloading Hadded)
    as (Hloaded & Hretained & Hused & Hle).
  exact (conj Hused Hle).
Defined.

(** ** The source rectangle of a placement *)

Lemma u32_small (z : Z) : 0 <= z < 2^32 -> u32 z = z.
Proof. apply Z.mod_small. Qed.

Lemma u32_range (z : Z) : 0 <= u32 z < 2^32.
Proof. apply Z.mod_pos_bound. lia. Qed.

(** The clamp of [handle_put_command] along one axis. *)
Lemma clamp_inside (extent offset commanded : Z) :
  0 <= extent < 2^32 -> 0 <= offset -> 0 <= commanded ->
  let size := if nz commanded then commanded else extent in
  let clamped :=
    MIN size (u32 (extent - (if extent >? offset then offset else extent))) in
  0 <= clamped /\ Z.min offset extent + clamped <= extent.
Proof.
  intros Hextent Hoffset Hcommanded size clamped.
  assert (Hsize : 0 <= size) by (unfold size; destruct (nz commanded); lia).
  unfold clamped, MIN.
  destruct (Z.gtb_spec extent offset); rewrite u32_small by lia;
    match goal with |- context [?a <? ?b] => destruct (Z.ltb_spec a b) end; lia.
Qed.

Lemma place_ref_src_rect_ok (g : Cmd.t) (img : Img.t) (c : Cursor)
    (cell : CellPixelSize) (old : Ref.t) :
  crop_in_range g ->
  0 <= Img.width img < 2^32 -> 0 <= Img.height img < 2^32 ->
  src_rect_ok (Img.width img) (Img.height img) (place_ref g img c cell old).
Proof.
  intros (Hx & Hy & Hw & Hh) Hwidth Hheight.
  destruct (clamp_inside (Img.width img) (Cmd.x_offset g) (Cmd.width g))
    as [Hw0 Hwin]; [assumption..|].
  destruct (clamp_inside (Img.height img) (Cmd.y_offset g) (Cmd.height g))
    as [Hh0 Hhin]; [assumption..|].
  unfold src_rect_ok, place_ref. destruct (nz (Img.client_id img)); cbn; auto 10.
Qed.

Lemma handle_put_command_placements_ok (env : Env) (g : Cmd.t) (img : option nat)
    (cell : CellPixelSize) (w : World) :
  crop_in_range g ->
  placements_ok (grman w) ->
  placements_ok (grman (fst (handle_put_command env g img cell w))).
Proof.
  intros Hcrop Hok. unfold handle_put_command.
  destruct (put_target (grman w) g img) as [i|]; [|exact Hok].
  destruct (Img.data_loaded (image_at w i)); cbn [negb]; [|exact Hok].
  unfold placements_ok. cbn [fst]. simpl.
  apply Forall_alter; [exact Hok|].
  intros image Himage (Hwidth & Hheight & Hrefs).
  assert (Hat : image_at w i = image)
    by (apply image_at_lookup, Himage).
  rewrite Hat. unfold image_ok. cbn.
  split; [exact Hwidth|]. split; [exact Hheight|].
  match goal with
  | |- context [place_ref g image ?c cell ?old] =>
      pose proof (place_ref_src_rect_ok g image c cell old Hcrop Hwidth Hheight)
        as Hplaced
  end.
  destruct (if nz (Cmd.placement_id g) && nz (Img.client_id image) then _ else _)
    as [j|].
  - apply Forall_insert; assumption.
  - apply Forall_app_2; [assumption | by constructor].
Qed.

Lemma image_ok_zero : image_ok Img.zero.
Proof. unfold image_ok. cbn. repeat split; try lia. constructor. Qed.

Lemma image_at_ok (self : GM.t) (i : nat) :
  placements_ok self -> image_ok (GM.image_at self i).
Proof.
  intros Hok. unfold GM.image_at.
  destruct (GM.images self !! i) as [img|] eqn:Himg; simpl.
  - eapply Forall_lookup_1; eassumption.
  - exact image_ok_zero.
Qed.

Lemma upd_image_placements_ok (self : GM.t) (i : nat) (img : Img.t) :
  placements_ok self -> image_ok img ->
  placements_ok (GM.upd_image i (fun _ => img) self).
Proof. intros Hok Himg. apply Forall_alter; auto. Qed.

Lemma remove_image_placements_ok (self : GM.t) (i : nat) :
  placements_ok self -> placements_ok (remove_image self i).
Proof.
  intros Hok. unfold placements_ok. rewrite remove_image_images.
  apply Forall_delete, Hok.
Qed.

Lemma reap_image_placements_ok (free_images : bool) (i : nat) (self : GM.t) :
  placements_ok self -> placements_ok (reap_image free_images i self).
Proof.
  intros Hok. unfold reap_image.
  destruct (_ && _); [apply remove_image_placements_ok|]; exact Hok.
Qed.

(** *** Filters only take placements away *)

Lemma filter_refs_of_image_ok (filter_func : Ref.t -> Img.t -> bool) (j : nat) :
  forall img : Img.t, image_ok img -> image_ok (fst (filter_refs_of j filter_func img)).
Proof.
  induction j as [|j IH]; intros img Hok; simpl; [exact Hok|].
  destruct (filter_func _ img); [|apply IH, Hok].
  simpl. apply IH. destruct Hok as (Hw & Hh & Hrefs).
  unfold image_ok. cbn. repeat split; try tauto. apply Forall_delete, Hrefs.
Qed.

Lemma filter_refs_from_placements_ok (free_images : bool)
    (filter_func : Ref.t -> Img.t -> bool) (only_first_image : bool) (i : nat) :
  forall (matched : bool) (self : GM.t),
    placements_ok self ->
    placements_ok (filter_refs_from i free_images filter_func only_first_image
                     matched self).
Proof.
  induction i as [|i IH]; intros matched self Hok; simpl; [exact Hok|].
  pose proof (filter_refs_of_image_ok filter_func
                (length (Img.refs (GM.image_at self i))) (GM.image_at self i)
                (image_at_ok self i Hok)) as Himg.
  destruct (filter_refs_of _ filter_func (GM.image_at self i)) as [img m].
  simpl in Himg.
  match goal with
  | |- context [reap_image free_images i ?s] =>
      assert (Hreaped : placements_ok (reap_image free_images i s))
  end.
  { apply reap_image_placements_ok.
    destruct m; apply (upd_image_placements_ok _ _ _ Hok Himg). }
  destruct (only_first_image && (matched || m)); [exact Hreaped | apply IH, Hreaped].
Qed.

Lemma filter_refs_placements_ok (self : GM.t) (free_images : bool)
    (filter_func : Ref.t -> Img.t -> bool) (only_first_image : bool) :
  placements_ok self ->
  placements_ok (filter_refs self free_images filter_func only_first_image).
Proof. apply filter_refs_from_placements_ok. Qed.

(** *** Scrolling clips a placement inside its image *)

Lemma delete_insert_here {A : Type} (i : nat) (x : A) (l : list A) :
  delete i (<[i := x]> l) = delete i l.
Proof.
  revert i; induction l as [|y l IH]; intros [|i]; simpl; try reflexivity.
  f_equal. apply IH.
Qed.

Lemma src_rect_ok_zero (width height : Z) :
  0 <= width -> 0 <= height -> src_rect_ok width height Ref.zero.
Proof. intros Hw Hh. unfold src_rect_ok. cbn. lia. Qed.

Lemma modify_refs_of_image_ok (filter_func : Ref.t -> Img.t -> Ref.t * bool) (j : nat) :
  keeps_src_rect filter_func ->
  forall img : Img.t, image_ok img -> image_ok (modify_refs_of j filter_func img).
Proof.
  intros Hkeeps. induction j as [|j IH]; intros img Hok; simpl; [exact Hok|].
  destruct Hok as (Hw & Hh & Hrefs).
  assert (Hold : src_rect_ok (Img.width img) (Img.height img)
                   (default Ref.zero (Img.refs img !! j))).
  { destruct (Img.refs img !! j) as [ref|] eqn:Href; simpl.
    - eapply Forall_lookup_1; eassumption.
    - apply src_rect_ok_zero; lia. }
  pose proof (Hkeeps _ img Hw Hh Hold) as Hnew.
  destruct (filter_func _ img) as [ref remove]. simpl in Hnew.
  apply IH. destruct remove; unfold image_ok; cbn.
  - rewrite delete_insert_here. repeat split; try tauto. apply Forall_delete, Hrefs.
  - repeat split; try tauto. apply Forall_insert; auto.
Qed.

Lemma modify_refs_from_placements_ok (free_images : bool)
    (filter_func : Ref.t -> Img.t -> Ref.t * bool) (i : nat) :
  keeps_src_rect filter_func ->
  forall self : GM.t,
    placements_ok self ->
    placements_ok (modify_refs_from i free_images filter_func self).
Proof.
  intros Hkeeps. induction i as [|i IH]; intros self Hok; simpl; [exact Hok|].
  apply IH, reap_image_placements_ok, upd_image_placements_ok; [exact Hok|].
  apply modify_refs_of_image_ok; [exact Hkeeps | apply image_at_ok, Hok].
Qed.

Lemma scroll_filter_func_keeps (d : ScrollData) (cell : CellPixelSize) :
  keeps_src_rect (fun ref img => scroll_filter_func ref img d cell).
Proof. intros ref img Hw Hh Hok _. exact Hok. Qed.

Lemma scroll_filter_margins_func_keeps (d : ScrollData) (cell : CellPixelSize) :
  keeps_src_rect (fun ref img => scroll_filter_margins_func ref img d cell).
Proof.
  intros ref img Hw Hh (Hx & Hy & Hsw & Hsh & Hwin & Hhin).
  unfold scroll_filter_margins_func.
  destruct (ref_within_region ref _ _); [|intros _; unfold src_rect_ok; auto 10].
  set (moved := Ref.set_start_row _ ref).
  destruct (ref_outside_region moved _ _); [discriminate|].
  destruct (Ref.start_row moved <? _).
  - set (clip_amt := u32 (cell_height cell * _)).
    pose proof (u32_range (cell_height cell
                           * u32 (margin_top d - Ref.start_row moved))) as Hclip.
    fold clip_amt in Hclip.
    destruct (Z.leb_spec (Ref.src_height moved) clip_amt) as [|Hbig]; [discriminate|].
    intros _. change (Ref.src_height moved) with (Ref.src_height ref) in Hbig.
    unfold src_rect_ok. cbn. rewrite !u32_small by lia. lia.
  - destruct (_ >? _).
    + set (clip_amt := u32 (cell_height cell * _)).
      pose proof (u32_range (cell_height cell
                             * u32 (Ref.start_row moved
                                    + Ref.effective_num_rows moved
                                    - margin_bottom d))) as Hclip.
      fold clip_amt in Hclip.
      destruct (Z.leb_spec (Ref.src_height moved) clip_amt) as [|Hbig]; [discriminate|].
      intros _. change (Ref.src_height moved) with (Ref.src_height ref) in Hbig.
      unfold src_rect_ok. cbn. rewrite !u32_small by lia. lia.
    + intros _. unfold src_rect_ok. cbn. auto 10.
Qed.

Lemma grman_scroll_images_placements_ok (self : GM.t) (data : ScrollData)
    (cell : CellPixelSize) :
  placements_ok self -> placements_ok (grman_scroll_images self data cell).
Proof.
  intros Hok. unfold grman_scroll_images. destruct (nz _); [|exact Hok].
  apply modify_refs_from_placements_ok; [|exact Hok].
  destruct (has_margins data).
  - apply scroll_filter_margins_func_keeps.
  - apply scroll_filter_func_keeps.
Qed.

Lemma grman_rescale_placements_ok (self : GM.t) (cell : CellPixelSize) :
  placements_ok self -> placements_ok (grman_rescale self cell).
Proof.
  intros Hok. unfold grman_rescale, placements_ok. cbn.
  apply Forall_fmap. eapply Forall_impl; [exact Hok|].
  intros img (Hw & Hh & Hrefs). unfold image_ok. cbn.
  repeat split; try tauto.
  apply Forall_fmap. eapply Forall_impl; [exact Hrefs|].
  intros ref Href. exact Href.
Qed.

Lemma handle_delete_command_placements_ok (g : Cmd.t) (cell : CellPixelSize) (w : World) :
  placements_ok (grman w) ->
  placements_ok (grman (handle_delete_command g cell w)).
Proof.
  intros Hok. unfold handle_delete_command.
  match goal with
  | |- context [negb (nz (image_count (grman ?w1)))] =>
      assert (Hfiltered : placements_ok (grman w1))
  end.
  { destruct (delete_filter g (cursor w) cell) as [[[func u] only_first]|];
      [|exact Hok].
    apply filter_refs_placements_ok, Hok. }
  destruct (_ && _); exact Hfiltered.
Qed.

Lemma finish_command_response_grman (g : Cmd.t) (data_loaded : bool)
    (iid placement_id image_number : Z) (w : World) :
  grman (fst (finish_command_response g data_loaded iid placement_id image_number w))
  = grman w.
Proof.
  unfold finish_command_response.
  repeat match goal with
         | |- context [if ?c then _ else _] => destruct c
         end; reflexivity.
Qed.

Lemma put_command_placements_ok (env : Env) (g : Cmd.t) (cell : CellPixelSize)
    (w : World) :
  crop_in_range g -> Cmd.action g = "p"%char ->
  placements_ok (grman w) ->
  placements_ok (grman (fst (grman_handle_command env g cell w))).
Proof.
  intros Hcrop Haction Hok. unfold grman_handle_command. rewrite Haction.
  destruct (nz (Cmd.id g) && nz (Cmd.image_number g)).
  { rewrite finish_command_response_grman. exact Hok. }
  change (negb (nzc "p") || one_of "p" "t" "T" || ("p" =? "q")%char) with false.
  change ("p" =? "p")%char with true. cbv iota.
  destruct (negb (nz (Cmd.id g)) && negb (nz (Cmd.image_number g))); [exact Hok|].
  pose proof (handle_put_command_placements_ok env g None cell
                (set_command_response "" w) Hcrop Hok) as Hput.
  destruct (handle_put_command env g None cell (set_command_response "" w))
    as [w1 image_id].
  rewrite finish_command_response_grman. exact Hput.
Qed.

Lemma delete_command_placements_ok (env : Env) (g : Cmd.t) (cell : CellPixelSize)
    (w : World) :
  Cmd.action g = "d"%char ->
  placements_ok (grman w) ->
  placements_ok (grman (fst (grman_handle_command env g cell w))).
Proof.
  intros Haction Hok. unfold grman_handle_command. rewrite Haction.
  destruct (nz (Cmd.id g) && nz (Cmd.image_number g)).
  { rewrite finish_command_response_grman. exact Hok. }
  change (negb (nzc "d") || one_of "d" "t" "T" || ("d" =? "q")%char) with false.
  change ("d" =? "p")%char with false. change ("d" =? "d")%char with true.
  cbv iota. cbn [fst]. apply handle_delete_command_placements_ok, Hok.
Qed.

(** Put, delete, scroll (with or without margins), rescale and clear keep
    the crop of every placement inside its image as far as its origin is. *)
Lemma placements_ok_kept (w : World) :
  placements_ok (grman w) ->
  (forall (env : Env) (g : Cmd.t) (cell : CellPixelSize),
     crop_in_range g -> Cmd.action g = "p"%char ->
     placements_ok (grman (fst (grman_handle_command env g cell w))))
  /\ (forall (env : Env) (g : Cmd.t) (cell : CellPixelSize),
        Cmd.action g = "d"%char ->
        placements_ok (grman (fst (grman_handle_command env g cell w))))
  /\ (forall (data : ScrollData) (cell : CellPixelSize),
        placements_ok (grman_scroll_images (grman w) data cell))
  /\ (forall cell : CellPixelSize, placements_ok (grman_rescale (grman w) cell))
  /\ (forall (all : bool) (cell : CellPixelSize),
        placements_ok (grman_clear (grman w) all cell)).
Proof.
  intros Hok. repeat split.
  - intros env g cell Hcrop Haction. by apply put_command_placements_ok.
  - intros env g cell Haction. by apply delete_command_placements_ok.
  - intros data cell. by apply grman_scroll_images_placements_ok.
  - intros cell. by apply grman_rescale_placements_ok.
  - intros all cell. by apply filter_refs_placements_ok.
Qed.

(** Replaces a closed term of the goal by its value. *)
Ltac evaluate t :=
  let v := eval vm_compute in t in change t with v.

(** C2 as stated fails: after a put whose [src_x] lies beyond the image the
    placement has [src_x + src_width > image.width]. *)
Lemma src_rect_beyond_image :
  src_rect_inside_image (grman CropScenario.after_add)
  /\ ~ src_rect_inside_image (grman CropScenario.after_put).
Proof.
  unfold src_rect_inside_image. split.
  - evaluate (GM.images (grman CropScenario.after_add)). repeat constructor.
  - evaluate (GM.images (grman CropScenario.after_put)).
    intros Hinside. apply Forall_inv, Forall_inv in Hinside.
    cbn in Hinside. lia.
Qed.

(** ** Free ids, layers and deleting by row *)

(** C4 fails on the code: with the client ids 1 and 3 000 000 000 in use,
    [cmp_client_ids] orders 3 000 000 000 before 1 (their difference does not
    fit an [int]), the scan stops at once, and the new image is given the
    id 1, which is taken.  With the ids 1 and 2 the answer is 3. *)
Lemma free_client_id_already_in_use :
  map Img.client_id (GM.images (grman FreeIdScenario.two_images)) = [1; 3000000000]
  /\ qsort cmp_client_ids [1; 3000000000] = [3000000000; 1]
  /\ snd (grman_handle_command (Scenario.env 300 0) FreeIdScenario.add_by_number
            Scenario.cell FreeIdScenario.two_images)
     = Some "Gi=1,I=7;OK"%string
  /\ map Img.client_id
       (GM.images (grman (Scenario.run (Scenario.env 300 0)
                            FreeIdScenario.add_by_number FreeIdScenario.two_images)))
     = [1; 3000000000; 1]
  /\ snd (grman_handle_command (Scenario.env 300 0) FreeIdScenario.add_by_number
            Scenario.cell FreeIdScenario.small_ids)
     = Some "Gi=3,I=7;OK"%string.
Proof. vm_compute. repeat split; reflexivity. Qed.

(** C6 fails on the code: for z = -2 000 000 000 and z = 2 000 000 000 the
    difference computed by [cmp_by_zindex_and_image] wraps around to a
    positive [int], and the render set comes out with the larger z first. *)
Lemma layers_out_of_order :
  map Ref.z_index (Img.refs (image_at LayerScenario.far_apart 0))
  = [-2000000000; 2000000000]
  /\ cmp_by_zindex_and_image (RD.mk 7 0 (-2000000000) 1) (RD.mk 7 0 2000000000 1)
     = 294967296
  /\ map RD.z_index (LayerScenario.layers LayerScenario.far_apart)
     = [2000000000; -2000000000].
Proof. vm_compute. repeat split; reflexivity. Qed.

(** C7 fails on the code: a run of equal image ids that ends at the last
    entry is counted one short, and its last entry starts a group of its
    own.  A run that ends earlier is counted in full. *)
Lemma last_group_counted_short :
  map RD.image_id (LayerScenario.layers LayerScenario.twice) = [1; 1]
  /\ map RD.group_count (LayerScenario.layers LayerScenario.twice) = [1; 1]
  /\ map RD.group_count
       (group_counts 3 0 [RD.mk 0 0 0 1; RD.mk 0 0 0 2; RD.mk 0 0 0 2])
     = [1; 1; 1]
  /\ map RD.group_count
       (group_counts 3 0 [RD.mk 0 0 0 1; RD.mk 0 0 0 1; RD.mk 0 0 0 2])
     = [2; 0; 1].
Proof. vm_compute. repeat split; reflexivity. Qed.

(** C8 fails on the code: the second conjunct of [y_filter_func] is an
    unsigned comparison, so a placement that lies wholly above row 0 (here
    rows -5 and -4) matches every row at or below its first, and the delete
    of row 0 removes it. *)
Lemma delete_row_removes_placement_above :
  (exists ref : Ref.t,
     Img.refs (image_at DeleteScenario.scrolled 0) = [ref]
     /\ Ref.start_row ref = -5 /\ Ref.effective_num_rows ref = 2
     /\ ~ (Cmd.y_offset DeleteScenario.delete_row - 1
           < Ref.start_row ref + Ref.effective_num_rows ref))
  /\ Img.refs (image_at (Scenario.run (Scenario.env 200 0)
                           DeleteScenario.delete_row DeleteScenario.scrolled) 0)
     = [].
Proof.
  split.
  - evaluate (Img.refs (image_at DeleteScenario.scrolled 0)).
    eexists. split; [reflexivity|]. cbn. repeat split; lia.
  - vm_compute. reflexivity.
Qed.

(** ** The invariant of the manager *)

(** *** Lists of images *)

Lemma fmap_alter_same {A B : Type} (g : A -> B) (f : A -> A) (i : nat) (l : list A) :
  (forall x, l !! i = Some x -> g (f x) = g x) ->
  g <$> alter f i l = g <$> l.
Proof.
  revert i; induction l as [|y l IH]; intros [|i] Hsame; simpl; try reflexivity.
  - f_equal. apply Hsame. reflexivity.
  - f_equal. apply IH. intros x Hx. apply Hsame. exact Hx.
Qed.

Lemma storage_sum_alter (f : Img.t -> Img.t) (i : nat) (img : Img.t) (l : list Img.t) :
  l !! i = Some img ->
  storage_sum (alter f i l)
  = storage_sum l - Img.used_storage img + Img.used_storage (f img).
Proof.
  revert i; induction l as [|y l IH]; intros [|i] Hi; simplify_eq/=.
  - lia.
  - rewrite (IH _ Hi). lia.
Qed.

Lemma storage_sum_nonneg (l : list Img.t) :
  Forall (fun img => 0 <= Img.used_storage img) l -> 0 <= storage_sum l.
Proof. induction 1; simpl; lia. Qed.

Lemma storage_sum_Permutation (l k : list Img.t) :
  l ≡ₚ k -> storage_sum l = storage_sum k.
Proof. induction 1; simpl; lia. Qed.

Lemma storage_sum_submseteq (l k : list Img.t) :
  l ⊆+ k ->
  Forall (fun img => 0 <= Img.used_storage img) k ->
  storage_sum l <= storage_sum k.
Proof.
  intros Hsub. apply submseteq_sublist_r in Hsub as (m & Hperm & Hsub).
  rewrite (storage_sum_Permutation _ _ Hperm). clear l Hperm.
  induction Hsub as [|x l1 l2 Hsub IH|x l1 l2 Hsub IH]; intros Hpos; simpl.
  - lia.
  - inversion_clear Hpos. specialize (IH ltac:(assumption)). lia.
  - inversion_clear Hpos. specialize (IH ltac:(assumption)). lia.
Qed.

Lemma Forall_submseteq {A : Type} (P : A -> Prop) (l k : list A) :
  l ⊆+ k -> Forall P k -> Forall P l.
Proof.
  intros Hsub Hk. apply Forall_forall. intros x Hx.
  eapply Forall_forall; [exact Hk|]. eapply elem_of_submseteq; eassumption.
Qed.

Lemma NoDup_submseteq_of {A : Type} (l k : list A) :
  l ⊆+ k -> NoDup k -> NoDup l.
Proof.
  intros Hsub Hk. apply submseteq_sublist_r in Hsub as (m & Hperm & Hsub).
  rewrite Hperm. eapply sublist_NoDup; eassumption.
Qed.

Lemma settled_nonneg (l : list Img.t) :
  Forall settled l -> Forall (fun img => 0 <= Img.used_storage img) l.
Proof.
  intros Hsettled. eapply Forall_impl; [exact Hsettled|].
  intros img (_ & Hpos & _). exact Hpos.
Qed.

(** *** Frames *)

(** The world changes in one image only. *)
Lemma consistent_alter (w w' : World) (i : nat) (f : Img.t -> Img.t) (img : Img.t) :
  consistent w ->
  GM.images (grman w) !! i = Some img ->
  GM.images (grman w') = alter f i (GM.images (grman w)) ->
  internal_id_counter w' = internal_id_counter w ->
  saved_command_ok (grman w') ->
  Img.internal_id (f img) = Img.internal_id img ->
  settled (f img) ->
  Img.used_storage (f img) - Img.used_storage img
  <= GM.used_storage (grman w') - GM.used_storage (grman w) ->
  GM.used_storage (grman w') < 2^64 ->
  (GM.loading_image (grman w') <> 0 ->
   (GM.loading_image (grman w') = GM.loading_image (grman w)
    \/ GM.loading_image (grman w') = Img.internal_id img)
   /\ (GM.loading_image (grman w') = Img.internal_id img ->
       Img.data_loaded (f img) = false /\ LD.buf (Img.load_data (f img)) = true)) ->
  consistent w'.
Proof.
  intros (Hsettled & Hnodup & Hfresh & Hsum & Hloading & Hcrop)
    Himg Himages Hcounter Hcrop' Hid Hfimg Hcharge Hwrap Hloading'.
  assert (Hids : Img.internal_id <$> GM.images (grman w')
                 = Img.internal_id <$> GM.images (grman w)).
  { rewrite Himages. apply fmap_alter_same. intros x Hx.
    rewrite Himg in Hx. by injection Hx as <-. }
  unfold consistent. rewrite Hids, Himages, Hcounter.
  split; [|split; [exact Hnodup|split; [|split; [|split; [|exact Hcrop']]]]].
  - apply Forall_alter; [exact Hsettled|]. intros x Hx _.
    rewrite Himg in Hx. by injection Hx as <-.
  - apply Forall_alter; [exact Hfresh|]. intros x Hx Hlt.
    rewrite Himg in Hx. injection Hx as <-. by rewrite Hid.
  - rewrite (storage_sum_alter _ _ _ _ Himg). lia.
  - intros Hnz img' Hin Hid'. rewrite Himages in Hin.
    apply list_elem_of_lookup in Hin as [j Hj].
    destruct (Hloading' Hnz) as [Hwhich Hhere].
    destruct (decide (i = j)) as [<-|Hne].
    + rewrite list_lookup_alter_eq, Himg in Hj. injection Hj as <-.
      apply Hhere. by rewrite <- Hid, Hid'.
    + rewrite list_lookup_alter_ne in Hj by exact Hne.
      destruct Hwhich as [Hsame|Hmine].
      * apply Hloading; [by rewrite <- Hsame | | by rewrite <- Hsame].
        apply list_elem_of_lookup. eauto.
      * exfalso. apply Hne.
        apply (NoDup_lookup _ i j (Img.internal_id img) Hnodup).
        -- by rewrite list_lookup_fmap, Himg.
        -- rewrite list_lookup_fmap, Hj. simpl. by rewrite Hid', Hmine.
Qed.

(** Images are taken away or reordered, and no more is uncharged than they
    were charged. *)
Lemma consistent_shrink (w w' : World) :
  consistent w ->
  GM.images (grman w') ⊆+ GM.images (grman w) ->
  storage_sum (GM.images (grman w')) <= GM.used_storage (grman w')
  <= GM.used_storage (grman w) ->
  internal_id_counter w' = internal_id_counter w ->
  saved_command_ok (grman w') ->
  (GM.loading_image (grman w') <> 0 ->
   GM.loading_image (grman w') = GM.loading_image (grman w)) ->
  consistent w'.
Proof.
  intros (Hsettled & Hnodup & Hfresh & Hsum & Hloading & Hcrop)
    Hsub Hcharge Hcounter Hcrop' Hloading'.
  unfold consistent. rewrite Hcounter.
  split; [|split; [|split; [|split; [|split; [|exact Hcrop']]]]].
  - eapply Forall_submseteq; eassumption.
  - eapply NoDup_submseteq_of; [|exact Hnodup]. by apply fmap_submseteq.
  - eapply Forall_submseteq; eassumption.
  - lia.
  - intros Hnz img Hin Hid. rewrite (Hloading' Hnz) in Hid.
    apply Hloading; [by rewrite <- (Hloading' Hnz) | | exact Hid].
    eapply elem_of_submseteq; eassumption.
Qed.

(** *** An image that is being added *)

Lemma flow_inv_bind {A B : Type} (m : flow A) (k : World -> A -> flow B)
    (Q : World -> A -> Prop) (R : World -> B -> Prop) :
  flow_inv m Q -> (forall w a, Q w a -> flow_inv (k w a) R) ->
  flow_inv (flow_bind m k) R.
Proof. destruct m as [w ret|w a]; simpl; auto. Qed.

Lemma flow_inv_weaken {A : Type} (m : flow A) (Q R : World -> A -> Prop) :
  flow_inv m Q -> (forall w a, Q w a -> R w a) -> flow_inv m R.
Proof. destruct m; simpl; auto. Qed.

Lemma adding_image (w : World) (i : nat) :
  adding w i ->
  exists img : Img.t,
    GM.images (grman w) !! i = Some img /\ pending_image w img.
Proof.
  intros [[Hconsistent _] (img & Himg & Hrefs & Hused & Hmine)].
  exists img. split; [exact Himg|].
  destruct Hconsistent as (Hsettled & _ & _ & _ & Hloading & _).
  split; [eapply Forall_lookup_1; eassumption|].
  split; [exact Hrefs|]. split; [exact Hused|].
  intros Hnz. split; [exact (Hmine Hnz)|].
  apply (Hloading Hnz); [|symmetry; exact (Hmine Hnz)].
  apply list_elem_of_lookup. eauto.
Qed.

Lemma adding_alter (w w' : World) (i : nat) (f : Img.t -> Img.t) :
  adding w i ->
  GM.images (grman w') = alter f i (GM.images (grman w)) ->
  GM.used_storage (grman w') = GM.used_storage (grman w) ->
  internal_id_counter w' = internal_id_counter w ->
  saved_command_ok (grman w') ->
  (forall img : Img.t,
     GM.images (grman w) !! i = Some img -> pending_image w img ->
     still_pending w' img (f img)) ->
  adding w' i.
Proof.
  intros Hadding Himages Hcharge Hcounter Hcrop Hstep.
  destruct (adding_image w i Hadding) as (img & Himg & Hpending).
  destruct (Hstep img Himg Hpending)
    as (Hid & Hrefs & Hused & Hdims & Hsize & Hloading').
  destruct Hadding as [[Hconsistent Hquota] _].
  destruct Hpending as (Hsettled & Hrefs0 & Hused0 & Hloading).
  split; [split|].
  - apply (consistent_alter w w' i f img); try assumption.
    + unfold settled, image_ok. rewrite Hrefs, Hused.
      repeat split; try tauto; try lia. constructor.
    + lia.
    + destruct Hconsistent as (_ & _ & _ & Hsum & _). lia.
    + intros Hnz. destruct (Hloading' Hnz) as (Hmine & Hunloaded & Hbuf).
      split; [by right | intros _; by split].
  - lia.
  - exists (f img). rewrite Himages, list_lookup_alter_eq, Himg.
    split; [reflexivity|]. split; [exact Hrefs|]. split; [exact Hused|].
    intros Hnz. rewrite Hid. apply (Hloading' Hnz).
Qed.

Lemma adding_invariant (w : World) (i : nat) : adding w i -> invariant w.
Proof. intros [Hinv _]. exact Hinv. Qed.

(** Shows that the images of a world reached by updates in place of slot
    [i] are those of the world it started from, altered at [i]. *)
Ltac frame_images :=
  cbn; rewrite ?list_alter_alter_eq;
  first [ reflexivity | symmetry; apply list_alter_id; reflexivity ].

(** The [ABRT] macro keeps the invariant. *)
Lemma flow_inv_ABRT {A : Type} (code msg : string) (w : World) (i : nat)
    (Q : World -> A -> Prop) :
  adding w i -> flow_inv (ABRT code msg (Some i) w) Q.
Proof.
  intros Hadding. unfold ABRT, flow_inv. split; [reflexivity|].
  apply (adding_invariant _ i).
  eapply (adding_alter w); [exact Hadding | frame_images | reflexivity..| |].
  - destruct Hadding as [[Hconsistent _] _].
    split; [apply Hconsistent | intros Hnz; contradiction].
  - intros img Himg (Hsettled & Hrefs & Hused & Hloading). unfold still_pending. cbn.
    destruct Hsettled as ((Hw & Hh & _) & _ & Hsize & _).
    repeat split; try assumption; try tauto; try lia; contradiction.
Qed.

(** *** The steps of [handle_add_command] keep the invariant *)

Lemma adding_saved_command (w : World) (i : nat) :
  adding w i -> saved_command_ok (grman w).
Proof. intros [[Hconsistent _] _]. apply Hconsistent. Qed.

(** Reduces a claim about a world reached from [w] by updates of slot [i]
    to the conditions on the rewritten image. *)
Ltac from_adding Hadding :=
  match type of Hadding with
  | adding ?w ?i =>
      eapply (adding_alter w);
      [ exact Hadding | frame_images | reflexivity | reflexivity | | ]
  end.

Ltac leaves_with_invariant Hadding :=
  match type of Hadding with
  | adding ?w ?i =>
      unfold ABRT, flow_inv; split; [reflexivity|];
      apply (adding_invariant _ i); from_adding Hadding
  end.

(** Settles the conditions on the rewritten image that follow from what is
    known of the image before the step. *)
Ltac image_facts :=
  let img := fresh "img" in
  let Hloading := fresh "Hloading" in
  let Hnz := fresh "Hnz" in
  intros img ? (((? & ? & _) & _ & ? & _) & ? & ? & Hloading);
  unfold still_pending; cbn;
  repeat match goal with |- _ /\ _ => split end;
  try assumption; try reflexivity; try lia;
  try (intros Hnz;
       first [ contradiction
             | destruct (Hloading Hnz) as (? & ? & ?);
               repeat split; first [assumption | reflexivity | congruence] ]).

Lemma add_direct_adding (env : Env) (g : Cmd.t) (fmt : Z) (i : nat) (w : World) :
  adding w i ->
  flow_inv (add_direct env g fmt i w) (fun w' _ => adding w' i).
Proof.
  intros Hadding. pose proof (adding_saved_command w i Hadding) as [Hcrop Hsaved].
  unfold add_direct.
  destruct (_ <? _); [destruct (_ || _); [apply flow_inv_ABRT, Hadding|]|].
  - destruct (realloc_ok env); cbn [negb flow_bind].
    + destruct (nz (Cmd.more g)) eqn:Hmore; cbn [negb]; unfold flow_inv;
        (from_adding Hadding;
         [split; [assumption | first [assumption | intros Hnz; contradiction]]
         | image_facts]).
    + leaves_with_invariant Hadding;
        [split; [assumption | intros Hnz; contradiction] | image_facts].
  - cbn [flow_bind].
    destruct (nz (Cmd.more g)) eqn:Hmore; cbn [negb]; unfold flow_inv;
      (from_adding Hadding;
       [split; [assumption | first [assumption | intros Hnz; contradiction]]
       | image_facts]).
Qed.

(** The saved command and [loading_image] are as before, or [loading_image]
    is cleared. *)
Ltac saved_ok :=
  split; [assumption | first [assumption | intros ?; contradiction]].

Lemma add_file_adding (env : Env) (g : Cmd.t) (i : nat) (w : World) :
  adding w i -> GM.loading_image (grman w) = 0 ->
  flow_inv (add_file env g i w) (fun w' _ => adding w' i).
Proof.
  intros Hadding Hidle.
  pose proof (adding_saved_command w i Hadding) as [Hcrop Hsaved].
  unfold add_file.
  destruct (_ >? _); [apply flow_inv_ABRT, Hadding|].
  destruct (_ =? _); [apply flow_inv_ABRT, Hadding|].
  unfold mmap_img_file.
  repeat match goal with
         | |- context [if ?c then _ else _] => destruct c eqn:?
         end;
    unfold flow_inv; (from_adding Hadding; [saved_ok | image_facts]).
Qed.

Lemma add_transmit_adding (env : Env) (g : Cmd.t) (tt : ascii) (fmt : Z)
    (i : nat) (w : World) :
  adding w i ->
  (GM.loading_image (grman w) <> 0 -> tt = "d"%char) ->
  flow_inv (add_transmit env g tt fmt i w) (fun w' _ => adding w' i).
Proof.
  intros Hadding Hdirect. unfold add_transmit.
  destruct (Ascii.eqb_spec tt "d") as [->|Hfile].
  - apply add_direct_adding, Hadding.
  - destruct (_ || _); [|apply flow_inv_ABRT, Hadding].
    apply add_file_adding; [exact Hadding|].
    destruct (decide (GM.loading_image (grman w) = 0)) as [Hidle|Hbusy];
      [exact Hidle | destruct (Hfile (Hdirect Hbusy))].
Qed.

Lemma add_process_adding (env : Env) (g : Cmd.t) (fmt : Z) (i : nat) (w : World) :
  env_in_range env ->
  adding w i -> GM.loading_image (grman w) = 0 ->
  flow_inv (add_process env g fmt i w)
    (fun w' _ => adding w' i /\ GM.loading_image (grman w') = 0).
Proof.
  intros Henv Hadding Hidle.
  pose proof (adding_saved_command w i Hadding) as [Hcrop Hsaved].
  unfold add_process, inflate_zlib, inflate_png. unfold env_in_range in Henv.
  destruct (png env) as [sz width height|code msg];
    repeat match goal with
           | |- context [if ?c then _ else _] => destruct c eqn:?
           end;
    cbv beta iota; cbn [flow_bind];
    repeat match goal with
           | |- context [if ?c then _ else _] => destruct c eqn:?
           end;
    try (apply flow_inv_ABRT, Hadding);
    unfold flow_inv;
    try (split; [|exact Hidle]);
    first [ from_adding Hadding; [saved_ok | image_facts]
          | leaves_with_invariant Hadding; [saved_ok | image_facts] ].
Qed.

Lemma add_raw_adding (tt : ascii) (i : nat) (w : World) :
  adding w i -> GM.loading_image (grman w) = 0 ->
  flow_inv (add_raw tt i w)
    (fun w' _ => adding w' i /\ GM.loading_image (grman w') = 0).
Proof.
  intros Hadding Hidle.
  pose proof (adding_saved_command w i Hadding) as [Hcrop Hsaved].
  unfold add_raw.
  repeat match goal with
         | |- context [if ?c then _ else _] => destruct c eqn:?
         end;
    try (apply flow_inv_ABRT, Hadding);
    unfold flow_inv; (split; [|exact Hidle]);
    (from_adding Hadding; [saved_ok | image_facts]).
Qed.

Lemma invariant_uploaded (w : World) : invariant w -> uploaded w.
Proof. intros [Hconsistent Hquota]. split; [exact Hconsistent | lia]. Qed.

Lemma u64_range (z : Z) : 0 <= u64 z < 2^64.
Proof. unfold u64. apply Z.mod_pos_bound. lia. Qed.

Lemma u64_small (z : Z) : 0 <= z < 2^64 -> u64 z = z.
Proof. apply Z.mod_small. Qed.

Lemma STORAGE_LIMIT_value : STORAGE_LIMIT = 335544320.
Proof. reflexivity. Qed.

(** The upload charges the image and the manager alike. *)
Lemma add_upload_uploaded (env : Env) (i : nat) (w : World) :
  adding w i -> GM.loading_image (grman w) = 0 ->
  flow_inv (add_upload env i w) (fun w' i' => i' = i /\ uploaded w').
Proof.
  intros Hadding Hidle.
  pose proof (adding_saved_command w i Hadding) as [Hcrop Hsaved].
  destruct (adding_image w i Hadding) as (img & Himg & Hpending).
  unfold add_upload, image_at. rewrite (image_at_lookup (grman w) i img Himg).
  set (required_sz := u64 _).
  destruct (Z.eqb_spec (LD.data_sz (Img.load_data img)) required_sz) as [Hsize|_];
    [|apply flow_inv_ABRT, Hadding].
  cbn [negb].
  destruct (Img.data_loaded img && send_to_gpu w) eqn:Hgpu; unfold flow_inv;
    (split; [reflexivity|]);
    [|apply invariant_uploaded, (adding_invariant _ i), Hadding].
  apply andb_prop in Hgpu as [Hloaded _].
  destruct Hadding as [[Hconsistent Hquota] _].
  destruct Hpending as (Hsettled & Hrefs & Hused & _).
  destruct Hsettled as ((Hwidth & Hheight & _) & _ & Hfits & _).
  pose proof (u64_range ((if LD.is_opaque (Img.load_data img) then 3 else 4)
                         * Img.width img * Img.height img)) as Hrequired.
  fold required_sz in Hrequired.
  assert (Hsum : 0 <= GM.used_storage (grman w)).
  { destruct Hconsistent as (Hall & _ & _ & Hsum & _).
    pose proof (storage_sum_nonneg _ (settled_nonneg _ Hall)). lia. }
  rewrite STORAGE_LIMIT_value in *.
  assert (Hcharged : u64 (GM.used_storage (grman w) + required_sz)
                     = GM.used_storage (grman w) + required_sz)
    by (apply u64_small; lia).
  split.
  - eapply (consistent_alter w _ i _ img Hconsistent Himg);
      [frame_images | reflexivity | split; assumption | reflexivity | | | | ].
    + unfold settled, image_ok. cbn. rewrite Hrefs.
      repeat split; try lia; try constructor; congruence.
    + cbn. rewrite Hcharged. lia.
    + cbn. rewrite Hcharged. lia.
    + cbn. intros Hnz. contradiction.
  - cbn. rewrite Hcharged, STORAGE_LIMIT_value. lia.
Qed.

Lemma add_finish_uploaded (env : Env) (g : Cmd.t) (tt : ascii) (fmt : Z) (i : nat)
    (w : World) :
  env_in_range env -> adding w i ->
  flow_inv (add_finish env g tt fmt i w) (fun w' i' => i' = i /\ uploaded w').
Proof.
  intros Henv Hadding. unfold add_finish.
  pose proof (adding_saved_command w i Hadding) as [Hcrop Hsaved].
  destruct (negb _).
  { split; [reflexivity | apply (adding_invariant _ i), Hadding]. }
  assert (Hidle : adding (upd_grman (GM.set_loading_image 0) w) i).
  { from_adding Hadding; [split; [assumption | intros Hnz; contradiction]
                         | image_facts ]. }
  eapply flow_inv_bind
    with (Q := fun w' _ => adding w' i /\ GM.loading_image (grman w') = 0).
  - destruct (_ || _).
    + apply add_process_adding; [exact Henv | exact Hidle | reflexivity].
    + apply add_raw_adding; [exact Hidle | reflexivity].
  - intros w1 _ [Hadding1 Hidle1]. by apply add_upload_uploaded.
Qed.

(** *** The start of a transmission *)

(** The world changes outside the images, the storage and the counter. *)
Lemma invariant_frame (w w' : World) :
  invariant w ->
  GM.images (grman w') = GM.images (grman w) ->
  GM.used_storage (grman w') = GM.used_storage (grman w) ->
  internal_id_counter w' = internal_id_counter w ->
  saved_command_ok (grman w') ->
  (GM.loading_image (grman w') <> 0 ->
   GM.loading_image (grman w') = GM.loading_image (grman w)) ->
  invariant w'.
Proof.
  intros [Hconsistent Hquota] Himages Hused Hcounter Hsaved Hloading.
  split; [|lia].
  apply (consistent_shrink w); try assumption.
  - by rewrite Himages.
  - rewrite Himages, Hused. destruct Hconsistent as (_ & _ & _ & Hsum & _). lia.
Qed.

Lemma flow_inv_ABRT_None {A : Type} (code msg : string) (w : World)
    (Q : World -> A -> Prop) :
  invariant w -> flow_inv (ABRT code msg None w) Q.
Proof.
  intros Hinv. unfold ABRT, flow_inv. split; [reflexivity|].
  apply (invariant_frame w _ Hinv); try reflexivity.
  - destruct Hinv as [(_ & _ & _ & _ & _ & Hcrop & _) _].
    split; [exact Hcrop | intros Hnz; contradiction].
  - intros Hnz; contradiction.
Qed.

Lemma remove_images_from_same_transmission (predicate : Img.t -> bool) (skip : Z)
    (i : nat) (self : GM.t) :
  same_transmission self (remove_images_from i predicate skip self).
Proof.
  revert self; induction i as [|i IH]; intros self; simpl; [by split|].
  destruct (negb _ && _); [|apply IH].
  destruct (IH (remove_image self i)) as [Hloading Hsaved].
  split; [rewrite Hloading | rewrite Hsaved]; reflexivity.
Qed.

Lemma remove_images_same_transmission (self : GM.t) (predicate : Img.t -> bool)
    (skip : Z) :
  same_transmission self (remove_images self predicate skip).
Proof. apply remove_images_from_same_transmission. Qed.

Lemma filter_submseteq {A : Type} (f : A -> bool) (l : list A) :
  List.filter f l ⊆+ l.
Proof.
  induction l as [|x l IH]; simpl; [constructor|].
  destruct (f x); [by apply submseteq_skip | by apply submseteq_cons].
Qed.

Lemma consistent_accounted (w : World) : consistent w -> storage_accounted (grman w).
Proof.
  intros (Hsettled & _ & _ & Hsum & _). split; [|exact Hsum].
  apply settled_nonneg, Hsettled.
Qed.

Lemma remove_images_consistent (w : World) (predicate : Img.t -> bool) (skip : Z) :
  consistent w ->
  consistent (upd_grman (fun s => remove_images s predicate skip) w)
  /\ GM.used_storage (remove_images (grman w) predicate skip)
     <= GM.used_storage (grman w).
Proof.
  intros Hconsistent.
  destruct (remove_images_accounted (grman w) predicate skip
              (consistent_accounted w Hconsistent)) as [[_ Hsum] Hle].
  destruct (remove_images_same_transmission (grman w) predicate skip)
    as [Hloading Hsaved].
  split; [|exact Hle].
  apply (consistent_shrink w _ Hconsistent); cbn [grman upd_grman internal_id_counter].
  - rewrite remove_images_images. apply filter_submseteq.
  - lia.
  - reflexivity.
  - unfold saved_command_ok. rewrite Hloading, Hsaved.
    destruct Hconsistent as (_ & _ & _ & _ & _ & Hok). exact Hok.
  - intros _. exact Hloading.
Qed.

Lemma remove_images_invariant (w : World) (predicate : Img.t -> bool) (skip : Z) :
  invariant w -> invariant (upd_grman (fun s => remove_images s predicate skip) w).
Proof.
  intros [Hconsistent Hquota].
  destruct (remove_images_consistent w predicate skip Hconsistent) as [Hc Hle].
  split; [exact Hc|]. cbn [grman upd_grman]. lia.
Qed.

(** A further chunk goes to the image an unfinished transmission names. *)
Lemma add_continue_adding (g : Cmd.t) (w : World) :
  invariant w -> GM.loading_image (grman w) <> 0 ->
  flow_inv (add_continue g w)
    (fun w' '(g', i) =>
       adding w' i /\ g' = GM.last_init_graphics_command (grman w')).
Proof.
  intros Hinv Hbusy. unfold add_continue.
  set (w1 := upd_grman _ w).
  assert (Hinv1 : invariant w1).
  { apply (invariant_frame w _ Hinv); try reflexivity.
    destruct Hinv as [(_ & _ & _ & _ & _ & Hcrop & Hdirect) _].
    split; [exact Hcrop | exact Hdirect]. }
  destruct (img_by_internal_id _ _) as [i|] eqn:Hfind.
  - unfold flow_inv. split; [|reflexivity]. split; [exact Hinv1|].
    apply img_by_internal_id_Some in Hfind as (img & Himg & Hid).
    destruct Hinv1 as [(Hsettled & _ & _ & _ & Hloading & _) _].
    assert (Hunloaded : Img.data_loaded img = false).
    { apply (Hloading Hbusy img); [|exact Hid].
      apply list_elem_of_lookup. eauto. }
    destruct (Forall_lookup_1 _ _ _ _ Hsettled Himg) as (_ & _ & _ & Hempty).
    destruct (Hempty Hunloaded) as [Hrefs Hused].
    exists img. repeat split; try assumption. intros _. by symmetry.
  - apply flow_inv_ABRT_None.
    apply (invariant_frame w1 _ Hinv1); try reflexivity; [|intros Hnz; contradiction].
    destruct Hinv1 as [(_ & _ & _ & _ & _ & Hcrop & _) _].
    split; [exact Hcrop | intros Hnz; contradiction].
Qed.

Lemma initialising_image (w : World) (i : nat) :
  initialising w i ->
  exists img : Img.t,
    GM.images (grman w) !! i = Some img /\ Img.data_loaded img = false.
Proof.
  intros (Hadding & _ & Hunloaded).
  destruct (adding_image w i Hadding) as (img & Himg & _).
  exists img. split; [exact Himg|].
  unfold image_at in Hunloaded. by rewrite (image_at_lookup _ _ _ Himg) in Hunloaded.
Qed.

Lemma add_init_direct_adding (env : Env) (g : Cmd.t) (i : nat) (w : World) :
  initialising w i ->
  effective_transmission_type (GM.last_init_graphics_command (grman w)) = "d"%char ->
  flow_inv (add_init_direct env g i w)
    (fun w' i' =>
       i' = i /\ adding w' i
       /\ GM.last_init_graphics_command (grman w')
          = GM.last_init_graphics_command (grman w)).
Proof.
  intros Hinit Hdirect.
  destruct (initialising_image w i Hinit) as (img & Himg & Hunloaded).
  destruct Hinit as (Hadding & Hidle & _).
  pose proof (adding_saved_command w i Hadding) as [Hcrop Hsaved].
  unfold add_init_direct, image_at, GM.image_at.
  destruct (nz (Cmd.more g)); cbn [grman upd_grman GM.images GM.set_loading_image];
    rewrite Himg; cbn [default];
    destruct (malloc_ok env) eqn:Hmalloc; cbn [negb].
  all: unfold id.
  all: first
    [ unfold flow_inv; split; [reflexivity|split; [|reflexivity]];
      from_adding Hadding
    | leaves_with_invariant Hadding ].
  all: try (split; [assumption | first [assumption | intros _; exact Hdirect
                                        | intros Hnz; contradiction]]).
  all: intros img0 Himg0 Hpending0; rewrite Himg in Himg0; injection Himg0 as <-;
    destruct Hpending0 as (((? & ? & _) & _ & ? & _) & ? & ? & _);
    unfold still_pending; cbn;
    repeat split; try assumption; try reflexivity; try lia; try contradiction.
Qed.

(** The slot [i] of a world reached from [w] by updates in place of that
    slot is still being initialised. *)
Ltac still_initialising Hadding Himg Hidle :=
  unfold flow_inv, initialising;
  split; [split; [|split; [exact Hidle|]] | reflexivity];
  [ from_adding Hadding; [saved_ok|]
  | unfold image_at, GM.image_at; cbn;
    rewrite ?list_lookup_alter_eq, Himg; cbn; assumption ].

Ltac image_facts_of Himg :=
  let img0 := fresh "img" in
  let Himg0 := fresh "Himg" in
  let Hpending0 := fresh "Hpending" in
  intros img0 Himg0 Hpending0; rewrite Himg in Himg0; injection Himg0 as <-;
  destruct Hpending0 as (((? & ? & _) & _ & ? & _) & ? & ? & _);
  unfold still_pending; cbn;
  repeat split; try assumption; try reflexivity; try lia; try contradiction.

Lemma add_init_format_initialising (g : Cmd.t) (fmt : Z) (i : nat) (w : World) :
  initialising w i ->
  0 <= Cmd.data_width g <= 10000 -> 0 <= Cmd.data_height g <= 10000 ->
  flow_inv (add_init_format g fmt i w)
    (fun w' _ =>
       initialising w' i
       /\ GM.last_init_graphics_command (grman w')
          = GM.last_init_graphics_command (grman w)).
Proof.
  intros Hinit Hwidth Hheight.
  destruct (initialising_image w i Hinit) as (img & Himg & Hunloaded).
  destruct Hinit as (Hadding & Hidle & _).
  pose proof (adding_saved_command w i Hadding) as [Hcrop Hsaved].
  unfold add_init_format.
  destruct (fmt =? PNG) eqn:Hpng.
  - destruct (Z.gtb_spec (Cmd.data_sz g) MAX_DATA_SZ) as [Hbig|Hfits];
      [apply flow_inv_ABRT, Hadding|].
    still_initialising Hadding Himg Hidle. image_facts_of Himg.
    unfold MAX_DATA_SZ in Hfits. destruct (nz _); lia.
  - destruct ((fmt =? RGB) || (fmt =? RGBA)) eqn:Hfmt;
      [|apply flow_inv_ABRT, Hadding].
    assert (Hsz : u64 (Cmd.data_width g * Cmd.data_height g * (fmt / 8)) < 2^63).
    { apply orb_prop in Hfmt as [->%Z.eqb_eq| ->%Z.eqb_eq];
        [change (RGB / 8) with 3 | change (RGBA / 8) with 4];
        rewrite u64_small; nia. }
    cbv zeta. destruct (negb _).
    + leaves_with_invariant Hadding; [saved_ok | image_facts_of Himg].
    + still_initialising Hadding Himg Hidle. image_facts_of Himg.
Qed.

Lemma add_init_transmission (env : Env) (g : Cmd.t) (tt : ascii) (fmt : Z) (i : nat)
    (w : World) :
  initialising w i ->
  0 <= Cmd.data_width g <= 10000 -> 0 <= Cmd.data_height g <= 10000 ->
  effective_transmission_type (GM.last_init_graphics_command (grman w)) = tt ->
  flow_inv
    (flow_bind (add_init_format g fmt i w) (fun w _ =>
       if (tt =? "d")%char then add_init_direct env g i w else Next w i))
    (fun w' i' =>
       adding w' i'
       /\ effective_transmission_type (GM.last_init_graphics_command (grman w')) = tt).
Proof.
  intros Hinit Hwidth Hheight Htt.
  eapply flow_inv_bind; [by apply add_init_format_initialising|].
  intros w1 _ [Hinit1 Hsaved1]. cbv beta.
  destruct (Ascii.eqb_spec tt "d") as [Hdirect|Hfile].
  - eapply flow_inv_weaken.
    + apply add_init_direct_adding; [exact Hinit1 | congruence].
    + intros w2 i2 (-> & Hadding2 & Hsaved2). split; [exact Hadding2 | congruence].
  - split; [apply Hinit1 | congruence].
Qed.

Lemma alter_last {A : Type} (f : A -> A) (l : list A) (x : A) :
  alter f (length l) (l ++ [x]) = l ++ [f x].
Proof.
  replace (length l) with (length l + 0)%nat by lia.
  by rewrite alter_app_r.
Qed.

Lemma storage_sum_app (l k : list Img.t) :
  storage_sum (l ++ k) = storage_sum l + storage_sum k.
Proof. induction l as [|x l IH]; simpl; lia. Qed.

(** A new image takes the next internal id. *)
Lemma initialising_new (w w' : World) (img : Img.t) :
  invariant w ->
  GM.images (grman w') = GM.images (grman w) ++ [img] ->
  GM.used_storage (grman w') = GM.used_storage (grman w) ->
  internal_id_counter w' = internal_id_counter w + 1 ->
  Img.internal_id img = internal_id_counter w ->
  settled img -> Img.refs img = [] -> Img.used_storage img = 0 ->
  Img.data_loaded img = false ->
  crop_in_range (GM.last_init_graphics_command (grman w')) ->
  GM.loading_image (grman w') = 0 ->
  initialising w' (length (GM.images (grman w))).
Proof.
  intros [(Hsettled & Hnodup & Hfresh & Hsum & Hloading & Hsaved) Hquota]
    Himages Hused Hcounter Hid Himg Hrefs Hcharge Hunloaded Hcrop Hidle.
  assert (Hlast : GM.images (grman w') !! length (GM.images (grman w)) = Some img).
  { rewrite Himages. apply list_lookup_middle. reflexivity. }
  split; [split; [split|]|split; [exact Hidle|]].
  - unfold consistent. rewrite Himages, Hused, Hcounter, fmap_app, storage_sum_app.
    split; [|split; [|split; [|split; [|split]]]].
    + apply Forall_app. split; [exact Hsettled | by constructor].
    + apply NoDup_app. split; [exact Hnodup|]. split; [|apply NoDup_singleton].
      intros id Hin Hnew. apply list_elem_of_singleton in Hnew. subst id.
      apply list_elem_of_fmap in Hin as (img' & Hid' & Hin).
      rewrite Forall_forall in Hfresh. specialize (Hfresh img' Hin). simpl in *. lia.
    + apply Forall_app. split.
      * eapply Forall_impl; [exact Hfresh|]. intros img' Hlt. simpl in *. lia.
      * constructor; [|constructor]. lia.
    + simpl. lia.
    + intros Hnz. contradiction.
    + split; [exact Hcrop | intros Hnz; contradiction].
  - lia.
  - exists img. split; [exact Hlast|]. repeat split; try assumption.
    intros Hnz. contradiction.
  - unfold image_at. by rewrite (image_at_lookup _ _ _ Hlast).
Qed.

(** An image that exists already is emptied and loses its charge. *)
Lemma initialising_reset (w w' : World) (i : nat) (f : Img.t -> Img.t) (img : Img.t) :
  invariant w ->
  GM.images (grman w) !! i = Some img ->
  GM.images (grman w') = alter f i (GM.images (grman w)) ->
  GM.used_storage (grman w') = GM.used_storage (grman w) ->
  internal_id_counter w' = internal_id_counter w ->
  crop_in_range (GM.last_init_graphics_command (grman w')) ->
  GM.loading_image (grman w') = 0 ->
  Img.internal_id (f img) = Img.internal_id img ->
  Img.refs (f img) = [] -> Img.used_storage (f img) = 0 ->
  Img.data_loaded (f img) = false ->
  0 <= Img.width (f img) < 2^32 -> 0 <= Img.height (f img) < 2^32 ->
  LD.data_sz (Img.load_data (f img)) < 2^63 ->
  initialising w' i.
Proof.
  intros [Hconsistent Hquota] Himg Himages Hused Hcounter Hcrop Hidle
    Hid Hrefs Hcharge Hunloaded Hwidth Hheight Hsize.
  assert (Hhere : GM.images (grman w') !! i = Some (f img)).
  { by rewrite Himages, list_lookup_alter_eq, Himg. }
  assert (Hsettled : settled img).
  { destruct Hconsistent as (Hall & _). exact (Forall_lookup_1 _ _ _ _ Hall Himg). }
  split; [split; [split|]|split; [exact Hidle|]].
  - apply (consistent_alter w w' i f img); try assumption.
    + split; [exact Hcrop | intros Hnz; contradiction].
    + unfold settled, image_ok. rewrite Hrefs, Hcharge.
      repeat split; try lia; constructor.
    + destruct Hsettled as (_ & Hpos & _). lia.
    + destruct Hconsistent as (_ & _ & _ & Hsum & _). lia.
    + intros Hnz. contradiction.
  - lia.
  - exists (f img). split; [exact Hhere|]. repeat split; try assumption.
    intros Hnz. contradiction.
  - unfold image_at. by rewrite (image_at_lookup _ _ _ Hhere).
Qed.

(** A new transmission: the image is found or created, and reset. *)
Lemma add_init_adding (env : Env) (g : Cmd.t) (iid : Z) (tt : ascii) (fmt : Z)
    (w : World) :
  invariant w -> cmd_in_range g ->
  0 <= internal_id_counter w < 2^64 - 1 ->
  tt = effective_transmission_type g ->
  flow_inv (add_init env g iid tt fmt w)
    (fun w' i =>
       adding w' i
       /\ effective_transmission_type (GM.last_init_graphics_command (grman w')) = tt).
Proof.
  intros Hinv (Hcrop & Hwidth & Hheight) Hcounter Htt. unfold add_init.
  set (w0 := upd_grman _ w).
  assert (Hinv0 : invariant w0).
  { apply (invariant_frame w _ Hinv); try reflexivity;
      [split; [exact Hcrop|]|]; intros Hnz; contradiction. }
  assert (Hsaved0 : GM.last_init_graphics_command (grman w0) = Cmd.set_id iid g)
    by reflexivity.
  assert (Hidle0 : GM.loading_image (grman w0) = 0) by reflexivity.
  assert (Hcounter0 : internal_id_counter w0 = internal_id_counter w) by reflexivity.
  clearbody w0.
  destruct (Z.gtb_spec (Cmd.data_width g) 10000) as [|Hw];
    [by apply flow_inv_ABRT_None|].
  destruct (Z.gtb_spec (Cmd.data_height g) 10000) as [|Hh];
    [by apply flow_inv_ABRT_None|].
  cbn [orb].
  set (w1 := upd_grman _ w0).
  assert (Hinv1 : invariant w1) by apply remove_images_invariant, Hinv0.
  destruct (remove_images_same_transmission (grman w0) add_trim_predicate 0)
    as [Hidle1 Hsaved1].
  change (remove_images (grman w0) add_trim_predicate 0) with (grman w1)
    in Hidle1, Hsaved1.
  rewrite Hidle0 in Hidle1.
  rewrite Hsaved0 in Hsaved1.
  assert (Hcounter1 : internal_id_counter w1 = internal_id_counter w) by exact Hcounter0.
  clearbody w1. clear w0 Hinv0 Hsaved0 Hidle0 Hcounter0.
  unfold find_or_create_image.
  destruct (if nz iid then img_by_client_id (grman w1) iid else None)
    as [i|] eqn:Hfind.
  - destruct (nz iid); [|discriminate].
    apply img_by_client_id_Some in Hfind as (img & Himg & _).
    apply add_init_transmission; [|lia|lia|].
    + eapply (initialising_reset w1 _ i _ img Hinv1 Himg); [frame_images|..];
        cbn; rewrite ?Hsaved1; try assumption; try reflexivity; try lia.
      destruct Hinv1 as [(Hall & _) _].
      destruct (Forall_lookup_1 _ _ _ _ Hall Himg) as (_ & _ & Hsize & _).
      exact Hsize.
    + cbn. rewrite Hsaved1. symmetry. exact Htt.
  - clear Hfind.
    match goal with
    | |- context [if negb ?a && nz ?b then _ else _] => destruct (negb a && nz b)
    end;
      (apply add_init_transmission;
       [|lia|lia|cbn; rewrite Hsaved1; symmetry; exact Htt]);
      (eapply (initialising_new w1 _ _ Hinv1);
       [ cbn; rewrite !alter_last; reflexivity
       | reflexivity
       | cbn; rewrite Hcounter1; apply u64_small; lia
       | reflexivity
       | unfold settled, image_ok; cbn; repeat split; try lia; constructor
       | reflexivity
       | reflexivity
       | reflexivity
       | cbn; rewrite Hsaved1; exact Hcrop
       | exact Hidle1 ]).
Qed.

(** [handle_add_command] takes a world between two commands to a world
    that is consistent, and over the quota by one image at most. *)
Lemma handle_add_command_uploaded (env : Env) (g : Cmd.t) (iid : Z) (w : World) :
  invariant w -> env_in_range env -> cmd_in_range g ->
  0 <= internal_id_counter w < 2^64 - 1 ->
  uploaded (fst (handle_add_command env g iid w)).
Proof.
  intros Hinv Henv Hcmd Hcounter. unfold handle_add_command.
  match goal with
  | |- uploaded (fst (match ?m with _ => _ end)) =>
      assert (Hflow : flow_inv m (fun w' _ => uploaded w'));
      [|destruct m as [w1 ret|w1 i1]; unfold flow_inv in Hflow; cbn [fst]]
  end.
  - eapply flow_inv_bind with
      (Q := fun w1 '(g1, i1) =>
              adding w1 i1
              /\ effective_transmission_type g1
                 = effective_transmission_type
                     (GM.last_init_graphics_command (grman w1))).
    + destruct (negb _) eqn:Hinit.
      * eapply flow_inv_bind; [by apply add_init_adding|].
        intros w1 i1 [Hadding Htt]. split; [exact Hadding | by symmetry].
      * apply negb_false_iff, andb_prop in Hinit as [_ Hbusy].
        eapply flow_inv_weaken.
        -- apply add_continue_adding; [exact Hinv|].
           intros Hidle. rewrite Hidle in Hbusy. discriminate.
        -- intros w1 [g1 i1] [Hadding ->]. split; [exact Hadding | reflexivity].
    + intros w1 [g1 i1] [Hadding Htt].
      eapply flow_inv_bind.
      * apply add_transmit_adding; [exact Hadding|].
        intros Hbusy. rewrite Htt.
        by apply (adding_saved_command w1 i1 Hadding).
      * intros w2 u Hadding2. eapply flow_inv_weaken;
          [by apply add_finish_uploaded|].
        intros w3 i3 [_ Huploaded]. exact Huploaded.
  - apply invariant_uploaded, Hflow.
  - exact Hflow.
Qed.

(** *** Operations on placements *)

Lemma refs_edit_refl (img : Img.t) : refs_edit img img.
Proof. unfold refs_edit. auto. Qed.

Lemma refs_edit_trans (a b c : Img.t) : refs_edit a b -> refs_edit b c -> refs_edit a c.
Proof.
  intros (Hid & Hused & Hloaded & Hdata & Hrefs) (Hid' & Hused' & Hloaded' & Hdata' & Hrefs').
  unfold refs_edit. repeat split; try congruence.
  intros Hempty Hunloaded. apply Hrefs'; [by apply Hrefs | congruence].
Qed.

Lemma refs_edited_refl (self : GM.t) : refs_edited self self.
Proof.
  split; [reflexivity|]. split; [|split; [by split|]].
  - apply Forall_forall. intros img Hin. exists img. split; [exact Hin|].
    apply refs_edit_refl.
  - intros Hacc. split; [exact Hacc | lia].
Qed.

Lemma refs_edited_trans (a b c : GM.t) :
  refs_edited a b -> refs_edited b c -> refs_edited a c.
Proof.
  intros (Hids & Hall & [Hloading Hsaved] & Hacc)
    (Hids' & Hall' & [Hloading' Hsaved'] & Hacc').
  split; [by etransitivity|]. split; [|split; [split; congruence|]].
  - eapply Forall_impl; [exact Hall'|]. intros new (mid & Hmid & Hedit').
    rewrite Forall_forall in Hall. destruct (Hall mid Hmid) as (old & Hold & Hedit).
    exists old. split; [exact Hold|]. eapply refs_edit_trans; eassumption.
  - intros Ha. destruct (Hacc Ha) as [Hb Hle]. destruct (Hacc' Hb) as [Hc Hle'].
    split; [exact Hc | lia].
Qed.

Lemma alter_out_of_range {A : Type} (f : A -> A) (i : nat) (l : list A) :
  l !! i = None -> alter f i l = l.
Proof.
  revert i; induction l as [|x l IH]; intros [|i] Hi; simplify_eq/=; [reflexivity..|].
  f_equal. by apply IH.
Qed.

(** One image is edited in place. *)
Lemma refs_edited_alter (self self' : GM.t) (i : nat) (f : Img.t -> Img.t) :
  GM.images self' = alter f i (GM.images self) ->
  (forall img, GM.images self !! i = Some img -> refs_edit img (f img)) ->
  GM.used_storage self' = GM.used_storage self ->
  same_transmission self self' ->
  refs_edited self self'.
Proof.
  intros Himages Hedit Hused Hsame. unfold refs_edited, internal_ids.
  rewrite Himages. split; [|split; [|split; [exact Hsame|]]].
  - rewrite fmap_alter_same; [reflexivity|].
    intros img Himg. apply (Hedit img Himg).
  - apply Forall_forall. intros new Hin.
    apply list_elem_of_lookup in Hin as [j Hj].
    destruct (decide (i = j)) as [<-|Hne].
    + rewrite list_lookup_alter_eq in Hj.
      destruct (GM.images self !! i) as [img|] eqn:Himg; [|discriminate].
      injection Hj as <-.
      exists img. split; [|by apply Hedit]. apply list_elem_of_lookup. eauto.
    + rewrite list_lookup_alter_ne in Hj by exact Hne.
      exists new. split; [|apply refs_edit_refl]. apply list_elem_of_lookup. eauto.
  - intros [Hpos Hsum]. split; [|lia]. unfold storage_accounted.
    rewrite Himages. split.
    + apply Forall_alter; [exact Hpos|]. intros img Himg Himg_pos.
      destruct (Hedit img Himg) as (_ & -> & _). exact Himg_pos.
    + rewrite Hused.
      destruct (GM.images self !! i) as [img|] eqn:Himg.
      * rewrite (storage_sum_alter _ _ _ _ Himg).
        destruct (Hedit img eq_refl) as (_ & -> & _). lia.
      * rewrite alter_out_of_range by exact Himg. exact Hsum.
Qed.

Lemma delete_out_of_range {A : Type} (i : nat) (l : list A) :
  l !! i = None -> delete i l = l.
Proof.
  revert i; induction l as [|x l IH]; intros [|i] Hi; simplify_eq/=; [reflexivity..|].
  f_equal. by apply IH.
Qed.

(** An image is removed and its charge given back. *)
Lemma remove_image_refs_edited (self : GM.t) (i : nat) :
  refs_edited self (remove_image self i).
Proof.
  unfold refs_edited, internal_ids. rewrite remove_image_images.
  split; [|split; [|split; [by split|]]].
  - rewrite list_fmap_delete. apply sublist_delete.
  - apply Forall_forall. intros new Hin. exists new.
    split; [|apply refs_edit_refl]. eapply elem_of_sublist; [exact Hin|].
    apply sublist_delete.
  - intros Hacc.
    destruct (GM.images self !! i) as [img|] eqn:Himg.
    + apply remove_image_accounted; [|exact Hacc].
      apply lookup_lt_is_Some_1. eauto.
    + destruct Hacc as [Hpos Hsum].
      pose proof (storage_sum_nonneg _ Hpos) as Hnonneg.
      assert (Hused : GM.used_storage (remove_image self i) = GM.used_storage self).
      { rewrite remove_image_used_storage. unfold GM.image_at. rewrite Himg.
        cbn. rewrite Z.sub_0_r. apply u64_small. lia. }
      unfold storage_accounted.
      rewrite remove_image_images, Hused, delete_out_of_range by exact Himg.
      split; [by split | lia].
Qed.

Lemma reap_image_refs_edited (free_images : bool) (i : nat) (self : GM.t) :
  refs_edited self (reap_image free_images i self).
Proof.
  unfold reap_image.
  destruct (_ && _); [apply remove_image_refs_edited | apply refs_edited_refl].
Qed.

(** An image is replaced by an edited copy of itself. *)
Lemma upd_image_refs_edited (self : GM.t) (i : nat) (img : Img.t) :
  refs_edit (GM.image_at self i) img ->
  refs_edited self (GM.upd_image i (fun _ => img) self).
Proof.
  intros Hedit. apply (refs_edited_alter self _ i (fun _ => img)); try reflexivity.
  - intros old Hold. by rewrite (image_at_lookup _ _ _ Hold) in Hedit.
  - by split.
Qed.

Lemma set_layers_dirty_refs_edited (self : GM.t) (b : bool) :
  refs_edited self (GM.set_layers_dirty b self).
Proof.
  apply (refs_edited_alter self _ 0 (fun img => img)); try reflexivity.
  - cbn. symmetry. apply list_alter_id. reflexivity.
  - intros img _. apply refs_edit_refl.
  - by split.
Qed.

Lemma filter_refs_of_refs_edit (filter_func : Ref.t -> Img.t -> bool) (j : nat) :
  forall img : Img.t, refs_edit img (fst (filter_refs_of j filter_func img)).
Proof.
  induction j as [|j IH]; intros img; simpl; [apply refs_edit_refl|].
  destruct (filter_func _ img); [|apply IH].
  simpl. eapply refs_edit_trans; [|apply IH].
  unfold refs_edit. cbn. repeat split. intros -> _. reflexivity.
Qed.

Lemma filter_refs_from_refs_edited (free_images : bool)
    (filter_func : Ref.t -> Img.t -> bool) (only_first_image : bool) (i : nat) :
  forall (matched : bool) (self : GM.t),
    refs_edited self
      (filter_refs_from i free_images filter_func only_first_image matched self).
Proof.
  induction i as [|i IH]; intros matched self; simpl; [apply refs_edited_refl|].
  pose proof (filter_refs_of_refs_edit filter_func
                (length (Img.refs (GM.image_at self i))) (GM.image_at self i))
    as Himg.
  destruct (filter_refs_of _ filter_func (GM.image_at self i)) as [img m].
  simpl in Himg.
  match goal with
  | |- context [reap_image free_images i ?s] =>
      assert (Hreaped : refs_edited self (reap_image free_images i s))
  end.
  { eapply refs_edited_trans; [|apply reap_image_refs_edited].
    destruct m; [|by apply upd_image_refs_edited].
    eapply refs_edited_trans; [by apply upd_image_refs_edited|].
    apply set_layers_dirty_refs_edited. }
  destruct (only_first_image && (matched || m)); [exact Hreaped|].
  eapply refs_edited_trans; [exact Hreaped | apply IH].
Qed.

Lemma filter_refs_refs_edited (self : GM.t) (free_images : bool)
    (filter_func : Ref.t -> Img.t -> bool) (only_first_image : bool) :
  refs_edited self (filter_refs self free_images filter_func only_first_image).
Proof. apply filter_refs_from_refs_edited. Qed.

Lemma modify_refs_of_refs_edit (filter_func : Ref.t -> Img.t -> Ref.t * bool) (j : nat) :
  forall img : Img.t, refs_edit img (modify_refs_of j filter_func img).
Proof.
  induction j as [|j IH]; intros img; simpl; [apply refs_edit_refl|].
  destruct (filter_func _ img) as [ref remove].
  eapply refs_edit_trans; [|apply IH].
  destruct remove; unfold refs_edit; cbn; repeat split; intros -> _; reflexivity.
Qed.

Lemma modify_refs_from_refs_edited (free_images : bool)
    (filter_func : Ref.t -> Img.t -> Ref.t * bool) (i : nat) :
  forall self : GM.t,
    refs_edited self (modify_refs_from i free_images filter_func self).
Proof.
  induction i as [|i IH]; intros self; simpl; [apply refs_edited_refl|].
  eapply refs_edited_trans; [|apply IH].
  eapply refs_edited_trans; [|apply reap_image_refs_edited].
  apply upd_image_refs_edited, modify_refs_of_refs_edit.
Qed.

Lemma grman_scroll_images_refs_edited (self : GM.t) (data : ScrollData)
    (cell : CellPixelSize) :
  refs_edited self (grman_scroll_images self data cell).
Proof.
  unfold grman_scroll_images. destruct (nz _); [|apply refs_edited_refl].
  eapply refs_edited_trans; [apply (set_layers_dirty_refs_edited self true)|].
  apply modify_refs_from_refs_edited.
Qed.

Lemma grman_clear_refs_edited (self : GM.t) (all : bool) (cell : CellPixelSize) :
  refs_edited self (grman_clear self all cell).
Proof. apply filter_refs_refs_edited. Qed.

(** Nothing but fields outside the images, the storage and the
    transmission changes. *)
Lemma refs_edited_frame (self self' : GM.t) :
  GM.images self' = GM.images self ->
  GM.used_storage self' = GM.used_storage self ->
  same_transmission self self' ->
  refs_edited self self'.
Proof.
  intros Himages Hused Hsame.
  apply (refs_edited_alter self self' 0 (fun img => img)); try assumption.
  - rewrite Himages. symmetry. apply list_alter_id. reflexivity.
  - intros img _. apply refs_edit_refl.
Qed.

Lemma storage_sum_fmap (f : Img.t -> Img.t) (l : list Img.t) :
  (forall img, Img.used_storage (f img) = Img.used_storage img) ->
  storage_sum (f <$> l) = storage_sum l.
Proof.
  intros Hf. induction l as [|x l IH]; [reflexivity|].
  rewrite fmap_cons. unfold storage_sum in *. simpl. rewrite Hf, IH. reflexivity.
Qed.

Lemma grman_rescale_refs_edited (self : GM.t) (cell : CellPixelSize) :
  refs_edited self (grman_rescale self cell).
Proof.
  unfold grman_rescale, refs_edited, internal_ids, storage_accounted. cbn.
  split; [|split; [|split; [by split|]]].
  - rewrite <- list_fmap_compose. reflexivity.
  - apply Forall_fmap, Forall_forall. intros old Hold. exists old.
    split; [exact Hold|]. unfold refs_edit. cbn. repeat split.
    intros -> _. reflexivity.
  - intros [Hpos Hsum]. split; [|lia]. split.
    + apply Forall_fmap. eapply Forall_impl; [exact Hpos|]. intros img Himg. exact Himg.
    + rewrite storage_sum_fmap by reflexivity. exact Hsum.
Qed.

Lemma handle_put_command_refs_edited (env : Env) (g : Cmd.t) (img : option nat)
    (cell : CellPixelSize) (w : World) :
  refs_edited (grman w) (grman (fst (handle_put_command env g img cell w))).
Proof.
  unfold handle_put_command.
  destruct (put_target _ g img) as [i|]; [|apply refs_edited_refl].
  destruct (Img.data_loaded (image_at w i)) eqn:Hloaded; cbn [negb fst];
    [|apply refs_edited_refl].
  eapply refs_edited_alter with (i := i); [cbn; reflexivity | | reflexivity | by split].
  intros old Hold. unfold image_at in Hloaded.
  rewrite (image_at_lookup _ _ _ Hold) in Hloaded.
  unfold refs_edit. cbn. repeat split. intros _ Hunloaded. congruence.
Qed.

Lemma handle_delete_command_refs_edited (g : Cmd.t) (cell : CellPixelSize) (w : World) :
  refs_edited (grman w) (grman (handle_delete_command g cell w)).
Proof.
  unfold handle_delete_command.
  match goal with
  | |- context [negb (nz (image_count (grman ?w1)))] =>
      assert (Hfiltered : refs_edited (grman w) (grman w1))
  end.
  { destruct (delete_filter g (cursor w) cell) as [[[func u] only_first]|];
      [|apply refs_edited_refl].
    apply filter_refs_refs_edited. }
  destruct (_ && _); [|exact Hfiltered].
  eapply refs_edited_trans; [exact Hfiltered|].
  apply refs_edited_frame; try reflexivity. by split.
Qed.

(** Editing placements keeps the world consistent, as long as the crops
    stay inside the images. *)
Lemma consistent_refs_edited (w w' : World) :
  consistent w ->
  refs_edited (grman w) (grman w') ->
  placements_ok (grman w') ->
  internal_id_counter w' = internal_id_counter w ->
  consistent w' /\ GM.used_storage (grman w') <= GM.used_storage (grman w).
Proof.
  intros Hconsistent (Hids & Hall & [Hloading' Hsaved'] & Hacc) Hok Hcounter.
  destruct (Hacc (consistent_accounted w Hconsistent)) as [[_ Hsum'] Hle].
  destruct Hconsistent as (Hsettled & Hnodup & Hfresh & Hsum & Hloading & Hsaved).
  rewrite Forall_forall in Hall, Hsettled, Hfresh.
  split; [|exact Hle].
  unfold consistent. rewrite Hcounter.
  split; [|split; [|split; [|split; [exact Hsum'|split]]]].
  - apply Forall_forall. intros new Hnew.
    destruct (Hall new Hnew) as (old & Hold & Hid & Hused & Hloaded & Hdata & Hrefs).
    destruct (Hsettled old Hold) as (_ & Hpos & Hsize & Hempty).
    unfold settled. rewrite Hused, Hloaded, Hdata.
    split; [|split; [exact Hpos|split; [exact Hsize|]]].
    + unfold placements_ok in Hok. rewrite Forall_forall in Hok. by apply Hok.
    + intros Hunloaded. destruct (Hempty Hunloaded) as [Hnone Hfree].
      split; [by apply Hrefs | exact Hfree].
  - eapply sublist_NoDup; eassumption.
  - apply Forall_forall. intros new Hnew.
    destruct (Hall new Hnew) as (old & Hold & -> & _). by apply Hfresh.
  - intros Hbusy new Hnew Hid.
    destruct (Hall new Hnew) as (old & Hold & Hid' & _ & -> & -> & _).
    rewrite Hloading' in Hbusy, Hid.
    apply (Hloading Hbusy old Hold). congruence.
  - unfold saved_command_ok. rewrite Hloading', Hsaved'. exact Hsaved.
Qed.

(** *** The quota *)

Lemma qsort_insert_Permutation {A : Type} (compar : A -> A -> Z) (x : A) (l : list A) :
  qsort_insert compar x l ≡ₚ x :: l.
Proof.
  induction l as [|y l IH]; simpl; [reflexivity|].
  destruct (compar x y <=? 0); [reflexivity|].
  rewrite IH. apply Permutation_swap.
Qed.

Lemma qsort_Permutation {A : Type} (compar : A -> A -> Z) (l : list A) :
  qsort compar l ≡ₚ l.
Proof.
  induction l as [|x l IH]; simpl; [reflexivity|].
  rewrite qsort_insert_Permutation. by constructor.
Qed.

(** Consistency is a matter of the manager and of the id counter. *)
Lemma consistent_same (w w' : World) :
  grman w' = grman w -> internal_id_counter w' = internal_id_counter w ->
  consistent w -> consistent w'.
Proof. intros Hgrman Hcounter. unfold consistent. by rewrite Hgrman, Hcounter. Qed.

Lemma invariant_same (w w' : World) :
  grman w' = grman w -> internal_id_counter w' = internal_id_counter w ->
  invariant w -> invariant w'.
Proof.
  intros Hgrman Hcounter [Hconsistent Hquota]. split.
  - by apply (consistent_same w).
  - by rewrite Hgrman.
Qed.

Lemma consistent_placements_ok (w : World) : consistent w -> placements_ok (grman w).
Proof.
  intros (Hsettled & _). eapply Forall_impl; [exact Hsettled|].
  intros img (Hok & _). exact Hok.
Qed.

Lemma evict_oldest_refs_edited (storage_limit : Z) (fuel : nat) :
  forall self : GM.t, refs_edited self (evict_oldest fuel storage_limit self).
Proof.
  induction fuel as [|fuel IH]; intros self; simpl; [apply refs_edited_refl|].
  destruct (_ && _); [|apply refs_edited_refl].
  eapply refs_edited_trans; [apply remove_image_refs_edited | apply IH].
Qed.

Lemma evict_oldest_placements_ok (storage_limit : Z) (fuel : nat) (self : GM.t) :
  placements_ok self -> placements_ok (evict_oldest fuel storage_limit self).
Proof.
  intros Hok. destruct (evict_oldest_prefix storage_limit fuel self) as [k Hk].
  unfold placements_ok. rewrite Hk. apply Forall_take, Hok.
Qed.

(** [apply_storage_quota] keeps the world consistent and brings the
    storage within the limit. *)
Lemma apply_storage_quota_invariant (w w' : World) (added : Z) :
  consistent w ->
  grman w' = apply_storage_quota (grman w) STORAGE_LIMIT added ->
  internal_id_counter w' = internal_id_counter w ->
  invariant w'.
Proof.
  intros Hconsistent Hgrman Hcounter. split;
    [|rewrite Hgrman; apply apply_storage_quota_post, STORAGE_LIMIT_nonneg].
  destruct (remove_images_consistent w trim_predicate added Hconsistent)
    as [Htrimmed _].
  revert Hgrman. unfold apply_storage_quota.
  set (w1 := upd_grman _ w) in Htrimmed.
  change (remove_images (grman w) trim_predicate added) with (grman w1).
  assert (Hcounter1 : internal_id_counter w1 = internal_id_counter w) by reflexivity.
  clearbody w1.
  destruct (_ <? _).
  { intros Hgrman. apply (consistent_same w1); congruence. }
  set (w2 := upd_grman (GM.upd_images (qsort oldest_last)) w1).
  assert (Hsorted : consistent w2).
  { apply (consistent_shrink w1 _ Htrimmed); try reflexivity.
    - cbn. apply Permutation_submseteq, qsort_Permutation.
    - cbn. rewrite (storage_sum_Permutation _ _ (qsort_Permutation _ _)).
      destruct Htrimmed as (_ & _ & _ & Hsum & _). lia.
    - apply Htrimmed. }
  change (GM.upd_images (qsort oldest_last) (grman w1)) with (grman w2).
  assert (Hcounter2 : internal_id_counter w2 = internal_id_counter w) by exact Hcounter1.
  clearbody w2.
  set (fuel := length _).
  set (w3 := upd_grman (fun _ => evict_oldest fuel STORAGE_LIMIT (grman w2)) w2).
  destruct (consistent_refs_edited w2 w3 Hsorted) as [Hevicted _];
    [apply evict_oldest_refs_edited
    |apply evict_oldest_placements_ok, consistent_placements_ok, Hsorted
    |reflexivity|].
  change (evict_oldest fuel STORAGE_LIMIT (grman w2)) with (grman w3).
  assert (Hcounter3 : internal_id_counter w3 = internal_id_counter w) by exact Hcounter2.
  clearbody w3. unfold image_count.
  destruct (Z.eqb_spec (Z.of_nat (length (GM.images (grman w3)))) 0) as [Hempty|_].
  - intros Hgrman.
    assert (Hnone : GM.images (grman w3) = [])
      by (destruct (GM.images (grman w3)); [reflexivity | simpl in Hempty; lia]).
    apply (consistent_shrink w3 _ Hevicted); rewrite ?Hgrman; cbn; try congruence.
    + reflexivity.
    + rewrite Hnone. simpl.
      destruct Hevicted as (Hall & _ & _ & Hsum & _).
      pose proof (storage_sum_nonneg _ (settled_nonneg _ Hall)). lia.
    + apply Hevicted.
  - intros Hgrman. apply (consistent_same w3); congruence.
Qed.

(** *** The commands *)

Lemma finish_command_response_counter (g : Cmd.t) (data_loaded : bool)
    (iid placement_id image_number : Z) (w : World) :
  internal_id_counter
    (fst (finish_command_response g data_loaded iid placement_id image_number w))
  = internal_id_counter w.
Proof.
  unfold finish_command_response.
  repeat match goal with
         | |- context [if ?c then _ else _] => destruct c
         end; reflexivity.
Qed.

Lemma handle_put_command_counter (env : Env) (g : Cmd.t) (img : option nat)
    (cell : CellPixelSize) (w : World) :
  internal_id_counter (fst (handle_put_command env g img cell w))
  = internal_id_counter w.
Proof.
  unfold handle_put_command.
  destruct (put_target _ g img); [|reflexivity].
  destruct (negb _); reflexivity.
Qed.

Lemma handle_delete_command_counter (g : Cmd.t) (cell : CellPixelSize) (w : World) :
  internal_id_counter (handle_delete_command g cell w) = internal_id_counter w.
Proof.
  unfold handle_delete_command.
  destruct (delete_filter _ _ _) as [[[func u] only_first]|];
    destruct (_ && _); reflexivity.
Qed.

(** A put keeps the world consistent and charges nothing. *)
Lemma handle_put_command_consistent (env : Env) (g : Cmd.t) (img : option nat)
    (cell : CellPixelSize) (w : World) :
  crop_in_range g -> consistent w ->
  consistent (fst (handle_put_command env g img cell w))
  /\ GM.used_storage (grman (fst (handle_put_command env g img cell w)))
     <= GM.used_storage (grman w).
Proof.
  intros Hcrop Hconsistent.
  apply (consistent_refs_edited w _ Hconsistent).
  - apply handle_put_command_refs_edited.
  - apply handle_put_command_placements_ok;
      [exact Hcrop | apply consistent_placements_ok, Hconsistent].
  - apply handle_put_command_counter.
Qed.

Lemma handle_delete_command_invariant (g : Cmd.t) (cell : CellPixelSize) (w : World) :
  invariant w -> invariant (handle_delete_command g cell w).
Proof.
  intros [Hconsistent Hquota].
  destruct (consistent_refs_edited w (handle_delete_command g cell w) Hconsistent)
    as [Hdeleted Hle].
  - apply handle_delete_command_refs_edited.
  - apply handle_delete_command_placements_ok, consistent_placements_ok, Hconsistent.
  - apply handle_delete_command_counter.
  - split; [exact Hdeleted | lia].
Qed.

Lemma handle_add_action_invariant (env : Env) (g : Cmd.t) (cell : CellPixelSize)
    (w : World) :
  invariant w -> env_in_range env -> cmd_in_range g ->
  0 <= internal_id_counter w < 2^64 - 1 ->
  invariant (fst (handle_add_action env g cell w)).
Proof.
  intros Hinv Henv Hcmd Hcounter. unfold handle_add_action.
  destruct (_ && negb _); [exact Hinv|].
  pose proof (handle_add_command_uploaded env g
                (if (Cmd.action g =? "q")%char then 0 else Cmd.id g) w
                Hinv Henv Hcmd Hcounter) as [Hadded _].
  destruct (handle_add_command env g _ w) as [w1 image]. cbn [fst] in Hadded.
  assert (Hresponse : forall data_loaded iid placement_id image_number,
            consistent
              (fst (finish_command_response g data_loaded iid placement_id
                      image_number w1))).
  { intros. apply (consistent_same w1);
      [apply finish_command_response_grman
      |apply finish_command_response_counter|exact Hadded]. }
  match goal with
  | |- context [let '(w, ret) := ?r in _] =>
      assert (Hw2 : consistent (fst r)) by (destruct (_ =? _)%char; apply Hresponse);
      destruct r as [w2 ret]
  end.
  cbn [fst] in Hw2. clear Hresponse.
  match goal with
  | |- context [upd_grman (fun self => remove_images self add_trim_predicate 0) ?w] =>
      assert (Hw3 : consistent w); [|generalize dependent w; intros w3 Hw3]
  end.
  { destruct image as [i|]; [|exact Hw2].
    destruct (_ && _); [|exact Hw2].
    apply handle_put_command_consistent; [|exact Hw2].
    destruct Hw2 as (_ & _ & _ & _ & _ & Hcrop & _). exact Hcrop. }
  cbn [fst].
  set (w4 := if (Cmd.action g =? "q")%char then _ else w3).
  assert (Hw4 : consistent w4).
  { unfold w4. destruct (_ =? _)%char; [|exact Hw3].
    apply remove_images_consistent, Hw3. }
  clearbody w4.
  destruct (Z.gtb_spec (GM.used_storage (grman w4)) STORAGE_LIMIT) as [Hover|Hfits].
  - eapply (apply_storage_quota_invariant w4 _ _ Hw4); reflexivity.
  - split; [exact Hw4 | exact Hfits].
Qed.

(** Every command keeps the invariant. *)
Lemma grman_handle_command_invariant (env : Env) (g : Cmd.t) (cell : CellPixelSize)
    (w : World) :
  invariant w -> env_in_range env -> cmd_in_range g ->
  0 <= internal_id_counter w < 2^64 - 1 ->
  invariant (fst (grman_handle_command env g cell w)).
Proof.
  intros Hinv Henv Hcmd Hcounter. unfold grman_handle_command.
  set (w0 := set_command_response "" w).
  assert (Hinv0 : invariant w0) by (apply (invariant_same w); auto).
  assert (Hcounter0 : 0 <= internal_id_counter w0 < 2^64 - 1) by exact Hcounter.
  clearbody w0.
  destruct (nz (Cmd.id g) && nz (Cmd.image_number g)).
  { apply (invariant_same w0);
      [rewrite finish_command_response_grman; reflexivity
      |rewrite finish_command_response_counter; reflexivity|exact Hinv0]. }
  destruct (_ || _); [by apply handle_add_action_invariant|].
  destruct (_ =? "p")%char.
  - destruct (_ && _); [exact Hinv0|].
    destruct Hinv0 as [Hconsistent Hquota]. destruct Hcmd as [Hcrop _].
    destruct (handle_put_command_consistent env g None cell w0 Hcrop Hconsistent)
      as [Hput Hle].
    destruct (handle_put_command env g None cell w0) as [w1 image_id].
    cbn [fst] in Hput, Hle.
    apply (invariant_same w1);
      [apply finish_command_response_grman
      |apply finish_command_response_counter|].
    split; [exact Hput | lia].
  - destruct (_ =? "d")%char; [|exact Hinv0].
    apply handle_delete_command_invariant, Hinv0.
Qed.

(** Scrolling, clearing, resizing and rescaling keep the invariant. *)
Lemma screen_operations_invariant (w : World) (self' : GM.t) :
  invariant w ->
  refs_edited (grman w) self' -> placements_ok self' ->
  invariant (upd_grman (fun _ => self') w).
Proof.
  intros [Hconsistent Hquota] Hedited Hok.
  destruct (consistent_refs_edited w (upd_grman (fun _ => self') w) Hconsistent)
    as [Hafter Hle]; try assumption; [reflexivity|].
  split; [exact Hafter | lia].
Qed.

Lemma invariant_start : invariant Scenario.start.
Proof.
  split; [|apply STORAGE_LIMIT_nonneg].
  split; [constructor|]. split; [constructor|]. split; [constructor|].
  split; [cbn; lia|]. split.
  - intros Hnz. destruct Hnz. reflexivity.
  - split; [unfold crop_in_range; cbn; lia | intros Hnz; destruct Hnz; reflexivity].
Qed.

(** *** The layers *)

Lemma untouched_refl (self : GM.t) : untouched self self.
Proof. by repeat split. Qed.

Lemma untouched_trans (a b c : GM.t) : untouched a b -> untouched b c -> untouched a c.
Proof.
  intros (Himages & Hused & Hloading & Hsaved) (Himages' & Hused' & Hloading' & Hsaved').
  repeat split; congruence.
Qed.

Lemma add_layer_untouched (visible : Img.t -> Ref.t -> bool) (img : Img.t)
    (self : GM.t) (ref : Ref.t) :
  untouched self (add_layer visible img self ref).
Proof.
  unfold add_layer. destruct (negb _); [apply untouched_refl|].
  destruct (_ <? _); [by repeat split|]. destruct (_ <? _); by repeat split.
Qed.

Lemma add_layers_untouched (visible : Img.t -> Ref.t -> bool) (imgs : list Img.t) :
  forall self : GM.t,
    untouched self
      (foldl (fun self img => foldl (add_layer visible img) self (Img.refs img))
         self imgs).
Proof.
  induction imgs as [|img imgs IH]; intros self; simpl; [apply untouched_refl|].
  eapply untouched_trans; [|apply IH].
  generalize (Img.refs img). intros refs. revert self.
  induction refs as [|ref refs IHrefs]; intros self; simpl; [apply untouched_refl|].
  eapply untouched_trans; [apply add_layer_untouched | apply IHrefs].
Qed.

Lemma grman_update_layers_untouched (visible : Img.t -> Ref.t -> bool)
    (scrolled_by : Z) (self : GM.t) :
  untouched self (fst (grman_update_layers visible scrolled_by self)).
Proof.
  unfold grman_update_layers.
  set (self1 := GM.set_last_scrolled_by scrolled_by _).
  assert (H1 : untouched self self1).
  { unfold self1. destruct (negb _); by repeat split. }
  clearbody self1.
  destruct (negb (GM.layers_dirty self1)); [exact H1|].
  set (self2 := GM.set_render_data [] _).
  assert (H2 : untouched self self2).
  { eapply untouched_trans; [exact H1|]. by repeat split. }
  clearbody self2.
  pose proof (add_layers_untouched visible (GM.images self2) self2) as H3.
  set (self3 := foldl _ self2 _) in *.
  clearbody self3.
  destruct (negb _); cbn [fst];
    (eapply untouched_trans; [exact H2|]);
    [exact H3 | eapply untouched_trans; [exact H3 | by repeat split]].
Qed.

(** *** The worlds the terminal can reach *)

Lemma invariant_grman_alloc (w : World) : grman w = GM.grman_alloc -> invariant w.
Proof.
  intros Hgrman. unfold invariant, consistent. rewrite Hgrman.
  split; [|apply STORAGE_LIMIT_nonneg].
  split; [constructor|]. split; [constructor|]. split; [constructor|].
  split; [cbn; lia|]. split.
  - intros Hnz. destruct Hnz. reflexivity.
  - split; [unfold crop_in_range; cbn; lia | intros Hnz; destruct Hnz; reflexivity].
Qed.

Lemma step_invariant (w w' : World) : invariant w -> step w w' -> invariant w'.
Proof.
  intros Hinv Hstep. destruct Hstep.
  - by apply grman_handle_command_invariant.
  - apply screen_operations_invariant; [exact Hinv | |].
    + apply grman_scroll_images_refs_edited.
    + apply grman_scroll_images_placements_ok, consistent_placements_ok, Hinv.
  - apply screen_operations_invariant; [exact Hinv | |].
    + apply grman_clear_refs_edited.
    + apply filter_refs_placements_ok, consistent_placements_ok, Hinv.
  - apply screen_operations_invariant; [exact Hinv | |].
    + apply set_layers_dirty_refs_edited.
    + apply (consistent_placements_ok w), Hinv.
  - apply screen_operations_invariant; [exact Hinv | |].
    + apply grman_rescale_refs_edited.
    + apply grman_rescale_placements_ok, consistent_placements_ok, Hinv.
  - destruct (grman_update_layers_untouched visible scrolled_by (grman w))
      as (Himages & Hused & Hsame).
    apply screen_operations_invariant; [exact Hinv | |].
    + by apply refs_edited_frame.
    + unfold placements_ok. rewrite Himages.
      apply (consistent_placements_ok w), Hinv.
  - apply (invariant_same w); auto.
  - apply (invariant_same w); auto.
Qed.

(** Every world the terminal can reach satisfies the invariant. *)
Theorem reachable_invariant (w : World) : reachable w -> invariant w.
Proof.
  induction 1 as [w Hstart|w w' _ IH Hstep].
  - by apply invariant_grman_alloc.
  - by apply (step_invariant w).
Qed.

(** What the claims about add commands assume of the world holds in every
    world the terminal can reach. *)
Lemma invariant_add_hypotheses (w : World) :
  invariant w -> storage_accounted (grman w) /\ loading_image_ok w.
Proof.
  intros [Hconsistent _]. split; [by apply consistent_accounted|].
  intros Hbusy i Hfind.
  apply img_by_internal_id_Some in Hfind as (img & Himg & Hid).
  unfold image_at. rewrite (image_at_lookup _ _ _ Himg).
  destruct Hconsistent as (Hsettled & _ & _ & _ & Hloading & _).
  destruct (Hloading Hbusy img) as [Hunloaded Hbuf];
    [apply list_elem_of_lookup; eauto | exact Hid |].
  destruct (Forall_lookup_1 _ _ _ _ Hsettled Himg) as (_ & _ & _ & Hempty).
  destruct (Hempty Hunloaded) as [_ Hused]. by split.
Qed.

(** ** The source rectangle in every reachable world *)

(** C2, as amended: in every world the terminal can reach, that is after
    any sequence of commands (add, put, delete), scrolls (with or without
    margins), clears, resizes and rescales, the crop of every placement lies
    inside its image as far as its origin does:
    [min(src_x, width) + src_width <= width] and
    [min(src_y, height) + src_height <= height].  A put whose [src_x] lies
    beyond the image keeps that [src_x] and gets an empty crop. *)
Theorem src_rect_stays_clamped (w : World) :
  reachable w -> placements_ok (grman w).
Proof.
  intros Hreachable. apply consistent_placements_ok.
  apply reachable_invariant, Hreachable.
Qed.

Lemma src_rect_stays_clamped_witness :
  reachable CropScenario.after_put
  /\ placements_ok (grman CropScenario.after_put).
Proof.
  assert (Hstart : reachable Scenario.start)
    by (apply reachable_start; reflexivity).
  assert (Hcounter : internal_id_counter CropScenario.after_add = 2)
    by (vm_compute; reflexivity).
  assert (Hadd : reachable CropScenario.after_add).
  { apply (reachable_step Scenario.start _ Hstart).
    unfold CropScenario.after_add, Scenario.run. apply step_command.
    - exact I.
    - unfold cmd_in_range, crop_in_range. cbn. lia.
    - cbn. lia. }
  assert (Hput : reachable CropScenario.after_put).
  { apply (reachable_step CropScenario.after_add _ Hadd).
    unfold CropScenario.after_put, Scenario.run. apply step_command.
    - exact I.
    - unfold cmd_in_range, crop_in_range. cbn. lia.
    - rewrite Hcounter. lia. }
  exact (conj Hput (src_rect_stays_clamped CropScenario.after_put Hput)).
Defined.

(** ** Further properties of the manager *)

(** *** What holds in every reachable world *)

(** A command run in a reachable world leaves a reachable world. *)
Lemma reachable_run (e : Env) (g : Cmd.t) (w : World) :
  reachable w -> env_in_range e -> cmd_in_range g ->
  0 <= internal_id_counter w < 2^64 - 1 ->
  reachable (Scenario.run e g w).
Proof.
  intros Hw He Hg Hcounter. apply (reachable_step w _ Hw).
  unfold Scenario.run. by apply step_command.
Qed.

Lemma reachable_after_second : reachable QuotaScenario.after_second.
Proof.
  assert (Hstart : reachable Scenario.start)
    by (apply reachable_start; reflexivity).
  assert (Hcounter : internal_id_counter QuotaScenario.after_first = 2)
    by (vm_compute; reflexivity).
  unfold QuotaScenario.after_second. apply reachable_run.
  - unfold QuotaScenario.after_first. apply reachable_run.
    + exact Hstart.
    + exact I.
    + unfold cmd_in_range, crop_in_range. cbn. lia.
    + cbn. lia.
  - exact I.
  - unfold cmd_in_range, crop_in_range. cbn. lia.
  - rewrite Hcounter. lia.
Qed.

(** X1: between two operations the storage in use is within the quota, and
    it covers what the images are charged, none of them a negative amount. *)
Theorem storage_within_quota (w : World) :
  reachable w ->
  GM.used_storage (grman w) <= STORAGE_LIMIT
  /\ storage_sum (GM.images (grman w)) <= GM.used_storage (grman w)
  /\ Forall (fun img => 0 <= Img.used_storage img) (GM.images (grman w)).
Proof.
  intros Hreachable.
  destruct (reachable_invariant w Hreachable) as [Hconsistent Hquota].
  destruct (consistent_accounted w Hconsistent) as [Hpos [Hsum _]].
  auto.
Qed.

Lemma storage_within_quota_witness :
  reachable QuotaScenario.after_second
  /\ GM.used_storage (grman QuotaScenario.after_second) <= STORAGE_LIMIT.
Proof.
  split; [exact reachable_after_second|].
  exact (proj1 (storage_within_quota QuotaScenario.after_second
                  reachable_after_second)).
Defined.

(** X2: the images of a reachable world have internal ids of their own,
    all of them below the id counter. *)
Theorem internal_ids_unique (w : World) :
  reachable w ->
  NoDup (Img.internal_id <$> GM.images (grman w))
  /\ Forall (fun img => Img.internal_id img < internal_id_counter w)
       (GM.images (grman w)).
Proof.
  intros Hreachable.
  destruct (reachable_invariant w Hreachable) as [(_ & Hnodup & Hfresh & _) _].
  auto.
Qed.

Lemma internal_ids_unique_witness :
  reachable QuotaScenario.after_second
  /\ NoDup (Img.internal_id <$> GM.images (grman QuotaScenario.after_second)).
Proof.
  split; [exact reachable_after_second|].
  exact (proj1 (internal_ids_unique QuotaScenario.after_second
                  reachable_after_second)).
Defined.

(** X3: in a reachable world an image whose data is not loaded has no
    placement and is charged nothing; every placement belongs to a loaded
    image. *)
Theorem unloaded_image_is_bare (w : World) (img : Img.t) :
  reachable w -> img ∈ GM.images (grman w) ->
  Img.data_loaded img = false ->
  Img.refs img = [] /\ Img.used_storage img = 0.
Proof.
  intros Hreachable Hin Hunloaded.
  destruct (reachable_invariant w Hreachable) as [(Hsettled & _) _].
  rewrite Forall_forall in Hsettled.
  destruct (Hsettled img Hin) as (_ & _ & _ & Hbare). by apply Hbare.
Qed.

Lemma reachable_loading : reachable ChunkScenario.loading.
Proof.
  unfold ChunkScenario.loading. apply reachable_run.
  - apply reachable_start. reflexivity.
  - exact I.
  - unfold cmd_in_range, crop_in_range. cbn. lia.
  - cbn. lia.
Qed.

Lemma unloaded_image_is_bare_witness :
  (reachable ChunkScenario.loading
   /\ image_at ChunkScenario.loading 0 ∈ GM.images (grman ChunkScenario.loading)
   /\ Img.data_loaded (image_at ChunkScenario.loading 0) = false)
  /\ Img.refs (image_at ChunkScenario.loading 0) = []
  /\ Img.used_storage (image_at ChunkScenario.loading 0) = 0.
Proof.
  assert (Hin : image_at ChunkScenario.loading 0
                ∈ GM.images (grman ChunkScenario.loading)).
  { apply list_elem_of_lookup. exists 0%nat. vm_compute. reflexivity. }
  assert (Hunloaded : Img.data_loaded (image_at ChunkScenario.loading 0) = false)
    by (vm_compute; reflexivity).
  split; [exact (conj reachable_loading (conj Hin Hunloaded))|].
  exact (unloaded_image_is_bare ChunkScenario.loading
           (image_at ChunkScenario.loading 0) reachable_loading Hin Hunloaded).
Defined.

(** *** Sorting with a comparator *)

Section QsortSorted.
Context {A : Type} (compar : A -> A -> Z) (le : A -> A -> Prop).

Lemma qsort_insert_elem_of (x y : A) (l : list A) :
  y ∈ qsort_insert compar x l <-> y = x \/ y ∈ l.
Proof.
  rewrite (qsort_insert_Permutation compar x l). apply elem_of_cons.
Qed.

Lemma qsort_insert_sorted (k : list A) (x : A) (l : list A) :
  decides_order compar le k -> x ∈ k -> (forall y, y ∈ l -> y ∈ k) ->
  StronglySorted le l -> StronglySorted le (qsort_insert compar x l).
Proof.
  intros (Hdec & Htotal & Htrans) Hx Hsub Hsorted.
  induction Hsorted as [|y t Ht IH Hy]; simpl.
  - constructor; [constructor | constructor].
  - assert (Hyk : y ∈ k) by (apply Hsub; left).
    assert (Htk : forall z, z ∈ t -> z ∈ k) by (intros z Hz; apply Hsub; by right).
    destruct (Z.leb_spec (compar x y) 0) as [Hle|Hgt].
    + apply (Hdec x y Hx Hyk) in Hle.
      constructor; [by constructor|]. constructor; [exact Hle|].
      rewrite Forall_forall in Hy |- *. intros z Hz.
      apply (Htrans x y z); auto.
    + assert (Hyx : le y x).
      { destruct (Htotal x y Hx Hyk) as [Hxy|Hyx]; [|exact Hyx].
        apply (Hdec x y Hx Hyk) in Hxy. lia. }
      constructor; [by apply IH|].
      apply Forall_forall. intros z Hz.
      apply qsort_insert_elem_of in Hz as [->|Hz]; [exact Hyx|].
      rewrite Forall_forall in Hy. by apply Hy.
Qed.

(** [qsort] sorts what its comparator orders. *)
Lemma qsort_sorted (l : list A) :
  decides_order compar le l -> StronglySorted le (qsort compar l).
Proof.
  intros Hdec.
  assert (Hsub : forall y, y ∈ l -> y ∈ l) by auto.
  revert Hsub. generalize l at 1 3. intros m.
  induction m as [|x m IH]; intros Hsub; simpl; [constructor|].
  apply (qsort_insert_sorted l); [exact Hdec | apply Hsub; left | |].
  - intros y Hy. rewrite (qsort_Permutation compar m) in Hy. apply Hsub. by right.
  - apply IH. intros y Hy. apply Hsub. by right.
Qed.
End QsortSorted.

Lemma StronglySorted_take_drop {A : Type} (le : A -> A -> Prop) (l : list A) (k : nat)
    (a b : A) :
  StronglySorted le l -> a ∈ take k l -> b ∈ drop k l -> le a b.
Proof.
  intros Hsorted. revert k. induction Hsorted as [|x l Hl IH Hx]; intros k Ha Hb.
  - rewrite take_nil in Ha. by apply elem_of_nil in Ha.
  - destruct k as [|k]; [by apply elem_of_nil in Ha|]. simpl in Ha, Hb.
    apply elem_of_cons in Ha as [->|Ha]; [|by apply (IH k)].
    rewrite Forall_forall in Hx. apply Hx.
    rewrite <- (take_drop k l). apply elem_of_app. by right.
Qed.

(** *** The least recently used images go first *)

Lemma i64_small (z : Z) : - 2^63 <= z < 2^63 -> i64 z = z.
Proof. intros Hz. unfold i64. rewrite Z.mod_small by lia. lia. Qed.

Lemma oldest_last_decides (l : list Img.t) :
  Forall atime_in_range l ->
  decides_order oldest_last (fun a b => Img.atime b <= Img.atime a) l.
Proof.
  intros Hrange. rewrite Forall_forall in Hrange. unfold atime_in_range in Hrange.
  split; [|split].
  - intros x y Hx Hy. specialize (Hrange x Hx) as Hxr. specialize (Hrange y Hy) as Hyr.
    unfold oldest_last. rewrite i64_small by lia.
    destruct (Z.ltb_spec (Img.atime y - Img.atime x) 0);
      [|destruct (Z.eqb_spec (Img.atime y - Img.atime x) 0)]; lia.
  - intros x y _ _. lia.
  - intros x y z _ _ _. lia.
Qed.

(** X4: when the quota makes [apply_storage_quota] evict by age, the images
    it keeps were all accessed at or after the time of every image it
    evicts. *)
Theorem lru_keeps_newest (self : GM.t) (storage_limit added : Z) :
  Forall atime_in_range (GM.images self) ->
  newest_kept self storage_limit added.
Proof.
  intros Hrange. unfold newest_kept.
  destruct (apply_storage_quota_images self storage_limit added) as [Hsame|[k Hk]];
    [by left|right].
  exists k. split; [exact Hk|]. intros kept evicted Hkept Hevicted.
  apply (StronglySorted_take_drop (fun a b => Img.atime b <= Img.atime a)
           (qsort oldest_last (GM.images (remove_images self trim_predicate added))) k);
    [|exact Hkept|exact Hevicted].
  apply qsort_sorted, oldest_last_decides.
  rewrite remove_images_images. rewrite Forall_forall in Hrange |- *.
  intros img Himg. apply Hrange.
  apply list_elem_of_In, filter_In in Himg as [Himg _]. by apply list_elem_of_In.
Qed.

(** With room for five bytes, image 1, placed first, goes and image 2
    stays. *)
Lemma lru_keeps_newest_witness :
  Forall atime_in_range (GM.images (grman AgeScenario.both))
  /\ newest_kept (grman AgeScenario.both) 5 0
  /\ Img.client_id <$> GM.images (grman AgeScenario.both) = [1; 2]
  /\ Img.atime <$> GM.images (grman AgeScenario.both) = [101; 201]
  /\ Img.client_id <$> GM.images (apply_storage_quota (grman AgeScenario.both) 5 0)
     = [2].
Proof.
  assert (Hrange : Forall atime_in_range (GM.images (grman AgeScenario.both))).
  { evaluate (GM.images (grman AgeScenario.both)).
    repeat constructor; cbn; lia. }
  assert (Hboth : Img.client_id <$> GM.images (grman AgeScenario.both) = [1; 2])
    by (vm_compute; reflexivity).
  assert (Htimes : Img.atime <$> GM.images (grman AgeScenario.both) = [101; 201])
    by (vm_compute; reflexivity).
  assert (Hkept : Img.client_id
                  <$> GM.images (apply_storage_quota (grman AgeScenario.both) 5 0)
                  = [2]) by (vm_compute; reflexivity).
  exact (conj Hrange
           (conj (lru_keeps_newest (grman AgeScenario.both) 5 0 Hrange)
              (conj Hboth (conj Htimes Hkept)))).
Defined.

(** *** The free client id *)

Lemma i32_u32 (d : Z) : - 2^31 <= d < 2^31 -> i32 (u32 d) = d.
Proof.
  intros Hd. unfold i32, u32.
  destruct (Z.ltb_spec d 0) as [Hneg|Hpos].
  - rewrite <- (Z.mod_unique d (2^32) (-1) (d + 2^32)) by lia.
    rewrite <- (Z.mod_unique (d + 2^32 + 2^31) (2^32) 1 (d + 2^31)) by lia. lia.
  - rewrite (Z.mod_small d) by lia. rewrite Z.mod_small by lia. lia.
Qed.

Lemma cmp_client_ids_decides (l : list Z) :
  Forall (fun x => 0 <= x < 2^31) l -> decides_order cmp_client_ids Z.le l.
Proof.
  intros Hrange. rewrite Forall_forall in Hrange. split; [|split].
  - intros x y Hx Hy. specialize (Hrange x Hx) as Hxr. specialize (Hrange y Hy) as Hyr.
    unfold cmp_client_ids. rewrite i32_u32 by lia. lia.
  - intros x y _ _. lia.
  - intros x y z _ _ _. lia.
Qed.

(** The scan over ascending ids stops at the first gap. *)
Lemma free_client_id_scan_least (l : list Z) :
  StronglySorted Z.le l ->
  forall prev_id ans : Z,
    ans = prev_id + 1 -> 0 <= prev_id ->
    Forall (fun x => prev_id <= x < 2^31) l ->
    let id := free_client_id_scan l prev_id ans in
    ans <= id /\ (id ∉ l) /\ forall b, ans <= b < id -> b ∈ l.
Proof.
  induction 1 as [|cid rest Hrest IH Hcid]; intros prev_id ans Hans Hprev Hrange; simpl.
  - split; [lia|]. split; [apply not_elem_of_nil | intros b Hb; lia].
  - inversion_clear Hrange as [|? ? Hhead Htail].
    rewrite Forall_forall in Hcid, Htail.
    destruct (Z.eqb_spec cid prev_id) as [->|Hnew].
    + destruct (IH prev_id ans Hans Hprev) as (Hle & Hnotin & Hbelow).
      { apply Forall_forall. exact Htail. }
      split; [exact Hle|]. split.
      * apply not_elem_of_cons. split; [lia | exact Hnotin].
      * intros b Hb. apply elem_of_cons. right. by apply Hbelow.
    + destruct (Z.eqb_spec cid ans) as [->|Hgap]; cbn [negb].
      * assert (Hnext : u32 (ans + 1) = ans + 1) by (apply u32_small; lia).
        rewrite Hnext.
        destruct (IH ans (ans + 1) eq_refl) as (Hle & Hnotin & Hbelow); [lia| |].
        { apply Forall_forall. intros x Hx. specialize (Hcid x Hx).
          specialize (Htail x Hx). lia. }
        split; [lia|]. split.
        -- apply not_elem_of_cons. split; [lia | exact Hnotin].
        -- intros b Hb. apply elem_of_cons.
           destruct (decide (b = ans)) as [->|Hne]; [by left|right].
           apply Hbelow. lia.
      * split; [lia|]. split; [|intros b Hb; lia].
        apply not_elem_of_cons. split; [lia|].
        intros Hin. specialize (Hcid ans Hin). lia.
Qed.

(** X5: as long as the client ids in use are below 2^31,
    [get_free_client_id] answers the least positive integer that no image has
    as its client id. *)
Theorem free_client_id_is_least (self : GM.t) :
  Forall (fun img => 0 <= Img.client_id img < 2^31) (GM.images self) ->
  let id := get_free_client_id self in
  0 < id
  /\ (forall img, img ∈ GM.images self -> Img.client_id img <> id)
  /\ (forall b, 0 < b < id ->
        exists img, img ∈ GM.images self /\ Img.client_id img = b).
Proof.
  intros Hrange id.
  set (client_ids := List.filter nz (map Img.client_id (GM.images self))).
  assert (Hids : forall x, x ∈ client_ids <->
                   x <> 0 /\ exists img, img ∈ GM.images self /\ Img.client_id img = x).
  { intros x. unfold client_ids. rewrite list_elem_of_In, filter_In, in_map_iff.
    rewrite nz_true. split.
    - intros [(img & <- & Hin) Hnz]. split; [exact Hnz|].
      exists img. split; [by apply list_elem_of_In | reflexivity].
    - intros [Hnz (img & Hin & <-)]. split; [|exact Hnz].
      exists img. split; [reflexivity | by apply list_elem_of_In]. }
  assert (Hsmall : Forall (fun x => 0 <= x < 2^31) client_ids).
  { apply Forall_forall. intros x Hx. apply Hids in Hx as [_ (img & Hin & <-)].
    rewrite Forall_forall in Hrange. by apply Hrange. }
  assert (Hnone : client_ids = [] ->
            0 < 1
            /\ (forall img, img ∈ GM.images self -> Img.client_id img <> 1)
            /\ (forall b, 0 < b < 1 ->
                  exists img, img ∈ GM.images self /\ Img.client_id img = b)).
  { intros Hempty. split; [lia|]. split; [|intros b Hb; lia].
    intros img Hin Hone.
    assert (Hx : 1 ∈ client_ids) by (apply Hids; split; [lia | eauto]).
    rewrite Hempty in Hx. by apply elem_of_nil in Hx. }
  unfold id, get_free_client_id, image_count. fold client_ids.
  destruct (Z.eqb_spec (Z.of_nat (length (GM.images self))) 0) as [Hzero|_].
  { apply Hnone. unfold client_ids.
    destruct (GM.images self); [reflexivity | simpl in Hzero; lia]. }
  destruct (Z.eqb_spec (Z.of_nat (length client_ids)) 0) as [Hzero|_].
  { apply Hnone. destruct client_ids; [reflexivity | simpl in Hzero; lia]. }
  pose proof (qsort_sorted cmp_client_ids Z.le client_ids
                (cmp_client_ids_decides client_ids Hsmall)) as Hsorted.
  pose proof (qsort_Permutation cmp_client_ids client_ids) as Hperm.
  destruct (free_client_id_scan_least _ Hsorted 0 1 eq_refl) as (Hle & Hnotin & Hbelow);
    [lia | |].
  { rewrite Hperm. eapply Forall_impl; [exact Hsmall|]. intros x Hx. exact Hx. }
  set (ans := free_client_id_scan _ 0 1) in *.
  split; [lia|]. split.
  - intros img Hin Hid. apply Hnotin. rewrite Hperm. apply Hids.
    split; [lia | eauto].
  - intros b Hb. specialize (Hbelow b ltac:(lia)). rewrite Hperm in Hbelow.
    apply Hids in Hbelow as [_ Himg]. exact Himg.
Qed.

Lemma free_client_id_is_least_witness :
  Forall (fun img => 0 <= Img.client_id img < 2^31)
    (GM.images (grman FreeIdScenario.small_ids))
  /\ 0 < get_free_client_id (grman FreeIdScenario.small_ids).
Proof.
  assert (Hrange : Forall (fun img => 0 <= Img.client_id img < 2^31)
                     (GM.images (grman FreeIdScenario.small_ids))).
  { evaluate (GM.images (grman FreeIdScenario.small_ids)).
    repeat constructor; cbn; lia. }
  exact (conj Hrange
           (proj1 (free_client_id_is_least (grman FreeIdScenario.small_ids) Hrange))).
Defined.

(** *** The render set *)

Lemma add_layer_render_data (visible : Img.t -> Ref.t -> bool) (img : Img.t)
    (self : GM.t) (ref : Ref.t) :
  GM.render_data (add_layer visible img self ref)
  = GM.render_data self ++ (if visible img ref then [layer_of img ref] else []).
Proof.
  unfold add_layer. destruct (visible img ref); simpl; [|by rewrite app_nil_r].
  destruct (_ <? _); [reflexivity|]. destruct (_ <? _); reflexivity.
Qed.

Lemma add_layers_of_render_data (visible : Img.t -> Ref.t -> bool) (img : Img.t)
    (refs : list Ref.t) :
  forall self : GM.t,
    GM.render_data (foldl (add_layer visible img) self refs)
    = GM.render_data self ++ map (layer_of img) (List.filter (visible img) refs).
Proof.
  induction refs as [|ref refs IH]; intros self; simpl; [by rewrite app_nil_r|].
  rewrite IH, add_layer_render_data, <- app_assoc.
  destruct (visible img ref); reflexivity.
Qed.

(** The loop over the images appends the entry of every placement on the
    screen, in the order of the images and of their placements. *)
Lemma add_layers_render_data (visible : Img.t -> Ref.t -> bool) (imgs : list Img.t) :
  forall self : GM.t,
    GM.render_data
      (foldl (fun self img => foldl (add_layer visible img) self (Img.refs img))
         self imgs)
    = GM.render_data self ++ visible_layers visible imgs.
Proof.
  induction imgs as [|img imgs IH]; intros self; simpl; [by rewrite app_nil_r|].
  rewrite IH, add_layers_of_render_data, <- app_assoc. reflexivity.
Qed.

Lemma group_counts_same_layer (fuel : nat) :
  forall (i : nat) (rd : list RD.t),
    Forall2 same_layer rd (group_counts fuel i rd).
Proof.
  assert (Hrefl : forall rd : list RD.t, Forall2 same_layer rd rd).
  { intros rd. apply Forall2_same_length_lookup_2; [reflexivity|].
    intros j a b Ha Hb. rewrite Ha in Hb. injection Hb as <-. by repeat split. }
  induction fuel as [|fuel IH]; intros i rd; cbn [group_counts]; [apply Hrefl|].
  destruct (bool_decide _); [|apply Hrefl].
  eapply (Forall2_trans same_layer same_layer same_layer); [| |apply IH].
  - intros a b c Hab Hbc. unfold same_layer in *.
    destruct Hab as (H1 & H2 & H3), Hbc as (H4 & H5 & H6). repeat split; congruence.
  - apply Forall2_alter_r; [apply Hrefl|]. intros a b _ _ Hab. exact Hab.
Qed.

Lemma StronglySorted_same_layer (l l' : list RD.t) :
  Forall2 same_layer l l' ->
  StronglySorted draws_before l -> StronglySorted draws_before l'.
Proof.
  induction 1 as [|x x' l l' Hx Hl IH]; intros Hsorted; [constructor|].
  apply StronglySorted_inv in Hsorted as [Hrest Hhead].
  constructor; [by apply IH|].
  clear IH Hrest. induction Hl as [|y y' l l' Hy Hl IH]; [constructor|].
  inversion_clear Hhead as [|? ? Hxy Hxl].
  constructor; [|by apply IH].
  destruct Hx as (_ & Hxz & Hxi), Hy as (_ & Hyz & Hyi).
  unfold draws_before in *. rewrite <- Hxz, <- Hxi, <- Hyz, <- Hyi. exact Hxy.
Qed.

Lemma i32_small (z : Z) : - 2^31 <= z < 2^31 -> i32 z = z.
Proof. intros Hz. unfold i32. rewrite Z.mod_small by lia. lia. Qed.

Lemma i32_u64 (d : Z) : - 2^31 <= d < 2^31 -> i32 (u64 d) = d.
Proof.
  intros Hd. unfold i32, u64.
  destruct (Z.ltb_spec d 0) as [Hneg|Hpos].
  - rewrite <- (Z.mod_unique d (2^64) (-1) (d + 2^64)) by lia.
    rewrite <- (Z.mod_unique (d + 2^64 + 2^31) (2^32) (2^32) (d + 2^31)) by lia. lia.
  - rewrite (Z.mod_small d) by lia. rewrite Z.mod_small by lia. lia.
Qed.

Lemma cmp_by_zindex_and_image_decides (l : list RD.t) :
  Forall layer_in_range l -> decides_order cmp_by_zindex_and_image draws_before l.
Proof.
  intros Hrange. rewrite Forall_forall in Hrange. unfold layer_in_range in Hrange.
  unfold draws_before. split; [|split].
  - intros x y Hx Hy. specialize (Hrange x Hx) as Hxr. specialize (Hrange y Hy) as Hyr.
    unfold cmp_by_zindex_and_image. rewrite i32_small by lia.
    destruct (Z.eqb_spec (RD.z_index x - RD.z_index y) 0) as [Hz|Hz].
    + rewrite i32_u64 by lia. lia.
    + lia.
  - intros x y _ _. lia.
  - intros x y z _ _ _. lia.
Qed.

Lemma visible_layers_in_range (visible : Img.t -> Ref.t -> bool) (imgs : list Img.t) :
  Forall in_draw_range imgs -> Forall layer_in_range (visible_layers visible imgs).
Proof.
  intros Hrange. apply Forall_forall. intros r Hr.
  apply list_elem_of_In, in_flat_map in Hr as (img & Himg & Hr).
  apply in_map_iff in Hr as (ref & <- & Href). apply filter_In in Href as [Href _].
  rewrite Forall_forall in Hrange.
  destruct (Hrange img) as [Hid Hz]; [by apply list_elem_of_In|].
  rewrite Forall_forall in Hz. split; [|exact Hid].
  apply Hz. by apply list_elem_of_In.
Qed.

(** What [grman_update_layers] leaves in [render_data] when it rebuilds the
    render set. *)
Lemma grman_update_layers_render_data (visible : Img.t -> Ref.t -> bool)
    (scrolled_by : Z) (self : GM.t) :
  snd (grman_update_layers visible scrolled_by self) = true ->
  let sorted := qsort cmp_by_zindex_and_image (visible_layers visible (GM.images self)) in
  GM.render_data (fst (grman_update_layers visible scrolled_by self))
  = group_counts (length sorted) 0 sorted.
Proof.
  unfold grman_update_layers.
  set (self1 := GM.set_last_scrolled_by scrolled_by _).
  assert (Himages : GM.images self1 = GM.images self).
  { unfold self1. destruct (negb _); reflexivity. }
  clearbody self1.
  destruct (negb (GM.layers_dirty self1)); [discriminate|].
  set (self2 := GM.set_render_data [] _).
  pose proof (add_layers_render_data visible (GM.images self2) self2) as Hrd.
  change (GM.render_data self2) with (@nil RD.t) in Hrd.
  change (GM.images self2) with (GM.images self1) in Hrd. rewrite Himages in Hrd.
  change (GM.images self2) with (GM.images self1). rewrite Himages.
  simpl app in Hrd.
  set (self3 := foldl _ self2 _) in *. clearbody self3.
  destruct (negb _); [discriminate|]. intros _. cbn [fst]. cbn. rewrite Hrd.
  reflexivity.
Qed.

(** X6: as long as the z indices lie within [-2^30, 2^30) and the internal
    ids below 2^31, the render set [grman_update_layers] rebuilds is in draw
    order: ascending in [z_index], and in [image_id] among equal z. *)
Theorem layers_in_draw_order (visible : Img.t -> Ref.t -> bool) (scrolled_by : Z)
    (self : GM.t) :
  Forall in_draw_range (GM.images self) ->
  snd (grman_update_layers visible scrolled_by self) = true ->
  StronglySorted draws_before
    (GM.render_data (fst (grman_update_layers visible scrolled_by self))).
Proof.
  intros Hrange Hrebuilt.
  rewrite (grman_update_layers_render_data visible scrolled_by self Hrebuilt).
  eapply StronglySorted_same_layer; [apply group_counts_same_layer|].
  apply qsort_sorted, cmp_by_zindex_and_image_decides, visible_layers_in_range, Hrange.
Qed.

Lemma layers_in_draw_order_witness :
  (Forall in_draw_range (GM.images (grman DrawScenario.three_layers))
   /\ snd (grman_update_layers LayerScenario.all_visible 0
             (grman DrawScenario.three_layers)) = true)
  /\ StronglySorted draws_before
       (GM.render_data
          (fst (grman_update_layers LayerScenario.all_visible 0
                  (grman DrawScenario.three_layers)))).
Proof.
  assert (Hrange : Forall in_draw_range (GM.images (grman DrawScenario.three_layers))).
  { evaluate (GM.images (grman DrawScenario.three_layers)).
    repeat constructor; cbn; lia. }
  assert (Hrebuilt : snd (grman_update_layers LayerScenario.all_visible 0
                            (grman DrawScenario.three_layers)) = true)
    by (vm_compute; reflexivity).
  exact (conj (conj Hrange Hrebuilt)
           (layers_in_draw_order LayerScenario.all_visible 0
              (grman DrawScenario.three_layers) Hrange Hrebuilt)).
Defined.

(** *** The counters of the render set *)

Lemma count_of_le (p : RD.t -> bool) (rd : list RD.t) :
  0 <= count_of p rd <= Z.of_nat (length rd).
Proof.
  unfold count_of. split; [lia|]. apply inj_le.
  induction rd as [|r rd IH]; simpl; [lia|]. destruct (p r); simpl; lia.
Qed.

Lemma count_of_app (p : RD.t -> bool) (l k : list RD.t) :
  count_of p (l ++ k) = count_of p l + count_of p k.
Proof. unfold count_of. rewrite List.filter_app, length_app. lia. Qed.

Lemma count_of_singleton (p : RD.t -> bool) (r : RD.t) :
  count_of p [r] = if p r then 1 else 0.
Proof. unfold count_of. simpl. by destruct (p r). Qed.

Lemma add_layer_counters (visible : Img.t -> Ref.t -> bool) (img : Img.t)
    (self : GM.t) (ref : Ref.t) :
  counters_match self ->
  Z.of_nat (length (GM.render_data (add_layer visible img self ref))) < 2^64 ->
  counters_match (add_layer visible img self ref).
Proof.
  intros (Hb & Hn & Hp). unfold counters_match.
  rewrite add_layer_render_data. unfold add_layer.
  destruct (visible img ref); cbn [negb];
    [|intros _; rewrite app_nil_r; by repeat split].
  rewrite length_app. cbn [length]. intros Hlen.
  pose proof (count_of_le is_below (GM.render_data self)).
  pose proof (count_of_le is_negative (GM.render_data self)).
  pose proof (count_of_le is_positive (GM.render_data self)).
  rewrite !count_of_app, !count_of_singleton.
  unfold is_below at 2, is_negative at 2, is_positive at 2. cbn [layer_of RD.z_index].
  change (Z.quot INT32_MIN 2) with (-1073741824).
  destruct (Z.ltb_spec (Ref.z_index ref) (-1073741824));
    destruct (Z.ltb_spec (Ref.z_index ref) 0); cbn; try lia;
    rewrite ?u64_small by lia; repeat split; lia.
Qed.

Lemma add_layers_of_counters (visible : Img.t -> Ref.t -> bool) (img : Img.t)
    (refs : list Ref.t) :
  forall self : GM.t,
    counters_match self ->
    Z.of_nat (length (GM.render_data (foldl (add_layer visible img) self refs))) < 2^64 ->
    counters_match (foldl (add_layer visible img) self refs).
Proof.
  induction refs as [|ref refs IH]; intros self Hmatch Hlen; simpl; [exact Hmatch|].
  simpl in Hlen. apply IH; [|exact Hlen].
  apply add_layer_counters; [exact Hmatch|].
  rewrite add_layers_of_render_data, length_app in Hlen. lia.
Qed.

Lemma add_layers_counters (visible : Img.t -> Ref.t -> bool) (imgs : list Img.t) :
  forall self : GM.t,
    counters_match self ->
    Z.of_nat
      (length
         (GM.render_data
            (foldl (fun self img => foldl (add_layer visible img) self (Img.refs img))
               self imgs))) < 2^64 ->
    counters_match
      (foldl (fun self img => foldl (add_layer visible img) self (Img.refs img))
         self imgs).
Proof.
  induction imgs as [|img imgs IH]; intros self Hmatch Hlen; simpl; [exact Hmatch|].
  simpl in Hlen. apply IH; [|exact Hlen].
  apply add_layers_of_counters; [exact Hmatch|].
  rewrite add_layers_render_data, length_app in Hlen. lia.
Qed.

Lemma count_of_Permutation (p : RD.t -> bool) (l k : list RD.t) :
  l ≡ₚ k -> count_of p l = count_of p k.
Proof.
  intros Hperm. unfold count_of. f_equal.
  induction Hperm as [|x l k _ IH|x y l|l k m _ IH1 _ IH2]; simpl.
  - reflexivity.
  - destruct (p x); simpl; lia.
  - destruct (p x), (p y); reflexivity.
  - lia.
Qed.

Lemma count_of_same_layer (p : RD.t -> bool) (l k : list RD.t) :
  (forall a b, same_layer a b -> p a = p b) ->
  Forall2 same_layer l k -> count_of p l = count_of p k.
Proof.
  intros Hp Hsame. unfold count_of. f_equal.
  induction Hsame as [|a b l k Hab _ IH]; simpl; [reflexivity|].
  rewrite (Hp a b Hab). destruct (p b); simpl; lia.
Qed.

(** X7: when [grman_update_layers] runs on a layout that changed, it leaves
    one render entry for each placement on the screen, and its three
    counters count these entries by the range of their z index: below
    [INT32_MIN / 2], from there up to zero, and from zero up. *)
Theorem layer_counters (visible : Img.t -> Ref.t -> bool) (scrolled_by : Z)
    (self : GM.t) :
  GM.layers_dirty self = true \/ GM.last_scrolled_by self <> scrolled_by ->
  Z.of_nat (length (visible_layers visible (GM.images self))) < 2^64 ->
  let self' := fst (grman_update_layers visible scrolled_by self) in
  counters_match self'
  /\ length (GM.render_data self') = length (visible_layers visible (GM.images self))
  /\ GM.layers_dirty self' = false.
Proof.
  intros Hchanged Hlen. unfold grman_update_layers.
  set (self1 := GM.set_last_scrolled_by scrolled_by _).
  assert (Himages : GM.images self1 = GM.images self).
  { unfold self1. destruct (negb _); reflexivity. }
  assert (Hdirty : GM.layers_dirty self1 = true).
  { unfold self1. destruct (Z.eqb_spec (GM.last_scrolled_by self) scrolled_by) as [Hsame|_];
      cbn; [|reflexivity].
    destruct Hchanged as [Hd|Hne]; [exact Hd | contradiction]. }
  clearbody self1. rewrite Hdirty. cbn [negb].
  set (self2 := GM.set_render_data [] _).
  assert (Hmatch2 : counters_match self2) by (by repeat split).
  pose proof (add_layers_render_data visible (GM.images self2) self2) as Hrd.
  pose proof (add_layers_counters visible (GM.images self2) self2 Hmatch2) as Hmatch3.
  assert (Hdirty3 : GM.layers_dirty
                      (foldl (fun self img =>
                                foldl (add_layer visible img) self (Img.refs img))
                         self2 (GM.images self2)) = false).
  { assert (Hkeep : forall imgs s, GM.layers_dirty s = false ->
              GM.layers_dirty
                (foldl (fun self img =>
                          foldl (add_layer visible img) self (Img.refs img)) s imgs)
              = false).
    { induction imgs as [|img imgs IH]; intros s Hs; simpl; [exact Hs|].
      apply IH. generalize (Img.refs img). intros refs. revert s Hs.
      induction refs as [|ref refs IHr]; intros s Hs; simpl; [exact Hs|].
      apply IHr. unfold add_layer. destruct (negb _); [exact Hs|].
      destruct (_ <? _); [exact Hs|]. destruct (_ <? _); exact Hs. }
    apply Hkeep. reflexivity. }
  change (GM.render_data self2) with (@nil RD.t) in Hrd.
  change (GM.images self2) with (GM.images self1) in *. rewrite Himages in *.
  simpl app in Hrd.
  set (self3 := foldl _ self2 _) in *. clearbody self3.
  rewrite Hrd in Hmatch3. specialize (Hmatch3 Hlen).
  destruct (negb _); cbn [fst].
  - rewrite Hrd. split; [exact Hmatch3 | split; [reflexivity | exact Hdirty3]].
  - cbn. rewrite Hrd.
    pose proof (group_counts_same_layer
                  (length (qsort cmp_by_zindex_and_image
                             (visible_layers visible (GM.images self))))
                  0 (qsort cmp_by_zindex_and_image
                       (visible_layers visible (GM.images self)))) as Hsame.
    pose proof (qsort_Permutation cmp_by_zindex_and_image
                  (visible_layers visible (GM.images self))) as Hperm.
    split; [|split; [|exact Hdirty3]].
    + destruct Hmatch3 as (Hb & Hn & Hp). rewrite Hrd in Hb, Hn, Hp.
      assert (Hcount : forall p : RD.t -> bool,
                (forall a b, same_layer a b -> p a = p b) ->
                count_of p (group_counts
                              (length (qsort cmp_by_zindex_and_image
                                         (visible_layers visible (GM.images self))))
                              0 (qsort cmp_by_zindex_and_image
                                   (visible_layers visible (GM.images self))))
                = count_of p (visible_layers visible (GM.images self))).
      { intros p Hp'. rewrite <- (count_of_same_layer p _ _ Hp' Hsame).
        apply count_of_Permutation, Hperm. }
      unfold counters_match. cbn.
      rewrite !Hcount; [by repeat split|..];
        intros a b (_ & Hz & _); unfold is_below, is_negative, is_positive;
        by rewrite Hz.
    + rewrite <- (Forall2_length _ _ _ Hsame). by rewrite Hperm.
Qed.

Lemma layer_counters_witness :
  ((GM.layers_dirty (grman DrawScenario.three_layers) = true
    \/ GM.last_scrolled_by (grman DrawScenario.three_layers) <> 0)
   /\ Z.of_nat (length (visible_layers LayerScenario.all_visible
                          (GM.images (grman DrawScenario.three_layers)))) < 2^64)
  /\ counters_match
       (fst (grman_update_layers LayerScenario.all_visible 0
               (grman DrawScenario.three_layers))).
Proof.
  assert (Hdirty : GM.layers_dirty (grman DrawScenario.three_layers) = true
                   \/ GM.last_scrolled_by (grman DrawScenario.three_layers) <> 0)
    by (left; vm_compute; reflexivity).
  assert (Hlen : Z.of_nat (length (visible_layers LayerScenario.all_visible
                                     (GM.images (grman DrawScenario.three_layers))))
                 < 2^64) by (vm_compute; reflexivity).
  exact (conj (conj Hdirty Hlen)
           (proj1 (layer_counters LayerScenario.all_visible 0
                     (grman DrawScenario.three_layers) Hdirty Hlen))).
Defined.

(** *** The groups of the render set *)

Lemma group_scan_spec (rd : list RD.t) (image_id : Z) (fuel : nat) :
  forall i : nat,
    let i' := group_scan fuel rd image_id i in
    (i <= i')%nat
    /\ (i < i' -> i' <= length rd - 1)%nat
    /\ (forall (j : nat) (r : RD.t),
          (i < j < i')%nat -> rd !! j = Some r -> RD.image_id r = image_id)
    /\ ((0 < fuel)%nat -> (i < length rd - 1)%nat -> (i < i')%nat).
Proof.
  induction fuel as [|fuel IH]; intros i; simpl.
  - repeat split; intros; lia.
  - destruct (bool_decide_reflect (i < length rd - 1)%nat) as [Hin|Hout].
    + destruct (Z.eqb_spec (RD.image_id (default RD.zero (rd !! S i))) image_id)
        as [Hsame|Hother].
      * destruct (IH (S i)) as (Hle & Hbound & Hids & _).
        repeat split; try lia.
        intros j r Hj Hr.
        destruct (decide (j = S i)) as [->|Hne].
        -- rewrite Hr in Hsame. exact Hsame.
        -- apply (Hids j r); [lia | exact Hr].
      * repeat split; intros; lia.
    + repeat split; intros; lia.
Qed.

(** The entries before [i] are out of the reach of the outer loop. *)
Lemma group_counts_frame (fuel : nat) :
  forall (i : nat) (rd : list RD.t),
    take i (group_counts fuel i rd) = take i rd.
Proof.
  induction fuel as [|fuel IH]; intros i rd; cbn [group_counts]; [reflexivity|].
  destruct (bool_decide_reflect (i < length rd)%nat) as [Hin|Hout]; [|reflexivity].
  set (i' := if bool_decide (i = (length rd - 1)%nat) then length rd
             else group_scan (length rd) rd _ i).
  assert (Hle : (i <= i')%nat).
  { unfold i'. destruct (bool_decide _); [lia|]. apply group_scan_spec. }
  set (rd1 := alter _ i rd).
  assert (Hmin : (i `min` i' = i)%nat) by lia.
  rewrite <- Hmin at 1. rewrite <- take_take, IH, take_take, Hmin.
  unfold rd1. apply take_alter_ge. lia.
Qed.

Lemma lookup_take_eq {A : Type} (l k : list A) (n j : nat) :
  take n l = take n k -> (j < n)%nat -> l !! j = k !! j.
Proof.
  intros Htake Hj.
  rewrite <- (lookup_take_lt l n j) by exact Hj.
  rewrite <- (lookup_take_lt k n j) by exact Hj. by rewrite Htake.
Qed.

Lemma group_counts_tiled (fuel : nat) :
  forall (i : nat) (rd : list RD.t),
    (length rd - i <= fuel)%nat -> (i <= length rd)%nat ->
    Z.of_nat (length rd) < 2^32 ->
    tiled (group_counts fuel i rd) i.
Proof.
  induction fuel as [|fuel IH]; intros i rd Hfuel Hi Hlen; cbn [group_counts].
  - replace i with (length rd) by lia. constructor.
  - destruct (bool_decide_reflect (i < length rd)%nat) as [Hin|Hout];
      [|replace i with (length rd) by lia; constructor].
    destruct (lookup_lt_is_Some_2 rd i Hin) as [r0 Hr0].
    rewrite Hr0. cbn [default]. unfold id.
    set (i' := if bool_decide (i = (length rd - 1)%nat) then length rd
               else group_scan (length rd) rd (RD.image_id r0) i).
    assert (Hi' : (i < i' <= length rd)%nat
                  /\ forall (j : nat) (r : RD.t),
                       (i < j < i')%nat -> rd !! j = Some r ->
                       RD.image_id r = RD.image_id r0).
    { unfold i'. destruct (bool_decide_reflect (i = (length rd - 1)%nat)) as [Hlast|Hmore].
      - split; [lia|]. intros j r Hj Hr. apply lookup_lt_Some in Hr. lia.
      - destruct (group_scan_spec rd (RD.image_id r0) (length rd) i)
          as (Hle & Hbound & Hids & Hprogress).
        specialize (Hprogress ltac:(lia) ltac:(lia)). specialize (Hbound Hprogress).
        split; [lia | exact Hids]. }
    destruct Hi' as [Hbounds Hids].
    set (rd1 := alter _ i rd).
    assert (Hlen1 : length rd1 = length rd) by apply length_alter.
    pose proof (group_counts_frame fuel i' rd1) as Hframe.
    pose proof (group_counts_same_layer fuel i' rd1) as Hsame.
    assert (Hrest : tiled (group_counts fuel i' rd1) i').
    { apply IH; rewrite ?Hlen1; lia. }
    assert (Hnext : (i + (i' - i))%nat = i') by lia.
    apply (tiled_group _ i (i' - i)
             (RD.set_group_count (u32 (Z.of_nat i' - Z.of_nat i)) r0));
      [| |lia| |rewrite Hnext; exact Hrest].
    + rewrite (lookup_take_eq _ rd1 i' i Hframe) by lia.
      unfold rd1. by rewrite list_lookup_alter_eq, Hr0.
    + cbn. rewrite u32_small by lia. lia.
    + intros j r' Hj Hr'.
      rewrite (lookup_take_eq _ rd1 i' j Hframe) in Hr' by lia.
      unfold rd1 in Hr'. destruct (decide (i = j)) as [<-|Hne].
      * rewrite list_lookup_alter_eq, Hr0 in Hr'. by injection Hr' as <-.
      * rewrite list_lookup_alter_ne in Hr' by exact Hne.
        cbn. apply (Hids j r'); [lia | exact Hr'].
Qed.

(** X8: the render set [grman_update_layers] rebuilds is a sequence of
    groups.  Reading [group_count] at entry 0 and skipping that many
    entries, again and again, visits the first entry of each group and ends
    exactly at [count]; every group has at least one entry, and its entries
    belong to one image. *)
Theorem layers_are_grouped (visible : Img.t -> Ref.t -> bool) (scrolled_by : Z)
    (self : GM.t) :
  snd (grman_update_layers visible scrolled_by self) = true ->
  Z.of_nat (length (visible_layers visible (GM.images self))) < 2^32 ->
  tiled (GM.render_data (fst (grman_update_layers visible scrolled_by self))) 0.
Proof.
  intros Hrebuilt Hlen.
  rewrite (grman_update_layers_render_data visible scrolled_by self Hrebuilt).
  pose proof (qsort_Permutation cmp_by_zindex_and_image
                (visible_layers visible (GM.images self))) as Hperm.
  apply group_counts_tiled; [lia | lia |]. by rewrite Hperm.
Qed.

Lemma layers_are_grouped_witness :
  (snd (grman_update_layers LayerScenario.all_visible 0
          (grman DrawScenario.three_layers)) = true
   /\ Z.of_nat (length (visible_layers LayerScenario.all_visible
                          (GM.images (grman DrawScenario.three_layers)))) < 2^32)
  /\ tiled (GM.render_data
              (fst (grman_update_layers LayerScenario.all_visible 0
                      (grman DrawScenario.three_layers)))) 0.
Proof.
  assert (Hrebuilt : snd (grman_update_layers LayerScenario.all_visible 0
                            (grman DrawScenario.three_layers)) = true)
    by (vm_compute; reflexivity).
  assert (Hlen : Z.of_nat (length (visible_layers LayerScenario.all_visible
                                     (GM.images (grman DrawScenario.three_layers))))
                 < 2^32) by (vm_compute; reflexivity).
  exact (conj (conj Hrebuilt Hlen)
           (layers_are_grouped LayerScenario.all_visible 0
              (grman DrawScenario.three_layers) Hrebuilt Hlen)).
Defined.

(** *** What a filter removes *)

Lemma set_refs_same (img : Img.t) : Img.set_refs (Img.refs img) img = img.
Proof. by destruct img. Qed.

Lemma filter_refs_of_refs (filter_func : Ref.t -> Img.t -> bool) (img0 : Img.t) :
  ignores_refs filter_func ->
  forall (j : nat) (refs : list Ref.t),
    (j <= length refs)%nat ->
    fst (filter_refs_of j filter_func (Img.set_refs refs img0))
    = Img.set_refs
        (List.filter (fun ref => negb (filter_func ref img0)) (take j refs)
         ++ drop j refs) img0.
Proof.
  intros Hignores. induction j as [|j IH]; intros refs Hj.
  - simpl. by rewrite drop_0.
  - destruct (lookup_lt_is_Some_2 refs j) as [ref Href]; [lia|].
    cbn [filter_refs_of]. cbn [Img.refs Img.set_refs]. rewrite Href. cbn [default].
    unfold id.
    rewrite Hignores, (take_S_r _ _ _ Href), List.filter_app. cbn [List.filter].
    destruct (filter_func ref img0); cbn [negb fst].
    + change (Img.set_refs (delete j refs) (Img.set_refs refs img0))
        with (Img.set_refs (delete j refs) img0).
      rewrite IH by (rewrite length_delete by eauto; lia).
      by rewrite take_delete_here, drop_delete_here, app_nil_r.
    + rewrite IH by lia. rewrite <- app_assoc. cbn [app].
      by rewrite <- (drop_S _ _ _ Href).
Qed.

Lemma filter_refs_of_image (filter_func : Ref.t -> Img.t -> bool) (img : Img.t) :
  ignores_refs filter_func ->
  fst (filter_refs_of (length (Img.refs img)) filter_func img)
  = filter_image filter_func img.
Proof.
  intros Hignores. rewrite <- (set_refs_same img) at 2.
  rewrite (filter_refs_of_refs filter_func img Hignores) by lia.
  by rewrite firstn_all, drop_all, app_nil_r.
Qed.

Lemma filter_refs_from_images (filter_func : Ref.t -> Img.t -> bool)
    (free_images : bool) :
  ignores_refs filter_func ->
  forall (i : nat) (matched : bool) (self : GM.t),
    (i <= length (GM.images self))%nat ->
    GM.images (filter_refs_from i free_images filter_func false matched self)
    = filtered_images filter_func free_images (take i (GM.images self))
      ++ drop i (GM.images self).
Proof.
  intros Hignores. induction i as [|i IH]; intros matched self Hi.
  - simpl. by rewrite drop_0.
  - destruct (lookup_lt_is_Some_2 (GM.images self) i) as [img Himg]; [lia|].
    cbn [filter_refs_from]. rewrite (image_at_lookup _ _ _ Himg).
    pose proof (filter_refs_of_image filter_func img Hignores) as Hinner.
    destruct (filter_refs_of _ filter_func img) as [img' m]. cbn [fst] in Hinner.
    subst img'. cbn [andb].
    set (self1 := if m then GM.set_layers_dirty true _ else _).
    assert (Himages1 : GM.images self1
                       = alter (fun _ => filter_image filter_func img) i (GM.images self))
      by (unfold self1; destruct m; reflexivity).
    assert (Hhere : GM.images self1 !! i = Some (filter_image filter_func img))
      by (by rewrite Himages1, list_lookup_alter_eq, Himg).
    clearbody self1.
    unfold filtered_images. rewrite (take_S_r _ _ _ Himg), map_app, List.filter_app.
    cbn [map List.filter]. fold (filtered_images filter_func free_images (take i (GM.images self))).
    unfold reap_image. rewrite (image_at_lookup _ _ _ Hhere).
    fold (reaped free_images (filter_image filter_func img)).
    destruct (reaped free_images (filter_image filter_func img)); cbn [negb].
    + rewrite IH by (rewrite remove_image_images, length_delete by eauto;
                     rewrite Himages1, length_alter; lia).
      rewrite remove_image_images, take_delete_here, drop_delete_here, Himages1.
      rewrite take_alter_ge, drop_alter_lt, app_nil_r by lia. reflexivity.
    + rewrite IH by (rewrite Himages1, length_alter; lia).
      rewrite Himages1, take_alter_ge by lia. rewrite <- app_assoc. cbn [app].
      f_equal.
      rewrite (drop_S _ (filter_image filter_func img) i)
        by (by rewrite list_lookup_alter_eq, Himg).
      by rewrite drop_alter_lt by lia.
Qed.

Lemma filter_refs_images (self : GM.t) (free_images : bool)
    (filter_func : Ref.t -> Img.t -> bool) :
  ignores_refs filter_func ->
  GM.images (filter_refs self free_images filter_func false)
  = filtered_images filter_func free_images (GM.images self).
Proof.
  intros Hignores. unfold filter_refs.
  rewrite (filter_refs_from_images filter_func free_images Hignores) by lia.
  by rewrite firstn_all, drop_all, app_nil_r.
Qed.

(** The filters of a delete command read the ids of the image only. *)
Lemma delete_filter_ignores_refs (g : Cmd.t) (c : Cursor) (cell : CellPixelSize)
    (func : Ref.t -> Img.t -> bool) (u : ascii) (only_first_image : bool) :
  delete_filter g c cell = Some (func, u, only_first_image) ->
  ignores_refs func.
Proof.
  unfold delete_filter.
  repeat match goal with
         | |- context [if ?b then _ else _] => destruct b
         end;
    intros [= <- _ _]; intros ref img refs; reflexivity.
Qed.

(** X9: a delete command whose action is not [n] or [N] leaves of every
    image the placements its filter does not match, in their order, and
    removes the images left without a placement when the action is an
    upper-case letter or the image has no client id; nothing else goes. *)
Theorem delete_removes_matches (g : Cmd.t) (cell : CellPixelSize) (w : World)
    (func : Ref.t -> Img.t -> bool) (u : ascii) :
  delete_filter g (cursor w) cell = Some (func, u, false) ->
  GM.images (grman (handle_delete_command g cell w))
  = filtered_images func (Cmd.delete_action g =? u)%char (GM.images (grman w)).
Proof.
  intros Hfilter. unfold handle_delete_command. rewrite Hfilter.
  pose proof (delete_filter_ignores_refs _ _ _ _ _ _ Hfilter) as Hignores.
  destruct (_ && _); cbn; by apply filter_refs_images.
Qed.

Lemma delete_removes_matches_witness :
  delete_filter DeleteScenario.delete_row (cursor DeleteScenario.placed) Scenario.cell
  = Some (fun ref img => y_filter_func ref img DeleteScenario.delete_row Scenario.cell,
          "Y"%char, false)
  /\ GM.images (grman (handle_delete_command DeleteScenario.delete_row Scenario.cell
                         DeleteScenario.placed))
     = filtered_images
         (fun ref img => y_filter_func ref img DeleteScenario.delete_row Scenario.cell)
         (Cmd.delete_action DeleteScenario.delete_row =? "Y")%char
         (GM.images (grman DeleteScenario.placed)).
Proof.
  assert (Hfilter :
            delete_filter DeleteScenario.delete_row (cursor DeleteScenario.placed)
              Scenario.cell
            = Some (fun ref img =>
                      y_filter_func ref img DeleteScenario.delete_row Scenario.cell,
                    "Y"%char, false)) by reflexivity.
  exact (conj Hfilter
           (delete_removes_matches DeleteScenario.delete_row Scenario.cell
              DeleteScenario.placed _ _ Hfilter)).
Defined.

(** *** Images with a client id outlive a lower-case delete *)

Lemma filter_refs_of_without_refs (filter_func : Ref.t -> Img.t -> bool) (j : nat) :
  forall img : Img.t,
    without_refs (fst (filter_refs_of j filter_func img)) = without_refs img.
Proof.
  induction j as [|j IH]; intros img; simpl; [reflexivity|].
  destruct (filter_func _ img); [|apply IH]. simpl. by rewrite IH.
Qed.

Lemma named_images_cons (x : Img.t) (imgs : list Img.t) :
  named_images (x :: imgs)
  = (if nz (Img.client_id x) then [without_refs x] else []) ++ named_images imgs.
Proof. unfold named_images. simpl. by destruct (nz (Img.client_id x)). Qed.

Lemma named_images_alter (f : Img.t -> Img.t) (i : nat) (imgs : list Img.t) :
  (forall img, imgs !! i = Some img -> without_refs (f img) = without_refs img) ->
  named_images (alter f i imgs) = named_images imgs.
Proof.
  revert i. induction imgs as [|x imgs IH]; intros [|i] Hf; try reflexivity.
  - specialize (Hf x eq_refl).
    replace (alter f 0%nat (x :: imgs)) with (f x :: imgs) by reflexivity.
    rewrite !named_images_cons.
    assert (Hcid : Img.client_id (f x) = Img.client_id x)
      by (change (Img.client_id (without_refs (f x)) = Img.client_id (without_refs x));
          by rewrite Hf).
    by rewrite Hcid, Hf.
  - replace (alter f (S i) (x :: imgs)) with (x :: alter f i imgs) by reflexivity.
    rewrite !named_images_cons. f_equal. apply IH. intros img Himg. by apply Hf.
Qed.

Lemma named_images_delete (i : nat) (imgs : list Img.t) (img : Img.t) :
  imgs !! i = Some img -> Img.client_id img = 0 ->
  named_images (delete i imgs) = named_images imgs.
Proof.
  revert i. induction imgs as [|x imgs IH]; intros [|i] Himg Hcid; simplify_eq/=.
  - rewrite named_images_cons, Hcid. reflexivity.
  - rewrite !named_images_cons. f_equal. by apply IH.
Qed.

Lemma reap_image_named (i : nat) (self : GM.t) :
  named_images (GM.images (reap_image false i self)) = named_images (GM.images self).
Proof.
  unfold reap_image. destruct (refcnt _ =? 0); cbn [andb orb]; [|reflexivity].
  destruct (Z.eqb_spec (Img.client_id (GM.image_at self i)) 0) as [Hcid|_];
    [|reflexivity].
  rewrite remove_image_images.
  destruct (GM.images self !! i) as [img|] eqn:Himg.
  - apply (named_images_delete i _ img Himg).
    by rewrite (image_at_lookup _ _ _ Himg) in Hcid.
  - by rewrite delete_out_of_range.
Qed.

Lemma filter_refs_from_named (filter_func : Ref.t -> Img.t -> bool)
    (only_first_image : bool) (i : nat) :
  forall (matched : bool) (self : GM.t),
    named_images
      (GM.images (filter_refs_from i false filter_func only_first_image matched self))
    = named_images (GM.images self).
Proof.
  induction i as [|i IH]; intros matched self; cbn [filter_refs_from]; [reflexivity|].
  pose proof (filter_refs_of_without_refs filter_func
                (length (Img.refs (GM.image_at self i))) (GM.image_at self i))
    as Hinner.
  destruct (filter_refs_of _ filter_func (GM.image_at self i)) as [img' m].
  cbn [fst] in Hinner.
  set (self1 := if m then GM.set_layers_dirty true _ else _).
  assert (Hnamed1 : named_images (GM.images self1) = named_images (GM.images self)).
  { assert (Himages1 : GM.images self1 = alter (fun _ => img') i (GM.images self))
      by (unfold self1; destruct m; reflexivity).
    rewrite Himages1. apply named_images_alter. intros img Himg.
    by rewrite (image_at_lookup _ _ _ Himg) in Hinner. }
  clearbody self1.
  destruct (only_first_image && (matched || m)).
  - by rewrite reap_image_named.
  - by rewrite IH, reap_image_named.
Qed.

(** X10: a delete command with a lower-case action, or with an action the
    manager does not know, removes no image that has a client id and changes
    nothing of such an image but its placements. *)
Theorem lower_case_delete_keeps_named_images (g : Cmd.t) (cell : CellPixelSize)
    (w : World) :
  frees_images g (cursor w) cell = false ->
  named_images (GM.images (grman (handle_delete_command g cell w)))
  = named_images (GM.images (grman w)).
Proof.
  unfold frees_images, handle_delete_command.
  destruct (delete_filter g (cursor w) cell) as [[[func u] only_first_image]|].
  - intros ->. destruct (_ && _); cbn; apply filter_refs_from_named.
  - intros _. destruct (_ && _); reflexivity.
Qed.

Lemma lower_case_delete_keeps_named_images_witness :
  frees_images KeepScenario.delete_placements (cursor KeepScenario.placed) Scenario.cell
  = false
  /\ named_images
       (GM.images (grman (handle_delete_command KeepScenario.delete_placements
                            Scenario.cell KeepScenario.placed)))
     = named_images (GM.images (grman KeepScenario.placed)).
Proof.
  assert (Hlower : frees_images KeepScenario.delete_placements
                     (cursor KeepScenario.placed) Scenario.cell = false)
    by reflexivity.
  exact (conj Hlower
           (lower_case_delete_keeps_named_images KeepScenario.delete_placements
              Scenario.cell KeepScenario.placed Hlower)).
Defined.

(** *** Removing images gives their storage back *)

Lemma keeps_slack_refl (self : GM.t) : keeps_slack self self.
Proof. intros Hacc. by split. Qed.

Lemma keeps_slack_trans (a b c : GM.t) :
  keeps_slack a b -> keeps_slack b c -> keeps_slack a c.
Proof.
  intros Hab Hbc Ha. destruct (Hab Ha) as [Hb Hs]. destruct (Hbc Hb) as [Hc Hs'].
  split; [exact Hc | congruence].
Qed.

Lemma remove_image_keeps_slack (self : GM.t) (i : nat) :
  keeps_slack self (remove_image self i).
Proof.
  intros Hacc.
  destruct (remove_image_refs_edited self i) as (_ & _ & _ & Hedited).
  destruct (Hedited Hacc) as [Hacc' _]. split; [exact Hacc'|].
  destruct Hacc as [Hpos Hsum]. pose proof (storage_sum_nonneg _ Hpos) as Hnonneg.
  unfold slack. rewrite remove_image_images, remove_image_used_storage.
  destruct (GM.images self !! i) as [img|] eqn:Himg.
  - rewrite (image_at_lookup _ _ _ Himg), (storage_sum_delete _ _ _ Himg).
    assert (Hle : Img.used_storage img <= storage_sum (GM.images self)).
    { rewrite <- (take_drop_middle _ _ _ Himg), storage_sum_app. simpl.
      rewrite <- (take_drop_middle _ _ _ Himg) in Hpos.
      apply Forall_app in Hpos as [Hbefore Hafter].
      inversion_clear Hafter as [|? ? Hhere Hrest].
      pose proof (storage_sum_nonneg _ Hbefore).
      pose proof (storage_sum_nonneg _ Hrest). lia. }
    rewrite Forall_lookup in Hpos. specialize (Hpos _ _ Himg).
    rewrite u64_small by lia. lia.
  - unfold GM.image_at. rewrite Himg, delete_out_of_range by exact Himg. cbn.
    rewrite Z.sub_0_r, u64_small by lia. reflexivity.
Qed.

Lemma upd_image_keeps_slack (self : GM.t) (i : nat) (img : Img.t) :
  refs_edit (GM.image_at self i) img ->
  keeps_slack self (GM.upd_image i (fun _ => img) self).
Proof.
  intros Hedit Hacc.
  destruct (upd_image_refs_edited self i img Hedit) as (_ & _ & _ & Hedited).
  destruct (Hedited Hacc) as [Hacc' _]. split; [exact Hacc'|].
  unfold slack. cbn.
  destruct (GM.images self !! i) as [old|] eqn:Hold.
  - rewrite (storage_sum_alter _ _ _ _ Hold).
    rewrite (image_at_lookup _ _ _ Hold) in Hedit.
    destruct Hedit as (_ & -> & _). lia.
  - by rewrite alter_out_of_range.
Qed.

Lemma reap_image_keeps_slack (free_images : bool) (i : nat) (self : GM.t) :
  keeps_slack self (reap_image free_images i self).
Proof.
  unfold reap_image.
  destruct (_ && _); [apply remove_image_keeps_slack | apply keeps_slack_refl].
Qed.

Lemma set_layers_dirty_keeps_slack (self : GM.t) (b : bool) :
  keeps_slack self (GM.set_layers_dirty b self).
Proof. intros Hacc. by split. Qed.

Lemma filter_refs_from_keeps_slack (free_images : bool)
    (filter_func : Ref.t -> Img.t -> bool) (only_first_image : bool) (i : nat) :
  forall (matched : bool) (self : GM.t),
    keeps_slack self
      (filter_refs_from i free_images filter_func only_first_image matched self).
Proof.
  induction i as [|i IH]; intros matched self; cbn [filter_refs_from];
    [apply keeps_slack_refl|].
  pose proof (filter_refs_of_refs_edit filter_func
                (length (Img.refs (GM.image_at self i))) (GM.image_at self i))
    as Himg.
  destruct (filter_refs_of _ filter_func (GM.image_at self i)) as [img m].
  cbn [fst] in Himg.
  match goal with
  | |- context [reap_image free_images i ?s] =>
      assert (Hreaped : keeps_slack self (reap_image free_images i s))
  end.
  { eapply keeps_slack_trans; [|apply reap_image_keeps_slack].
    destruct m; [|by apply upd_image_keeps_slack].
    eapply keeps_slack_trans; [by apply upd_image_keeps_slack|].
    apply set_layers_dirty_keeps_slack. }
  destruct (only_first_image && (matched || m)); [exact Hreaped|].
  eapply keeps_slack_trans; [exact Hreaped | apply IH].
Qed.

Lemma modify_refs_from_keeps_slack (free_images : bool)
    (filter_func : Ref.t -> Img.t -> Ref.t * bool) (i : nat) :
  forall self : GM.t,
    keeps_slack self (modify_refs_from i free_images filter_func self).
Proof.
  induction i as [|i IH]; intros self; cbn [modify_refs_from];
    [apply keeps_slack_refl|].
  eapply keeps_slack_trans; [|apply IH].
  eapply keeps_slack_trans; [|apply reap_image_keeps_slack].
  apply upd_image_keeps_slack, modify_refs_of_refs_edit.
Qed.

Lemma remove_images_from_keeps_slack (predicate : Img.t -> bool) (skip : Z) (i : nat) :
  forall self : GM.t,
    keeps_slack self (remove_images_from i predicate skip self).
Proof.
  induction i as [|i IH]; intros self; cbn [remove_images_from];
    [apply keeps_slack_refl|].
  destruct (_ && _); [|apply IH].
  eapply keeps_slack_trans; [apply remove_image_keeps_slack | apply IH].
Qed.

(** X11: scrolling, clearing, a delete command and [remove_images] give
    back exactly what the images they remove were charged: the storage in
    use that no image accounts for stays what it was. *)
Theorem removal_gives_storage_back (self : GM.t) :
  storage_accounted self ->
  (forall (data : ScrollData) (cell : CellPixelSize),
     slack (grman_scroll_images self data cell) = slack self)
  /\ (forall (all : bool) (cell : CellPixelSize),
        slack (grman_clear self all cell) = slack self)
  /\ (forall (predicate : Img.t -> bool) (skip : Z),
        slack (remove_images self predicate skip) = slack self)
  /\ (forall (g : Cmd.t) (cell : CellPixelSize) (w : World),
        grman w = self ->
        slack (grman (handle_delete_command g cell w)) = slack self).
Proof.
  intros Hacc. split; [|split; [|split]].
  - intros data cell. unfold grman_scroll_images. destruct (nz _); [|reflexivity].
    apply (keeps_slack_trans self (GM.set_layers_dirty true self));
      [apply set_layers_dirty_keeps_slack | apply modify_refs_from_keeps_slack
      | exact Hacc].
  - intros all cell. by apply filter_refs_from_keeps_slack.
  - intros predicate skip. by apply remove_images_from_keeps_slack.
  - intros g cell w <-. unfold handle_delete_command.
    destruct (delete_filter g (cursor w) cell) as [[[func u] only_first_image]|];
      destruct (_ && _); cbn; try reflexivity;
      by apply filter_refs_from_keeps_slack.
Qed.

Lemma removal_gives_storage_back_witness :
  storage_accounted (grman KeepScenario.placed)
  /\ (forall (data : ScrollData) (cell : CellPixelSize),
        slack (grman_scroll_images (grman KeepScenario.placed) data cell)
        = slack (grman KeepScenario.placed))
  /\ (forall (all : bool) (cell : CellPixelSize),
        slack (grman_clear (grman KeepScenario.placed) all cell)
        = slack (grman KeepScenario.placed))
  /\ (forall (predicate : Img.t -> bool) (skip : Z),
        slack (remove_images (grman KeepScenario.placed) predicate skip)
        = slack (grman KeepScenario.placed))
  /\ (forall (g : Cmd.t) (cell : CellPixelSize) (w : World),
        grman w = grman KeepScenario.placed ->
        slack (grman (handle_delete_command g cell w))
        = slack (grman KeepScenario.placed)).
Proof.
  assert (Hacc : storage_accounted (grman KeepScenario.placed)).
  { unfold storage_accounted. vm_compute. split.
    - repeat constructor. discriminate.
    - split; [discriminate | reflexivity]. }
  exact (conj Hacc (removal_gives_storage_back (grman KeepScenario.placed) Hacc)).
Defined.

(** *** Clearing the screen *)





(** *** The column and the row of a delete command *)

(** X13: for a command whose column and row are counted from 1,
    [x_filter_func] selects the placements that cover the column wherever
    they begin, and [y_filter_func] those that cover the row as long as they
    begin on the screen, not above it. *)
Theorem column_and_row_filters (ref : Ref.t) (img : Img.t) (g : Cmd.t)
    (cell : CellPixelSize) :
  0 < Cmd.x_offset g < 2^31 -> 0 < Cmd.y_offset g < 2^31 ->
  - 2^31 <= Ref.start_column ref -> 0 <= Ref.start_row ref ->
  0 <= Ref.effective_num_cols ref -> 0 <= Ref.effective_num_rows ref ->
  Ref.start_column ref + Ref.effective_num_cols ref < 2^31 ->
  Ref.start_row ref + Ref.effective_num_rows ref < 2^32 ->
  x_filter_func ref img g cell
  = covers (Ref.start_column ref) (Ref.effective_num_cols ref) (Cmd.x_offset g - 1)
  /\ y_filter_func ref img g cell
     = covers (Ref.start_row ref) (Ref.effective_num_rows ref) (Cmd.y_offset g - 1).
Proof.
  intros Hx Hy Hcolumn Hrow Hcols Hrows Hright Hbottom. split.
  - unfold x_filter_func, covers.
    rewrite (i32_small (Cmd.x_offset g)) by lia.
    rewrite (i32_small (Cmd.x_offset g - 1)) by lia.
    rewrite i32_u32 by lia. reflexivity.
  - unfold y_filter_func, covers.
    rewrite (i32_small (Cmd.y_offset g)) by lia.
    rewrite (i32_small (Cmd.y_offset g - 1)) by lia.
    rewrite !u32_small by lia.
    by destruct (_ <? _).
Qed.

Lemma column_and_row_filters_witness :
  0 < Cmd.x_offset CellScenario.at_cell < 2^31
  /\ 0 < Cmd.y_offset CellScenario.at_cell < 2^31
  /\ - 2^31 <= Ref.start_column CellScenario.ref
  /\ 0 <= Ref.start_row CellScenario.ref
  /\ 0 <= Ref.effective_num_cols CellScenario.ref
  /\ 0 <= Ref.effective_num_rows CellScenario.ref
  /\ Ref.start_column CellScenario.ref + Ref.effective_num_cols CellScenario.ref < 2^31
  /\ Ref.start_row CellScenario.ref + Ref.effective_num_rows CellScenario.ref < 2^32
  /\ x_filter_func CellScenario.ref Img.zero CellScenario.at_cell Scenario.cell
     = covers (Ref.start_column CellScenario.ref)
         (Ref.effective_num_cols CellScenario.ref)
         (Cmd.x_offset CellScenario.at_cell - 1)
  /\ y_filter_func CellScenario.ref Img.zero CellScenario.at_cell Scenario.cell
     = covers (Ref.start_row CellScenario.ref)
         (Ref.effective_num_rows CellScenario.ref)
         (Cmd.y_offset CellScenario.at_cell - 1).
Proof.
  assert (Hx : 0 < Cmd.x_offset CellScenario.at_cell < 2^31) by (simpl; lia).
  assert (Hy : 0 < Cmd.y_offset CellScenario.at_cell < 2^31) by (simpl; lia).
  assert (Hcolumn : - 2^31 <= Ref.start_column CellScenario.ref) by (simpl; lia).
  assert (Hrow : 0 <= Ref.start_row CellScenario.ref) by (simpl; lia).
  assert (Hcols : 0 <= Ref.effective_num_cols CellScenario.ref) by (simpl; lia).
  assert (Hrows : 0 <= Ref.effective_num_rows CellScenario.ref) by (simpl; lia).
  assert (Hright : Ref.start_column CellScenario.ref
                   + Ref.effective_num_cols CellScenario.ref < 2^31) by (simpl; lia).
  assert (Hbottom : Ref.start_row CellScenario.ref
                    + Ref.effective_num_rows CellScenario.ref < 2^32) by (simpl; lia).
  exact (conj Hx (conj Hy (conj Hcolumn (conj Hrow (conj Hcols (conj Hrows
           (conj Hright (conj Hbottom
              (column_and_row_filters CellScenario.ref Img.zero CellScenario.at_cell
                 Scenario.cell Hx Hy Hcolumn Hrow Hcols Hrows Hright Hbottom))))))))).
Defined.

(** *** The cells of a placement *)

Lemma ceiling_cells (size pixels : Z) :
  0 < size -> 0 <= pixels < 2^32 ->
  let n := pixels / size in
  fewest_cells size pixels (if pixels >? u32 (n * size) then u32 (n + 1) else n).
Proof.
  intros Hsize Hpixels n. unfold fewest_cells.
  pose proof (Z.mul_div_le pixels size Hsize) as Hle.
  pose proof (Z.mul_succ_div_gt pixels size Hsize) as Hgt.
  fold n in Hle, Hgt.
  assert (Hn : 0 <= n) by (apply Z.div_pos; lia).
  rewrite (u32_small (n * size)) by nia.
  destruct (Z.gtb_spec pixels (n * size)).
  - rewrite u32_small by nia. nia.
  - nia.
Qed.

(** X14: when a placement is given no number of columns or of rows,
    [update_dest_rect] gives it the fewest cells that hold its crop and its
    offset inside the first cell; a number that is given is kept. *)
Theorem dest_rect_holds_crop (num_cols num_rows : Z) (cell : CellPixelSize)
    (ref : Ref.t) :
  0 < cell_width cell -> 0 < cell_height cell ->
  0 <= Ref.src_width ref + Ref.cell_x_offset ref < 2^32 ->
  0 <= Ref.src_height ref + Ref.cell_y_offset ref < 2^32 ->
  let ref' := update_dest_rect num_cols num_rows cell ref in
  cells_hold num_cols (cell_width cell) (Ref.src_width ref + Ref.cell_x_offset ref)
    (Ref.effective_num_cols ref')
  /\ cells_hold num_rows (cell_height cell)
       (Ref.src_height ref + Ref.cell_y_offset ref) (Ref.effective_num_rows ref').
Proof.
  intros Hwidth Hheight Hx Hy. cbv zeta. unfold update_dest_rect, cells_hold. cbn.
  split.
  - destruct (num_cols =? 0); [|reflexivity].
    rewrite (u32_small (Ref.src_width ref + Ref.cell_x_offset ref)) by lia.
    by apply ceiling_cells.
  - destruct (num_rows =? 0); [|reflexivity].
    rewrite (u32_small (Ref.src_height ref + Ref.cell_y_offset ref)) by lia.
    by apply ceiling_cells.
Qed.

Lemma dest_rect_holds_crop_witness :
  0 < cell_width Scenario.cell
  /\ 0 < cell_height Scenario.cell
  /\ 0 <= Ref.src_width CellScenario.ref + Ref.cell_x_offset CellScenario.ref < 2^32
  /\ 0 <= Ref.src_height CellScenario.ref + Ref.cell_y_offset CellScenario.ref < 2^32
  /\ (let ref' := update_dest_rect 0 7 Scenario.cell CellScenario.ref in
      cells_hold 0 (cell_width Scenario.cell)
        (Ref.src_width CellScenario.ref + Ref.cell_x_offset CellScenario.ref)
        (Ref.effective_num_cols ref')
      /\ cells_hold 7 (cell_height Scenario.cell)
           (Ref.src_height CellScenario.ref + Ref.cell_y_offset CellScenario.ref)
           (Ref.effective_num_rows ref')).
Proof.
  assert (Hwidth : 0 < cell_width Scenario.cell) by (simpl; lia).
  assert (Hheight : 0 < cell_height Scenario.cell) by (simpl; lia).
  assert (Hx : 0 <= Ref.src_width CellScenario.ref
                    + Ref.cell_x_offset CellScenario.ref < 2^32) by (simpl; lia).
  assert (Hy : 0 <= Ref.src_height CellScenario.ref
                    + Ref.cell_y_offset CellScenario.ref < 2^32) by (simpl; lia).
  exact (conj Hwidth (conj Hheight (conj Hx (conj Hy
           (dest_rect_holds_crop 0 7 Scenario.cell CellScenario.ref
              Hwidth Hheight Hx Hy))))).
Defined.

(** *** What a put command places *)

Lemma place_ref_client_id (g : Cmd.t) (img : Img.t) (c : Cursor) (cell : CellPixelSize)
    (old : Ref.t) :
  Ref.client_id (place_ref g img c cell old)
  = if nz (Img.client_id img) then Cmd.placement_id g else Ref.client_id old.
Proof. unfold place_ref. by destruct (nz (Img.client_id img)). Qed.

Lemma NoDup_filter_app_new (ids : list Z) (p : Z) :
  (p <> 0 -> p ∉ ids) ->
  NoDup (List.filter nz ids) -> NoDup (List.filter nz (ids ++ [p])).
Proof.
  intros Hnew Hids. rewrite List.filter_app. cbn [List.filter].
  destruct (nz p) eqn:Hp; [|by rewrite app_nil_r].
  apply NoDup_app. split; [exact Hids|]. split; [|apply NoDup_singleton].
  intros x Hx ->%list_elem_of_singleton.
  apply list_elem_of_In, List.filter_In in Hx as [Hx _].
  apply (Hnew (proj1 (nz_true p) Hp)), list_elem_of_In, Hx.
Qed.

(** X15: a put command on a loaded image touches no other image.  When the
    image has a client id and already has a placement with the non-zero
    placement id of the command, that placement is rewritten where it is;
    otherwise one placement is added behind the others.  Placement ids that
    were distinct stay distinct. *)
Theorem put_places_once (env : Env) (g : Cmd.t) (img : option nat)
    (cell : CellPixelSize) (w : World) (i : nat) (image : Img.t) :
  put_target (grman w) g img = Some i ->
  GM.images (grman w) !! i = Some image ->
  Img.data_loaded image = true ->
  let w' := fst (handle_put_command env g img cell w) in
  let p := put_placement_id g image in
  exists image' : Img.t,
    GM.images (grman w') = <[i := image']> (GM.images (grman w))
    /\ placement_ids image'
       = (if bool_decide (p <> 0 /\ p ∈ placement_ids image)
          then placement_ids image else placement_ids image ++ [p])
    /\ (NoDup (List.filter nz (placement_ids image)) ->
        NoDup (List.filter nz (placement_ids image'))).
Proof.
  intros Htarget Himage Hloaded. cbv zeta.
  unfold handle_put_command. rewrite Htarget.
  unfold image_at. rewrite (image_at_lookup _ _ _ Himage), Hloaded. cbn [negb].
  set (found := if nz (Cmd.placement_id g) && nz (Img.client_id image)
                then fst <$> list_find (fun r => Ref.client_id r = Cmd.placement_id g)
                               (Img.refs image)
                else None).
  set (old := match found with
              | Some j => default Ref.zero (Img.refs image !! j)
              | None => Ref.zero
              end).
  set (c := cursor (upd_grman (GM.set_layers_dirty true) (set_is_dirty true w))).
  assert (Hid : Ref.client_id (place_ref g image c cell old)
                = put_placement_id g image).
  { rewrite place_ref_client_id. unfold put_placement_id.
    destruct (nz (Img.client_id image)) eqn:Hnamed; [reflexivity|].
    unfold old, found. rewrite ?Hnamed. by rewrite andb_false_r. }
  set (ref := place_ref g image c cell old) in *. clearbody ref. clear old c.
  set (refs := match found with
               | Some j => <[j := ref]> (Img.refs image)
               | None => Img.refs image ++ [ref]
               end).
  exists (Img.set_atime (monotonic_put env) (Img.set_refs refs image)).
  split.
  { cbn. rewrite list_insert_alter.
    apply list_eq. intros k. destruct (decide (k = i)) as [->|Hk].
    - by rewrite !list_lookup_alter_eq, Himage.
    - by rewrite !list_lookup_alter_ne. }
  assert (Hids : placement_ids (Img.set_atime (monotonic_put env) (Img.set_refs refs image))
                 = Ref.client_id <$> refs) by reflexivity.
  rewrite Hids. clear Hids. unfold placement_ids.
  set (p := put_placement_id g image) in *.
  destruct found as [j|] eqn:Hfound.
  - (* the placement is there already *)
    unfold found in Hfound.
    destruct (nz (Cmd.placement_id g)) eqn:Hplacement; [|discriminate].
    destruct (nz (Img.client_id image)) eqn:Hnamed; [|discriminate].
    cbn [andb] in Hfound.
    destruct (list_find _ _) as [[j' r]|] eqn:Hfind; [|discriminate].
    injection Hfound as ->.
    apply list_find_Some in Hfind as (Hr & Hrid & _).
    assert (Hp : p = Cmd.placement_id g)
      by (unfold p, put_placement_id; by rewrite Hnamed).
    assert (Hsame : Ref.client_id <$> refs = Ref.client_id <$> Img.refs image).
    { unfold refs. rewrite list_fmap_insert, Hid, Hp, <- Hrid.
      apply list_insert_id. by rewrite list_lookup_fmap, Hr. }
    rewrite Hsame. split; [|auto].
    rewrite bool_decide_true; [reflexivity|].
    split; [rewrite Hp; by apply nz_true|].
    rewrite Hp, <- Hrid. apply list_elem_of_fmap_2. eapply list_elem_of_lookup_2, Hr.
  - (* a new placement *)
    assert (Hnew : p <> 0 -> p ∉ Ref.client_id <$> Img.refs image).
    { intros Hp Hin. unfold found in Hfound. unfold p, put_placement_id in Hp, Hin.
      destruct (nz (Img.client_id image)); [|congruence].
      apply nz_true in Hp. rewrite Hp in Hfound. cbn [andb] in Hfound.
      destruct (list_find _ _) as [[j' r]|] eqn:Hfind; [discriminate|].
      apply list_find_None in Hfind. rewrite Forall_forall in Hfind.
      apply list_elem_of_fmap in Hin as (r & Hr & Hin).
      by apply (Hfind r Hin). }
    assert (Happended : Ref.client_id <$> refs
                        = (Ref.client_id <$> Img.refs image) ++ [p])
      by (unfold refs; by rewrite fmap_app, <- Hid).
    rewrite Happended. split.
    + rewrite bool_decide_false; [reflexivity|]. intros [Hp Hin]. by apply Hnew.
    + by apply NoDup_filter_app_new.
Qed.

Lemma put_places_once_witness :
  put_target (grman KeepScenario.placed) AgainScenario.put_again None = Some 0%nat
  /\ GM.images (grman KeepScenario.placed) !! 0%nat = Some AgainScenario.image
  /\ Img.data_loaded AgainScenario.image = true
  /\ (let w' := fst (handle_put_command (Scenario.env 200 0) AgainScenario.put_again None
                       Scenario.cell KeepScenario.placed) in
      let p := put_placement_id AgainScenario.put_again AgainScenario.image in
      exists image' : Img.t,
        GM.images (grman w') = <[0%nat := image']> (GM.images (grman KeepScenario.placed))
        /\ placement_ids image'
           = (if bool_decide (p <> 0 /\ p ∈ placement_ids AgainScenario.image)
              then placement_ids AgainScenario.image
              else placement_ids AgainScenario.image ++ [p])
        /\ (NoDup (List.filter nz (placement_ids AgainScenario.image)) ->
            NoDup (List.filter nz (placement_ids image')))).
Proof.
  assert (Htarget : put_target (grman KeepScenario.placed) AgainScenario.put_again None
                    = Some 0%nat) by (vm_compute; reflexivity).
  assert (Himage : GM.images (grman KeepScenario.placed) !! 0%nat
                   = Some AgainScenario.image) by (vm_compute; reflexivity).
  assert (Hloaded : Img.data_loaded AgainScenario.image = true)
    by (vm_compute; reflexivity).
  exact (conj Htarget (conj Himage (conj Hloaded
           (put_places_once (Scenario.env 200 0) AgainScenario.put_again None
              Scenario.cell KeepScenario.placed 0%nat AgainScenario.image
              Htarget Himage Hloaded)))).
Defined.

(** *** What scrolling does to the placements *)

Lemma modify_refs_of_refs (filter_func : Ref.t -> Img.t -> Ref.t * bool) (img0 : Img.t) :
  ignores_image filter_func ->
  forall (j : nat) (refs : list Ref.t),
    (j <= length refs)%nat ->
    modify_refs_of j filter_func (Img.set_refs refs img0)
    = Img.set_refs
        ((fst <$> List.filter (fun r => negb (snd r))
                    ((fun ref => filter_func ref img0) <$> take j refs))
         ++ drop j refs) img0.
Proof.
  intros Hignores. induction j as [|j IH]; intros refs Hj.
  - simpl. by rewrite drop_0.
  - destruct (lookup_lt_is_Some_2 refs j) as [ref Href]; [lia|].
    cbn [modify_refs_of]. cbn [Img.refs Img.set_refs]. rewrite Href. cbn [default].
    unfold id.
    rewrite (Hignores ref _ img0), (take_S_r _ _ _ Href), fmap_app, List.filter_app,
      fmap_app.
    cbn [fmap list_fmap List.filter].
    destruct (filter_func ref img0) as [ref' remove]. cbn [snd negb].
    destruct remove; cbn [negb].
    + change (Img.set_refs (delete j (<[j:=ref']> refs))
                (Img.set_refs (<[j:=ref']> refs) (Img.set_refs refs img0)))
        with (Img.set_refs (delete j (<[j:=ref']> refs)) img0).
      rewrite IH by (rewrite length_delete, length_insert
                       by (rewrite list_lookup_insert_eq by eauto using lookup_lt_Some;
                           eauto);
                     apply lookup_lt_Some in Href; lia).
      rewrite take_delete_here, drop_delete_here.
      rewrite take_insert_ge, drop_insert_lt by lia.
      cbn [fmap list_fmap]. by rewrite app_nil_r.
    + change (Img.set_refs (<[j:=ref']> refs) (Img.set_refs refs img0))
        with (Img.set_refs (<[j:=ref']> refs) img0).
      rewrite IH by (rewrite length_insert; lia).
      rewrite take_insert_ge by lia. cbn [fmap list_fmap fst].
      rewrite <- app_assoc. cbn [app]. do 2 f_equal.
      rewrite (drop_S (<[j:=ref']> refs) ref' j)
        by (apply list_lookup_insert_eq; eauto using lookup_lt_Some).
      by rewrite drop_insert_lt by lia.
Qed.

Lemma modify_refs_of_image (filter_func : Ref.t -> Img.t -> Ref.t * bool) (img : Img.t) :
  ignores_image filter_func ->
  modify_refs_of (length (Img.refs img)) filter_func img = modify_image filter_func img.
Proof.
  intros Hignores. rewrite <- (set_refs_same img) at 2.
  rewrite (modify_refs_of_refs filter_func img Hignores) by lia.
  by rewrite firstn_all, drop_all, app_nil_r.
Qed.

Lemma modify_refs_from_images (filter_func : Ref.t -> Img.t -> Ref.t * bool)
    (free_images : bool) :
  ignores_image filter_func ->
  forall (i : nat) (self : GM.t),
    (i <= length (GM.images self))%nat ->
    GM.images (modify_refs_from i free_images filter_func self)
    = modified_images filter_func free_images (take i (GM.images self))
      ++ drop i (GM.images self).
Proof.
  intros Hignores. induction i as [|i IH]; intros self Hi.
  - simpl. by rewrite drop_0.
  - destruct (lookup_lt_is_Some_2 (GM.images self) i) as [img Himg]; [lia|].
    cbn [modify_refs_from]. rewrite (image_at_lookup _ _ _ Himg).
    rewrite (modify_refs_of_image filter_func img Hignores).
    set (self1 := GM.upd_image i _ self).
    assert (Himages1 : GM.images self1
                       = alter (fun _ => modify_image filter_func img) i (GM.images self))
      by reflexivity.
    assert (Hhere : GM.images self1 !! i = Some (modify_image filter_func img))
      by (by rewrite Himages1, list_lookup_alter_eq, Himg).
    clearbody self1.
    unfold modified_images. rewrite (take_S_r _ _ _ Himg), map_app, List.filter_app.
    cbn [map List.filter].
    fold (modified_images filter_func free_images (take i (GM.images self))).
    unfold reap_image. rewrite (image_at_lookup _ _ _ Hhere).
    fold (reaped free_images (modify_image filter_func img)).
    destruct (reaped free_images (modify_image filter_func img)); cbn [negb].
    + rewrite IH by (rewrite remove_image_images, length_delete by eauto;
                     rewrite Himages1, length_alter; lia).
      rewrite remove_image_images, take_delete_here, drop_delete_here, Himages1.
      rewrite take_alter_ge, drop_alter_lt, app_nil_r by lia. reflexivity.
    + rewrite IH by (rewrite Himages1, length_alter; lia).
      rewrite Himages1, take_alter_ge by lia. rewrite <- app_assoc. cbn [app].
      f_equal.
      rewrite (drop_S _ (modify_image filter_func img) i)
        by (by rewrite list_lookup_alter_eq, Himg).
      by rewrite drop_alter_lt by lia.
Qed.

(** X16: [grman_scroll_images] rewrites every placement once with the
    scroll filter, drops the placements the filter rejects and then the
    images left without a placement; the images and the placements that
    stay keep their order. *)
Theorem scroll_visits_every_placement (self : GM.t) (data : ScrollData)
    (cell : CellPixelSize) :
  GM.images (grman_scroll_images self data cell)
  = modified_images (scroll_func data cell) true (GM.images self).
Proof.
  assert (Hignores : ignores_image (scroll_func data cell)).
  { intros ref img img'. unfold scroll_func. by destruct (has_margins data). }
  unfold grman_scroll_images, image_count.
  destruct (GM.images self) as [|img imgs] eqn:Himages.
  - cbn. by rewrite Himages.
  - change (nz _) with true. cbv iota. unfold modify_refs.
    fold (scroll_func data cell).
    rewrite (modify_refs_from_images _ true Hignores) by lia.
    cbn [GM.images GM.set_layers_dirty].
    by rewrite firstn_all, drop_all, app_nil_r, Himages.
Qed.

(** *** Commands the dispatcher rejects *)

(** X17: a command that carries both an image id and an image number is
    not carried out, whatever its action: the manager and the cursor stay as
    they are, and unless the quiet level is above 1 the answer is the EINVAL
    failure with the identity of the command. *)
Theorem both_identities_rejected (env : Env) (g : Cmd.t) (cell : CellPixelSize)
    (w : World) :
  Cmd.id g <> 0 -> Cmd.image_number g <> 0 ->
  let w' := fst (grman_handle_command env g cell w) in
  grman w' = grman w /\ cursor w' = cursor w /\ is_dirty w' = is_dirty w
  /\ snd (grman_handle_command env g cell w)
     = (if Cmd.quiet g >? 1 then None
        else Some (response_text (Cmd.id g) (Cmd.placement_id g) (Cmd.image_number g)
                     both_identities)).
Proof.
  intros Hid Hnumber. cbv zeta. unfold grman_handle_command.
  rewrite (proj2 (nz_true _) Hid), (proj2 (nz_true _) Hnumber). cbn [andb].
  set (w1 := set_command_failed_response _ _ _).
  assert (Hresponse : command_response w1 = both_identities)
    by (unfold w1; by rewrite set_command_failed_response_fits by (vm_compute; discriminate)).
  assert (Hsame : grman w1 = grman w /\ cursor w1 = cursor w /\ is_dirty w1 = is_dirty w)
    by done.
  clearbody w1.
  pose proof (finish_command_response_text g false (Cmd.id g) (Cmd.placement_id g)
                (Cmd.image_number g) w1) as Htext.
  rewrite Hresponse in Htext. specialize (Htext ltac:(vm_compute; discriminate)).
  cbv zeta in Htext. change (both_identities =? "")%string with false in Htext.
  rewrite (proj2 (nz_true _) Hid) in Htext. cbn [orb andb] in Htext.
  rewrite Htext.
  assert (Hquiet : nz (Cmd.quiet g) && (Cmd.quiet g >? 1) = (Cmd.quiet g >? 1)).
  { unfold nz. destruct (Z.gtb_spec (Cmd.quiet g) 1), (Z.eqb_spec (Cmd.quiet g) 0);
      cbn; try reflexivity; lia. }
  rewrite Hquiet.
  destruct Hsame as (Hgrman & Hcursor & Hdirty).
  unfold finish_command_response. rewrite Hresponse.
  change (both_identities =? "")%string with false. cbn [orb andb].
  rewrite Hquiet, (proj2 (nz_true _) Hid). cbn [orb].
  destruct (Cmd.quiet g >? 1); cbn [fst]; auto.
Qed.

Lemma both_identities_rejected_witness :
  Cmd.id (Scenario.transmit "T" 1 7 1 1 4) <> 0
  /\ Cmd.image_number (Scenario.transmit "T" 1 7 1 1 4) <> 0
  /\ (let w' := fst (grman_handle_command (Scenario.env 100 0)
                       (Scenario.transmit "T" 1 7 1 1 4) Scenario.cell
                       KeepScenario.placed) in
      grman w' = grman KeepScenario.placed /\ cursor w' = cursor KeepScenario.placed
      /\ is_dirty w' = is_dirty KeepScenario.placed
      /\ snd (grman_handle_command (Scenario.env 100 0)
                (Scenario.transmit "T" 1 7 1 1 4) Scenario.cell KeepScenario.placed)
         = (if Cmd.quiet (Scenario.transmit "T" 1 7 1 1 4) >? 1 then None
            else Some (response_text (Cmd.id (Scenario.transmit "T" 1 7 1 1 4))
                         (Cmd.placement_id (Scenario.transmit "T" 1 7 1 1 4))
                         (Cmd.image_number (Scenario.transmit "T" 1 7 1 1 4))
                         both_identities))).
Proof.
  assert (Hid : Cmd.id (Scenario.transmit "T" 1 7 1 1 4) <> 0) by (simpl; lia).
  assert (Hnumber : Cmd.image_number (Scenario.transmit "T" 1 7 1 1 4) <> 0)
    by (simpl; lia).
  exact (conj Hid (conj Hnumber
           (both_identities_rejected (Scenario.env 100 0)
              (Scenario.transmit "T" 1 7 1 1 4) Scenario.cell KeepScenario.placed
              Hid Hnumber))).
Defined.

(** *** The image a number names *)

Lemma img_by_client_number_from_spec (self : GM.t) (number : Z) (i : nat) :
  match img_by_client_number_from i self number with
  | Some k =>
      (k < i)%nat
      /\ Img.client_number (GM.image_at self k) = number
      /\ (forall j : nat, (k < j < i)%nat ->
            Img.client_number (GM.image_at self j) <> number)
  | None =>
      forall j : nat, (j < i)%nat -> Img.client_number (GM.image_at self j) <> number
  end.
Proof.
  induction i as [|i IH]; cbn [img_by_client_number_from]; [intros; lia|].
  destruct (Z.eqb_spec (Img.client_number (GM.image_at self i)) number) as [Heq|Hne].
  - split; [lia|]. split; [exact Heq | intros; lia].
  - destruct (img_by_client_number_from i self number) as [k|].
    + destruct IH as (Hk & Hnumber & Hnewer). split; [lia|]. split; [exact Hnumber|].
      intros j Hj. destruct (decide (j = i)) as [->|]; [exact Hne | apply Hnewer; lia].
    + intros j Hj. destruct (decide (j = i)) as [->|]; [exact Hne | apply IH; lia].
Qed.

(** X18: of the images with the number asked for, [img_by_client_number]
    finds the one in the last slot of the array, and it finds none only
    when no image has the number; a put command that names a number and no
    id is aimed at that image.  As long as the array is in the order of
    creation, it is the image created last. *)
Theorem number_names_last_slot (self : GM.t) (number : Z) :
  match img_by_client_number self number with
  | Some k =>
      (exists img : Img.t,
         GM.images self !! k = Some img /\ Img.client_number img = number)
      /\ (forall (j : nat) (img : Img.t),
            (k < j)%nat -> GM.images self !! j = Some img ->
            Img.client_number img <> number)
      /\ (in_creation_order (GM.images self) ->
          forall img : Img.t,
            img ∈ GM.images self -> Img.client_number img = number ->
            Img.internal_id img <= Img.internal_id (GM.image_at self k))
  | None => Forall (fun img => Img.client_number img <> number) (GM.images self)
  end
  /\ (forall g : Cmd.t,
        Cmd.id g = 0 -> Cmd.image_number g = number -> number <> 0 ->
        put_target self g None = img_by_client_number self number).
Proof.
  split.
  - unfold img_by_client_number.
    pose proof (img_by_client_number_from_spec self number (length (GM.images self)))
      as Hspec.
    destruct (img_by_client_number_from _ self number) as [k|].
    + destruct Hspec as (Hk & Hnumber & Hnewer).
      destruct (lookup_lt_is_Some_2 (GM.images self) k Hk) as [img Himg].
      rewrite (image_at_lookup _ _ _ Himg) in Hnumber.
      assert (Hlater : forall (j : nat) (img' : Img.t),
                (k < j)%nat -> GM.images self !! j = Some img' ->
                Img.client_number img' <> number).
      { intros j img' Hj Himg'.
        specialize (Hnewer j (conj Hj (lookup_lt_Some _ _ _ Himg'))).
        by rewrite (image_at_lookup _ _ _ Himg') in Hnewer. }
      split; [by exists img|]. split; [exact Hlater|].
      intros Hsorted img' Hin Hnumber'.
      rewrite (image_at_lookup _ _ _ Himg).
      apply list_elem_of_lookup_1 in Hin as [j Himg'].
      destruct (lt_eq_lt_dec j k) as [[Hjk| ->]|Hkj].
      * apply Z.lt_le_incl.
        apply (StronglySorted_take_drop
                 (fun a b => Img.internal_id a < Img.internal_id b)
                 (GM.images self) k img' img Hsorted).
        -- apply (list_elem_of_lookup_2 _ j). by rewrite lookup_take_lt.
        -- apply (list_elem_of_lookup_2 _ 0%nat). rewrite lookup_drop.
           by rewrite Nat.add_0_r.
      * rewrite Himg in Himg'. injection Himg' as <-. lia.
      * by destruct (Hlater j img' Hkj Himg').
    + rewrite Forall_lookup. intros j img Himg.
      specialize (Hspec j (lookup_lt_Some _ _ _ Himg)).
      by rewrite (image_at_lookup _ _ _ Himg) in Hspec.
  - intros g Hid Hnumber Hnz. unfold put_target.
    rewrite Hid, Hnumber, (proj2 (nz_true _) Hnz). reflexivity.
Qed.

(** *** What the quota and a query leave *)

Lemma apply_storage_quota_elem_of (self : GM.t) (storage_limit added : Z) (img : Img.t) :
  img ∈ GM.images (apply_storage_quota self storage_limit added) ->
  img ∈ GM.images self /\ spared trim_predicate added img = true.
Proof.
  intros Hin.
  assert (Htrimmed : img ∈ GM.images (remove_images self trim_predicate added)).
  { destruct (apply_storage_quota_images self storage_limit added) as [Heq|[k Hk]].
    - by rewrite <- Heq.
    - rewrite Hk in Hin. apply elem_of_take in Hin as (j & Hj & _).
      apply list_elem_of_lookup_2 in Hj. by rewrite qsort_Permutation in Hj. }
  rewrite remove_images_images in Htrimmed.
  apply list_elem_of_In, List.filter_In in Htrimmed as [Hin' Hspared].
  split; [by apply list_elem_of_In | exact Hspared].
Qed.

Lemma not_trimmed_displayed (img : Img.t) : trim_predicate img = false -> displayed img.
Proof.
  unfold trim_predicate, displayed, refcnt. intros Hkept.
  apply orb_false_iff in Hkept as [Hloaded Hrefs].
  apply negb_false_iff in Hloaded, Hrefs. apply nz_true in Hrefs.
  split; [exact Hloaded|]. intros Hnil. by rewrite Hnil in Hrefs.
Qed.

Lemma not_add_trimmed_in_use (img : Img.t) : add_trim_predicate img = false -> in_use img.
Proof.
  unfold add_trim_predicate, in_use, refcnt. intros Hkept.
  apply orb_false_iff in Hkept as [Hloaded Hnamed].
  apply negb_false_iff in Hloaded. split; [exact Hloaded|].
  apply andb_false_iff in Hnamed as [Hid|Hrefs].
  - left. by apply nz_true, negb_false_iff.
  - right. apply negb_false_iff, nz_true in Hrefs. intros Hnil. by rewrite Hnil in Hrefs.
Qed.

Lemma spared_cases (predicate : Img.t -> bool) (skip : Z) (img : Img.t) :
  spared predicate skip img = true ->
  Img.internal_id img = skip \/ predicate img = false.
Proof.
  unfold spared. intros Hspared. apply negb_true_iff, andb_false_iff in Hspared.
  destruct Hspared as [Hskip|Hkept]; [left | by right].
  by apply negb_false_iff, Z.eqb_eq in Hskip.
Qed.

(** X19: [apply_storage_quota] only removes images: what remains was there
    before and is as it was.  It first lets go of every image that is not
    displayed, with or without a client id, so that apart from the image
    just added only displayed images remain. *)
Theorem quota_keeps_displayed_images (self : GM.t) (storage_limit added : Z) :
  Forall (fun img =>
            img ∈ GM.images self
            /\ (Img.internal_id img = added \/ displayed img))
    (GM.images (apply_storage_quota self storage_limit added)).
Proof.
  rewrite Forall_forall. intros img Hin.
  apply apply_storage_quota_elem_of in Hin as [Hin Hspared]. split; [exact Hin|].
  destruct (spared_cases _ _ _ Hspared) as [Hadded|Hkept]; [by left | right].
  by apply not_trimmed_displayed.
Qed.

(** X20: after a query command the manager holds no image without data
    and no image that has neither a client id nor a placement; only an
    image with the internal id 0 is spared. *)
Theorem query_leaves_images_in_use (env : Env) (g : Cmd.t) (cell : CellPixelSize)
    (w : World) :
  Cmd.action g = "q"%char -> Cmd.id g <> 0 -> Cmd.image_number g = 0 ->
  Forall (fun img => Img.internal_id img = 0 \/ in_use img)
    (GM.images (grman (fst (grman_handle_command env g cell w)))).
Proof.
  intros Haction Hid Hnumber. unfold grman_handle_command.
  rewrite Hnumber, Haction, andb_false_r. cbn [negb orb one_of Ascii.eqb Bool.eqb nzc].
  unfold handle_add_action. rewrite Haction.
  change ("q" =? "q")%char with true. cbv iota.
  rewrite (proj2 (nz_true _) Hid). cbn [negb andb].
  destruct (handle_add_command env g 0 _) as [w1 image].
  destruct (finish_command_response g _ (Cmd.id g) 0 0 w1) as [w2 ret].
  match goal with
  | |- context [upd_grman (fun self => remove_images self add_trim_predicate 0) ?w3] =>
      generalize w3
  end.
  intros w3.
  assert (Htrimmed : Forall (fun img => Img.internal_id img = 0 \/ in_use img)
                       (GM.images (remove_images (grman w3) add_trim_predicate 0))).
  { rewrite remove_images_images, Forall_forall. intros img Hin.
    apply list_elem_of_In, List.filter_In in Hin as [_ Hspared].
    destruct (spared_cases _ _ _ Hspared) as [Hzero|Hkept]; [by left | right].
    by apply not_add_trimmed_in_use. }
  cbn [fst].
  match goal with |- context [if ?c then _ else _] => destruct c end;
    cbn [grman upd_grman]; [|exact Htrimmed].
  rewrite Forall_forall in Htrimmed. rewrite Forall_forall. intros img Hin.
  apply apply_storage_quota_elem_of in Hin as [Hin _]. by apply Htrimmed.
Qed.

(** *** A new cell size *)



Lemma query_leaves_images_in_use_witness :
  Cmd.action QueryScenario.query = "q"%char
  /\ Cmd.id QueryScenario.query <> 0
  /\ Cmd.image_number QueryScenario.query = 0
  /\ Forall (fun img => Img.internal_id img = 0 \/ in_use img)
       (GM.images (grman (fst (grman_handle_command (Scenario.env 200 0)
                                 QueryScenario.query Scenario.cell
                                 KeepScenario.placed)))).
Proof.
  assert (Haction : Cmd.action QueryScenario.query = "q"%char) by reflexivity.
  assert (Hid : Cmd.id QueryScenario.query <> 0) by (simpl; lia).
  assert (Hnumber : Cmd.image_number QueryScenario.query = 0) by reflexivity.
  exact (conj Haction (conj Hid (conj Hnumber
           (query_leaves_images_in_use (Scenario.env 200 0) QueryScenario.query
              Scenario.cell KeepScenario.placed Haction Hid Hnumber)))).
Defined.

(** *** The image an add command returns *)

Lemma flow_bind_Next {A B : Type} (m : flow A) (k : World -> A -> flow B)
    (w : World) (b : B) :
  flow_bind m k = Next w b ->
  exists (w1 : World) (a : A), m = Next w1 a /\ k w1 a = Next w b.
Proof. destruct m as [w1 ret|w1 a]; [discriminate|]. intros Hk. by exists w1, a. Qed.

Lemma flow_ok_Next {A : Type} (m : flow A) (Q : World -> A -> Prop) (w : World) (a : A) :
  flow_ok m Q -> m = Next w a -> Q w a.
Proof. by intros Hok ->. Qed.

Lemma loaded_in_range (w : World) (i : nat) :
  Img.data_loaded (image_at w i) = true -> (i < length (GM.images (grman w)))%nat.
Proof.
  intros Hloaded. destruct (decide (i < length (GM.images (grman w)))%nat) as [|Hout];
    [assumption|].
  unfold image_at, GM.image_at in Hloaded.
  rewrite lookup_ge_None_2 in Hloaded by lia. discriminate.
Qed.

Lemma add_process_received (env : Env) (g : Cmd.t) (fmt : Z) (i : nat) (w : World) :
  received w i -> flow_ok (add_process env g fmt i w) (fun w' _ => received w' i).
Proof.
  intros (Hi & Hloaded & Hidle). unfold add_process, inflate_zlib, inflate_png.
  destruct (png env); split_conditions; cbn [flow_bind]; split_conditions;
    try apply flow_ok_ABRT; try reflexivity; unfold flow_ok, received;
    (split; [count_images; exact Hi|]); read_world Hi; (split; [exact Hloaded|]);
    exact Hidle.
Qed.

Lemma add_raw_received (tt : ascii) (i : nat) (w : World) :
  received w i -> flow_ok (add_raw tt i w) (fun w' _ => received w' i).
Proof.
  intros (Hi & Hloaded & Hidle). unfold add_raw.
  split_conditions; try apply flow_ok_ABRT; unfold flow_ok, received;
    (split; [count_images; exact Hi|]); read_world Hi; (split; [exact Hloaded|]);
    exact Hidle.
Qed.

Lemma add_upload_added (env : Env) (i : nat) (w : World) :
  received w i -> flow_ok (add_upload env i w) (fun w' j => j = i /\ added env w' i).
Proof.
  intros (Hi & Hloaded & Hidle). unfold add_upload. rewrite Hloaded. cbn [andb].
  destruct (negb _) eqn:Hsize; [apply flow_ok_ABRT|].
  apply negb_false_iff, Z.eqb_eq in Hsize.
  destruct (send_to_gpu w) eqn:Hgpu; unfold flow_ok, added; cbv zeta;
    (split; [reflexivity|]).
  - destruct (lookup_lt_is_Some_2 _ _ Hi) as [img Himg].
    unfold image_at in *. rewrite (image_at_lookup _ _ _ Himg) in *.
    unfold GM.image_at. cbn. rewrite length_alter, list_lookup_alter_eq, Himg. cbn.
    unfold bytes_per_pixel. cbn. repeat split; try assumption. by symmetry.
  - split; [exact Hi|]. split; [exact Hloaded|]. split; [exact Hidle|].
    split; [exact Hsize|]. intros Hon. congruence.
Qed.

Lemma add_finish_added (env : Env) (g : Cmd.t) (tt : ascii) (fmt : Z) (i : nat)
    (w : World) :
  flow_ok (add_finish env g tt fmt i w) (fun w' j => j = i /\ added env w' i).
Proof.
  unfold add_finish. destruct (Img.data_loaded (image_at w i)) eqn:Hloaded;
    cbn [negb]; [|reflexivity].
  pose proof (loaded_in_range w i Hloaded) as Hi.
  assert (Hreceived : received (upd_grman (GM.set_loading_image 0) w) i).
  { split; [count_images; exact Hi|]. read_world Hi. by split. }
  eapply flow_ok_bind with (Q := fun w' _ => received w' i).
  - destruct (_ || _); [by apply add_process_received | by apply add_raw_received].
  - intros w1 u Hreceived1. by apply add_upload_added.
Qed.

(** Whenever [handle_add_command] leaves early, it returns NULL. *)
Lemma add_init_returns_null (env : Env) (g : Cmd.t) (iid : Z) (tt : ascii) (fmt : Z)
    (w : World) :
  flow_ok (add_init env g iid tt fmt w) (fun _ _ => True).
Proof.
  unfold add_init. destruct (_ || _); [apply flow_ok_ABRT|].
  destruct (find_or_create_image _ iid) as [[self i] existing].
  eapply flow_ok_bind with (Q := fun _ _ => True).
  - unfold add_init_format. split_conditions; try apply flow_ok_ABRT; exact I.
  - intros w1 u _. destruct (tt =? "d")%char; [|exact I].
    unfold add_init_direct. destruct (negb _); [apply flow_ok_ABRT | exact I].
Qed.

Lemma add_transmit_returns_null (env : Env) (g : Cmd.t) (tt : ascii) (fmt : Z)
    (i : nat) (w : World) :
  flow_ok (add_transmit env g tt fmt i w) (fun _ _ => True).
Proof.
  unfold add_transmit, add_direct, add_file.
  split_conditions; try apply flow_ok_ABRT; cbn [flow_bind]; try exact I.
  destruct (mmap_img_file _ _ _ _ _ _). exact I.
Qed.

(** X21: the image [handle_add_command] returns is loaded and no
    transmission is left pending; the size of its data is that of its
    dimensions, three bytes a pixel when it is opaque and four otherwise;
    and when images are sent to the GPU it is charged that size, has its
    texture, and its load buffers are freed. *)
Theorem added_image_is_complete (env : Env) (g : Cmd.t) (iid : Z) (w w' : World)
    (i : nat) :
  handle_add_command env g iid w = (w', Some i) -> added env w' i.
Proof.
  unfold handle_add_command.
  set (started := if negb _ then _ else _).
  assert (Hstarted : flow_ok started (fun _ _ => True)).
  { unfold started. destruct (negb _).
    - eapply flow_ok_bind; [apply add_init_returns_null|]. intros; exact I.
    - unfold add_continue. destruct (img_by_internal_id _ _);
        [exact I | apply flow_ok_ABRT]. }
  clearbody started.
  match goal with
  | |- (match ?m with _ => _ end) = _ -> _ =>
      assert (Hflow : flow_ok m (fun w1 j => j = i -> added env w1 i));
      [|destruct m as [w1 ret|w1 j]; unfold flow_ok in Hflow;
        [intros [= <- ->]; discriminate | intros [= <- ->]; by apply Hflow]]
  end.
  eapply flow_ok_bind; [exact Hstarted|].
  intros w1 [g1 i1] _.
  eapply flow_ok_bind; [apply add_transmit_returns_null|].
  intros w2 u _. eapply flow_ok_weaken; [apply add_finish_added|].
  intros w3 j [-> Hadded] ->. exact Hadded.
Qed.

Lemma added_image_is_complete_witness :
  handle_add_command (Scenario.env 100 0) AddScenario.one_pixel 1 Scenario.start
  = (AddScenario.after, Some 0%nat)
  /\ added (Scenario.env 100 0) AddScenario.after 0.
Proof.
  assert (Hadded : handle_add_command (Scenario.env 100 0) AddScenario.one_pixel 1
                     Scenario.start
                   = (AddScenario.after, Some 0%nat)) by (vm_compute; reflexivity).
  exact (conj Hadded
           (added_image_is_complete (Scenario.env 100 0) AddScenario.one_pixel 1
              Scenario.start AddScenario.after 0 Hadded)).
Defined.

(** *** An add command that fails *)

Lemma flow_post_bind {A B : Type} (m : flow A) (k : World -> A -> flow B)
    (R : World -> Prop) (Q : World -> A -> Prop) (Q' : World -> B -> Prop) :
  flow_post m R Q -> (forall w a, Q w a -> flow_post (k w a) R Q') ->
  flow_post (flow_bind m k) R Q'.
Proof. destruct m as [w ret|w a]; simpl; auto. Qed.

Lemma flow_post_weaken {A : Type} (m : flow A) (R : World -> Prop)
    (Q Q' : World -> A -> Prop) :
  flow_post m R Q -> (forall w a, Q w a -> Q' w a) -> flow_post m R Q'.
Proof. destruct m; simpl; auto. Qed.

Lemma flow_post_ABRT {A : Type} (code msg : string) (img : option nat) (w : World)
    (r : string) (Q : World -> A -> Prop) :
  flow_post (ABRT code msg img w) (quiet_or_idle r) Q.
Proof. unfold ABRT. destruct img; (split; [reflexivity | by right]). Qed.

Lemma add_init_quiet (env : Env) (g : Cmd.t) (iid : Z) (tt : ascii) (fmt : Z)
    (w : World) :
  flow_post (add_init env g iid tt fmt w) (quiet_or_idle (command_response w))
    (fun w1 _ =>
       command_response w1 = command_response w
       /\ (tt <> "d"%char -> GM.loading_image (grman w1) = 0)).
Proof.
  unfold add_init. destruct (_ || _); [apply flow_post_ABRT|].
  set (trimmed := upd_grman (fun s => remove_images s add_trim_predicate 0) _).
  assert (Htrimmed : command_response trimmed = command_response w) by reflexivity.
  assert (Hidle0 : GM.loading_image (grman trimmed) = 0).
  { unfold trimmed. cbn [grman upd_grman].
    by rewrite (proj1 (remove_images_same_transmission _ _ _)). }
  clearbody trimmed.
  destruct (find_or_create_image _ iid) as [[self i] existing] eqn:Hfind.
  assert (Hself : GM.loading_image self = 0).
  { unfold find_or_create_image in Hfind.
    destruct (if nz iid then _ else _); injection Hfind as <- _ _; exact Hidle0. }
  clear Hfind.
  match goal with
  | |- flow_post (flow_bind (add_init_format g fmt i ?w0) _) _ _ =>
      assert (Hresponse : command_response w0 = command_response w)
        by (destruct existing; [exact Htrimmed|]; cbv zeta;
            destruct (_ && _); exact Htrimmed);
      assert (Hidle : GM.loading_image (grman w0) = 0)
        by (destruct existing; [exact Hself|]; cbv zeta;
            destruct (_ && _); exact Hself);
      generalize dependent w0
  end.
  intros w0 Hresponse Hidle.
  eapply flow_post_bind with
    (Q := fun w1 _ => command_response w1 = command_response w
                      /\ GM.loading_image (grman w1) = 0).
  - unfold add_init_format. split_conditions; try apply flow_post_ABRT;
      by split.
  - intros w1 u [Hresponse1 Hidle1]. destruct (Ascii.eqb_spec tt "d") as [->|Htt].
    + unfold add_init_direct. destruct (negb _); [apply flow_post_ABRT|].
      split; [|done]. by destruct (nz (Cmd.more g)).
    + by split.
Qed.

Lemma add_continue_quiet (g : Cmd.t) (w : World) :
  saved_command_ok (grman w) -> GM.loading_image (grman w) <> 0 ->
  flow_post (add_continue g w) (quiet_or_idle (command_response w))
    (fun w1 '(g1, _) =>
       command_response w1 = command_response w
       /\ effective_transmission_type g1 = "d"%char).
Proof.
  intros [_ Hsaved] Hbusy. unfold add_continue.
  destruct (img_by_internal_id _ _); [|apply flow_post_ABRT].
  split; [reflexivity|]. cbn. exact (Hsaved Hbusy).
Qed.

Lemma data_loaded_set_false (w : World) (i : nat) :
  Img.data_loaded (image_at (upd_image i (Img.set_data_loaded false) w) i) = false.
Proof.
  destruct (decide (i < length (GM.images (grman w)))%nat) as [Hi|Hout].
  - by rewrite image_at_upd_image.
  - unfold image_at, GM.image_at, upd_image. cbn.
    rewrite list_lookup_alter_eq, lookup_ge_None_2 by lia. reflexivity.
Qed.

Lemma add_transmit_quiet (env : Env) (g : Cmd.t) (tt : ascii) (fmt : Z) (i : nat)
    (w : World) (r : string) :
  command_response w = r ->
  (tt <> "d"%char -> GM.loading_image (grman w) = 0) ->
  flow_post (add_transmit env g tt fmt i w) (quiet_or_idle r)
    (fun w1 _ => quiet_or_unloaded r i w1).
Proof.
  intros Hresponse Hidle. unfold add_transmit.
  destruct (Ascii.eqb_spec tt "d") as [->|Htt].
  - unfold add_direct.
    split_conditions; try apply flow_post_ABRT; cbn [flow_bind flow_post]; by left.
  - specialize (Hidle Htt). destruct (_ || _); [|apply flow_post_ABRT].
    unfold add_file. destruct (_ >? _); [apply flow_post_ABRT|].
    destruct (_ =? _); [apply flow_post_ABRT|].
    unfold mmap_img_file.
    split_conditions; cbn [flow_post]; try (by left);
      right; (split; [apply data_loaded_set_false | exact Hidle]).
Qed.

Lemma add_finish_quiet (env : Env) (g : Cmd.t) (tt : ascii) (fmt : Z) (i : nat)
    (w : World) (r : string) :
  quiet_or_unloaded r i w ->
  flow_post (add_finish env g tt fmt i w) (quiet_or_idle r)
    (fun w1 _ => command_response w1 = r).
Proof.
  intros Hquiet. unfold add_finish.
  destruct (Img.data_loaded (image_at w i)) eqn:Hloaded; cbn [negb].
  2:{ split; [reflexivity|]. destruct Hquiet as [Hr|[_ Hidle]]; [by left | by right]. }
  destruct Hquiet as [Hresponse|[Hunloaded _]]; [|congruence].
  set (w0 := upd_grman (GM.set_loading_image 0) w).
  assert (Hresponse0 : command_response w0 = r) by exact Hresponse.
  assert (Hidle0 : GM.loading_image (grman w0) = 0) by reflexivity.
  clearbody w0.
  eapply flow_post_bind with (Q := fun w1 _ => command_response w1 = r).
  - destruct (_ || _).
    + unfold add_process, inflate_zlib, inflate_png.
      destruct (png env); split_conditions; cbn [flow_bind]; split_conditions;
        try apply flow_post_ABRT; cbn [flow_post]; try exact Hresponse0;
        (split; [reflexivity | right; exact Hidle0]).
    + unfold add_raw. split_conditions; try apply flow_post_ABRT; exact Hresponse0.
  - intros w1 u Hresponse1. unfold add_upload.
    split_conditions; try apply flow_post_ABRT; exact Hresponse1.
Qed.

(** X22: in a world the terminal can reach, an add command that sets a
    failure response returns no image and leaves no transmission pending:
    the chunks that follow are not taken for the rest of the failed image. *)
Theorem failed_add_forgets_transmission (env : Env) (g : Cmd.t) (iid : Z)
    (w w' : World) (ret : option nat) :
  reachable w ->
  handle_add_command env g iid w = (w', ret) ->
  command_response w' <> command_response w ->
  ret = None /\ GM.loading_image (grman w') = 0.
Proof.
  intros Hreachable.
  destruct (reachable_invariant w Hreachable) as [(_ & _ & _ & _ & _ & Hsaved) _].
  unfold handle_add_command.
  match goal with
  | |- (match ?m with _ => _ end) = _ -> _ =>
      assert (Hflow : flow_post m (quiet_or_idle (command_response w))
                        (fun w1 _ => command_response w1 = command_response w));
      [|destruct m as [w1 ret1|w1 j]; unfold flow_post in Hflow;
        intros [= <- <-] Hchanged;
        [destruct Hflow as [-> [Hsame|Hidle]]; [contradiction | by split]
        |contradiction]]
  end.
  eapply flow_post_bind with
    (Q := fun w1 '(g1, _) =>
            command_response w1 = command_response w
            /\ (effective_transmission_type g1 <> "d"%char ->
                GM.loading_image (grman w1) = 0)).
  - destruct (negb _) eqn:Hinit.
    + eapply flow_post_bind; [apply add_init_quiet|].
      intros w1 i1 [Hresponse Hidle]. by split.
    + apply negb_false_iff, andb_prop in Hinit as [_ Hbusy].
      eapply flow_post_weaken.
      * apply add_continue_quiet; [exact Hsaved|]. by apply nz_true.
      * intros w1 [g1 i1] [Hresponse Htt]. split; [exact Hresponse|].
        intros Hother. contradiction.
  - intros w1 [g1 i1] [Hresponse Hidle].
    eapply flow_post_bind; [by apply add_transmit_quiet|].
    intros w2 u Hquiet. by apply add_finish_quiet.
Qed.

Lemma failed_add_forgets_transmission_witness :
  reachable Scenario.start
  /\ handle_add_command (Scenario.env 100 0) FailScenario.short 1 Scenario.start
     = (FailScenario.after, None)
  /\ command_response FailScenario.after <> command_response Scenario.start
  /\ @None nat = None
  /\ GM.loading_image (grman FailScenario.after) = 0.
Proof.
  assert (Hreachable : reachable Scenario.start)
    by (apply reachable_start; reflexivity).
  assert (Hfailed : handle_add_command (Scenario.env 100 0) FailScenario.short 1
                      Scenario.start
                    = (FailScenario.after, None)) by (vm_compute; reflexivity).
  assert (Hresponse : command_response FailScenario.after
                      <> command_response Scenario.start)
    by (vm_compute; discriminate).
  exact (conj Hreachable (conj Hfailed (conj Hresponse
           (failed_add_forgets_transmission (Scenario.env 100 0) FailScenario.short 1
              Scenario.start FailScenario.after None
              Hreachable Hfailed Hresponse)))).
Defined.

(** *** Where a put command places *)

Lemma place_ref_position (g : Cmd.t) (img : Img.t) (c : Cursor) (cell : CellPixelSize)
    (old : Ref.t) :
  Ref.start_row (place_ref g img c cell old) = i32 (cy c)
  /\ Ref.start_column (place_ref g img c cell old) = i32 (cx c)
  /\ Ref.z_index (place_ref g img c cell old) = Cmd.z_index g.
Proof. unfold place_ref. by destruct (nz (Img.client_id img)). Qed.

(** X23: a put command on a loaded image writes a placement of that image
    at the cell of the cursor, with the z-index of the command, and moves
    the cursor past it: right by its columns and down by its rows less one.
    The image is stamped with the time of the put and the screen is marked
    dirty. *)
Theorem put_places_at_cursor (env : Env) (g : Cmd.t) (img : option nat)
    (cell : CellPixelSize) (w : World) (i : nat) (image : Img.t) :
  put_target (grman w) g img = Some i ->
  GM.images (grman w) !! i = Some image ->
  Img.data_loaded image = true ->
  let w' := fst (handle_put_command env g img cell w) in
  exists ref : Ref.t,
    ref ∈ Img.refs (image_at w' i)
    /\ Ref.start_row ref = i32 (cy (cursor w))
    /\ Ref.start_column ref = i32 (cx (cursor w))
    /\ Ref.z_index ref = Cmd.z_index g
    /\ cursor w'
       = {| cx := u32 (cx (cursor w) + Ref.effective_num_cols ref);
            cy := u32 (cy (cursor w) + u32 (Ref.effective_num_rows ref - 1)) |}
    /\ Img.atime (image_at w' i) = monotonic_put env
    /\ is_dirty w' = true
    /\ GM.layers_dirty (grman w') = true.
Proof.
  intros Htarget Himage Hloaded. cbv zeta.
  unfold handle_put_command. rewrite Htarget.
  unfold image_at. rewrite (image_at_lookup _ _ _ Himage), Hloaded. cbn [negb].
  set (found := if nz (Cmd.placement_id g) && nz (Img.client_id image)
                then fst <$> list_find (fun r => Ref.client_id r = Cmd.placement_id g)
                               (Img.refs image)
                else None).
  set (old := match found with
              | Some j => default Ref.zero (Img.refs image !! j)
              | None => Ref.zero
              end).
  change (cursor (upd_grman (GM.set_layers_dirty true) (set_is_dirty true w)))
    with (cursor w).
  destruct (place_ref_position g image (cursor w) cell old) as (Hrow & Hcolumn & Hz).
  set (ref := place_ref g image (cursor w) cell old) in *. clearbody ref. clear old.
  set (refs := match found with
               | Some j => <[j := ref]> (Img.refs image)
               | None => Img.refs image ++ [ref]
               end).
  assert (Hin : ref ∈ refs).
  { unfold refs. destruct found as [j|] eqn:Hfound.
    - unfold found in Hfound. destruct (_ && _); [|discriminate].
      destruct (list_find _ _) as [[j' r]|] eqn:Hfind; [|discriminate].
      injection Hfound as ->. apply list_find_Some in Hfind as (Hr & _).
      eapply list_elem_of_lookup_2, list_lookup_insert_eq, lookup_lt_Some, Hr.
    - apply elem_of_app. right. apply list_elem_of_singleton. reflexivity. }
  clearbody refs. exists ref. cbn.
  unfold GM.image_at. cbn. rewrite list_lookup_alter_eq, Himage. cbn.
  by repeat split.
Qed.

Lemma put_places_at_cursor_witness :
  put_target (grman KeepScenario.placed) AgainScenario.put_again None = Some 0%nat
  /\ GM.images (grman KeepScenario.placed) !! 0%nat = Some AgainScenario.image
  /\ Img.data_loaded AgainScenario.image = true
  /\ (let w' := fst (handle_put_command (Scenario.env 200 0) AgainScenario.put_again None
                       Scenario.cell KeepScenario.placed) in
      exists ref : Ref.t,
        ref ∈ Img.refs (image_at w' 0)
        /\ Ref.start_row ref = i32 (cy (cursor KeepScenario.placed))
        /\ Ref.start_column ref = i32 (cx (cursor KeepScenario.placed))
        /\ Ref.z_index ref = Cmd.z_index AgainScenario.put_again
        /\ cursor w'
           = {| cx := u32 (cx (cursor KeepScenario.placed)
                           + Ref.effective_num_cols ref);
                cy := u32 (cy (cursor KeepScenario.placed)
                           + u32 (Ref.effective_num_rows ref - 1)) |}
        /\ Img.atime (image_at w' 0) = monotonic_put (Scenario.env 200 0)
        /\ is_dirty w' = true
        /\ GM.layers_dirty (grman w') = true).
Proof.
  assert (Htarget : put_target (grman KeepScenario.placed) AgainScenario.put_again None
                    = Some 0%nat) by (vm_compute; reflexivity).
  assert (Himage : GM.images (grman KeepScenario.placed) !! 0%nat
                   = Some AgainScenario.image) by (vm_compute; reflexivity).
  assert (Hloaded : Img.data_loaded AgainScenario.image = true)
    by (vm_compute; reflexivity).
  exact (conj Htarget (conj Himage (conj Hloaded
           (put_places_at_cursor (Scenario.env 200 0) AgainScenario.put_again None
              Scenario.cell KeepScenario.placed 0%nat AgainScenario.image
              Htarget Himage Hloaded)))).
Defined.

(** *** A transmission in chunks *)

(** X25: in a world the terminal can reach, while [loading_image] names
    an image, that image is waiting for its data: it is not loaded and has
    its load buffer, and the command saved from the first chunk is a direct
    transmission. *)
Theorem pending_image_awaits_data (w : World) (img : Img.t) :
  reachable w ->
  GM.loading_image (grman w) <> 0 ->
  img ∈ GM.images (grman w) ->
  Img.internal_id img = GM.loading_image (grman w) ->
  Img.data_loaded img = false
  /\ LD.buf (Img.load_data img) = true
  /\ effective_transmission_type (GM.last_init_graphics_command (grman w)) = "d"%char.
Proof.
  intros Hreachable Hbusy Hin Hid.
  destruct (reachable_invariant w Hreachable)
    as [(_ & _ & _ & _ & Hloading & _ & Hsaved) _].
  destruct (Hloading Hbusy img Hin Hid) as [Hunloaded Hbuf].
  split; [exact Hunloaded|]. split; [exact Hbuf | exact (Hsaved Hbusy)].
Qed.

Lemma pending_image_awaits_data_witness :
  reachable ChunkScenario.loading
  /\ GM.loading_image (grman ChunkScenario.loading) <> 0
  /\ image_at ChunkScenario.loading 0 ∈ GM.images (grman ChunkScenario.loading)
  /\ Img.internal_id (image_at ChunkScenario.loading 0)
     = GM.loading_image (grman ChunkScenario.loading)
  /\ Img.data_loaded (image_at ChunkScenario.loading 0) = false
  /\ LD.buf (Img.load_data (image_at ChunkScenario.loading 0)) = true
  /\ effective_transmission_type
       (GM.last_init_graphics_command (grman ChunkScenario.loading)) = "d"%char.
Proof.
  assert (Hbusy : GM.loading_image (grman ChunkScenario.loading) <> 0)
    by (vm_compute; discriminate).
  assert (Hin : image_at ChunkScenario.loading 0
                ∈ GM.images (grman ChunkScenario.loading)).
  { apply (list_elem_of_lookup_2 _ 0%nat). vm_compute. reflexivity. }
  assert (Hid : Img.internal_id (image_at ChunkScenario.loading 0)
                = GM.loading_image (grman ChunkScenario.loading))
    by (vm_compute; reflexivity).
  exact (conj reachable_loading (conj Hbusy (conj Hin (conj Hid
           (pending_image_awaits_data ChunkScenario.loading
              (image_at ChunkScenario.loading 0)
              reachable_loading Hbusy Hin Hid))))).
Defined.

(** *** Looking an image up by its client id *)

(** X26: [image_for_client_id] answers with the first image that has the
    client id and then leaves the manager as it is; but when the id is 0 or
    no image has it, the lookup answers [None] and leaves one more image in
    the manager, all of whose fields are zero. *)
Theorem lookup_by_client_id_adds_image (self : GM.t) (id : Z) :
  match pyimage_for_client_id self id with
  | (self', Some img) =>
      self' = self /\ u32 id <> 0
      /\ exists i : nat,
           GM.images self !! i = Some img /\ Img.client_id img = u32 id
           /\ forall (j : nat) (img' : Img.t),
                (j < i)%nat -> GM.images self !! j = Some img' ->
                Img.client_id img' <> u32 id
  | (self', None) =>
      (u32 id = 0 \/ Forall (fun img => Img.client_id img <> u32 id) (GM.images self))
      /\ GM.images self' = GM.images self ++ [Img.zero]
      /\ GM.used_storage self' = GM.used_storage self
      /\ GM.loading_image self' = GM.loading_image self
  end.
Proof.
  unfold pyimage_for_client_id, find_or_create_image.
  destruct (nz (u32 id)) eqn:Hnz.
  - apply nz_true in Hnz. unfold img_by_client_id.
    destruct (list_find _ _) as [[i img]|] eqn:Hfind; cbn [fmap option_fmap option_map].
    + apply list_find_Some in Hfind as (Himg & Hid & Hfirst).
      cbn [fst]. rewrite (image_at_lookup _ _ _ Himg).
      split; [reflexivity|]. split; [exact Hnz|].
      exists i. split; [exact Himg|]. split; [exact Hid|].
      intros j img' Hj Himg'. by apply (Hfirst j img').
    + apply list_find_None in Hfind. split; [by right|]. by repeat split.
  - assert (Hzero : u32 id = 0).
    { unfold nz in Hnz. by apply negb_false_iff, Z.eqb_eq in Hnz. }
    split; [by left|]. by repeat split.
Qed.

(** ** The response of a command *)











(** ** The quota after an add *)

Lemma finish_command_response_world (g : Cmd.t) (data_loaded : bool)
    (iid placement_id image_number : Z) (w : World) :
  exists s : string,
    fst (finish_command_response g data_loaded iid placement_id image_number w)
    = set_command_response s w.
Proof.
  assert (Hsame : w = set_command_response (command_response w) w) by (by destruct w).
  unfold finish_command_response.
  repeat match goal with |- context [if ?c then _ else _] => destruct c end;
    cbn [fst]; eauto.
Qed.

Lemma handle_put_command_any_response (env : Env) (g : Cmd.t) (img : option nat)
    (cell : CellPixelSize) (w : World) (s : string) :
  grman (fst (handle_put_command env g img cell (set_command_response s w)))
  = grman (fst (handle_put_command env g img cell w)).
Proof.
  unfold handle_put_command. cbn [grman set_command_response].
  destruct (put_target (grman w) g img); [|reflexivity].
  change (image_at (set_command_response s w)) with (image_at w).
  destruct (negb _); reflexivity.
Qed.

(** The dispatcher applies the quota with the id of the image the add
    returned, as the put left it. *)
Lemma add_action_quota_applied (env : Env) (g : Cmd.t) (cell : CellPixelSize)
    (w w1 : World) (i : nat) :
  reaches_add_handler g = true -> Cmd.action g <> "q"%char ->
  handle_add_command env g (Cmd.id g) (set_command_response "" w) = (w1, Some i) ->
  grman (fst (grman_handle_command env g cell w))
  = quota_applied (grman (place_added env cell i w1)) i.
Proof.
  intros Hadd Hquery Hadded. unfold reaches_add_handler in Hadd.
  apply andb_true_iff in Hadd as [Hadd _].
  apply andb_true_iff in Hadd as [Haction Hboth]. apply negb_true_iff in Hboth.
  assert (Hq : (Cmd.action g =? "q")%char = false) by (by apply Ascii.eqb_neq).
  unfold grman_handle_command. rewrite Hboth, Haction.
  unfold handle_add_action. rewrite Hq. cbn [andb]. rewrite Hadded.
  destruct (finish_command_response_world g (bool_decide (Some i <> None))
              (Cmd.id (GM.last_init_graphics_command (grman w1)))
              (Cmd.placement_id (GM.last_init_graphics_command (grman w1)))
              (Cmd.image_number (GM.last_init_graphics_command (grman w1))) w1)
    as [s Hworld].
  destruct (finish_command_response g _ _ _ _ w1) as [w2 ret]. cbn [fst] in Hworld.
  subst w2. cbn [fst].
  change (GM.last_init_graphics_command (grman (set_command_response s w1)))
    with (GM.last_init_graphics_command (grman w1)).
  change (image_at (set_command_response s w1) i) with (image_at w1 i).
  set (placed := if (_ =? "T")%char && _ then _ else _).
  assert (Hplaced : grman placed = grman (place_added env cell i w1)).
  { unfold placed, place_added. cbv zeta.
    destruct ((Cmd.action (GM.last_init_graphics_command (grman w1)) =? "T")%char
              && Img.data_loaded (image_at w1 i)); [|reflexivity].
    apply handle_put_command_any_response. }
  clearbody placed. unfold quota_applied. rewrite <- Hplaced.
  unfold image_at. by destruct (_ >? _).
Qed.

(** An add command returns a loaded image only. *)
Lemma handle_add_command_returns_added (env : Env) (g : Cmd.t) (iid : Z)
    (w w' : World) (i : nat) :
  handle_add_command env g iid w = (w', Some i) -> added env w' i.
Proof.
  unfold handle_add_command.
  set (started := if negb _ then _ else _).
  assert (Hstarted : flow_ok started (fun _ _ => True)).
  { unfold started. destruct (negb _).
    - eapply flow_ok_bind; [apply add_init_returns_null|]. intros; exact I.
    - unfold add_continue. destruct (img_by_internal_id _ _);
        [exact I | apply flow_ok_ABRT]. }
  clearbody started.
  match goal with
  | |- (match ?m with _ => _ end) = _ -> _ =>
      assert (Hflow : flow_ok m (fun w1 j => j = i -> added env w1 i));
      [|destruct m as [w1 ret|w1 j]; unfold flow_ok in Hflow;
        [intros [= <- ->]; discriminate | intros [= <- ->]; by apply Hflow]]
  end.
  eapply flow_ok_bind; [exact Hstarted|].
  intros w1 [g1 i1] _.
  eapply flow_ok_bind; [apply add_transmit_returns_null|].
  intros w2 u _. eapply flow_ok_weaken; [apply add_finish_added|].
  intros w3 j [-> Hadded] ->. exact Hadded.
Qed.

Lemma length_images_handle_put_command (env : Env) (g : Cmd.t) (img : option nat)
    (cell : CellPixelSize) (w : World) :
  length (GM.images (grman (fst (handle_put_command env g img cell w))))
  = length (GM.images (grman w)).
Proof.
  unfold handle_put_command. destruct (put_target _ g img); [|reflexivity].
  destruct (negb _); [reflexivity|]. cbn. by rewrite length_alter.
Qed.

Lemma place_added_slot (env : Env) (cell : CellPixelSize) (i : nat) (w : World) :
  (i < length (GM.images (grman w)))%nat ->
  GM.images (grman (place_added env cell i w)) !! i
  = Some (GM.image_at (grman (place_added env cell i w)) i).
Proof.
  intros Hi.
  assert (Hlen : (i < length (GM.images (grman (place_added env cell i w))))%nat).
  { unfold place_added. destruct (_ && _); [|exact Hi].
    by rewrite length_images_handle_put_command. }
  destruct (lookup_lt_is_Some_2 _ _ Hlen) as [img Himg].
  by rewrite (image_at_lookup _ _ _ Himg).
Qed.

(** The loop that evicts by age stops at the first image, from the tail,
    whose removal is not needed. *)
Lemma evict_oldest_spec (storage_limit : Z) (fuel : nat) :
  forall self : GM.t,
    storage_accounted self -> (length (GM.images self) <= fuel)%nat ->
    exists k : nat,
      (k <= length (GM.images self))%nat
      /\ GM.images (evict_oldest fuel storage_limit self) = take k (GM.images self)
      /\ ((0 < k)%nat ->
          GM.used_storage self - storage_sum (drop k (GM.images self))
          <= storage_limit)
      /\ ((k < length (GM.images self))%nat ->
          GM.used_storage self - storage_sum (drop (S k) (GM.images self))
          > storage_limit).
Proof.
  induction fuel as [|fuel IH]; intros self Hacc Hlen.
  - exists 0%nat. destruct (GM.images self) eqn:Himages; [|simpl in Hlen; lia].
    simpl. rewrite Himages. repeat split; [lia | lia | simpl; lia].
  - cbn [evict_oldest]. unfold image_count.
    destruct (Z.gtb_spec (GM.used_storage self) storage_limit) as [Hover|Hfits];
      cbn [andb].
    2:{ exists (length (GM.images self)).
        rewrite firstn_all, drop_all. simpl.
        repeat split; [lia | lia | lia]. }
    destruct (Z.gtb_spec (Z.of_nat (length (GM.images self))) 0) as [Hsome|Hnone].
    2:{ exists 0%nat. destruct (GM.images self); [|simpl in Hnone; lia].
        simpl. repeat split; [lia | lia | simpl; lia]. }
    set (n := (length (GM.images self) - 1)%nat).
    destruct (lookup_lt_is_Some_2 (GM.images self) n) as [last Hlast];
      [unfold n; lia|].
    destruct (remove_image_accounted self n) as [Hacc' _];
      [unfold n; lia | exact Hacc |].
    assert (Himages' : GM.images (remove_image self n) = take n (GM.images self)).
    { rewrite remove_image_images, delete_take_drop.
      rewrite (drop_ge _ (S n)) by (unfold n; lia). by rewrite app_nil_r. }
    assert (Hsplit : GM.images self = take n (GM.images self) ++ [last]).
    { rewrite <- (take_drop n (GM.images self)) at 1. f_equal.
      rewrite (drop_S _ _ _ Hlast), (drop_ge _ (S n)) by (unfold n; lia).
      reflexivity. }
    assert (Hused' : GM.used_storage (remove_image self n)
                     = GM.used_storage self - Img.used_storage last).
    { rewrite remove_image_used_storage, (image_at_lookup _ _ _ Hlast).
      destruct Hacc as [Hpos Hsum]. apply u64_small.
      rewrite Forall_lookup in Hpos. pose proof (Hpos _ _ Hlast) as Hlast_pos.
      assert (Hle : Img.used_storage last <= storage_sum (GM.images self)).
      { rewrite Hsplit, storage_sum_app. simpl.
        assert (0 <= storage_sum (take n (GM.images self))); [|lia].
        apply storage_sum_nonneg, Forall_take, Forall_lookup. exact Hpos. }
      lia. }
    destruct (IH (remove_image self n) Hacc') as (k & Hk & Htake & Hin & Hout).
    { rewrite Himages', length_take. unfold n. lia. }
    rewrite Himages', length_take in Hk, Hout.
    assert (Hkn : (k <= n)%nat) by lia.
    exists k. split; [unfold n in *; lia|]. split.
    { rewrite Htake, Himages', take_take. f_equal. lia. }
    assert (Hdrop : forall j : nat, (j <= n)%nat ->
              storage_sum (drop j (GM.images self))
              = storage_sum (drop j (take n (GM.images self)))
                + Img.used_storage last).
    { intros j Hj. rewrite Hsplit at 1.
      rewrite drop_app_le by (rewrite length_take; lia).
      rewrite storage_sum_app. simpl. lia. }
    split.
    + intros Hpos. specialize (Hin Hpos). rewrite Himages', Hused' in Hin.
      rewrite (Hdrop k Hkn). lia.
    + intros Hshort. destruct (decide (k = n)) as [->|Hne].
      * rewrite (drop_ge _ (S n)) by (unfold n; lia). simpl. lia.
      * assert (Hlt : (k < n `min` length (GM.images self))%nat) by lia.
        specialize (Hout Hlt). rewrite Hused' in Hout.
        rewrite (Hdrop (S k)) by lia. lia.
Qed.

Lemma apply_storage_quota_by_age (self : GM.t) (added_id : Z) (added : Img.t) :
  storage_accounted self -> NoDup (Img.internal_id <$> GM.images self) ->
  let trimmed := remove_images self trim_predicate added_id in
  let kept := GM.images (apply_storage_quota self STORAGE_LIMIT added_id) in
  (GM.used_storage trimmed < STORAGE_LIMIT -> kept = GM.images trimmed)
  /\ (STORAGE_LIMIT <= GM.used_storage trimmed ->
      survives_by_age added (qsort oldest_last (GM.images trimmed)) kept
        (GM.used_storage trimmed)).
Proof.
  intros Hacc Hnodup trimmed kept. unfold kept, apply_storage_quota.
  fold trimmed. split.
  { intros Hunder. destruct (Z.ltb_spec (GM.used_storage trimmed) STORAGE_LIMIT);
      [reflexivity | lia]. }
  intros Hover. destruct (Z.ltb_spec (GM.used_storage trimmed) STORAGE_LIMIT); [lia|].
  destruct (remove_images_accounted self trim_predicate added_id Hacc)
    as [[Hpos Hsum] _].
  fold trimmed in Hpos, Hsum.
  set (sorted := qsort oldest_last (GM.images trimmed)).
  assert (Hperm : sorted ≡ₚ GM.images trimmed) by apply qsort_Permutation.
  assert (Hsorted_pos : Forall (fun img => 0 <= Img.used_storage img) sorted)
    by (by rewrite Hperm).
  assert (Hsorted_nodup : NoDup sorted).
  { rewrite Hperm. unfold trimmed. rewrite remove_images_images.
    eapply NoDup_submseteq_of; [apply filter_submseteq|].
    eapply NoDup_fmap_1, Hnodup. }
  set (self' := GM.upd_images (qsort oldest_last) trimmed).
  assert (Hacc' : storage_accounted self').
  { split; [exact Hsorted_pos|].
    change (GM.images self') with sorted.
    change (GM.used_storage self') with (GM.used_storage trimmed).
    by rewrite (storage_sum_Permutation _ _ Hperm). }
  destruct (evict_oldest_spec STORAGE_LIMIT (length (GM.images self')) self' Hacc')
    as (k & Hk & Htake & Hin & Hout); [lia|].
  change (GM.images self') with sorted in Hk, Htake, Hin, Hout.
  change (GM.used_storage self') with (GM.used_storage trimmed) in Hin, Hout.
  exists k. split.
  { destruct (image_count _ =? 0); exact Htake. }
  intros p Hp.
  assert (Hkept : GM.images (if image_count (evict_oldest (length (GM.images self'))
                                               STORAGE_LIMIT self') =? 0
                             then GM.set_used_storage 0
                                    (evict_oldest (length (GM.images self'))
                                       STORAGE_LIMIT self')
                             else evict_oldest (length (GM.images self'))
                                    STORAGE_LIMIT self')
                  = take k sorted)
    by (destruct (image_count _ =? 0); exact Htake).
  rewrite Hkept.
  assert (Hmono : forall a b : nat, (a <= b)%nat ->
            storage_sum (drop b sorted) <= storage_sum (drop a sorted)).
  { intros a b Hab. rewrite <- (take_drop (b - a) (drop a sorted)).
    rewrite storage_sum_app, drop_drop. replace (a + (b - a))%nat with b by lia.
    assert (0 <= storage_sum (take (b - a) (drop a sorted))); [|lia].
    by apply storage_sum_nonneg, Forall_take, Forall_drop. }
  assert (Hmember : added ∈ take k sorted <-> (p < k)%nat).
  { split.
    - intros Hmem. apply list_elem_of_lookup_1 in Hmem as [j Hj].
      apply lookup_take_Some in Hj as [Hj Hjk].
      by rewrite <- (NoDup_lookup _ _ _ _ Hsorted_nodup Hj Hp).
    - intros Hpk. apply (list_elem_of_lookup_2 _ p). by rewrite lookup_take_lt. }
  rewrite Hmember. split.
  - intros Hpk. specialize (Hin ltac:(lia)).
    pose proof (Hmono (S p) k ltac:(lia)). lia.
  - intros Hfits. destruct (decide (p < k)%nat) as [|Hkp]; [assumption|].
    specialize (Hout ltac:(apply lookup_lt_Some in Hp; lia)).
    specialize (Hmono (S k) (S p) ltac:(lia)). lia.
Qed.

Lemma place_added_consistent (env : Env) (cell : CellPixelSize) (i : nat) (w : World) :
  consistent w -> consistent (place_added env cell i w).
Proof.
  intros Hw. unfold place_added. cbv zeta. destruct (_ && _); [|exact Hw].
  apply handle_put_command_consistent; [|exact Hw].
  destruct Hw as (_ & _ & _ & _ & _ & Hcrop & _). exact Hcrop.
Qed.

(** C1, as amended: after an add command the storage in use is within
    [STORAGE_LIMIT].  When a command that is no query adds an image, the
    dispatcher applies the quota, if the storage in use exceeds the limit,
    with the internal id of that image, as the put of [a=T] left it.  The
    trim phase never removes it.  The phase that evicts by age exempts no
    image: of the images sorted by [atime], the newest first, it keeps a
    prefix, and the image just added is kept exactly when the removal of the
    images sorted behind it brings the storage in use within the limit. *)
Theorem storage_quota_after_add (env : Env) (g : Cmd.t) (cell : CellPixelSize) (w : World) :
  reaches_add_handler g = true ->
  let w' := fst (grman_handle_command env g cell w) in
  GM.used_storage (grman w') <= STORAGE_LIMIT
  /\ forall (w1 : World) (i : nat),
       Cmd.action g <> "q"%char ->
       handle_add_command env g (Cmd.id g) (set_command_response "" w) = (w1, Some i) ->
       let placed := grman (place_added env cell i w1) in
       let added := GM.image_at placed i in
       let trimmed := remove_images placed trim_predicate (Img.internal_id added) in
       grman w' = quota_applied placed i
       /\ GM.images placed !! i = Some added
       /\ added ∈ GM.images trimmed
       /\ (reachable w -> env_in_range env -> cmd_in_range g ->
           0 <= internal_id_counter w < 2^64 - 1 ->
           STORAGE_LIMIT < GM.used_storage placed ->
           (GM.used_storage trimmed < STORAGE_LIMIT ->
            GM.images (grman w') = GM.images trimmed)
           /\ (STORAGE_LIMIT <= GM.used_storage trimmed ->
               survives_by_age added (qsort oldest_last (GM.images trimmed))
                 (GM.images (grman w')) (GM.used_storage trimmed))).
Proof.
  intros Hreaches w'. split.
  { unfold reaches_add_handler in Hreaches.
    apply andb_true_iff in Hreaches as [Hadd Hquery].
    apply andb_true_iff in Hadd as [Haction Hboth].
    apply negb_true_iff in Hquery, Hboth.
    unfold w', grman_handle_command. rewrite Hboth, Haction.
    apply handle_add_action_quota, Hquery. }
  intros w1 i Hquery Hadd placed added trimmed.
  pose proof (add_action_quota_applied env g cell w w1 i Hreaches Hquery Hadd)
    as Hgrman.
  fold w' in Hgrman. fold placed in Hgrman.
  destruct (handle_add_command_returns_added env g _ _ w1 i Hadd) as (Hi & _).
  pose proof (place_added_slot env cell i w1 Hi) as Hslot.
  fold placed in Hslot. fold added in Hslot.
  split; [exact Hgrman|]. split; [exact Hslot|]. split.
  { apply remove_images_skips; [|reflexivity].
    by apply (list_elem_of_lookup_2 _ i). }
  intros Hreachable Henv Hcmd Hcounter Hover.
  assert (Hinv : invariant (set_command_response "" w))
    by (apply (invariant_same w); [reflexivity.. | by apply reachable_invariant]).
  pose proof (handle_add_command_uploaded env g (Cmd.id g) _ Hinv Henv Hcmd Hcounter)
    as [Hw1 _].
  rewrite Hadd in Hw1. cbn [fst] in Hw1.
  pose proof (place_added_consistent env cell i w1 Hw1) as Hplaced.
  pose proof (consistent_accounted _ Hplaced) as Hacc.
  destruct Hplaced as (_ & Hnodup & _).
  fold placed in Hacc, Hnodup.
  rewrite Hgrman. unfold quota_applied.
  destruct (Z.gtb_spec (GM.used_storage placed) STORAGE_LIMIT); [|lia].
  apply (apply_storage_quota_by_age placed _ added Hacc Hnodup).
Qed.

Lemma reachable_after_first : reachable QuotaScenario.after_first.
Proof.
  unfold QuotaScenario.after_first. apply reachable_run.
  - apply reachable_start. reflexivity.
  - exact I.
  - unfold cmd_in_range, crop_in_range. cbn. lia.
  - cbn. lia.
Qed.

(** The second image of 256 000 000 bytes takes the storage beyond the
    limit; the first, placed earlier, goes and the second stays. *)
Lemma storage_quota_after_add_witness :
  let e := Scenario.env 200 256000000 in
  let g := QuotaScenario.second in
  let w := QuotaScenario.after_first in
  let w' := fst (grman_handle_command e g Scenario.cell w) in
  let placed := grman (place_added e Scenario.cell 1 QuotaScenario.added_second) in
  let added := GM.image_at placed 1 in
  let trimmed := remove_images placed trim_predicate (Img.internal_id added) in
  (reaches_add_handler g = true
   /\ Cmd.action g <> "q"%char
   /\ handle_add_command e g (Cmd.id g) (set_command_response "" w)
      = (QuotaScenario.added_second, Some 1%nat)
   /\ reachable w /\ env_in_range e /\ cmd_in_range g
   /\ 0 <= internal_id_counter w < 2^64 - 1
   /\ STORAGE_LIMIT < GM.used_storage placed
   /\ STORAGE_LIMIT <= GM.used_storage trimmed)
  /\ GM.used_storage (grman w') <= STORAGE_LIMIT
  /\ grman w' = quota_applied placed 1
  /\ GM.images placed !! 1%nat = Some added
  /\ added ∈ GM.images trimmed
  /\ survives_by_age added (qsort oldest_last (GM.images trimmed))
       (GM.images (grman w')) (GM.used_storage trimmed)
  /\ Img.client_id <$> GM.images placed = [1; 2]
  /\ Img.client_id <$> GM.images (grman w') = [2].
Proof.
  intros e g w w' placed added trimmed.
  assert (Hreaches : reaches_add_handler g = true) by reflexivity.
  assert (Hquery : Cmd.action g <> "q"%char) by discriminate.
  assert (Hadd : handle_add_command e g (Cmd.id g) (set_command_response "" w)
                 = (QuotaScenario.added_second, Some 1%nat))
    by (vm_compute; reflexivity).
  assert (Henv : env_in_range e) by exact I.
  assert (Hcmd : cmd_in_range g) by (unfold cmd_in_range, crop_in_range; cbn; lia).
  assert (Hcounter : 0 <= internal_id_counter w < 2^64 - 1)
    by (vm_compute; split; [discriminate | reflexivity]).
  assert (Hover : STORAGE_LIMIT < GM.used_storage placed) by (vm_compute; reflexivity).
  assert (Hstill : STORAGE_LIMIT <= GM.used_storage trimmed)
    by (vm_compute; discriminate).
  assert (Hplaced : Img.client_id <$> GM.images placed = [1; 2])
    by (vm_compute; reflexivity).
  assert (Hleft : Img.client_id <$> GM.images (grman w') = [2])
    by (vm_compute; reflexivity).
  destruct (storage_quota_after_add e g Scenario.cell w Hreaches) as [Hquota Hadded].
  destruct (Hadded QuotaScenario.added_second 1%nat Hquery Hadd)
    as (Hgrman & Hslot & Hspared & Hage).
  destruct (Hage reachable_after_first Henv Hcmd Hcounter Hover) as [_ Hsorted].
  exact (conj (conj Hreaches (conj Hquery (conj Hadd (conj reachable_after_first
                 (conj Henv (conj Hcmd (conj Hcounter (conj Hover Hstill))))))))
           (conj Hquota (conj Hgrman (conj Hslot (conj Hspared
              (conj (Hsorted Hstill) (conj Hplaced Hleft))))))).
Defined.
